(** * Papermind: the vector-space core (mathUtils and the self-organizing map)

    A shallow embedding of the numeric core of the Papermind application:
    the vector primitives, the kernel (similarity) matrix, k-means, DBSCAN,
    the three clustering quality indices and the U-Matrix of the
    self-organizing map.

    The functions are written once, over the operations JavaScript offers on
    its [number] type (class [JsNumber]).  Two instances are given:

    - [float_number]: IEEE-754 binary64 with round-to-nearest-even, i.e. the
      arithmetic the program really runs on; every concrete evaluation below
      is done on this instance;
    - [xreal_number]: the same special values (NaN, the two infinities) around
      exact real arithmetic, used where a statement is about the algorithm up
      to rounding.

    Array lengths, loop counters and cluster labels are JavaScript numbers
    that only ever hold integers; they are embedded as [nat] and [Z] and
    injected into the number type with [ofNat] where the source does
    arithmetic with them. *)

From Stdlib Require Import String.
From Stdlib Require Import ZArith List Bool Lia.
From Stdlib Require Import Floats Uint63.
From Stdlib Require Import Reals Lra.
Import ListNotations.

Set Implicit Arguments.
Set Warnings "-inexact-float".

(** ** Outcomes of a call *)

(** A call either returns a value or throws. *)
Inductive result (A : Type) : Type :=
| Ok (a : A)
| Throw (msg : string).

Arguments Ok {A} a.
Arguments Throw {A} msg.

Definition bind {A B : Type} (r : result A) (k : A -> result B) : result B :=
  match r with
  | Ok a => k a
  | Throw msg => Throw msg
  end.

Notation "x <- r ;; k" := (bind r (fun x => k))
  (at level 61, r at next level, right associativity).

(** A loop over [xs] whose body may throw: the first throw leaves the loop. *)
Fixpoint forEach {S X : Type} (xs : list X) (body : S -> X -> result S) (s : S)
  : result S :=
  match xs with
  | [] => Ok s
  | x :: xs' => s' <- body s x ;; forEach xs' body s'
  end.

(** ** The number type *)

(** The operations of JavaScript's [number] the source uses.  [nlt], [nle] and
    [neq] are [<], [<=] and [===]; [a > b] is [nlt b a] and [a >= b] is
    [nle b a]. *)
Class JsNumber (num : Type) : Type := {
  n0 : num;
  n1 : num;
  nInfinity : num;
  nNaN : num;
  nadd : num -> num -> num;
  nsub : num -> num -> num;
  nmul : num -> num -> num;
  ndiv : num -> num -> num;
  nneg : num -> num;
  nsqrt : num -> num;
  nmax : num -> num -> num;
  nlt : num -> num -> bool;
  nle : num -> num -> bool;
  neq : num -> num -> bool;
  ofNat : nat -> num
}.

(** *** Binary64, the numbers of the program *)

(** [Math.max]: NaN if an argument is NaN, and [+0] counts as larger than
    [-0]. *)
Definition float_max (a b : float) : float :=
  if (PrimFloat.is_nan a || PrimFloat.is_nan b)%bool then PrimFloat.nan
  else if PrimFloat.ltb a b then b
  else if PrimFloat.ltb b a then a
  else if PrimFloat.get_sign a then b else a.

(** An array length as a number (exact below 2^53; an array has fewer than
    2^32 elements). *)
Definition float_ofNat (n : nat) : float :=
  PrimFloat.of_uint63 (Uint63.of_Z (Z.of_nat n)).

Instance float_number : JsNumber float := {
  n0 := PrimFloat.zero;
  n1 := PrimFloat.one;
  nInfinity := PrimFloat.infinity;
  nNaN := PrimFloat.nan;
  nadd := PrimFloat.add;
  nsub := PrimFloat.sub;
  nmul := PrimFloat.mul;
  ndiv := PrimFloat.div;
  nneg := PrimFloat.opp;
  nsqrt := PrimFloat.sqrt;
  nmax := float_max;
  nlt := PrimFloat.ltb;
  nle := PrimFloat.leb;
  neq := PrimFloat.eqb;
  ofNat := float_ofNat
}.

(** *** Exact arithmetic with the IEEE special values *)

(** Real numbers completed with NaN and the two infinities.  Finite results
    are never rounded and never overflow; a division of a nonzero number by
    zero gives the infinity of the sign of the numerator (there is no
    negative zero). *)
Inductive xreal : Type :=
| XNaN
| XInf (negative : bool)
| XFin (r : R).

Definition Rltb (a b : R) : bool := if Rlt_dec a b then true else false.
Definition Rleb (a b : R) : bool := if Rle_dec a b then true else false.
Definition Reqb (a b : R) : bool := if Req_dec_T a b then true else false.

Definition xneg (x : xreal) : xreal :=
  match x with
  | XNaN => XNaN
  | XInf s => XInf (negb s)
  | XFin r => XFin (- r)
  end.

Definition xadd (x y : xreal) : xreal :=
  match x, y with
  | XNaN, _ | _, XNaN => XNaN
  | XInf s, XInf s' => if Bool.eqb s s' then XInf s else XNaN
  | XInf s, XFin _ => XInf s
  | XFin _, XInf s => XInf s
  | XFin a, XFin b => XFin (a + b)
  end.

Definition xsub (x y : xreal) : xreal := xadd x (xneg y).

Definition xmul (x y : xreal) : xreal :=
  match x, y with
  | XNaN, _ | _, XNaN => XNaN
  | XInf s, XInf s' => XInf (xorb s s')
  | XInf s, XFin b | XFin b, XInf s =>
      if Reqb b 0 then XNaN else XInf (xorb s (Rltb b 0))
  | XFin a, XFin b => XFin (a * b)
  end.

Definition xdiv (x y : xreal) : xreal :=
  match x, y with
  | XNaN, _ | _, XNaN => XNaN
  | XInf _, XInf _ => XNaN
  | XInf s, XFin b => XInf (xorb s (Rltb b 0))
  | XFin _, XInf _ => XFin 0
  | XFin a, XFin b =>
      if Reqb b 0 then (if Reqb a 0 then XNaN else XInf (Rltb a 0))
      else XFin (a / b)
  end.

Definition xsqrt (x : xreal) : xreal :=
  match x with
  | XNaN => XNaN
  | XInf s => if s then XNaN else XInf false
  | XFin r => if Rltb r 0 then XNaN else XFin (sqrt r)
  end.

Definition xlt (x y : xreal) : bool :=
  match x, y with
  | XNaN, _ | _, XNaN => false
  | XInf s, XInf s' => s && negb s'
  | XInf s, XFin _ => s
  | XFin _, XInf s => negb s
  | XFin a, XFin b => Rltb a b
  end.

Definition xeq (x y : xreal) : bool :=
  match x, y with
  | XNaN, _ | _, XNaN => false
  | XInf s, XInf s' => Bool.eqb s s'
  | XFin a, XFin b => Reqb a b
  | _, _ => false
  end.

Definition xle (x y : xreal) : bool := xlt x y || xeq x y.

Definition xmax (x y : xreal) : xreal :=
  match x, y with
  | XNaN, _ | _, XNaN => XNaN
  | _, _ => if xlt x y then y else x
  end.

Instance xreal_number : JsNumber xreal := {
  n0 := XFin 0;
  n1 := XFin 1;
  nInfinity := XInf false;
  nNaN := XNaN;
  nadd := xadd;
  nsub := xsub;
  nmul := xmul;
  ndiv := xdiv;
  nneg := xneg;
  nsqrt := xsqrt;
  nmax := xmax;
  nlt := xlt;
  nle := xle;
  neq := xeq;
  ofNat := fun n => XFin (INR n)
}.

(** ** Arrays *)

(** [a[i] = v] for an index inside the array (every write of the modelled
    functions is inside). *)
Fixpoint upd {A : Type} (i : nat) (v : A) (l : list A) : list A :=
  match l, i with
  | [], _ => []
  | _ :: t, O => v :: t
  | h :: t, S i' => h :: upd i' v t
  end.

(** [Array.from(new Set(xs))]: the distinct elements in the order of their
    first occurrence. *)
Fixpoint uniqueZ (seen xs : list Z) : list Z :=
  match xs with
  | [] => []
  | x :: xs' =>
      if existsb (Z.eqb x) seen then uniqueZ seen xs'
      else x :: uniqueZ (x :: seen) xs'
  end.

(** A JavaScript [Map], as the list of its entries in insertion order. *)
Fixpoint mapGet {K V : Type} (eqb : K -> K -> bool) (m : list (K * V)) (k : K)
  : option V :=
  match m with
  | [] => None
  | (k', v) :: m' => if eqb k' k then Some v else mapGet eqb m' k
  end.

(** [m.set(k, v)]: an existing key keeps its place. *)
Fixpoint mapSet {K V : Type} (eqb : K -> K -> bool) (m : list (K * V)) (k : K)
  (v : V) : list (K * V) :=
  match m with
  | [] => [(k, v)]
  | (k', v') :: m' =>
      if eqb k' k then (k, v) :: m' else (k', v') :: mapSet eqb m' k v
  end.

(** A label read from an array: [None] is [undefined] (a read past the end);
    [===] on such values. *)
Definition labelEqb (a b : option Z) : bool :=
  match a, b with
  | Some x, Some y => (x =? y)%Z
  | None, None => true
  | _, _ => false
  end.

(** [labels[i] === k]. *)
Definition labelIs (labels : list Z) (i : nat) (k : Z) : bool :=
  labelEqb (nth_error labels i) (Some k).

(** The indices [0 .. length xs - 1] paired with the elements. *)
Definition indexed {A : Type} (xs : list A) : list (nat * A) :=
  combine (seq 0 (length xs)) xs.

Section Core.

Context {num : Type} `{JsNumber num}.

(** ** Vector primitives (mathUtils) *)

(** The loop of [cosineSimilarityKernel]: the accumulators are
    [(dotProduct, normA, normB)].  Reading [vecB] past its end gives
    [undefined], which arithmetic turns into NaN. *)
Fixpoint cosineLoop (vecA vecB : list num) (acc : num * num * num)
  : num * num * num :=
  match vecA with
  | [] => acc
  | a :: vecA' =>
      let '(dotProduct, normA, normB) := acc in
      let b := hd nNaN vecB in
      cosineLoop vecA' (tl vecB)
        (nadd dotProduct (nmul a b), nadd normA (nmul a a), nadd normB (nmul b b))
  end.

Definition cosineSimilarityKernel (vecA vecB : list num) : result num :=
  if negb (length vecA =? length vecB)%nat
  then Throw "Vectors must have the same dimensionality"
  else
    let '(dotProduct, normA, normB) := cosineLoop vecA vecB (n0, n0, n0) in
    if neq normA n0 || neq normB n0 then Ok n0
    else Ok (ndiv dotProduct (nmul (nsqrt normA) (nsqrt normB))).

(** The sum of the squares of a vector, accumulated from the left as the loops
    of [cosineSimilarityKernel] and [normalizeVector] do. *)
Definition sumSquares (vec : list num) : num :=
  fold_left (fun norm val => nadd norm (nmul val val)) vec n0.

Definition normalizeVector (vec : list num) : list num :=
  let norm := nsqrt (sumSquares vec) in
  if neq norm n0 then vec else map (fun val => ndiv val norm) vec.

(** The loop of [euclideanDistance]: it runs over the indices of [vecA]. *)
Fixpoint sumSquaredDiffs (vecA vecB : list num) (sum : num) : num :=
  match vecA with
  | [] => sum
  | a :: vecA' =>
      let diff := nsub a (hd nNaN vecB) in
      sumSquaredDiffs vecA' (tl vecB) (nadd sum (nmul diff diff))
  end.

Definition euclideanDistance (vecA vecB : list num) : num :=
  nsqrt (sumSquaredDiffs vecA vecB n0).

(** [euclideanDistance] on arguments that may be [undefined] ([None]): reading
    [vecA.length] of [undefined] throws, and so does the first read of
    [vecB[i]] when [vecB] is [undefined]. *)
Definition euclideanDistanceU (vecA vecB : option (list num)) : result num :=
  match vecA with
  | None => Throw "TypeError: cannot read properties of undefined"
  | Some [] => Ok (nsqrt n0)
  | Some a =>
      match vecB with
      | None => Throw "TypeError: cannot read properties of undefined"
      | Some b => Ok (euclideanDistance a b)
      end
  end.

Fixpoint addVectors (a b : list num) : list num :=
  match a with
  | [] => []
  | val :: a' => nadd val (hd nNaN b) :: addVectors a' (tl b)
  end.

Definition divideVector (a : list num) (scalar : num) : list num :=
  map (fun val => ndiv val scalar) a.

(** ** The kernel matrix *)

Definition cell (matrix : list (list num)) (i j : nat) : num :=
  nth j (nth i matrix []) nNaN.

(** [matrix[i][j] = v]. *)
Definition setCell (matrix : list (list num)) (i j : nat) (v : num)
  : list (list num) :=
  upd i (upd j v (nth i matrix [])) matrix.

(** The body of the inner loop of [computeKernelMatrix], at [(i, j)]. *)
Definition kernelCell (vectors : list (list num)) (i : nat)
  (matrix : list (list num)) (j : nat) : result (list (list num)) :=
  if (i =? j)%nat then Ok (setCell matrix i j n1)
  else
    sim <- cosineSimilarityKernel (nth i vectors []) (nth j vectors []) ;;
    Ok (setCell (setCell matrix i j sim) j i sim).

(** The inner loop: [j] runs from [i] to [n - 1]. *)
Definition kernelRow (vectors : list (list num)) (matrix : list (list num))
  (i : nat) : result (list (list num)) :=
  let n := length vectors in
  forEach (seq i (n - i)) (kernelCell vectors i) matrix.

Definition computeKernelMatrix (vectors : list (list num))
  : result (list (list num)) :=
  let n := length vectors in
  forEach (seq 0 n) (kernelRow vectors) (repeat (repeat n0 n) n).

(** ** K-means *)

(** The source of randomness: [random t] is the value of the [t]-th
    evaluation of [Math.floor(Math.random() * vectors.length)] during the
    call.  [Math.random] returns a number in [0, 1), so a genuine source only
    yields indices below [vectors.length]. *)
Definition RandomSource : Type := nat -> nat.

(** [[...vectors[idx]]]: spreading [undefined] throws. *)
Definition copyVector (vectors : list (list num)) (idx : nat)
  : result (list num) :=
  match nth_error vectors idx with
  | Some v => Ok v
  | None => Throw "TypeError: undefined is not iterable"
  end.

(** Step 1 of [kMeans], the loop [while (centroids.length < k)].  The state is
    the centroids pushed so far, the set [usedIndices] and the number [t] of
    random draws made.  The loop has no bound in the source: [None] says that
    it is still running after [fuel] draws. *)
Fixpoint initCentroids (fuel : nat) (random : RandomSource)
  (vectors : list (list num)) (k : Z)
  (centroids : list (list num)) (usedIndices : list nat) (t : nat)
  : option (result (list (list num) * nat)) :=
  if (Z.of_nat (length centroids) <? k)%Z then
    match fuel with
    | O => None
    | S fuel' =>
        let idx := random t in
        if existsb (Nat.eqb idx) usedIndices
        then initCentroids fuel' random vectors k centroids usedIndices (S t)
        else
          match copyVector vectors idx with
          | Throw msg => Some (Throw msg)
          | Ok v =>
              initCentroids fuel' random vectors k
                (centroids ++ [v]) (idx :: usedIndices) (S t)
          end
    end
  else Some (Ok (centroids, t)).

(** The loop over the centroids that finds the closest one:
    the state is [(minDist, closestCluster)]. *)
Definition closestStep (v : list num) (centroids : list (list num))
  (st : num * nat) (c : nat) : result (num * nat) :=
  let '(minDist, closestCluster) := st in
  dist <- euclideanDistanceU (Some v) (nth_error centroids c) ;;
  if nlt dist minDist then Ok (dist, c) else Ok (minDist, closestCluster).

Definition closestCluster (v : list num) (centroids : list (list num)) (k : Z)
  : result nat :=
  st <- forEach (seq 0 (Z.to_nat k)) (closestStep v centroids) (nInfinity, O) ;;
  Ok (snd st).

(** The state of one pass over the points. *)
Record PassState : Type := mkPass {
  assignments : list Z;
  changed : bool;
  newClusterSums : list (list num);
  newClusterCounts : list nat
}.

(** The body of the loop over the points, at point [i] with vector [v].
    [addVectors(newClusterSums[closestCluster], ...)] throws when the cluster
    sum is [undefined]. *)
Definition assignPoint (centroids : list (list num)) (k : Z)
  (st : PassState) (iv : nat * list num) : result PassState :=
  let '(i, v) := iv in
  closest <- closestCluster v centroids k ;;
  let differs := negb (nth i (assignments st) 0 =? Z.of_nat closest)%Z in
  let assignments' :=
    if differs then upd i (Z.of_nat closest) (assignments st)
    else assignments st in
  match nth_error (newClusterSums st) closest with
  | None => Throw "TypeError: cannot read properties of undefined"
  | Some clusterSum =>
      Ok (mkPass assignments'
            (changed st || differs)
            (upd closest (addVectors clusterSum v) (newClusterSums st))
            (upd closest (S (nth closest (newClusterCounts st) O))
               (newClusterCounts st)))
  end.

(** The loop that recomputes the centroids: the state is the centroids and the
    number of random draws made. *)
Definition updateCentroid (random : RandomSource) (vectors : list (list num))
  (sums : list (list num)) (counts : list nat)
  (st : list (list num) * nat) (c : nat) : result (list (list num) * nat) :=
  let '(centroids, t) := st in
  if (0 <? nth c counts O)%nat then
    Ok (upd c (divideVector (nth c sums []) (ofNat (nth c counts O))) centroids, t)
  else
    v <- copyVector vectors (random t) ;;
    Ok (upd c v centroids, S t).

(** The loop [while (changed && iterations < maxIterations)];
    [remaining] is [maxIterations - iterations].  [Array(k)] throws for a
    negative [k]. *)
Fixpoint kMeansLoop (remaining : nat) (random : RandomSource)
  (vectors : list (list num)) (k : Z) (dimension : nat)
  (centroids : list (list num)) (t : nat)
  (assignments0 : list Z) (changed0 : bool) : result (list Z) :=
  match remaining with
  | O => Ok assignments0
  | S remaining' =>
      if negb changed0 then Ok assignments0
      else if (k <? 0)%Z then Throw "RangeError: Invalid array length"
      else
        let kn := Z.to_nat k in
        pass <- forEach (indexed vectors) (assignPoint centroids k)
                  (mkPass assignments0 false
                     (repeat (repeat n0 dimension) kn) (repeat O kn)) ;;
        ct <- forEach (seq 0 kn)
                (updateCentroid random vectors
                   (newClusterSums pass) (newClusterCounts pass))
                (centroids, t) ;;
        kMeansLoop remaining' random vectors k dimension (fst ct) (snd ct)
          (assignments pass) (changed pass)
  end.

(** [kMeans(vectors, k, maxIterations)].  [None]: the initialisation is still
    drawing after [fuel] draws. *)
Definition kMeans (fuel : nat) (random : RandomSource)
  (vectors : list (list num)) (k : Z) (maxIterations : Z)
  : option (result (list Z)) :=
  let n := length vectors in
  if (n =? 0)%nat then Some (Ok [])
  else if (Z.of_nat n <=? k)%Z then Some (Ok (map Z.of_nat (seq 0 n)))
  else
    let dimension := length (hd [] vectors) in
    match initCentroids fuel random vectors k [] [] O with
    | None => None
    | Some (Throw msg) => Some (Throw msg)
    | Some (Ok (centroids, t)) =>
        Some (kMeansLoop (Z.to_nat maxIterations) random vectors k dimension
                centroids t (repeat (-1)%Z n) true)
    end.

(** ** DBSCAN *)

(** [getNeighbors(idx)]: the other points within [epsilon] of point [idx]. *)
Definition getNeighbors (vectors : list (list num)) (epsilon : num) (idx : nat)
  : list nat :=
  filter
    (fun i =>
       negb (i =? idx)%nat
       && nle (euclideanDistance (nth idx vectors []) (nth i vectors [])) epsilon)
    (seq 0 (length vectors)).

(** [for (const nn of neighborNeighbors) if (!seedSet.includes(nn)) seedSet.push(nn)]. *)
Definition pushNew (seedSet neighborNeighbors : list nat) : list nat :=
  fold_left
    (fun seeds nn => if existsb (Nat.eqb nn) seeds then seeds else seeds ++ [nn])
    neighborNeighbors seedSet.

(** The loop [for (let j = 0; j < seedSet.length; j++)] that grows a cluster.
    Internal labels: [0] undefined, [-1] noise, positive a cluster id.  The
    seed set grows while the loop runs; [None] says that the loop is still
    running after [fuel] iterations. *)
Fixpoint expandCluster (fuel : nat) (vectors : list (list num))
  (epsilon minPts : num) (clusterId : Z)
  (j : nat) (seedSet : list nat) (labels : list Z) : option (list Z) :=
  match nth_error seedSet j with
  | None => Some labels
  | Some neighborIdx =>
      match fuel with
      | O => None
      | S fuel' =>
          let labels1 :=
            if (nth neighborIdx labels 0 =? -1)%Z
            then upd neighborIdx clusterId labels else labels in
          if negb (nth neighborIdx labels1 0 =? 0)%Z
          then expandCluster fuel' vectors epsilon minPts clusterId
                 (S j) seedSet labels1
          else
            let labels2 := upd neighborIdx clusterId labels1 in
            let neighborNeighbors := getNeighbors vectors epsilon neighborIdx in
            let seedSet' :=
              if nle minPts (ofNat (length neighborNeighbors + 1))
              then pushNew seedSet neighborNeighbors else seedSet in
            expandCluster fuel' vectors epsilon minPts clusterId
              (S j) seedSet' labels2
      end
  end.

(** The body of the outer loop of [dbscan], at point [i]; the state is the
    labels and [clusterId].  A seed set holds distinct indices of points, so
    [length vectors] iterations are enough for the inner loop (theorem
    [dbscanRun_total]). *)
Definition dbscanPoint (vectors : list (list num)) (epsilon minPts : num)
  (st : option (list Z * Z)) (i : nat) : option (list Z * Z) :=
  match st with
  | None => None
  | Some (labels, clusterId) =>
      if negb (nth i labels 0 =? 0)%Z then Some (labels, clusterId)
      else
        let neighbors := getNeighbors vectors epsilon i in
        if nlt (ofNat (length neighbors + 1)) minPts
        then Some (upd i (-1)%Z labels, clusterId)
        else
          let clusterId' := (clusterId + 1)%Z in
          match expandCluster (length vectors) vectors epsilon minPts clusterId'
                  O neighbors (upd i clusterId' labels) with
          | None => None
          | Some labels' => Some (labels', clusterId')
          end
  end.

(** The outer loop: the internal labels and the final [clusterId]. *)
Definition dbscanRun (vectors : list (list num)) (epsilon minPts : num)
  : option (list Z * Z) :=
  let n := length vectors in
  fold_left (dbscanPoint vectors epsilon minPts) (seq 0 n)
    (Some (repeat 0%Z n, 0%Z)).

Definition normalizeLabel (l : Z) : Z := if (l =? -1)%Z then (-1)%Z else (l - 1)%Z.

Definition dbscan (vectors : list (list num)) (epsilon minPts : num)
  : option (list Z) :=
  match dbscanRun vectors epsilon minPts with
  | None => None
  | Some (labels, _) => Some (map normalizeLabel labels)
  end.

(** ** Clustering metrics *)

Record ClusteringMetrics : Type := mkMetrics {
  silhouetteScore : num;
  daviesBouldinIndex : num;
  calinskiHarabaszIndex : num
}.

(** The indices [i] of the vectors with [labels[i] === k]. *)
Definition clusterIndices (vectors : list (list num)) (labels : list Z) (k : Z)
  : list nat :=
  filter (fun i => labelIs labels i k) (seq 0 (length vectors)).

Definition getClusterCentroids (vectors : list (list num)) (labels : list Z)
  (uniqueClusters : list Z) : list (Z * list num) :=
  fold_left
    (fun centroids k =>
       let clusterVectors :=
         map snd (filter (fun iv => labelIs labels (fst iv) k) (indexed vectors)) in
       if (length clusterVectors =? 0)%nat then centroids
       else
         let sum :=
           fold_left addVectors clusterVectors
             (repeat n0 (length (hd [] vectors))) in
         mapSet Z.eqb centroids k
           (divideVector sum (ofNat (length clusterVectors))))
    uniqueClusters [].

(** The accumulators of the inner loop of [calculateSilhouetteScore]:
    [a], [sameClusterCount] and the map [otherClusterDists] from a label to
    its [(sum, count)]. *)
Definition SilhouetteAcc : Type :=
  (num * nat * list (option Z * (num * nat)))%type.

Definition silhouetteInner (labels : list Z) (i : nat) (vi : list num)
  (currentCluster : option Z) (acc : SilhouetteAcc) (jv : nat * list num)
  : SilhouetteAcc :=
  let '(a, sameClusterCount, otherClusterDists) := acc in
  let '(j, vj) := jv in
  if (i =? j)%nat then acc
  else
    let dist := euclideanDistance vi vj in
    let otherLabel := nth_error labels j in
    if labelEqb otherLabel (Some (-1)%Z) then acc
    else if labelEqb otherLabel currentCluster
    then (nadd a dist, S sameClusterCount, otherClusterDists)
    else
      let '(sum, count) :=
        match mapGet labelEqb otherClusterDists otherLabel with
        | Some entry => entry
        | None => (n0, O)
        end in
      (a, sameClusterCount,
       mapSet labelEqb otherClusterDists otherLabel (nadd sum dist, S count)).

(** The loop over the entries of [otherClusterDists] that finds [b(i)]. *)
Definition minMeanDist (otherClusterDists : list (option Z * (num * nat)))
  : num :=
  fold_left
    (fun minMeanDistOther entry =>
       let meanDist := ndiv (fst (snd entry)) (ofNat (snd (snd entry))) in
       if nlt meanDist minMeanDistOther then meanDist else minMeanDistOther)
    otherClusterDists nInfinity.

(** The inner loop, over all the points [j], for point [i]. *)
Definition silhouetteSums (vectors : list (list num)) (labels : list Z)
  (i : nat) (vi : list num) (currentCluster : option Z) : SilhouetteAcc :=
  fold_left (silhouetteInner labels i vi currentCluster)
    (indexed vectors) (n0, O, []).

(** The body of the outer loop; the state is [(totalScore, validPoints)]. *)
Definition silhouettePoint (vectors : list (list num)) (labels : list Z)
  (st : num * nat) (iv : nat * list num) : num * nat :=
  let '(totalScore, validPoints) := st in
  let '(i, vi) := iv in
  let currentCluster := nth_error labels i in
  if labelEqb currentCluster (Some (-1)%Z) then st
  else
    let '(a, sameClusterCount, otherClusterDists) :=
      silhouetteSums vectors labels i vi currentCluster in
    if (sameClusterCount =? 0)%nat then st
    else
      let a := ndiv a (ofNat sameClusterCount) in
      let minMeanDistOther := minMeanDist otherClusterDists in
      let b := if neq minMeanDistOther nInfinity then n0 else minMeanDistOther in
      let maxAB := nmax a b in
      let s := if neq maxAB n0 then n0 else ndiv (nsub b a) maxAB in
      (nadd totalScore s, S validPoints).

Definition calculateSilhouetteScore (vectors : list (list num))
  (labels : list Z) : num :=
  if (length vectors <? 2)%nat then n0
  else
    let '(totalScore, validPoints) :=
      fold_left (silhouettePoint vectors labels) (indexed vectors) (n0, O) in
    if (0 <? validPoints)%nat then ndiv totalScore (ofNat validPoints) else n0.

(** [centroids.get(k)!] where it is only used for the members of cluster [k]:
    a cluster without centroid has no member, so the default is never read. *)
Definition centroidOf (centroids : list (Z * list num)) (k : Z) : list num :=
  match mapGet Z.eqb centroids k with
  | Some c => c
  | None => []
  end.

(** The sum over the members of cluster [k] of [f] of the distance to the
    centroid, accumulated from [start]. *)
Definition sumOverCluster (vectors : list (list num)) (labels : list Z)
  (centroids : list (Z * list num)) (f : num -> num) (start : num) (k : Z)
  : num :=
  fold_left
    (fun s idx =>
       nadd s (f (euclideanDistance (nth idx vectors []) (centroidOf centroids k))))
    (clusterIndices vectors labels k) start.

(** The inner loop of step 2 of [calculateDaviesBouldinIndex]: the state is
    [maxR].  Every cluster has a scatter, so the default is never read. *)
Definition daviesBouldinPair (centroids : list (Z * list num))
  (scatters : list (Z * num)) (i : Z) (maxR : num) (j : Z) : result num :=
  if (i =? j)%Z then Ok maxR
  else
    let scatterI := match mapGet Z.eqb scatters i with Some x => x | None => nNaN end in
    let scatterJ := match mapGet Z.eqb scatters j with Some x => x | None => nNaN end in
    distCentroids <-
      euclideanDistanceU (mapGet Z.eqb centroids i) (mapGet Z.eqb centroids j) ;;
    if neq distCentroids n0 then Ok maxR
    else
      let R_ij := ndiv (nadd scatterI scatterJ) distCentroids in
      Ok (if nlt maxR R_ij then R_ij else maxR).

Definition calculateDaviesBouldinIndex (vectors : list (list num))
  (labels : list Z) (uniqueClusters : list Z) (centroids : list (Z * list num))
  : result num :=
  if (length uniqueClusters <? 2)%nat then Ok n0
  else
    let scatters :=
      fold_left
        (fun scatters k =>
           let sumDist := sumOverCluster vectors labels centroids (fun d => d) n0 k in
           mapSet Z.eqb scatters k
             (ndiv sumDist (ofNat (length (clusterIndices vectors labels k)))))
        uniqueClusters [] in
    sumMaxR <-
      forEach uniqueClusters
        (fun sumMaxR i =>
           maxR <- forEach uniqueClusters (daviesBouldinPair centroids scatters i)
                     (nneg nInfinity) ;;
           Ok (if neq maxR (nneg nInfinity) then sumMaxR else nadd sumMaxR maxR))
        n0 ;;
    Ok (ndiv sumMaxR (ofNat (length uniqueClusters))).

Definition calculateCalinskiHarabaszIndex (vectors : list (list num))
  (labels : list Z) (uniqueClusters : list Z) (centroids : list (Z * list num))
  : result num :=
  let N :=
    length (filter (fun i => negb (labelIs labels i (-1)%Z))
              (seq 0 (length vectors))) in
  let K := length uniqueClusters in
  if (K <? 2)%nat || (N <=? K)%nat then Ok n0
  else
    let globalCentroid :=
      divideVector
        (fold_left addVectors vectors (repeat n0 (length (hd [] vectors))))
        (ofNat (length vectors)) in
    SS_B <-
      forEach uniqueClusters
        (fun SS_B k =>
           let nk := length (clusterIndices vectors labels k) in
           dist <- euclideanDistanceU (mapGet Z.eqb centroids k) (Some globalCentroid) ;;
           Ok (nadd SS_B (nmul (ofNat nk) (nmul dist dist))))
        n0 ;;
    let SS_W :=
      fold_left
        (sumOverCluster vectors labels centroids (fun dist => nmul dist dist))
        uniqueClusters n0 in
    if neq SS_W n0 then Ok n0
    else
      Ok (ndiv (ndiv SS_B (nsub (ofNat K) n1))
            (ndiv SS_W (nsub (ofNat N) (ofNat K)))).

Definition calculateClusteringMetrics (vectors : list (list num))
  (labels : list Z) : result ClusteringMetrics :=
  let uniqueClusters :=
    filter (fun l => negb (l =? -1)%Z) (uniqueZ [] labels) in
  let centroids := getClusterCentroids vectors labels uniqueClusters in
  let silhouette := calculateSilhouetteScore vectors labels in
  daviesBouldin <-
    calculateDaviesBouldinIndex vectors labels uniqueClusters centroids ;;
  calinskiHarabasz <-
    calculateCalinskiHarabaszIndex vectors labels uniqueClusters centroids ;;
  Ok (mkMetrics silhouette daviesBouldin calinskiHarabasz).

(** ** The self-organizing map *)

(** The fields of a [SOM] object; [weights] is indexed [x][y][dim]. *)
Record SOM : Type := mkSOM {
  width : nat;
  height : nat;
  inputDim : nat;
  weights : list (list (list num))
}.

(** [this.weights[x][y]]: reading [[y]] of an [undefined] column throws; a
    missing cell is [undefined]. *)
Definition weightAt (som : SOM) (x y : nat) : result (option (list num)) :=
  match nth_error (weights som) x with
  | None => Throw "TypeError: cannot read properties of undefined"
  | Some column => Ok (nth_error column y)
  end.

(** The offsets [(dx, dy)] of the four neighbors, in the order of the source. *)
Definition neighborOffsets : list (Z * Z) :=
  [(0, -1); (0, 1); (-1, 0); (1, 0)]%Z.

(** The loop over the neighbors of cell [(x, y)]: the state is
    [(sumDist, count)]. *)
Definition neighborStep (som : SOM) (x y : nat) (st : num * nat) (d : Z * Z)
  : result (num * nat) :=
  let '(sumDist, count) := st in
  let nx := (Z.of_nat x + fst d)%Z in
  let ny := (Z.of_nat y + snd d)%Z in
  if (0 <=? nx)%Z && (nx <? Z.of_nat (width som))%Z
     && (0 <=? ny)%Z && (ny <? Z.of_nat (height som))%Z
  then
    a <- weightAt som x y ;;
    b <- weightAt som (Z.to_nat nx) (Z.to_nat ny) ;;
    dist <- euclideanDistanceU a b ;;
    Ok (nadd sumDist dist, S count)
  else Ok st.

(** The value stored in [uMatrix[x][y]] by the first pair of loops: the mean
    distance to the neighbors inside the grid. *)
Definition rawCell (som : SOM) (x y : nat) : result num :=
  st <- forEach neighborOffsets (neighborStep som x y) (n0, O) ;;
  Ok (if (0 <? snd st)%nat then ndiv (fst st) (ofNat (snd st)) else n0).

(** The first pair of loops of [getUMatrix]. *)
Definition rawUMatrix (som : SOM) : result (list (list num)) :=
  forEach (seq 0 (width som))
    (fun uMatrix x =>
       forEach (seq 0 (height som))
         (fun uMatrix y => v <- rawCell som x y ;; Ok (setCell uMatrix x y v))
         uMatrix)
    (repeat (repeat n0 (height som)) (width som)).

(** The grid positions in the order the loops visit them. *)
Definition gridCells (som : SOM) : list (nat * nat) :=
  flat_map (fun x => map (fun y => (x, y)) (seq 0 (height som)))
    (seq 0 (width som)).

(** The second pair of loops: the state is [(max, min)]. *)
Definition maxMin (som : SOM) (uMatrix : list (list num)) : num * num :=
  fold_left
    (fun mm xy =>
       let u := cell uMatrix (fst xy) (snd xy) in
       let max := if nlt (fst mm) u then u else fst mm in
       let min := if nlt u (snd mm) then u else snd mm in
       (max, min))
    (gridCells som) (n0, nInfinity).

(** [d || 1]: a number is falsy when it is zero or NaN. *)
Definition orOne (d : num) : num :=
  if neq d n0 || negb (neq d d) then n1 else d.

(** The third pair of loops. *)
Definition normalizeUMatrix (som : SOM) (uMatrix : list (list num))
  (max min : num) : list (list num) :=
  fold_left
    (fun uMatrix xy =>
       setCell uMatrix (fst xy) (snd xy)
         (ndiv (nsub (cell uMatrix (fst xy) (snd xy)) min)
            (orOne (nsub max min))))
    (gridCells som) uMatrix.

Definition getUMatrix (som : SOM) : result (list (list num)) :=
  uMatrix <- rawUMatrix som ;;
  let '(max, min) := maxMin som uMatrix in
  Ok (normalizeUMatrix som uMatrix max min).

End Core.


(** ** Further functions of the core *)

(** [Math.min] of two numbers: NaN if an argument is NaN, and [-0] counts as
    smaller than [+0]. *)
Definition float_min (a b : float) : float :=
  if (PrimFloat.is_nan a || PrimFloat.is_nan b)%bool then PrimFloat.nan
  else if PrimFloat.ltb a b then a
  else if PrimFloat.ltb b a then b
  else if PrimFloat.get_sign a then a else b.

(** The functions of [Math] that the class [JsNumber] does not have. *)
Class JsMath (num : Type) : Type := {
  nmin : num -> num -> num
}.

Instance float_math : JsMath float := { nmin := float_min }.

(** The object [calculateStats] returns. *)
Record Stats (num : Type) : Type := mkStats {
  mean : num;
  variance : num;
  min : num;
  max : num
}.

Arguments mkStats {num} mean variance min max.
Arguments mean {num} s.
Arguments variance {num} s.
Arguments min {num} s.
Arguments max {num} s.

Section CoreMore.

Context {num : Type} `{JsNumber num}.

(** The literals [2] and [0.5]; both are exact in binary64. *)
Definition nTwo : num := nadd n1 n1.
Definition nHalf : num := ndiv n1 nTwo.

(** *** calculateStats (mathUtils) *)

Section Statistics.

Context `{JsMath num}.

(** [Math.pow]; the language leaves its precision to the implementation. *)
Variable mathPow : num -> num -> num.

(** [Math.min(...values)] and [Math.max(...values)]: the fold starts from
    [Infinity], respectively [-Infinity]. *)
Definition mathMin (values : list num) : num := fold_left nmin values nInfinity.
Definition mathMax (values : list num) : num :=
  fold_left nmax values (nneg nInfinity).

Definition calculateStats (values : list num) : Stats num :=
  if (length values =? 0)%nat then mkStats n0 n0 n0 n0
  else
    let sum := fold_left (fun a b => nadd a b) values n0 in
    let mean := ndiv sum (ofNat (length values)) in
    let variance :=
      ndiv (fold_left (fun a b => nadd a (mathPow (nsub b mean) nTwo)) values n0)
        (ofNat (length values)) in
    mkStats mean variance (mathMin values) (mathMax values).

End Statistics.

(** *** The self-organizing map: construction and best matching unit *)

(** The values [Math.random()] returns, in the order of the calls. *)
Definition RandomNumbers : Type := nat -> num.

(** [Array(inputDim).fill(0).map(() => Math.random() - 0.5)], the first
    call to [Math.random] being the [t]-th. *)
Definition randomPrototype (random : RandomNumbers) (inputDim t : nat)
  : list num :=
  map (fun d => nsub (random (t + d)) nHalf) (seq 0 inputDim).

(** [new SOM(width, height, inputDim)]. *)
Definition newSOM (random : RandomNumbers) (width height inputDim : nat)
  : SOM (num := num) :=
  mkSOM width height inputDim
    (map (fun x =>
            map (fun y =>
                   randomPrototype random inputDim ((x * height + y) * inputDim))
              (seq 0 height))
       (seq 0 width)).

(** The body of the loops of [findBMU] at cell [xy]: the state is
    [(minDist, bmu)].  The input may be [undefined] ([None]). *)
Definition bmuStep (som : SOM (num := num)) (input : option (list num))
  (st : num * (nat * nat)) (xy : nat * nat) : result (num * (nat * nat)) :=
  w <- weightAt som (fst xy) (snd xy) ;;
  dist <- euclideanDistanceU input w ;;
  Ok (if nlt dist (fst st) then (dist, xy) else st).

Definition findBMU (som : SOM (num := num)) (input : option (list num))
  : result (nat * nat) :=
  st <- forEach (gridCells som) (bmuStep som input) (nInfinity, (O, O)) ;;
  Ok (snd st).

(** *** Training *)

Section Training.

(** [Math.exp], [Math.log] and the operator [**]: the language leaves their
    precision to the implementation. *)
Variables mathExp mathLog : num -> num.
Variable mathPow : num -> num -> num.

(** [w[d] += influence * (input[d] - w[d])].  A component past the end of
    [w] reads as [undefined]; the loop visits the indices in order, so a
    write past the end is a write at the end. *)
Definition moveComponent (influence : num) (input : list num) (w : list num)
  (d : nat) : list num :=
  let old := nth d w nNaN in
  let v := nadd old (nmul influence (nsub (nth d input nNaN) old)) in
  if (d <? length w)%nat then upd d v w else w ++ [v].

Definition movePrototype (inputDim : nat) (influence : num) (input : list num)
  (w : list num) : list num :=
  fold_left (moveComponent influence input) (seq 0 inputDim) w.

(** The body of the loops over the grid at cell [xy]: the state is
    [this.weights]. *)
Definition trainCell (inputDim : nat) (input : option (list num))
  (bmu : nat * nat) (radius learningRate : num)
  (weights : list (list (list num))) (xy : nat * nat)
  : result (list (list (list num))) :=
  let '(x, y) := xy in
  let distToBMU :=
    nsqrt (nadd (mathPow (nsub (ofNat x) (ofNat (fst bmu))) nTwo)
             (mathPow (nsub (ofNat y) (ofNat (snd bmu))) nTwo)) in
  if nlt distToBMU radius then
    let theta :=
      mathExp (ndiv (nneg (mathPow distToBMU nTwo))
                 (nmul nTwo (mathPow radius nTwo))) in
    let influence := nmul theta learningRate in
    if (inputDim =? 0)%nat then Ok weights
    else
      match nth_error weights x with
      | None => Throw "TypeError: cannot read properties of undefined"
      | Some column =>
          match nth_error column y, input with
          | Some w, Some inputVector =>
              Ok (upd x
                    (upd y (movePrototype inputDim influence inputVector w) column)
                    weights)
          | _, _ => Throw "TypeError: cannot read properties of undefined"
          end
      end
  else Ok weights.

(** One iteration of [train]: the state is
    [(this.weights, radius, learningRate)], and [random i] is the value of
    [Math.floor(Math.random() * data.length)] in iteration [i]. *)
Definition trainStep (som : SOM (num := num)) (data : list (list num))
  (random : RandomSource) (iterations : nat)
  (startLearningRate timeConstant : num)
  (st : list (list (list num)) * num * num) (i : nat)
  : result (list (list (list num)) * num * num) :=
  let '(weights, radius, learningRate) := st in
  let current := mkSOM (width som) (height som) (inputDim som) weights in
  let input := nth_error data (random i) in
  bmu <- findBMU current input ;;
  weights' <-
    forEach (gridCells som)
      (trainCell (inputDim som) input bmu radius learningRate) weights ;;
  Ok (weights',
      nmul radius (mathExp (ndiv (nneg n1) timeConstant)),
      nmul startLearningRate (nsub n1 (ndiv (ofNat i) (ofNat iterations)))).

(** [som.train(data, iterations, startLearningRate)]: the map after the
    call. *)
Definition train (som : SOM (num := num)) (data : list (list num)) (iterations : nat)
  (startLearningRate : num) (random : RandomSource)
  : result (SOM (num := num)) :=
  if (length data =? 0)%nat then Ok som
  else
    let radius := ndiv (nmax (ofNat (width som)) (ofNat (height som))) nTwo in
    let timeConstant := ndiv (ofNat iterations) (mathLog radius) in
    st <- forEach (seq 0 iterations)
            (trainStep som data random iterations startLearningRate timeConstant)
            (weights som, radius, startLearningRate) ;;
    Ok (mkSOM (width som) (height som) (inputDim som) (fst (fst st))).

End Training.

(** *** The ordering of the kernel matrix (KernelAnalysis) *)

(** [rawMatrix[current]]. *)
Definition similarityRow (rawMatrix : list (list num)) (current : Z)
  : option (list num) :=
  if (current <? 0)%Z then None else nth_error rawMatrix (Z.to_nat current).

(** A JavaScript [Set] of indices, and [visited.add(x)]. *)
Definition setHas (visited : list Z) (x : Z) : bool := existsb (Z.eqb x) visited.

Definition setAdd (visited : list Z) (x : Z) : list Z :=
  if setHas visited x then visited else visited ++ [x].

(** The scan for the most similar unvisited index: the state is
    [(bestNext, maxSim)]; reading a row that is [undefined] throws. *)
Definition bestNextStep (row : option (list num)) (visited : list Z)
  (st : Z * num) (i : nat) : result (Z * num) :=
  if setHas visited (Z.of_nat i) then Ok st
  else
    match row with
    | None => Throw "TypeError: cannot read properties of undefined"
    | Some r =>
        let sim := nth i r nNaN in
        if nlt (snd st) sim then Ok (Z.of_nat i, sim) else Ok st
    end.

(** The loop that picks the first unvisited index; [-1] when there is
    none. *)
Definition firstUnvisited (visited : list Z) (n : nat) : Z :=
  match find (fun i => negb (setHas visited (Z.of_nat i))) (seq 0 n) with
  | Some i => Z.of_nat i
  | None => (-1)%Z
  end.

(** The loop [while (indices.length < validPapers.length)]; [None] says that
    it is still running after [fuel] iterations. *)
Fixpoint greedyLoop (fuel : nat) (rawMatrix : list (list num)) (n : nat)
  (indices visited : list Z) : option (result (list Z)) :=
  if (length indices <? n)%nat then
    match fuel with
    | O => None
    | S fuel' =>
        let current := last indices 0%Z in
        match forEach (seq 0 n)
                (bestNextStep (similarityRow rawMatrix current) visited)
                ((-1)%Z, nneg n1) with
        | Throw msg => Some (Throw msg)
        | Ok (found, _) =>
            let bestNext :=
              if (found =? -1)%Z then firstUnvisited visited n else found in
            greedyLoop fuel' rawMatrix n (indices ++ [bestNext])
              (setAdd visited bestNext)
        end
    end
  else Some (Ok indices).

(** [indices.map(i => indices.map(j => rawMatrix[i][j]))]. *)
Definition sortedRow (rawMatrix : list (list num)) (indices : list Z)
  (rows : list (list num)) (i : Z) : result (list (list num)) :=
  match similarityRow rawMatrix i with
  | None => Throw "TypeError: cannot read properties of undefined"
  | Some r => Ok (rows ++ [map (fun j => nth (Z.to_nat j) r nNaN) indices])
  end.

Definition sortedMatrix (rawMatrix : list (list num)) (indices : list Z)
  : result (list (list num)) :=
  forEach indices (sortedRow rawMatrix indices) [].

(** The first part of the analysis: the kernel matrix of the embeddings, the
    greedy ordering of its indices and the reordered matrix.  The component
    shows nothing ([null], here [Ok None]) for fewer than two embeddings. *)
Definition analysis (fuel : nat) (vectors : list (list num))
  : option (result (option (list Z * list (list num)))) :=
  if (length vectors <? 2)%nat then Some (Ok None)
  else
    match computeKernelMatrix vectors with
    | Throw msg => Some (Throw msg)
    | Ok rawMatrix =>
        match greedyLoop fuel rawMatrix (length vectors) [0%Z] [0%Z] with
        | None => None
        | Some (Throw msg) => Some (Throw msg)
        | Some (Ok indices) =>
            Some (sorted <- sortedMatrix rawMatrix indices ;;
                  Ok (Some (indices, sorted)))
        end
    end.

End CoreMore.

(** ** Vocabulary of the statements *)

Section Vocabulary.

Context {num : Type} `{JsNumber num}.

(** A matrix with [w] rows of [h] entries; a matrix with [n] rows of [n]
    entries. *)
Definition rect (w h : nat) (matrix : list (list num)) : Prop :=
  length matrix = w /\ forall i, i < w -> length (nth i matrix []) = h.

Definition square (n : nat) (matrix : list (list num)) : Prop :=
  rect n n matrix.

(** The similarity [cosineSimilarityKernel] returns for the vectors [a] and
    [b] of a collection. *)
Definition similarityOf (vectors : list (list num)) (a b : nat) : num :=
  match cosineSimilarityKernel (nth a vectors []) (nth b vectors []) with
  | Ok sim => sim
  | Throw _ => nNaN
  end.

(** The entry the kernel matrix holds at [(a, b)]: the similarity is computed
    for the pair ordered as in the upper triangle. *)
Definition kernelEntry (vectors : list (list num)) (a b : nat) : num :=
  if (a =? b)%nat then n1
  else similarityOf vectors (Nat.min a b) (Nat.max a b).

(** The cells the loops of [computeKernelMatrix] have written when the outer
    loop is at [i] and the inner one at [j]. *)
Definition written (i j a b : nat) : Prop :=
  Nat.min a b < i \/ (Nat.min a b = i /\ Nat.max a b < j).

(** [a(i)]: the mean distance from point [i] to the other points of its
    cluster, as [calculateSilhouetteScore] computes it. *)
Definition meanSameClusterDistance (vectors : list (list num))
  (labels : list Z) (i : nat) (vi : list num) : num :=
  let '(a, sameClusterCount, _) :=
    silhouetteSums vectors labels i vi (nth_error labels i) in
  ndiv a (ofNat sameClusterCount).

(** A grid state: [weights] has [width] columns of [height] prototypes. *)
Definition gridShape (som : SOM (num := num)) : Prop :=
  length (weights som) = width som
  /\ forall x column, nth_error (weights som) x = Some column ->
       length column = height som.

(** The cells above, below, left and right of [(x, y)] that lie inside the
    grid. *)
Definition insideGrid (som : SOM (num := num)) (p : Z * Z) : bool :=
  (0 <=? fst p)%Z && (fst p <? Z.of_nat (width som))%Z
  && (0 <=? snd p)%Z && (snd p <? Z.of_nat (height som))%Z.

Definition existingNeighbors (som : SOM (num := num)) (x y : nat)
  : list (nat * nat) :=
  let X := Z.of_nat x in
  let Y := Z.of_nat y in
  map (fun p => (Z.to_nat (fst p), Z.to_nat (snd p)))
    (filter (insideGrid som) [(X, Y - 1); (X, Y + 1); (X - 1, Y); (X + 1, Y)]%Z).

(** The prototype of a cell, and the mean Euclidean distance from the
    prototype of [(x, y)] to the prototypes of its existing neighbors, summed
    from 0 in the order above; 0 for a cell without neighbors. *)
Definition prototype (som : SOM (num := num)) (p : nat * nat) : list num :=
  nth (snd p) (nth (fst p) (weights som) []) [].

Definition meanNeighborDistance (som : SOM (num := num)) (x y : nat) : num :=
  let distances :=
    map (fun q => euclideanDistance (prototype som (x, y)) (prototype som q))
      (existingNeighbors som x y) in
  match distances with
  | [] => n0
  | _ :: _ => ndiv (fold_left nadd distances n0) (ofNat (length distances))
  end.

(** The cells the first pair of loops of [getUMatrix] visits before
    [(x, y)]. *)
Definition visitedBefore (x y a b : nat) : Prop :=
  a < x \/ (a = x /\ b < y).

(** The invariant of the first pair of loops at [(x, y)]: the cells visited
    hold their raw value. *)
Definition rawInv (som : SOM (num := num)) (x y : nat)
  (uMatrix : list (list num)) : Prop :=
  rect (width som) (height som) uMatrix
  /\ forall a b, a < width som -> b < height som -> visitedBefore x y a b ->
       rawCell som a b = Ok (cell uMatrix a b).

(** The value the third pair of loops stores at a cell. *)
Definition normalized (raw : list (list num)) (max min : num) (a b : nat)
  : num :=
  ndiv (nsub (cell raw a b) min) (orOne (nsub max min)).

(** The invariant of the third pair of loops: the cells visited are
    normalized, the others still hold their raw value. *)
Definition normInv (som : SOM (num := num)) (raw : list (list num))
  (max min : num)
  (visited : list (nat * nat)) (uMatrix : list (list num)) : Prop :=
  rect (width som) (height som) uMatrix
  /\ forall a b, a < width som -> b < height som ->
       (In (a, b) visited -> cell uMatrix a b = normalized raw max min a b)
       /\ (~ In (a, b) visited -> cell uMatrix a b = cell raw a b).

(** The invariant of the loops of [computeKernelMatrix] at [(i, j)]: the
    matrix is square and every cell written so far holds its final entry. *)
Definition kernelInv (vectors : list (list num)) (i j : nat)
  (matrix : list (list num)) : Prop :=
  square (length vectors) matrix
  /\ forall a b, a < length vectors -> b < length vectors ->
       written i j a b -> cell matrix a b = kernelEntry vectors a b.

End Vocabulary.

(** The elements of [xs] whose label is not noise ([-1]). *)
Definition withoutNoise {A : Type} (labels : list Z) (xs : list A) : list A :=
  map snd (filter (fun ix => negb (labelIs labels (fst ix) (-1)%Z)) (indexed xs)).

(** ** Vocabulary for binary64 *)

(** The sum of [k] copies of -1, accumulated from 0 as [totalScore] is. *)
Fixpoint minusOnes (k : nat) : float :=
  match k with
  | O => PrimFloat.zero
  | S k' => PrimFloat.add (minusOnes k') (-1)%float
  end.

(** The canonical binary64 representation of the integer [p] with sign [s],
    for [p] below 2^53. *)
Definition canonInt (s : bool) (p : positive) : spec_float :=
  let '(m, e) := shl_align p 0 (fexp prec emax (Z.pos (digits2_pos p))) in
  S754_finite s m e.

(** ** Concrete inputs, in binary64 *)

Module Examples.

Local Open Scope float_scope.

(** The end-to-end scenario of the specification. *)
Definition scenario : list (list float) :=
  [[1; 0]; [0.99; 0.01]; [0; 1]; [0.01; 0.99]].

(** Two clusters on a line and a far point labelled noise. *)
Definition noisyVectors : list (list float) := [[0]; [2]; [10]; [12]; [96]].
Definition noisyLabels : list Z := [0; 0; 1; 1; -1]%Z.

(** Two distinct points whose squared difference underflows to zero. *)
Definition tinyPair : list (list float) := [[0]; [1e-200]].

(** A 1 x 2 grid whose two prototypes are so far apart that the squared
    difference overflows. *)
Definition farSOM : SOM (num := float) :=
  mkSOM 1 2 1 [[[1e200]; [-1e200]]].

(** A 1 x 3 grid of prototypes on a line. *)
Definition lineSOM : SOM (num := float) :=
  mkSOM 1 3 1 [[[0]; [1]; [3]]].

(** Two points on a line. *)
Definition twoPoints : list (list float) := [[0]; [1]].

(** A random source that cycles through the four indices of [scenario]. *)
Definition cycle4 : RandomSource := fun t => Nat.modulo t 4.

(** The same two points, in exact arithmetic. *)
Definition exactPair : list (list xreal) := [[XFin 0]; [XFin 1]].

End Examples.

(** [relabels clusterId labels labels']: [labels'] is [labels] after some
    entries that were undefined ([0]) or noise ([-1]) got [clusterId]. *)
Definition relabels (clusterId : Z) (labels labels' : list Z) : Prop :=
  length labels' = length labels
  /\ forall a,
       nth a labels' 0%Z = nth a labels 0%Z
       \/ ((nth a labels 0%Z = 0%Z \/ nth a labels 0%Z = (-1)%Z)
           /\ nth a labels' 0%Z = clusterId).

(** The invariant of the outer loop of [dbscan] before point [i], for [n]
    points: every internal label is [-1], [0] or a cluster id in use, every
    cluster id from 1 to [clusterId] labels some point, and the points before
    [i] are no longer undefined. *)
Definition dbscanInv (n i : nat) (st : list Z * Z) : Prop :=
  length (fst st) = n
  /\ (0 <= snd st)%Z
  /\ (forall a, a < n -> (-1 <= nth a (fst st) 0 <= snd st)%Z)
  /\ (forall c, (1 <= c <= snd st)%Z ->
        exists a, a < n /\ nth a (fst st) 0%Z = c)
  /\ (forall a, a < i -> nth a (fst st) 0%Z <> 0%Z).

(** The number of distinct indices among the first [m] draws of a random
    source. *)
Definition distinctDraws (random : nat -> nat) (m : nat) : nat :=
  length (nodup Nat.eq_dec (map random (seq 0 m))).

(** The invariant of the loop of [kMeans] over the [n] points, before point
    [i]: the arrays keep their lengths and the points before [i] have a label
    in [0, k). *)
Definition passInv {num : Type} (n : nat) (k : Z) (i : nat)
  (st : @PassState num) : Prop :=
  length (assignments st) = n
  /\ length (newClusterSums st) = Z.to_nat k
  /\ length (newClusterCounts st) = Z.to_nat k
  /\ forall a, a < i -> (0 <= nth a (assignments st) 0 < k)%Z.

(** ** Vocabulary for exact arithmetic *)

(** A finite number, and a vector of finite numbers. *)
Definition finite (x : xreal) : Prop :=
  match x with
  | XFin _ => True
  | _ => False
  end.

Definition finiteVector (v : list xreal) : Prop := Forall finite v.

(** The real number a finite number holds. *)
Definition toR (x : xreal) : R :=
  match x with
  | XFin r => r
  | _ => 0%R
  end.

(** The number of points other than [i] among the first [j]. *)
Definition othersBefore (i j : nat) : nat :=
  if (i <? j)%nat then (j - 1)%nat else j.

Arguments Rltb : simpl never.
Arguments Rleb : simpl never.
Arguments Reqb : simpl never.
Arguments xsqrt : simpl never.
Arguments xdiv : simpl never.

(** ** Vocabulary of the further properties *)

(** A core point of DBSCAN: with itself it has at least [minPts] points
    within [epsilon], by the test the outer loop of [dbscan] makes. *)
Definition corePoint {num : Type} `{JsNumber num} (vectors : list (list num))
  (epsilon minPts : num) (p : nat) : bool :=
  negb (nlt (ofNat (length (getNeighbors vectors epsilon p) + 1)) minPts).

(** [x] is within [epsilon] of some core point. *)
Definition nearCore {num : Type} `{JsNumber num} (vectors : list (list num))
  (epsilon minPts : num) (x : nat) : Prop :=
  exists p, p < length vectors
            /\ corePoint vectors epsilon minPts p = true
            /\ In x (getNeighbors vectors epsilon p).

(** The invariant of the loops of [dbscan] on the internal labels, with the
    seed set of the cluster being grown ([[]] between two clusters): a noise
    point is no core point; the neighbors of a clustered core point are
    clustered or queued; a clustered or queued point is a core point or near
    one. *)
Definition clusterInv {num : Type} `{JsNumber num} (vectors : list (list num))
  (epsilon minPts : num) (labels : list Z) (seedSet : list nat) : Prop :=
  length labels = length vectors
  /\ (forall a, a < length vectors -> (-1 <= nth a labels 0)%Z)
  /\ (forall a, a < length vectors -> nth a labels 0%Z = (-1)%Z ->
        corePoint vectors epsilon minPts a = false)
  /\ (forall p x, p < length vectors ->
        corePoint vectors epsilon minPts p = true ->
        (0 < nth p labels 0)%Z ->
        In x (getNeighbors vectors epsilon p) ->
        (0 < nth x labels 0)%Z \/ In x seedSet)
  /\ (forall x, x < length vectors -> (0 < nth x labels 0)%Z ->
        corePoint vectors epsilon minPts x = true
        \/ nearCore vectors epsilon minPts x)
  /\ (forall x, In x seedSet -> nearCore vectors epsilon minPts x).

(** A [w] x [h] grid of prototypes with [d] components each. *)
Definition fullGrid {num : Type} (w h d : nat)
  (weights : list (list (list num))) : Prop :=
  length weights = w
  /\ forall x column, nth_error weights x = Some column ->
       length column = h /\ forall v, In v column -> length v = d.

(** The invariant of the loops of [findBMU] after the cells [visited], for
    the state [(minDist, bmu)]: no visited cell is strictly closer to the
    input than [minDist], which is still [Infinity] or the distance of the
    cell [bmu]. *)
Definition bmuInv {num : Type} `{JsNumber num} (som : SOM (num := num))
  (input : list num) (visited : list (nat * nat)) (st : num * (nat * nat))
  : Prop :=
  (forall c, In c visited ->
     nlt (euclideanDistance input (prototype som c)) (fst st) = false)
  /\ ((fst st = nInfinity /\ snd st = (0, 0))
      \/ (In (snd st) visited
          /\ fst st = euclideanDistance input (prototype som (snd st)))).

(** The choice the greedy loop of the kernel analysis makes after the
    [k]-th index of the ordering: among the indices not yet in the ordering,
    none is strictly more similar to the current index than the next one; or
    none has a similarity above -1, and the next index is the smallest of
    them. *)
Definition greedyChoice {num : Type} `{JsNumber num}
  (rawMatrix : list (list num)) (n : nat) (indices : list Z) (k : nat)
  : Prop :=
  let current := Z.to_nat (nth k indices 0%Z) in
  let next := Z.to_nat (nth (S k) indices 0%Z) in
  let unvisited i := i < n /\ ~ In (Z.of_nat i) (firstn (S k) indices) in
  (forall i, unvisited i ->
     nlt (cell rawMatrix current next) (cell rawMatrix current i) = false)
  \/ ((forall i, unvisited i ->
         nlt (nneg n1) (cell rawMatrix current i) = false)
      /\ forall i, unvisited i -> next <= i).

(** The invariant of the scan for the most similar unvisited index, after
    the indices [scanned], for the state [(bestNext, maxSim)]. *)
Definition scanBestInv {num : Type} `{JsNumber num} (row : list num)
  (visited : list Z) (scanned : list nat) (st : Z * num) : Prop :=
  (forall i, In i scanned -> setHas visited (Z.of_nat i) = false ->
     nlt (snd st) (nth i row nNaN) = false)
  /\ ((fst st = (-1)%Z /\ snd st = nneg n1)
      \/ exists i, In i scanned /\ setHas visited (Z.of_nat i) = false
                   /\ fst st = Z.of_nat i /\ snd st = nth i row nNaN).

(** ** Vocabulary for binary64 arithmetic *)

(** [m / 2^n] rounded to the nearest integer, to the even one on a tie, for
    [m >= 0] and [n >= 0]. *)
Definition roundShift (m n : Z) : Z :=
  let q := (m / 2 ^ n)%Z in
  match (2 * (m mod 2 ^ n) ?= 2 ^ n)%Z with
  | Lt => q
  | Eq => if Z.even q then q else (q + 1)%Z
  | Gt => (q + 1)%Z
  end.

(** [m >= 0] rounded to 53 significant bits. *)
Definition round53 (m : Z) : Z :=
  let n := Z.max 0 (Z.log2 m + 1 - 53) in
  (roundShift m n * 2 ^ n)%Z.


(** The integer a finite binary64 number is in units of [2^-1074], the
    smallest positive number of the format. *)
Definition SFint (z : spec_float) : Z :=
  match z with
  | S754_finite s m e =>
      ((if s then Z.neg m else Z.pos m) * 2 ^ (e + 1074))%Z
  | _ => 0%Z
  end.

(** A finite number with the sign bit clear: [+0] or a positive number. *)
Definition SFnonneg (z : spec_float) : bool :=
  match z with
  | S754_zero false | S754_finite false _ _ => true
  | _ => false
  end.


(** A number that is not negative: NaN, or a number with the sign bit clear
    ([+0], a positive number or [+Infinity]). *)
Definition SFclear (z : spec_float) : bool :=
  match z with
  | S754_nan | S754_zero false | S754_infinity false
  | S754_finite false _ _ => true
  | _ => false
  end.

(** The invariant of the second pair of loops of [getUMatrix] in binary64,
    on raw values that are finite and not negative: [max] starts at 0, bounds
    the raw values visited and is one of them once a cell was visited; [min]
    is [Infinity] before the first cell, then the least value visited. *)
Definition floatScanInv (raw : list (list float))
  (visited : list (nat * nat)) (mm : float * float) : Prop :=
  SFnonneg (Prim2SF (fst mm)) = true
  /\ (visited = [] -> fst mm = PrimFloat.zero)
  /\ (forall c, In c visited ->
        PrimFloat.leb (cell raw (fst c) (snd c)) (fst mm) = true)
  /\ (visited <> [] ->
      exists c, In c visited /\ cell raw (fst c) (snd c) = fst mm)
  /\ ((visited = [] /\ snd mm = PrimFloat.infinity)
      \/ (SFnonneg (Prim2SF (snd mm)) = true
          /\ (forall c, In c visited ->
                PrimFloat.leb (snd mm) (cell raw (fst c) (snd c)) = true)
          /\ exists c, In c visited /\ cell raw (fst c) (snd c) = snd mm)).
(** * Properties *)

Unset Implicit Arguments.

(** ** Arrays and loops *)

Lemma upd_length : forall (A : Type) (l : list A) (i : nat) (v : A),
  length (upd i v l) = length l.
Proof.
  induction l as [|h t IH]; intros [|i] v; simpl; auto.
Qed.

Lemma nth_upd_same : forall (A : Type) (l : list A) (i : nat) (v d : A),
  i < length l -> nth i (upd i v l) d = v.
Proof.
  induction l as [|h t IH]; intros [|i] v d Hi; simpl in *; try lia; auto.
  apply IH; lia.
Qed.

Lemma nth_upd_other : forall (A : Type) (l : list A) (i j : nat) (v d : A),
  i <> j -> nth j (upd i v l) d = nth j l d.
Proof.
  induction l as [|h t IH]; intros [|i] [|j] v d Hij; simpl; auto; try lia.
Qed.

Lemma nth_upd : forall (A : Type) (l : list A) (i j : nat) (v d : A),
  i < length l ->
  nth j (upd i v l) d = if (i =? j)%nat then v else nth j l d.
Proof.
  intros A l i j v d Hi. destruct (Nat.eqb_spec i j) as [->|Hne].
  - now apply nth_upd_same.
  - now apply nth_upd_other.
Qed.

Lemma In_upd : forall (A : Type) (l : list A) (i : nat) (v x : A),
  In x (upd i v l) -> x = v \/ In x l.
Proof.
  induction l as [|h t IH]; intros [|i] v x Hx; simpl in *; auto.
  - destruct Hx; auto.
  - destruct Hx as [Hx|Hx]; auto. apply IH in Hx. tauto.
Qed.

(** A loop that cannot throw, with an invariant indexed by the loop counter. *)
Lemma forEach_seq_inv : forall (S : Type) (P : nat -> S -> Prop)
  (body : S -> nat -> result S) (len lo : nat) (s0 : S),
  P lo s0 ->
  (forall j s, lo <= j < lo + len -> P j s ->
     exists s', body s j = Ok s' /\ P (Datatypes.S j) s') ->
  exists s', forEach (seq lo len) body s0 = Ok s' /\ P (lo + len) s'.
Proof.
  intros S P body len. induction len as [|len IH]; intros lo s0 H0 Hstep.
  - exists s0. simpl. rewrite Nat.add_0_r. auto.
  - destruct (Hstep lo s0) as [s1 [E1 P1]]; [lia | assumption |].
    destruct (IH (Datatypes.S lo) s1 P1) as [s' [E' P']].
    + intros j s Hj. apply Hstep. lia.
    + exists s'. simpl. rewrite E1. simpl. rewrite E'.
      split; [reflexivity|]. now rewrite <- Nat.add_succ_comm.
Qed.

(** The same for a loop over the elements of an array with their indices. *)
Lemma forEach_combine_inv : forall (S A : Type) (P : nat -> S -> Prop)
  (body : S -> nat * A -> result S) (xs : list A) (lo : nat) (s0 : S),
  P lo s0 ->
  (forall i x s, nth_error xs i = Some x -> P (lo + i) s ->
     exists s', body s (lo + i, x) = Ok s' /\ P (Datatypes.S (lo + i)) s') ->
  exists s',
    forEach (combine (seq lo (length xs)) xs) body s0 = Ok s'
    /\ P (lo + length xs) s'.
Proof.
  intros S A P body xs. induction xs as [|x xs IH]; intros lo s0 H0 Hstep.
  - exists s0. simpl. rewrite Nat.add_0_r. auto.
  - destruct (Hstep 0 x s0) as [s1 [E1 P1]];
      [reflexivity | now rewrite Nat.add_0_r |].
    rewrite Nat.add_0_r in E1, P1.
    destruct (IH (Datatypes.S lo) s1 P1) as [s' [E' P']].
    + intros i y s Hy Hs.
      replace (Datatypes.S lo + i) with (lo + Datatypes.S i) in * by lia.
      now apply Hstep.
    + exists s'. simpl. rewrite E1. simpl. rewrite E'.
      split; [reflexivity|].
      now replace (lo + Datatypes.S (length xs)) with (Datatypes.S lo + length xs) by lia.
Qed.

Lemma forEach_indexed_inv : forall (S A : Type) (P : nat -> S -> Prop)
  (body : S -> nat * A -> result S) (xs : list A) (s0 : S),
  P 0 s0 ->
  (forall i x s, nth_error xs i = Some x -> P i s ->
     exists s', body s (i, x) = Ok s' /\ P (Datatypes.S i) s') ->
  exists s', forEach (indexed xs) body s0 = Ok s' /\ P (length xs) s'.
Proof.
  intros S A P body xs s0 H0 Hstep.
  apply (forEach_combine_inv S A P body xs 0 s0 H0).
  intros i x s Hx Hs. simpl in *. now apply Hstep.
Qed.

(** A loop without throw over a range of indices. *)
Lemma fold_left_seq_inv : forall (S : Type) (P : nat -> S -> Prop)
  (body : S -> nat -> S) (len lo : nat) (s0 : S),
  P lo s0 ->
  (forall j s, lo <= j < lo + len -> P j s -> P (Datatypes.S j) (body s j)) ->
  P (lo + len) (fold_left body (seq lo len) s0).
Proof.
  intros S P body len. induction len as [|len IH]; intros lo s0 H0 Hstep.
  - simpl. now rewrite Nat.add_0_r.
  - simpl. rewrite <- Nat.add_succ_comm. apply IH.
    + apply Hstep; [lia | assumption].
    + intros j s Hj. apply Hstep. lia.
Qed.

Lemma fold_left_combine_inv : forall (S A : Type) (P : nat -> S -> Prop)
  (body : S -> nat * A -> S) (xs : list A) (lo : nat) (s0 : S),
  P lo s0 ->
  (forall i x s, nth_error xs i = Some x -> P (lo + i) s ->
     P (Datatypes.S (lo + i)) (body s (lo + i, x))) ->
  P (lo + length xs) (fold_left body (combine (seq lo (length xs)) xs) s0).
Proof.
  intros S A P body xs. induction xs as [|x xs IH]; intros lo s0 H0 Hstep.
  - simpl. now rewrite Nat.add_0_r.
  - simpl. replace (lo + Datatypes.S (length xs)) with (Datatypes.S lo + length xs) by lia.
    apply IH.
    + specialize (Hstep 0 x s0). rewrite Nat.add_0_r in Hstep. now apply Hstep.
    + intros i y s Hy Hs.
      replace (Datatypes.S lo + i) with (lo + Datatypes.S i) in * by lia.
      now apply Hstep.
Qed.

(** A loop that cannot throw, with an invariant of the state alone. *)
Lemma forEach_preserve : forall (S X : Type) (P : S -> Prop)
  (body : S -> X -> result S) (xs : list X) (s0 : S),
  P s0 ->
  (forall x s, In x xs -> P s -> exists s', body s x = Ok s' /\ P s') ->
  exists s', forEach xs body s0 = Ok s' /\ P s'.
Proof.
  intros S X P body xs. induction xs as [|x xs IH]; intros s0 H0 Hstep.
  - exists s0. auto.
  - destruct (Hstep x s0) as [s1 [E1 P1]]; [now left | assumption |].
    destruct (IH s1 P1) as [s' [E' P']].
    + intros y s Hy. apply Hstep. now right.
    + exists s'. simpl. rewrite E1. simpl. auto.
Qed.

(** A loop over a list, with an invariant that knows the elements already
    visited. *)
Lemma fold_left_prefix_inv : forall (S X : Type) (P : list X -> S -> Prop)
  (body : S -> X -> S) (xs : list X) (s0 : S),
  P [] s0 ->
  (forall visited x rest s,
     xs = visited ++ x :: rest -> P visited s -> P (visited ++ [x]) (body s x)) ->
  P xs (fold_left body xs s0).
Proof.
  intros S X P body xs s0 H0 Hstep.
  assert (G : forall rest visited s,
             xs = visited ++ rest -> P visited s ->
             P xs (fold_left body rest s)).
  { induction rest as [|x rest IH]; intros visited s Hxs Hs; simpl.
    - rewrite app_nil_r in Hxs. now subst.
    - apply (IH (visited ++ [x])).
      + rewrite <- app_assoc. exact Hxs.
      + now apply (Hstep visited x rest). }
  now apply (G xs []).
Qed.

(** ** Vector primitives and the kernel matrix *)

Section VectorProperties.

Context {num : Type} `{JsNumber num}.

Lemma cosineLoop_norms : forall (vecA vecB : list num) (acc : num * num * num),
  length vecA = length vecB ->
  snd (fst (cosineLoop vecA vecB acc))
    = fold_left (fun norm val => nadd norm (nmul val val)) vecA (snd (fst acc))
  /\ snd (cosineLoop vecA vecB acc)
    = fold_left (fun norm val => nadd norm (nmul val val)) vecB (snd acc).
Proof.
  induction vecA as [|a vecA IH]; intros [|b vecB] [[d na] nb] Hlen;
    simpl in *; try discriminate.
  - split; reflexivity.
  - injection Hlen as Hlen.
    apply (IH vecB (nadd d (nmul a b), nadd na (nmul a a), nadd nb (nmul b b)) Hlen).
Qed.


Lemma cosine_throws_iff : forall vecA vecB : list num,
  (exists msg, cosineSimilarityKernel vecA vecB = Throw msg)
  <-> length vecA <> length vecB.
Proof.
  intros vecA vecB. unfold cosineSimilarityKernel.
  destruct (Nat.eqb_spec (length vecA) (length vecB)) as [E|E]; simpl.
  - split; [|tauto]. intros [msg Hm].
    destruct (cosineLoop vecA vecB (n0, n0, n0)) as [[d na] nb].
    destruct (neq na n0 || neq nb n0); discriminate.
  - split; [tauto|]. intros _. eexists. reflexivity.
Qed.

Lemma cosine_returns : forall vecA vecB : list num,
  length vecA = length vecB ->
  exists sim, cosineSimilarityKernel vecA vecB = Ok sim.
Proof.
  intros vecA vecB E. unfold cosineSimilarityKernel.
  rewrite E, Nat.eqb_refl. simpl.
  destruct (cosineLoop vecA vecB (n0, n0, n0)) as [[d na] nb].
  destruct (neq na n0 || neq nb n0); eexists; reflexivity.
Qed.

(** C5.  [cosineSimilarityKernel] throws exactly when the two vectors differ
    in length; on vectors of equal length it returns a number, and that
    number is 0 as soon as the squared norm accumulated for one of the
    vectors (hence its norm) is zero. *)
Theorem cosineSimilarityKernel_errors : forall vecA vecB : list num,
  ((exists msg, cosineSimilarityKernel vecA vecB = Throw msg)
   <-> length vecA <> length vecB)
  /\ (length vecA = length vecB ->
      exists sim, cosineSimilarityKernel vecA vecB = Ok sim)
  /\ (length vecA = length vecB ->
      neq (sumSquares vecA) n0 = true \/ neq (sumSquares vecB) n0 = true ->
      cosineSimilarityKernel vecA vecB = Ok n0).
Proof.
  intros vecA vecB. split; [apply cosine_throws_iff|].
  split; [apply cosine_returns|].
  intros E Hzero. unfold cosineSimilarityKernel.
  rewrite E, Nat.eqb_refl. simpl.
  destruct (cosineLoop_norms vecA vecB (n0, n0, n0) E) as [Ha Hb].
  destruct (cosineLoop vecA vecB (n0, n0, n0)) as [[d na] nb].
  simpl in Ha, Hb. unfold sumSquares in Hzero. rewrite <- Ha, <- Hb in Hzero.
  destruct (neq na n0), (neq nb n0); simpl; auto.
  destruct Hzero; discriminate.
Qed.


(** *** The kernel matrix *)

Lemma setCell_rect : forall (w h : nat) (matrix : list (list num))
  (i j : nat) (v : num),
  rect w h matrix -> i < w -> rect w h (setCell matrix i j v).
Proof.
  intros w h matrix i j v [Hlen Hrows] Hi. unfold setCell. split.
  - now rewrite upd_length.
  - intros a Ha. rewrite nth_upd by lia.
    destruct (Nat.eqb_spec i a) as [->|Hne]; auto.
    rewrite upd_length. auto.
Qed.

Lemma cell_setCell : forall (w h : nat) (matrix : list (list num))
  (i j a b : nat) (v : num),
  rect w h matrix -> i < w -> j < h ->
  cell (setCell matrix i j v) a b
  = if (i =? a)%nat && (j =? b)%nat then v else cell matrix a b.
Proof.
  intros w h matrix i j a b v [Hlen Hrows] Hi Hj. unfold cell, setCell.
  rewrite nth_upd by lia.
  destruct (Nat.eqb_spec i a) as [->|Hne]; simpl; auto.
  rewrite nth_upd by (rewrite Hrows; lia). reflexivity.
Qed.

Lemma repeat_rect : forall (w h : nat) (v : num),
  rect w h (repeat (repeat v h) w).
Proof.
  intros w h v. split.
  - apply repeat_length.
  - intros i Hi. rewrite (nth_repeat_lt _ _ Hi). apply repeat_length.
Qed.

Lemma kernelEntry_sym : forall (vectors : list (list num)) (a b : nat),
  kernelEntry vectors a b = kernelEntry vectors b a.
Proof.
  intros vectors a b. unfold kernelEntry.
  rewrite (Nat.eqb_sym a b), (Nat.min_comm a b), (Nat.max_comm a b).
  reflexivity.
Qed.

Section Uniform.

Variable vectors : list (list num).
Variable d : nat.
Hypothesis uniform : forall v, In v vectors -> length v = d.

Let n := length vectors.

Lemma similarityOf_returns : forall a b, a < n -> b < n ->
  cosineSimilarityKernel (nth a vectors []) (nth b vectors [])
  = Ok (similarityOf vectors a b).
Proof.
  intros a b Ha Hb. unfold similarityOf.
  destruct (cosine_returns (nth a vectors []) (nth b vectors [])) as [s Es].
  - rewrite !uniform; auto; apply nth_In; assumption.
  - now rewrite Es.
Qed.

Lemma kernelCell_inv : forall i j matrix,
  i <= j < n -> kernelInv vectors i j matrix ->
  exists matrix',
    kernelCell vectors i matrix j = Ok matrix' /\ kernelInv vectors i (S j) matrix'.
Proof.
  intros i j matrix Hij [Hsq Hcells]. unfold kernelCell.
  destruct (Nat.eqb_spec i j) as [->|Hne].
  - eexists. split; [reflexivity|]. split.
    + apply setCell_rect; [assumption|lia].
    + intros a b Ha Hb Hw. rewrite (cell_setCell n n matrix j j a b n1 Hsq) by lia.
      destruct (Nat.eqb_spec j a) as [<-|Hja];
        destruct (Nat.eqb_spec j b) as [<-|Hjb]; simpl.
      * unfold kernelEntry. now rewrite Nat.eqb_refl.
      * apply Hcells; auto. unfold written in *. lia.
      * apply Hcells; auto. unfold written in *. lia.
      * apply Hcells; auto. unfold written in *. lia.
  - rewrite (similarityOf_returns i j) by lia. simpl.
    eexists. split; [reflexivity|].
    assert (Hsq1 : square n (setCell matrix i j (similarityOf vectors i j)))
      by (apply setCell_rect; [assumption|lia]).
    split.
    + apply setCell_rect; [assumption|lia].
    + intros a b Ha Hb Hw.
      rewrite (cell_setCell n n _ j i a b _ Hsq1) by lia.
      rewrite (cell_setCell n n matrix i j a b _ Hsq) by lia.
      destruct (Nat.eqb_spec j a) as [<-|Hja];
        destruct (Nat.eqb_spec i b) as [<-|Hib]; simpl.
      * unfold kernelEntry. destruct (Nat.eqb_spec j i); [lia|].
        now rewrite Nat.min_r, Nat.max_l by lia.
      * destruct (Nat.eqb_spec i j); [lia|]. simpl.
        apply Hcells; auto. unfold written in *. lia.
      * destruct (Nat.eqb_spec i a) as [<-|Hia]; simpl.
        -- destruct (Nat.eqb_spec j i); [lia|].
           apply Hcells; auto. unfold written in *. lia.
        -- apply Hcells; auto. unfold written in *. lia.
      * destruct (Nat.eqb_spec i a) as [<-|Hia];
          destruct (Nat.eqb_spec j b) as [<-|Hjb]; simpl.
        -- unfold kernelEntry. destruct (Nat.eqb_spec i j); [lia|].
           now rewrite Nat.min_l, Nat.max_r by lia.
        -- apply Hcells; auto. unfold written in *. lia.
        -- apply Hcells; auto. unfold written in *. lia.
        -- apply Hcells; auto. unfold written in *. lia.
Qed.

Lemma kernelRow_inv : forall i matrix,
  i < n -> kernelInv vectors i i matrix ->
  exists matrix',
    kernelRow vectors matrix i = Ok matrix' /\ kernelInv vectors (S i) (S i) matrix'.
Proof.
  intros i matrix Hi Hinv. unfold kernelRow. fold n.
  destruct (forEach_seq_inv _ (kernelInv vectors i) (kernelCell vectors i) (n - i) i
              matrix Hinv) as [matrix' [E [Hsq Hcells]]].
  - intros j s Hj Hs. apply kernelCell_inv; [lia|assumption].
  - exists matrix'. split; [assumption|]. split; [assumption|].
    intros a b Ha Hb Hw. apply Hcells; auto. unfold written in *. lia.
Qed.

Lemma computeKernelMatrix_inv :
  exists matrix,
    computeKernelMatrix vectors = Ok matrix /\ kernelInv vectors n n matrix.
Proof.
  unfold computeKernelMatrix. fold n.
  apply (forEach_seq_inv _ (fun i => kernelInv vectors i i) (kernelRow vectors) n 0).
  - split; [apply repeat_rect|]. intros a b _ _ Hw.
    unfold written in Hw. lia.
  - intros i s Hi Hs. apply kernelRow_inv; [lia|assumption].
Qed.

End Uniform.

(** For a collection of vectors of one dimension, [computeKernelMatrix]
    returns an n x n matrix that holds the same value at [(i, j)] and
    [(j, i)], has 1 on its diagonal, and holds at [(i, j)], for [i < j], the
    one similarity computed for the pair of the upper triangle. *)
Lemma computeKernelMatrix_mirrored :
  forall (vectors : list (list num)) (d : nat),
  (forall v, In v vectors -> length v = d) ->
  exists matrix,
    computeKernelMatrix vectors = Ok matrix
    /\ square (length vectors) matrix
    /\ (forall i j, i < length vectors -> j < length vectors ->
          cell matrix i j = cell matrix j i)
    /\ (forall i, i < length vectors -> cell matrix i i = n1)
    /\ (forall i j, i < j < length vectors ->
          cosineSimilarityKernel (nth i vectors []) (nth j vectors [])
          = Ok (cell matrix i j)
          /\ cell matrix j i = cell matrix i j).
Proof.
  intros vectors d Hd.
  destruct (computeKernelMatrix_inv vectors d Hd) as [matrix [E [Hsq Hcells]]].
  assert (Hall : forall a b, a < length vectors -> b < length vectors ->
                   cell matrix a b = kernelEntry vectors a b).
  { intros a b Ha Hb. apply Hcells; auto. unfold written. lia. }
  exists matrix. split; [assumption|]. split; [assumption|].
  split; [|split].
  - intros i j Hi Hj. rewrite !Hall by assumption. apply kernelEntry_sym.
  - intros i Hi. rewrite Hall by assumption. unfold kernelEntry.
    now rewrite Nat.eqb_refl.
  - intros i j Hij. rewrite !Hall by lia. split.
    + unfold kernelEntry. destruct (Nat.eqb_spec i j); [lia|].
      rewrite Nat.min_l, Nat.max_r by lia.
      apply (similarityOf_returns vectors d Hd); lia.
    + apply kernelEntry_sym.
Qed.

End VectorProperties.

(** ** K-means *)

Section KMeansProperties.

Context {num : Type} `{JsNumber num}.

Lemma nth_map_seq : forall (n i : nat),
  i < n -> nth i (map Z.of_nat (seq 0 n)) (-1)%Z = Z.of_nat i.
Proof.
  intros n i Hi.
  rewrite (nth_indep _ (-1)%Z (Z.of_nat 0)) by (rewrite length_map, length_seq; lia).
  rewrite map_nth, seq_nth by lia. reflexivity.
Qed.

(** C2.  On the empty collection [kMeans] returns the empty assignment, and
    with [k >= n] it returns the labeling in which every point has its own
    index as label; neither case draws a random number or enters a loop (the
    result does not depend on the fuel or on the random source). *)
Theorem kMeans_trivial_cases :
  forall (fuel : nat) (random : RandomSource) (vectors : list (list num))
    (k maxIterations : Z),
  kMeans fuel random [] k maxIterations = Some (Ok [])
  /\ ((Z.of_nat (length vectors) <= k)%Z ->
      kMeans fuel random vectors k maxIterations
        = Some (Ok (map Z.of_nat (seq 0 (length vectors))))
      /\ length (map Z.of_nat (seq 0 (length vectors))) = length vectors
      /\ forall i, i < length vectors ->
           nth i (map Z.of_nat (seq 0 (length vectors))) (-1)%Z = Z.of_nat i).
Proof.
  intros fuel random vectors k maxIterations. split; [reflexivity|].
  intros Hk. split; [|split].
  - unfold kMeans. destruct (Nat.eqb_spec (length vectors) 0) as [E|E].
    + now rewrite E.
    + apply Z.leb_le in Hk. now rewrite Hk.
  - now rewrite length_map, length_seq.
  - intros i Hi. now apply nth_map_seq.
Qed.


Lemma copyVector_returns : forall (vectors : list (list num)) (idx : nat),
  idx < length vectors -> exists v, copyVector vectors idx = Ok v.
Proof.
  intros vectors idx Hidx. unfold copyVector.
  destruct (nth_error vectors idx) as [v|] eqn:E.
  - now exists v.
  - apply nth_error_None in E. lia.
Qed.

Section Run.

Variable random : RandomSource.
Variable vectors : list (list num).
Variable k : Z.

Let n := length vectors.
Let kn := Z.to_nat k.

Hypothesis k_positive : (1 <= k)%Z.
Hypothesis random_in_range : forall t, random t < n.

(** *** Step 1: the initial centroids *)

(** The loop ends at the latest when the draws made cover [k] distinct
    indices: [usedIndices] is the set of the indices drawn so far, and there
    is one centroid per used index. *)
Lemma initCentroids_total : forall (m fuel : nat)
  (centroids : list (list num)) (usedIndices : list nat) (t : nat),
  (k <= Z.of_nat (distinctDraws random m))%Z ->
  NoDup usedIndices ->
  length centroids = length usedIndices ->
  (forall x, In x usedIndices <-> In x (map random (seq 0 t))) ->
  (Z.of_nat (length centroids) <= k)%Z ->
  t <= m -> m - t <= fuel ->
  exists centroids' t',
    initCentroids fuel random vectors k centroids usedIndices t
      = Some (Ok (centroids', t'))
    /\ length centroids' = kn.
Proof.
  intros m. induction fuel as [|fuel IH];
    intros centroids usedIndices t Hm Hnd Hlen Hset Hle Ht Hfuel.
  - simpl. destruct (Z.ltb_spec (Z.of_nat (length centroids)) k) as [Hlt|Hge].
    + exfalso. assert (t = m) by lia. subst t.
      assert (length (nodup Nat.eq_dec (map random (seq 0 m)))
              <= length usedIndices).
      { apply NoDup_incl_length; [apply NoDup_nodup|].
        intros x Hx. apply Hset. now apply nodup_In in Hx. }
      unfold distinctDraws in Hm. lia.
    + exists centroids, t. split; [reflexivity|]. unfold kn. lia.
  - simpl. destruct (Z.ltb_spec (Z.of_nat (length centroids)) k) as [Hlt|Hge].
    2:{ exists centroids, t. split; [reflexivity|]. unfold kn. lia. }
    assert (Htm : t < m).
    { destruct (Nat.lt_ge_cases t m) as [|Hge]; [assumption|].
      exfalso. assert (t = m) by lia. subst t.
      assert (length (nodup Nat.eq_dec (map random (seq 0 m)))
              <= length usedIndices).
      { apply NoDup_incl_length; [apply NoDup_nodup|].
        intros x Hx. apply Hset. now apply nodup_In in Hx. }
      unfold distinctDraws in Hm. lia. }
    assert (Hseq : forall x, In x (map random (seq 0 (S t)))
                     <-> In x (map random (seq 0 t)) \/ x = random t).
    { intros x. rewrite seq_S, map_app, in_app_iff. simpl. intuition. }
    destruct (existsb (Nat.eqb (random t)) usedIndices) eqn:Eused.
    + apply IH; auto; try lia.
      intros x. rewrite Hseq, <- Hset. split; [tauto|].
      intros [Hx| ->]; [assumption|].
      apply existsb_exists in Eused. destruct Eused as [y [Hy Ey]].
      apply Nat.eqb_eq in Ey. now subst y.
    + destruct (copyVector_returns vectors (random t)) as [v Ev];
        [apply random_in_range|].
      rewrite Ev. apply IH; auto; try lia.
      * constructor; [|assumption]. intros Hin.
        assert (existsb (Nat.eqb (random t)) usedIndices = true).
        { apply existsb_exists. exists (random t).
          split; [assumption|apply Nat.eqb_refl]. }
        congruence.
      * rewrite length_app. simpl. lia.
      * intros x. rewrite Hseq, <- Hset. simpl. intuition.
      * rewrite length_app. simpl. lia.
Qed.

(** *** Step 2: one pass over the points *)

Lemma closestCluster_bound : forall (v : list num) (centroids : list (list num)),
  length centroids = kn ->
  exists c, closestCluster v centroids k = Ok c /\ c < kn.
Proof.
  intros v centroids Hlen. unfold closestCluster. fold kn.
  destruct (forEach_seq_inv _ (fun _ st => snd st < kn)
              (closestStep v centroids) kn 0 (nInfinity, 0))
    as [st [E Hst]].
  - simpl. unfold kn. lia.
  - intros c [minDist closest] Hc Hst. simpl in Hst. unfold closestStep.
    destruct (nth_error centroids c) as [cv|] eqn:Ec.
    2:{ apply nth_error_None in Ec. lia. }
    destruct v as [|x v]; simpl;
      match goal with |- context [if ?b then _ else _] => destruct b end;
      eexists; (split; [reflexivity|]); simpl; lia.
  - rewrite E. simpl. exists (snd st). auto.
Qed.

Lemma assignPoint_inv : forall (centroids : list (list num)) (i : nat)
  (v : list num) (st : @PassState num),
  length centroids = kn -> i < n -> passInv n k i st ->
  exists st',
    assignPoint centroids k st (i, v) = Ok st' /\ passInv n k (S i) st'.
Proof.
  intros centroids i v st Hc Hi (Ha & Hs & Hn & Hr). unfold assignPoint.
  destruct (closestCluster_bound v centroids Hc) as [c [Ec Hck]].
  rewrite Ec. simpl.
  destruct (nth_error (newClusterSums st) c) as [clusterSum|] eqn:Es.
  2:{ apply nth_error_None in Es. lia. }
  eexists. split; [reflexivity|]. unfold passInv. simpl.
  split; [|split; [|split]].
  - destruct (negb _); [now rewrite upd_length|assumption].
  - now rewrite upd_length.
  - now rewrite upd_length.
  - intros a Hai.
    assert (Hcz : (0 <= Z.of_nat c < k)%Z) by (unfold kn in Hck; lia).
    destruct (Z.eqb_spec (nth i (assignments st) 0%Z) (Z.of_nat c)) as [E|E];
      simpl.
    + destruct (Nat.eq_dec a i) as [->|]; [now rewrite E|]. apply Hr. lia.
    + rewrite nth_upd by lia.
      destruct (Nat.eqb_spec i a); [assumption|]. apply Hr. lia.
Qed.

Lemma pass_inv : forall (centroids : list (list num)) (st : @PassState num),
  length centroids = kn -> passInv n k 0 st ->
  exists st',
    forEach (indexed vectors) (assignPoint centroids k) st = Ok st'
    /\ passInv n k n st'.
Proof.
  intros centroids st Hc Hst.
  apply (forEach_indexed_inv _ _ (passInv n k)); [assumption|].
  intros i v s Hv Hs. apply assignPoint_inv; auto.
  apply nth_error_Some. fold n in Hv. congruence.
Qed.

Lemma updateCentroids_length : forall (sums : list (list num))
  (counts : list nat) (centroids : list (list num)) (t : nat),
  length centroids = kn ->
  exists ct,
    forEach (seq 0 kn) (updateCentroid random vectors sums counts)
      (centroids, t) = Ok ct
    /\ length (fst ct) = kn.
Proof.
  intros sums counts centroids t Hc.
  apply (forEach_seq_inv _ (fun _ ct => length (fst ct) = kn)
           (updateCentroid random vectors sums counts) kn 0 (centroids, t)).
  - assumption.
  - intros c [cs t0] Hck Hcs. simpl in *. unfold updateCentroid.
    destruct (0 <? nth c counts 0)%nat.
    + eexists. split; [reflexivity|]. simpl. now rewrite upd_length.
    + destruct (copyVector_returns vectors (random t0)) as [v Ev];
        [apply random_in_range|].
      rewrite Ev. simpl. eexists. split; [reflexivity|]. simpl.
      now rewrite upd_length.
Qed.

(** *** The loop of passes *)

Lemma kMeansLoop_range : forall (remaining : nat) (dimension : nat)
  (centroids : list (list num)) (t : nat)
  (assignments0 : list Z) (changed0 : bool),
  length centroids = kn ->
  length assignments0 = n ->
  (changed0 = true /\ 1 <= remaining)
  \/ (forall a, a < n -> (0 <= nth a assignments0 0 < k)%Z) ->
  exists labels,
    kMeansLoop remaining random vectors k dimension centroids t
      assignments0 changed0 = Ok labels
    /\ length labels = n
    /\ forall a, a < n -> (0 <= nth a labels 0 < k)%Z.
Proof.
  induction remaining as [|remaining IH];
    intros dimension centroids t assignments0 changed0 Hc Ha Hor; simpl.
  - destruct Hor as [[_ Hr]|Hr]; [lia|]. exists assignments0. auto.
  - destruct changed0; simpl.
    2:{ destruct Hor as [[Hch _]|Hr]; [discriminate|].
        exists assignments0. auto. }
    destruct (Z.ltb_spec k 0) as [Hneg|_]; [lia|]. fold kn.
    destruct (pass_inv centroids
                (mkPass assignments0 false
                   (repeat (repeat n0 dimension) kn) (repeat 0 kn)) Hc)
      as [pass [Ep (Hpa & Hps & Hpc & Hpr)]].
    { unfold passInv. simpl. rewrite !repeat_length.
      split; [assumption|]. split; [reflexivity|]. split; [reflexivity|].
      intros a Hlt. lia. }
    rewrite Ep. simpl.
    destruct (updateCentroids_length (newClusterSums pass)
                (newClusterCounts pass) centroids t Hc) as [ct [Ect Hct]].
    rewrite Ect. simpl.
    apply IH; auto.
Qed.

End Run.

End KMeansProperties.

(** C6 (as amended).  For a collection of [n] vectors, [1 <= k < n], an
    iteration bound of at least 1 and a random source whose first [m] draws
    are valid indices covering [k] distinct ones, [kMeans] ends its
    initialisation within [m] draws and returns, without throwing, one label
    per vector, each in [0, k). *)
Theorem kMeans_labels_in_range :
  forall (num : Type) (N : JsNumber num) (fuel m : nat)
    (random : RandomSource) (vectors : list (list num)) (k maxIterations : Z),
  (1 <= k < Z.of_nat (length vectors))%Z ->
  (1 <= maxIterations)%Z ->
  (forall t, random t < length vectors) ->
  (k <= Z.of_nat (distinctDraws random m))%Z ->
  m <= fuel ->
  exists labels,
    kMeans fuel random vectors k maxIterations = Some (Ok labels)
    /\ length labels = length vectors
    /\ forall l, In l labels -> (0 <= l < k)%Z.
Proof.
  intros num N fuel m random vectors k maxIterations Hk Hmax Hrand Hm Hfuel.
  unfold kMeans.
  destruct (Nat.eqb_spec (length vectors) 0) as [E|_]; [lia|].
  destruct (Z.leb_spec (Z.of_nat (length vectors)) k) as [Hle|_]; [lia|].
  destruct (initCentroids_total random vectors k (proj1 Hk) Hrand m fuel [] [] 0)
    as [centroids [t [Ei Hc]]].
  { assumption. }
  { constructor. }
  { reflexivity. }
  { intros x. simpl. tauto. }
  { simpl. lia. }
  { lia. }
  { lia. }
  rewrite Ei.
  destruct (kMeansLoop_range random vectors k (proj1 Hk) Hrand
              (Z.to_nat maxIterations) (length (hd [] vectors)) centroids t
              (repeat (-1)%Z (length vectors)) true Hc)
    as [labels [El [Hlen Hrange]]].
  { apply repeat_length. }
  { left. split; [reflexivity|lia]. }
  exists labels. split; [now rewrite El|]. split; [assumption|].
  intros l Hl. destruct (In_nth _ _ 0%Z Hl) as [a [Ha <-]].
  apply Hrange. lia.
Qed.

(** ** DBSCAN *)

Section DbscanProperties.

Context {num : Type} `{JsNumber num}.

Variable vectors : list (list num).
Variables epsilon minPts : num.

Let n := length vectors.

Ltac split_inv :=
  unfold dbscanInv; simpl; split; [|split; [|split; [|split]]].

Lemma getNeighbors_bound : forall idx x,
  In x (getNeighbors vectors epsilon idx) -> x < n.
Proof.
  intros idx x Hx. unfold getNeighbors in Hx.
  apply filter_In in Hx. destruct Hx as [Hx _].
  apply in_seq in Hx. unfold n. lia.
Qed.

Lemma getNeighbors_NoDup : forall idx,
  NoDup (getNeighbors vectors epsilon idx).
Proof.
  intros idx. unfold getNeighbors. apply NoDup_filter, seq_NoDup.
Qed.

Lemma NoDup_snoc : forall (l : list nat) (x : nat),
  NoDup l -> ~ In x l -> NoDup (l ++ [x]).
Proof.
  induction l as [|h t IH]; intros x Hnd Hx; simpl.
  - constructor; [intros []|constructor].
  - inversion Hnd as [|? ? Hh Ht]; subst. constructor.
    + rewrite in_app_iff. simpl. intros [Hin|[Heq|[]]]; [tauto|].
      apply Hx. left. congruence.
    + apply IH; [assumption|]. intros Hin. apply Hx. now right.
Qed.

Lemma pushNew_seeds : forall (neighborNeighbors seedSet : list nat),
  NoDup seedSet ->
  (forall x, In x seedSet -> x < n) ->
  (forall x, In x neighborNeighbors -> x < n) ->
  NoDup (pushNew seedSet neighborNeighbors)
  /\ forall x, In x (pushNew seedSet neighborNeighbors) -> x < n.
Proof.
  unfold pushNew.
  induction neighborNeighbors as [|nn rest IH]; intros seedSet Hnd Hb Hnb; simpl.
  - auto.
  - apply IH.
    + destruct (existsb (Nat.eqb nn) seedSet) eqn:E; [assumption|].
      apply NoDup_snoc; [assumption|]. intros Hin.
      assert (Ex : existsb (Nat.eqb nn) seedSet = true).
      { apply existsb_exists. exists nn. split; [assumption|apply Nat.eqb_refl]. }
      congruence.
    + intros x Hx. destruct (existsb (Nat.eqb nn) seedSet); auto.
      apply in_app_iff in Hx. destruct Hx as [Hx|[<-|[]]]; auto.
      apply Hnb. now left.
    + intros x Hx. apply Hnb. now right.
Qed.

Lemma seeds_length : forall seedSet : list nat,
  NoDup seedSet -> (forall x, In x seedSet -> x < n) -> length seedSet <= n.
Proof.
  intros seedSet Hnd Hb.
  rewrite <- (length_seq n 0). apply NoDup_incl_length; [assumption|].
  intros x Hx. apply in_seq. specialize (Hb x Hx). lia.
Qed.

Lemma relabels_refl : forall clusterId labels, relabels clusterId labels labels.
Proof. intros. split; auto. Qed.

Lemma relabels_trans : forall clusterId l1 l2 l3,
  relabels clusterId l1 l2 -> relabels clusterId l2 l3 ->
  relabels clusterId l1 l3.
Proof.
  intros clusterId l1 l2 l3 [L12 H12] [L23 H23]. split; [congruence|].
  intros a. destruct (H12 a) as [E12|[Z12 C12]], (H23 a) as [E23|[Z23 C23]].
  - left. congruence.
  - right. rewrite <- E12. auto.
  - right. split; [assumption|congruence].
  - right. auto.
Qed.

Lemma relabels_upd : forall clusterId labels x,
  nth x labels 0%Z = 0%Z \/ nth x labels 0%Z = (-1)%Z ->
  relabels clusterId labels (upd x clusterId labels).
Proof.
  intros clusterId labels x Hx. split; [apply upd_length|].
  intros a. destruct (Nat.eq_dec x a) as [<-|Hne].
  - destruct (Nat.lt_ge_cases x (length labels)) as [Hlt|Hge].
    + right. split; [assumption|]. now apply nth_upd_same.
    + left. rewrite !nth_overflow; auto. now rewrite upd_length.
  - left. now apply nth_upd_other.
Qed.

(** The inner loop returns within [n] iterations, and only turns undefined
    or noise labels into the current cluster id. *)
Lemma expandCluster_total : forall (fuel : nat) (clusterId : Z)
  (j : nat) (seedSet : list nat) (labels : list Z),
  NoDup seedSet ->
  (forall x, In x seedSet -> x < n) ->
  n <= fuel + j ->
  exists labels',
    expandCluster fuel vectors epsilon minPts clusterId j seedSet labels
      = Some labels'
    /\ relabels clusterId labels labels'.
Proof.
  induction fuel as [|fuel IH]; intros clusterId j seedSet labels Hnd Hb Hfuel.
  - simpl. destruct (nth_error seedSet j) as [x|] eqn:E.
    + assert (j < length seedSet) by (apply nth_error_Some; congruence).
      pose proof (seeds_length seedSet Hnd Hb). lia.
    + exists labels. split; [reflexivity|apply relabels_refl].
  - simpl. destruct (nth_error seedSet j) as [x|] eqn:E.
    2:{ exists labels. split; [reflexivity|apply relabels_refl]. }
    set (labels1 := if (nth x labels 0 =? -1)%Z
                    then upd x clusterId labels else labels).
    assert (R1 : relabels clusterId labels labels1).
    { unfold labels1. destruct (Z.eqb_spec (nth x labels 0%Z) (-1)).
      - apply relabels_upd. now right.
      - apply relabels_refl. }
    destruct (Z.eqb_spec (nth x labels1 0%Z) 0) as [Ez|Ez]; simpl.
    + set (seedSet' :=
             if nle minPts (ofNat (length (getNeighbors vectors epsilon x) + 1))
             then pushNew seedSet (getNeighbors vectors epsilon x)
             else seedSet).
      assert (Hs : NoDup seedSet' /\ forall y, In y seedSet' -> y < n).
      { unfold seedSet'.
        destruct (nle minPts
                    (ofNat (length (getNeighbors vectors epsilon x) + 1))).
        - apply pushNew_seeds; auto. apply getNeighbors_bound.
        - auto. }
      destruct Hs as [Hnd' Hb'].
      destruct (IH clusterId (S j) seedSet' (upd x clusterId labels1) Hnd' Hb')
        as [labels' [E' R']]; [lia|].
      exists labels'. split; [assumption|].
      apply (relabels_trans _ _ _ _ R1).
      apply (relabels_trans _ _ (upd x clusterId labels1)); [|assumption].
      apply relabels_upd. now left.
    + destruct (IH clusterId (S j) seedSet labels1 Hnd Hb)
        as [labels' [E' R']]; [lia|].
      exists labels'. split; [assumption|].
      now apply (relabels_trans _ _ _ _ R1).
Qed.

Lemma dbscanPoint_inv : forall (i : nat) (st : list Z * Z),
  i < n -> dbscanInv n i st ->
  exists st',
    dbscanPoint vectors epsilon minPts (Some st) i = Some st'
    /\ dbscanInv n (S i) st'.
Proof.
  intros i [labels clusterId] Hi (Hlen & Hcid & Hrange & Hcover & Hdone).
  simpl in *. unfold dbscanPoint.
  destruct (Z.eqb_spec (nth i labels 0%Z) 0) as [Ez|Ez]; simpl.
  2:{ exists (labels, clusterId). split; [reflexivity|].
      split_inv; auto.
      intros a Ha. destruct (Nat.eq_dec a i) as [->|]; auto.
      apply Hdone. lia. }
  destruct (nlt (ofNat (length (getNeighbors vectors epsilon i) + 1)) minPts).
  - (* noise *)
    exists (upd i (-1)%Z labels, clusterId). split; [reflexivity|].
    split_inv.
    + now rewrite upd_length.
    + assumption.
    + intros a Ha. rewrite nth_upd by lia. specialize (Hrange a Ha).
      destruct (i =? a)%nat; lia.
    + intros c Hc. destruct (Hcover c Hc) as [a [Ha Ea]]. exists a.
      split; [assumption|]. rewrite nth_upd_other; [assumption|].
      intros ->. lia.
    + intros a Ha. rewrite nth_upd by lia.
      destruct (Nat.eqb_spec i a); [lia|]. apply Hdone. lia.
  - (* a new cluster *)
    destruct (expandCluster_total n (clusterId + 1)%Z 0
                (getNeighbors vectors epsilon i)
                (upd i (clusterId + 1)%Z labels))
      as [labels' [E [Rlen R]]].
    + apply getNeighbors_NoDup.
    + apply getNeighbors_bound.
    + lia.
    + fold n. rewrite E. exists (labels', (clusterId + 1)%Z).
      split; [reflexivity|].
      rewrite upd_length in Rlen.
      assert (Hat : forall a, a < n ->
                nth a (upd i (clusterId + 1)%Z labels) 0%Z
                = if (i =? a)%nat then (clusterId + 1)%Z else nth a labels 0%Z).
      { intros a Ha. apply nth_upd. lia. }
      split_inv.
      * congruence.
      * lia.
      * intros a Ha. specialize (Hrange a Ha).
        destruct (R a) as [Ea|[_ Ea]]; rewrite Ea; [|lia].
        rewrite Hat by assumption.
        destruct (i =? a)%nat; lia.
      * intros c Hc. destruct (Z.eq_dec c (clusterId + 1)) as [->|Hne].
        -- exists i. split; [assumption|].
           destruct (R i) as [Ea|[Za _]]; rewrite Hat in * by assumption;
             rewrite Nat.eqb_refl in *; [assumption|lia].
        -- destruct (Hcover c) as [a [Ha Ea]]; [lia|].
           exists a. split; [assumption|].
           assert (Hia : (i =? a)%nat = false)
             by (apply Nat.eqb_neq; intros ->; lia).
           destruct (R a) as [Ea'|[Za _]]; rewrite Hat in * by assumption;
             rewrite Hia in *; [congruence|lia].
      * intros a Ha.
        assert (Han : a < n) by lia.
        destruct (R a) as [Ea|[_ Ea]]; rewrite Ea; [|lia].
        rewrite Hat by assumption.
        destruct (Nat.eqb_spec i a) as [->|Hne]; [lia|].
        apply Hdone. lia.
Qed.

(** The loops of [dbscan] return, and the invariant holds at the end. *)
Lemma dbscanRun_total :
  exists st, dbscanRun vectors epsilon minPts = Some st /\ dbscanInv n n st.
Proof.
  unfold dbscanRun. fold n.
  apply (fold_left_seq_inv _
           (fun i st => exists s, st = Some s /\ dbscanInv n i s)
           (dbscanPoint vectors epsilon minPts) n 0).
  - exists (repeat 0%Z n, 0%Z). split; [reflexivity|].
    split_inv.
    + apply repeat_length.
    + lia.
    + intros a Ha. rewrite nth_repeat. lia.
    + intros c Hc. lia.
    + intros a Ha. lia.
  - intros i st Hi [s [-> Hs]]. apply dbscanPoint_inv; [lia|assumption].
Qed.

End DbscanProperties.

(** C3.  [dbscan] returns one label per point; every label is [-1] or lies in
    [0 .. numClusters - 1], and every value of that range labels some point,
    where [numClusters] is the number of clusters the run created. *)
Theorem dbscan_labels_contiguous :
  forall (num : Type) (N : JsNumber num)
    (vectors : list (list num)) (epsilon minPts : num),
  exists (labels : list Z) (numClusters : Z),
    dbscan vectors epsilon minPts = Some labels
    /\ length labels = length vectors
    /\ (0 <= numClusters)%Z
    /\ (forall l, In l labels -> l = (-1)%Z \/ (0 <= l < numClusters)%Z)
    /\ (forall c, (0 <= c < numClusters)%Z -> In c labels).
Proof.
  intros num N vectors epsilon minPts.
  destruct (dbscanRun_total vectors epsilon minPts)
    as [[labels clusterId] [E (Hlen & Hcid & Hrange & Hcover & Hdone)]].
  simpl in *.
  exists (map normalizeLabel labels), clusterId. unfold dbscan. rewrite E.
  split; [reflexivity|]. split; [now rewrite length_map|].
  split; [assumption|]. split.
  - intros l Hl. apply in_map_iff in Hl. destruct Hl as [x [<- Hx]].
    destruct (In_nth _ _ 0%Z Hx) as [a [Ha Ea]].
    rewrite Hlen in Ha. specialize (Hrange a Ha). specialize (Hdone a Ha).
    rewrite Ea in *. unfold normalizeLabel.
    destruct (Z.eqb_spec x (-1)); [now left|right; lia].
  - intros c Hc. destruct (Hcover (c + 1)%Z) as [a [Ha Ea]]; [lia|].
    apply in_map_iff. exists (c + 1)%Z. split.
    + unfold normalizeLabel. destruct (Z.eqb_spec (c + 1) (-1)); lia.
    + rewrite <- Ea. apply nth_In. lia.
Qed.

(** ** Exact arithmetic *)

Section ExactArithmetic.

Local Open Scope R_scope.

Lemma Rltb_true : forall a b, a < b -> Rltb a b = true.
Proof. intros a b Hab. unfold Rltb. destruct (Rlt_dec a b); tauto. Qed.

Lemma Rltb_false : forall a b, b <= a -> Rltb a b = false.
Proof. intros a b Hab. unfold Rltb. destruct (Rlt_dec a b); [lra|reflexivity]. Qed.


Lemma Reqb_false : forall a b, a <> b -> Reqb a b = false.
Proof. intros a b Hab. unfold Reqb. destruct (Req_dec_T a b); tauto. Qed.

Lemma xsqrt_finite : forall r, 0 <= r -> xsqrt (XFin r) = XFin (sqrt r).
Proof. intros r Hr. unfold xsqrt. now rewrite Rltb_false. Qed.

Lemma xdiv_finite : forall a b, b <> 0 -> xdiv (XFin a) (XFin b) = XFin (a / b).
Proof. intros a b Hb. unfold xdiv. now rewrite Reqb_false. Qed.

Lemma xeq_finite : forall a b, xeq (XFin a) (XFin b) = Reqb a b.
Proof. reflexivity. Qed.

Lemma xlt_finite : forall a b, xlt (XFin a) (XFin b) = Rltb a b.
Proof. reflexivity. Qed.

Lemma square_nonneg : forall a : R, 0 <= a * a.
Proof. intros a. apply Rle_0_sqr. Qed.

Lemma square_pos : forall a : R, a <> 0 -> 0 < a * a.
Proof. intros a Ha. now apply Rsqr_pos_lt. Qed.

(** *** Distances and norms of finite vectors *)

Lemma sumSquaredDiffs_finite : forall (u w : list xreal) (s : R),
  finiteVector u -> finiteVector w -> length u = length w -> 0 <= s ->
  exists r,
    sumSquaredDiffs u w (XFin s) = XFin r /\ s <= r /\ (u <> w -> s < r).
Proof.
  induction u as [|x u IH]; intros [|y w] s Hu Hw Hlen Hs;
    simpl in Hlen; try discriminate.
  - exists s. simpl. split; [reflexivity|]. split; [lra|congruence].
  - inversion Hu as [|? ? Hx Hu']; inversion Hw as [|? ? Hy Hw']; subst.
    destruct x as [| |x]; try contradiction.
    destruct y as [| |y]; try contradiction.
    injection Hlen as Hlen.
    pose proof (square_nonneg (x + - y)) as Hsq.
    destruct (IH w (s + (x + - y) * (x + - y)) Hu' Hw' Hlen) as [r [Er [Hr Hne]]];
      [lra|].
    exists r. simpl. split; [exact Er|]. split; [lra|].
    intros Hdiff. destruct (Req_dec x y) as [->|Hxy].
    + assert (u <> w) by congruence. specialize (Hne H). lra.
    + assert (0 < (x + - y) * (x + - y)) by (apply square_pos; lra). lra.
Qed.

Lemma euclideanDistance_finite : forall u w : list xreal,
  finiteVector u -> finiteVector w -> length u = length w ->
  exists r, euclideanDistance u w = XFin r /\ 0 <= r /\ (u <> w -> 0 < r).
Proof.
  intros u w Hu Hw Hlen. unfold euclideanDistance.
  destruct (sumSquaredDiffs_finite u w 0 Hu Hw Hlen) as [r [Er [Hr Hne]]];
    [lra|].
  simpl n0. rewrite Er. simpl nsqrt. rewrite xsqrt_finite by assumption.
  exists (sqrt r). split; [reflexivity|]. split; [apply sqrt_pos|].
  intros Hdiff. apply sqrt_lt_R0. auto.
Qed.



End ExactArithmetic.

(** ** A single cluster: the shape of the computation *)

Section SingleClusterShape.

Context {num : Type} `{JsNumber num}.

Lemma uniqueZ_seen : forall (c : Z) (xs seen : list Z),
  (forall l, In l xs -> l = c) -> In c seen -> uniqueZ seen xs = [].
Proof.
  intros c. induction xs as [|x xs IH]; intros seen Hall Hc; simpl; auto.
  assert (x = c) by (apply Hall; now left). subst x.
  assert (E : existsb (Z.eqb c) seen = true).
  { apply existsb_exists. exists c. split; [assumption|apply Z.eqb_refl]. }
  rewrite E. apply IH; auto. intros l Hl. apply Hall. now right.
Qed.

Lemma uniqueZ_constant : forall (c : Z) (xs seen : list Z),
  (forall l, In l xs -> l = c) -> length (uniqueZ seen xs) <= 1.
Proof.
  intros c. induction xs as [|x xs IH]; intros seen Hall; simpl; auto.
  assert (x = c) by (apply Hall; now left). subst x.
  assert (Hrest : forall l, In l xs -> l = c) by (intros l Hl; apply Hall; now right).
  destruct (existsb (Z.eqb c) seen); [now apply IH|].
  rewrite (uniqueZ_seen c xs (c :: seen) Hrest); [simpl; lia|now left].
Qed.

Variable vectors : list (list num).
Variable labels : list Z.
Variable c : Z.

Let n := length vectors.

Hypothesis one_label_each : length labels = n.
Hypothesis one_cluster : forall l, In l labels -> l = c.
Hypothesis not_noise : c <> (-1)%Z.

Lemma label_of_point : forall i, i < n -> nth_error labels i = Some c.
Proof.
  intros i Hi. destruct (nth_error labels i) as [l|] eqn:E.
  - f_equal. apply one_cluster. eapply nth_error_In; eassumption.
  - apply nth_error_None in E. lia.
Qed.

(** With fewer than two clusters the Davies-Bouldin and Calinski-Harabasz
    indices are 0, and nothing throws. *)
Lemma single_cluster_bundle :
  calculateClusteringMetrics vectors labels
  = Ok (mkMetrics (calculateSilhouetteScore vectors labels) n0 n0).
Proof.
  unfold calculateClusteringMetrics.
  set (uniqueClusters := filter (fun l => negb (l =? -1)%Z) (uniqueZ [] labels)).
  assert (Hk : length uniqueClusters <= 1).
  { unfold uniqueClusters.
    pose proof (uniqueZ_constant c labels [] one_cluster).
    pose proof (filter_length_le (fun l => negb (l =? -1)%Z) (uniqueZ [] labels)).
    lia. }
  unfold calculateDaviesBouldinIndex, calculateCalinskiHarabaszIndex.
  destruct (Nat.ltb_spec (length uniqueClusters) 2); [|lia]. reflexivity.
Qed.

(** The inner loop meets every other point in the cluster of point [i] and
    no other cluster. *)
Lemma silhouetteSums_single_cluster : forall i vi,
  nth_error vectors i = Some vi ->
  exists a, silhouetteSums vectors labels i vi (Some c) = (a, n - 1, []).
Proof.
  intros i vi Hi. unfold silhouetteSums.
  assert (Hin : i < n) by (apply nth_error_Some; congruence).
  pose proof (fold_left_combine_inv _ _
    (fun j (acc : SilhouetteAcc (num := num)) =>
       exists a, acc = (a, othersBefore i j, []))
    (silhouetteInner labels i vi (Some c)) vectors 0 (n0, O, [])) as Hfold.
  cbn [Nat.add] in Hfold. fold n in Hfold. unfold indexed. fold n.
  destruct Hfold as [a Ea].
  - exists n0. reflexivity.
  - intros j vj acc Hj [a ->].
    assert (Hjn : j < n) by (apply nth_error_Some; congruence).
    unfold silhouetteInner.
    destruct (Nat.eqb_spec i j) as [->|Hij].
    + exists a. unfold othersBefore.
      destruct (Nat.ltb_spec j j); [lia|].
      destruct (Nat.ltb_spec j (S j)); [|lia].
      now replace (S j - 1) with j by lia.
    + rewrite (label_of_point j Hjn). simpl labelEqb.
      destruct (Z.eqb_spec c (-1)); [contradiction|].
      rewrite Z.eqb_refl. eexists. f_equal. f_equal. unfold othersBefore.
      destruct (Nat.ltb_spec i j), (Nat.ltb_spec i (S j)); lia.
  - exists a. rewrite Ea. unfold othersBefore.
    destruct (Nat.ltb_spec i n); [reflexivity|lia].
Qed.

(** Every point is scored: with no other cluster [b] is taken from the
    initial [Infinity], and the score is [(b - a) / max(a, b)] for the mean
    distance [a] to the other points. *)
Lemma silhouettePoint_single_cluster : forall i vi total valid,
  2 <= n -> nth_error vectors i = Some vi ->
  silhouettePoint vectors labels (total, valid) (i, vi)
  = (nadd total
       (let a := meanSameClusterDistance vectors labels i vi in
        let b := if neq nInfinity nInfinity then n0 else nInfinity in
        let maxAB := nmax a b in
        if neq maxAB n0 then n0 else ndiv (nsub b a) maxAB),
     S valid).
Proof.
  intros i vi total valid Hn Hi.
  assert (Hin : i < n) by (apply nth_error_Some; congruence).
  unfold silhouettePoint, meanSameClusterDistance.
  rewrite (label_of_point i Hin). simpl labelEqb.
  destruct (Z.eqb_spec c (-1)); [contradiction|].
  destruct (silhouetteSums_single_cluster i vi Hi) as [a Ea]. rewrite Ea.
  destruct (Nat.eqb_spec (n - 1) 0); [lia|]. reflexivity.
Qed.

End SingleClusterShape.

(** ** The silhouette score of a single cluster, in exact arithmetic *)

Section SingleCluster.

Local Open Scope R_scope.

Variable vectors : list (list xreal).
Variable labels : list Z.
Variable c : Z.
Variable d : nat.

Let n := length vectors.

Hypothesis two_points : (2 <= n)%nat.
Hypothesis distinct : NoDup vectors.
Hypothesis well_formed :
  forall v, In v vectors -> length v = d /\ finiteVector v.
Hypothesis one_label_each : length labels = n.
Hypothesis one_cluster : forall l, In l labels -> l = c.
Hypothesis not_noise : c <> (-1)%Z.

Lemma distance_between_points : forall i j vi vj,
  nth_error vectors i = Some vi -> nth_error vectors j = Some vj -> i <> j ->
  exists r, euclideanDistance vi vj = XFin r /\ 0 < r.
Proof.
  intros i j vi vj Hi Hj Hij.
  destruct (well_formed vi (nth_error_In _ _ Hi)) as [Li Fi].
  destruct (well_formed vj (nth_error_In _ _ Hj)) as [Lj Fj].
  destruct (euclideanDistance_finite vi vj Fi Fj) as [r [Er [_ Hr]]];
    [congruence|].
  exists r. split; [assumption|]. apply Hr. intros ->.
  apply Hij. apply (proj1 (NoDup_nth_error vectors) distinct).
  - apply nth_error_Some. congruence.
  - congruence.
Qed.

(** The inner loop adds up the distances to all the other points: they all
    carry the label of the point, and no other cluster is met. *)
Lemma silhouetteInner_single : forall i vi,
  nth_error vectors i = Some vi ->
  exists r,
    silhouetteSums vectors labels i vi (Some c) = (XFin r, (n - 1)%nat, [])
    /\ 0 < r.
Proof.
  intros i vi Hi. unfold silhouetteSums.
  assert (Hin : (i < n)%nat) by (apply nth_error_Some; congruence).
  pose proof (fold_left_combine_inv _ _
    (fun j (acc : SilhouetteAcc (num := xreal)) =>
       exists r, acc = (XFin r, othersBefore i j, [])
                 /\ 0 <= r /\ ((0 < othersBefore i j)%nat -> 0 < r))
    (silhouetteInner labels i vi (Some c)) vectors 0%nat (n0, O, [])) as Hfold.
  simpl in Hfold. fold n in Hfold. unfold indexed. fold n.
  destruct Hfold as [r [Er [Hr Hpos]]].
  - exists 0. unfold othersBefore. simpl. split; [reflexivity|].
    split; [lra|lia].
  - intros j vj acc Hj [r [-> [Hr Hpos]]].
    assert (Hjn : (j < n)%nat) by (apply nth_error_Some; congruence).
    unfold silhouetteInner.
    destruct (Nat.eqb_spec i j) as [->|Hij].
    + exists r. unfold othersBefore in *.
      destruct (Nat.ltb_spec j j); [lia|].
      destruct (Nat.ltb_spec j (S j)); [|lia].
      replace (S j - 1)%nat with j by lia. auto.
    + destruct (distance_between_points i j vi vj Hi Hj Hij) as [dist [Ed Hd]].
      rewrite Ed, (label_of_point vectors labels c one_label_each one_cluster j Hjn). simpl labelEqb.
      destruct (Z.eqb_spec c (-1)); [contradiction|].
      rewrite Z.eqb_refl. simpl.
      exists (r + dist). split; [|split; [lra|intros _; lra]].
      f_equal. f_equal. unfold othersBefore.
      destruct (Nat.ltb_spec i j), (Nat.ltb_spec i (S j)); lia.
  - exists r. unfold othersBefore in *.
    destruct (Nat.ltb_spec i n); [|lia].
    split; [assumption|]. apply Hpos. lia.
Qed.

(** Every point is scored, and its score is [(0 - a) / a = -1]. *)
Lemma silhouettePoint_single : forall i vi total valid,
  nth_error vectors i = Some vi ->
  silhouettePoint vectors labels (XFin total, valid) (i, vi)
  = (XFin (total + -1), S valid).
Proof.
  intros i vi total valid Hi.
  assert (Hin : (i < n)%nat) by (apply nth_error_Some; congruence).
  unfold silhouettePoint. rewrite (label_of_point vectors labels c one_label_each one_cluster i Hin). simpl labelEqb.
  destruct (Z.eqb_spec c (-1)); [contradiction|].
  destruct (silhouetteInner_single i vi Hi) as [r [Er Hr]]. rewrite Er.
  destruct (Nat.eqb_spec (n - 1) 0); [lia|].
  assert (Hcount : 0 < INR (n - 1)) by (apply lt_0_INR; lia).
  assert (Ha : 0 < r / INR (n - 1)) by (now apply Rdiv_lt_0_compat).
  simpl. rewrite xdiv_finite by lra. simpl.
  rewrite ?xlt_finite, ?(Rltb_false (r / INR (n - 1)) 0) by lra.
  rewrite xeq_finite, (Reqb_false (r / INR (n - 1)) 0) by lra.
  rewrite xdiv_finite by lra. f_equal. f_equal. field. split; lra.
Qed.

Lemma calculateSilhouetteScore_single :
  calculateSilhouetteScore vectors labels = XFin (-1).
Proof.
  unfold calculateSilhouetteScore. fold n.
  destruct (Nat.ltb_spec n 2); [lia|].
  pose proof (fold_left_combine_inv _ _
    (fun i (st : xreal * nat) => st = (XFin (- INR i), i))
    (silhouettePoint vectors labels) vectors 0%nat (n0, O)) as Hfold.
  cbn [Nat.add] in Hfold. fold n in Hfold. unfold indexed. fold n.
  rewrite Hfold.
  - destruct (Nat.ltb_spec 0 n); [|lia].
    assert (0 < INR n) by (apply lt_0_INR; lia).
    simpl. rewrite xdiv_finite by lra. f_equal. field. lra.
  - simpl. f_equal. f_equal. lra.
  - intros i vi st Hi ->. rewrite (silhouettePoint_single i vi _ _ Hi).
    f_equal. f_equal. rewrite S_INR. lra.
Qed.

Lemma single_cluster_metrics :
  calculateClusteringMetrics vectors labels
  = Ok (mkMetrics (XFin (-1)) n0 n0).
Proof.
  rewrite (single_cluster_bundle vectors labels c one_label_each one_cluster).
  now rewrite calculateSilhouetteScore_single.
Qed.

End SingleCluster.

(** ** The U-Matrix: the shape of the computation *)

Section UMatrixShape.

Context {num : Type} `{JsNumber num}.

Variable som : SOM (num := num).
Hypothesis grid_shape : gridShape som.

Let w := width som.
Let h := height som.

Lemma weightAt_defined : forall x y, x < w -> y < h ->
  exists column v,
    nth_error (weights som) x = Some column
    /\ nth_error column y = Some v
    /\ weightAt som x y = Ok (Some v).
Proof.
  intros x y Hx Hy. unfold weightAt. destruct grid_shape as [Hlen Hcols].
  destruct (nth_error (weights som) x) as [column|] eqn:Ex.
  - specialize (Hcols x column Ex).
    destruct (nth_error column y) as [v|] eqn:Ey.
    + exists column, v. auto.
    + apply nth_error_None in Ey. unfold h in Hy. lia.
  - apply nth_error_None in Ex. unfold w in Hx. lia.
Qed.

Lemma distanceU_returns : forall a b : list num,
  exists dist, euclideanDistanceU (Some a) (Some b) = Ok dist.
Proof. intros [|x a] b; eexists; reflexivity. Qed.

Lemma neighborStep_returns : forall x y (st : num * nat) (dxy : Z * Z),
  x < w -> y < h -> exists st', neighborStep som x y st dxy = Ok st'.
Proof.
  intros x y [sumDist count] [dx dy] Hx Hy. unfold neighborStep.
  cbn [fst snd]. fold w h.
  destruct ((0 <=? Z.of_nat x + dx)%Z && (Z.of_nat x + dx <? Z.of_nat w)%Z
            && (0 <=? Z.of_nat y + dy)%Z && (Z.of_nat y + dy <? Z.of_nat h)%Z)
    eqn:Hin; [|eexists; reflexivity].
  apply andb_true_iff in Hin. destruct Hin as [Hin Hd].
  apply andb_true_iff in Hin. destruct Hin as [Hin Hc].
  apply andb_true_iff in Hin. destruct Hin as [Ha Hb].
  apply Z.leb_le in Ha, Hc. apply Z.ltb_lt in Hb, Hd.
  destruct (weightAt_defined x y Hx Hy) as (_ & va & _ & _ & Eva).
  destruct (weightAt_defined (Z.to_nat (Z.of_nat x + dx))
              (Z.to_nat (Z.of_nat y + dy))) as (_ & vb & _ & _ & Evb);
    [lia|lia|].
  destruct (distanceU_returns va vb) as [dist Ed].
  rewrite Eva. cbn [bind]. rewrite Evb. cbn [bind]. rewrite Ed. cbn [bind].
  eexists. reflexivity.
Qed.

Lemma rawCell_returns : forall x y, x < w -> y < h ->
  exists v, rawCell som x y = Ok v.
Proof.
  intros x y Hx Hy. unfold rawCell.
  destruct (forEach_preserve _ _ (fun _ : num * nat => True)
              (neighborStep som x y) neighborOffsets (n0, O))
    as [st [E _]].
  - exact I.
  - intros dxy st _ _.
    destruct (neighborStep_returns x y st dxy Hx Hy) as [st' E'].
    exists st'. auto.
  - rewrite E. cbn [bind]. eexists. reflexivity.
Qed.

(** *** The raw value is the mean distance to the existing neighbors *)

Lemma weightAt_prototype : forall x y, x < w -> y < h ->
  weightAt som x y = Ok (Some (prototype som (x, y))).
Proof.
  intros x y Hx Hy.
  destruct (weightAt_defined x y Hx Hy) as (column & v & Ex & Ey & E).
  rewrite E. unfold prototype. cbn [fst snd].
  rewrite (nth_error_nth _ _ [] Ex). now rewrite (nth_error_nth _ _ [] Ey).
Qed.

Lemma euclideanDistanceU_defined : forall a b : list num,
  euclideanDistanceU (Some a) (Some b) = Ok (euclideanDistance a b).
Proof. intros [|x a] b; reflexivity. Qed.

(** The neighbors the loop reaches through a list of offsets. *)
Let reached (x y : nat) (ds : list (Z * Z)) : list (nat * nat) :=
  map (fun p => (Z.to_nat (fst p), Z.to_nat (snd p)))
    (filter (insideGrid som)
       (map (fun d => (Z.of_nat x + fst d, Z.of_nat y + snd d)%Z) ds)).

Lemma neighborLoop_sum : forall x y, x < w -> y < h ->
  forall (ds : list (Z * Z)) (sumDist : num) (count : nat),
  forEach ds (neighborStep som x y) (sumDist, count)
  = Ok (fold_left nadd
          (map (fun q => euclideanDistance (prototype som (x, y))
                           (prototype som q)) (reached x y ds)) sumDist,
        length (reached x y ds) + count).
Proof.
  intros x y Hx Hy. induction ds as [|[dx dy] ds IH]; intros sumDist count.
  - reflexivity.
  - cbn [forEach]. unfold neighborStep at 1. cbn [fst snd].
    unfold reached. cbn [map filter].
    change ((0 <=? Z.of_nat x + dx)%Z
            && (Z.of_nat x + dx <? Z.of_nat (width som))%Z
            && (0 <=? Z.of_nat y + dy)%Z
            && (Z.of_nat y + dy <? Z.of_nat (height som))%Z)
      with (insideGrid som (Z.of_nat x + dx, Z.of_nat y + dy)%Z).
    destruct (insideGrid som (Z.of_nat x + dx, Z.of_nat y + dy)%Z) eqn:Hin.
    + pose proof Hin as Hinside.
      unfold insideGrid in Hin. cbn [fst snd] in Hin.
      apply andb_true_iff in Hin. destruct Hin as [Hin Hd].
      apply andb_true_iff in Hin. destruct Hin as [Hin Hc].
      apply andb_true_iff in Hin. destruct Hin as [Ha Hb].
      apply Z.leb_le in Ha, Hc. apply Z.ltb_lt in Hb, Hd.
      rewrite (weightAt_prototype x y Hx Hy). cbn [bind].
      rewrite weightAt_prototype by (unfold w, h; lia). cbn [bind].
      rewrite euclideanDistanceU_defined. cbn [bind].
      rewrite IH. unfold reached. cbn [map filter fst snd].
      rewrite Hinside. cbn [map fold_left length fst snd].
      rewrite Nat.add_succ_r. reflexivity.
    + cbn [bind]. rewrite IH. unfold reached. cbn [map filter fst snd].
      rewrite Hin. reflexivity.
Qed.

Lemma rawCell_mean : forall x y, x < w -> y < h ->
  rawCell som x y = Ok (meanNeighborDistance som x y).
Proof.
  intros x y Hx Hy. unfold rawCell.
  rewrite (neighborLoop_sum x y Hx Hy). cbn [bind fst snd].
  unfold meanNeighborDistance.
  assert (E : existingNeighbors som x y = reached x y neighborOffsets).
  { unfold existingNeighbors, reached, neighborOffsets. cbn [map fst snd].
    rewrite !Z.add_0_r. reflexivity. }
  rewrite E, Nat.add_0_r.
  rewrite <- (length_map (fun q => euclideanDistance (prototype som (x, y))
                                    (prototype som q))).
  destruct (map _ (reached x y neighborOffsets)); reflexivity.
Qed.

(** The first pair of loops fills every cell with its raw value. *)
Lemma rawUMatrix_cells :
  exists raw, rawUMatrix som = Ok raw /\ rawInv som w 0 raw.
Proof.
  unfold rawUMatrix. fold w h.
  apply (forEach_seq_inv _ (fun x => rawInv som x 0) _ w 0).
  - split; [apply repeat_rect|]. intros a b _ _ [Hv|[_ Hv]]; lia.
  - intros x uMatrix Hx Hinv.
    destruct (forEach_seq_inv _ (rawInv som x)
                (fun uMatrix y => v <- rawCell som x y ;; Ok (setCell uMatrix x y v))
                h 0 uMatrix Hinv) as [uMatrix' [E [Hrect Hcells]]].
    + intros y U Hy [Hrect Hcells].
      destruct (rawCell_returns x y) as [v Ev]; [lia|lia|].
      rewrite Ev. cbn [bind]. eexists. split; [reflexivity|]. split.
      * apply setCell_rect; [assumption|lia].
      * intros a b Ha Hb Hvis.
        rewrite (cell_setCell w h U x y a b _ Hrect) by lia.
        destruct (Nat.eqb_spec x a) as [<-|Hxa];
          destruct (Nat.eqb_spec y b) as [<-|Hyb]; simpl.
        -- assumption.
        -- apply Hcells; auto. unfold visitedBefore in *. lia.
        -- apply Hcells; auto. unfold visitedBefore in *. lia.
        -- apply Hcells; auto. unfold visitedBefore in *. lia.
    + exists uMatrix'. split; [assumption|]. split; [assumption|].
      intros a b Ha Hb Hvis. apply Hcells; auto.
      unfold visitedBefore in *. lia.
Qed.

(** *** The positions of the grid *)

Lemma gridCells_In : forall x y,
  In (x, y) (gridCells som) <-> x < w /\ y < h.
Proof.
  intros x y. unfold gridCells. fold w h. rewrite in_flat_map. split.
  - intros [x' [Hx' Hxy]]. apply in_map_iff in Hxy.
    destruct Hxy as [y' [Exy Hy']]. injection Exy as <- <-.
    apply in_seq in Hx', Hy'. lia.
  - intros [Hx Hy]. exists x. split; [apply in_seq; lia|].
    apply in_map_iff. exists y. split; [reflexivity|apply in_seq; lia].
Qed.

Lemma gridCells_NoDup : NoDup (gridCells som).
Proof.
  unfold gridCells. generalize (seq 0 (height som)) (seq_NoDup (height som) 0).
  intros ys Hys.
  generalize (seq 0 (width som)) (seq_NoDup (width som) 0).
  induction l as [|x xs IH]; intros Hxs; simpl.
  - constructor.
  - inversion Hxs as [|? ? Hx Hxs']; subst. apply NoDup_app.
    + apply NoDup_map_NoDup_ForallPairs; [|assumption].
      intros a b _ _ E. now injection E.
    + now apply IH.
    + intros [a b] Hab Hrest. apply in_map_iff in Hab.
      destruct Hab as [y [E _]]. injection E as <- <-.
      apply in_flat_map in Hrest. destruct Hrest as [x' [Hx' Hxy]].
      apply in_map_iff in Hxy. destruct Hxy as [y' [E' _]].
      injection E' as -> _. contradiction.
Qed.

(** *** The third pair of loops *)

Variable raw : list (list num).
Hypothesis raw_rect : rect w h raw.
Variables max min : num.

Lemma normalizeUMatrix_cells :
  normInv som raw max min (gridCells som) (normalizeUMatrix som raw max min).
Proof.
  unfold normalizeUMatrix.
  apply (fold_left_prefix_inv _ _ (normInv som raw max min)).
  - split; [apply raw_rect|]. intros a b _ _. split; [intros []|reflexivity].
  - intros visited [a0 b0] rest U Hxs [Hrect Hcells]. cbn [fst snd].
    assert (Hc : In (a0, b0) (gridCells som)).
    { rewrite Hxs. apply in_app_iff. right. now left. }
    apply gridCells_In in Hc. destruct Hc as [Ha0 Hb0].
    assert (Hfresh : ~ In (a0, b0) visited).
    { pose proof gridCells_NoDup as Hnd. rewrite Hxs in Hnd.
      apply NoDup_remove_2 in Hnd. intros Hin. apply Hnd.
      apply in_app_iff. now left. }
    rewrite (proj2 (Hcells a0 b0 Ha0 Hb0) Hfresh).
    fold (normalized raw max min a0 b0).
    split; [apply setCell_rect; assumption|].
    intros a b Ha Hb.
    rewrite (cell_setCell w h U a0 b0 a b _ Hrect Ha0 Hb0).
    destruct (Nat.eqb_spec a0 a) as [<-|Hxa];
      destruct (Nat.eqb_spec b0 b) as [<-|Hyb]; simpl.
    + split; [reflexivity|]. intros Hn. exfalso. apply Hn.
      apply in_app_iff. right. now left.
    + split.
      * intros Hin. apply in_app_iff in Hin.
        destruct Hin as [Hin|[E|[]]]; [now apply Hcells|congruence].
      * intros Hn. apply Hcells; auto. intros Hin. apply Hn.
        apply in_app_iff. now left.
    + split.
      * intros Hin. apply in_app_iff in Hin.
        destruct Hin as [Hin|[E|[]]]; [now apply Hcells|congruence].
      * intros Hn. apply Hcells; auto. intros Hin. apply Hn.
        apply in_app_iff. now left.
    + split.
      * intros Hin. apply in_app_iff in Hin.
        destruct Hin as [Hin|[E|[]]]; [now apply Hcells|congruence].
      * intros Hn. apply Hcells; auto. intros Hin. apply Hn.
        apply in_app_iff. now left.
Qed.

End UMatrixShape.

(** For every number type: on a grid of [width] x [height] prototypes
    [getUMatrix] returns a [width] x [height] matrix whose cell [(x, y)] is
    [(raw - min) / (max - min || 1)] for the raw value of the cell and the
    [max] and [min] of the scan. *)
Lemma getUMatrix_cells :
  forall (num : Type) (N : JsNumber num) (som : SOM (num := num)),
  gridShape som ->
  exists (raw : list (list num)) (max min : num) (uMatrix : list (list num)),
    rawUMatrix som = Ok raw
    /\ maxMin som raw = (max, min)
    /\ getUMatrix som = Ok uMatrix
    /\ rect (width som) (height som) uMatrix
    /\ forall x y, x < width som -> y < height som ->
         cell raw x y = meanNeighborDistance som x y
         /\ cell uMatrix x y
            = ndiv (nsub (cell raw x y) min) (orOne (nsub max min)).
Proof.
  intros num N som Hshape.
  destruct (rawUMatrix_cells som Hshape) as [raw [Eraw [Hrect Hraw]]].
  destruct (maxMin som raw) as [max min] eqn:Emm.
  pose proof (normalizeUMatrix_cells som raw Hrect max min) as [Hrect' Hnorm].
  exists raw, max, min, (normalizeUMatrix som raw max min).
  split; [assumption|]. split; [exact Emm|].
  split; [unfold getUMatrix; rewrite Eraw; cbn [bind]; now rewrite Emm|].
  split; [assumption|].
  intros x y Hx Hy. split.
  - assert (E : rawCell som x y = Ok (cell raw x y))
      by (apply Hraw; auto; now left).
    rewrite (rawCell_mean som Hshape x y Hx Hy) in E. now injection E.
  - apply (proj1 (Hnorm x y Hx Hy)). now apply gridCells_In.
Qed.

(** ** Binary64 arithmetic *)

Section Binary64.

Local Open Scope float_scope.

(** The quotient of a finite nonzero mantissa by itself is exact. *)
Lemma SFdiv_core_self : forall (m : positive) (e : Z),
  SFdiv_core_binary prec emax (Z.pos m) e (Z.pos m) e
  = ((2 ^ 53)%Z, (-53)%Z, loc_Exact).
Proof.
  intros m e. unfold SFdiv_core_binary.
  replace (Zdigits2 (Z.pos m) + e - (Zdigits2 (Z.pos m) + e))%Z with 0%Z by lia.
  replace (e - e)%Z with 0%Z by lia.
  change (IntDef.Z.min (fexp prec emax 0) 0) with (-53)%Z.
  cbv zeta. change (0 - -53)%Z with 53%Z. cbv iota.
  change (IntDef.Z.shiftl (Z.pos m) 53) with (Z.shiftl (Z.pos m) 53).
  change IntDef.Z.div_eucl with Z.div_eucl.
  rewrite Z.shiftl_mul_pow2 by lia.
  rewrite Z.mul_comm.
  pose proof (Z.div_mul (2 ^ 53) (Z.pos m) ltac:(lia)) as Hd.
  pose proof (Z.mod_mul (2 ^ 53) (Z.pos m) ltac:(lia)) as Hb.
  unfold Z.div, Z.modulo in Hd, Hb.
  destruct (Z.div_eucl (2 ^ 53 * Z.pos m) (Z.pos m)) as [q r].
  subst q r.
  unfold new_location. destruct (IntDef.Z.even (Z.pos m)); reflexivity.
Qed.

Lemma SFdiv_self : forall (s s' : bool) (m : positive) (e : Z),
  SF64div (S754_finite s m e) (S754_finite s' m e)
  = if xorb s s' then Prim2SF (-1) else Prim2SF 1.
Proof.
  intros s s' m e. unfold SF64div, SFdiv. rewrite SFdiv_core_self.
  destruct (xorb s s'); vm_compute; reflexivity.
Qed.

Lemma float_finite_nonzero : forall a : float,
  PrimFloat.is_finite a = true -> (a =? 0) = false ->
  exists s m e, Prim2SF a = S754_finite s m e.
Proof.
  intros a Hf Hz.
  unfold PrimFloat.is_finite, PrimFloat.is_nan, PrimFloat.is_infinity in Hf.
  rewrite !FloatAxioms.eqb_spec, FloatAxioms.abs_spec in Hf.
  rewrite FloatAxioms.eqb_spec in Hz.
  destruct (Prim2SF a) as [s|s| |s m e]; try discriminate.
  - destruct s; discriminate.
  - eauto.
Qed.


(** [(0 - a) / a] is exactly -1 for a finite nonzero [a]. *)
Lemma float_neg_div_self : forall a : float,
  PrimFloat.is_finite a = true -> (a =? 0) = false -> (0 - a) / a = -1.
Proof.
  intros a Hf Hz. apply Prim2SF_inj. rewrite FloatAxioms.div_spec, FloatAxioms.sub_spec.
  destruct (float_finite_nonzero a Hf Hz) as [s [m [e E]]]. rewrite E.
  change (Prim2SF 0) with (S754_zero false).
  unfold SF64sub, SFsub. cbn -[SF64div].
  rewrite (SFdiv_self (negb s) s). now destruct s.
Qed.


End Binary64.

(** ** Binary64: sums of integers below 2^53 are exact *)

Section Binary64Integers.

Local Open Scope Z_scope.

(** [iter_pos] of SpecFloat is [Pos.iter]. *)
Lemma iter_pos_iter : forall (A : Type) (f : A -> A) (n : positive) (x : A),
  SpecFloat.iter_pos f n x = Pos.iter f x n.
Proof.
  intros A f. induction n as [n IH|n IH|]; intros x; simpl.
  - rewrite !IH, !Pos.iter_swap. reflexivity.
  - rewrite !IH. reflexivity.
  - reflexivity.
Qed.

Lemma Zpos_iter_xO : forall (k p : positive),
  Z.pos (Pos.iter xO p k) = Z.pos p * 2 ^ Z.pos k.
Proof.
  intros k p. induction k as [|k IH] using Pos.peano_ind.
  - simpl. lia.
  - rewrite Pos.iter_succ, Pos2Z.inj_xO, IH, Pos2Z.inj_succ, Z.pow_succ_r by lia.
    lia.
Qed.

Lemma digits2_pos_iter_xO : forall (k p : positive),
  Z.pos (digits2_pos (Pos.iter xO p k)) = Z.pos (digits2_pos p) + Z.pos k.
Proof.
  intros k p. induction k as [|k IH] using Pos.peano_ind.
  - simpl. lia.
  - rewrite Pos.iter_succ. simpl digits2_pos. lia.
Qed.

Lemma shr_exact : forall (k q : positive),
  Pos.iter shr_1 (Build_shr_record (Z.pos (Pos.iter xO q k)) false false) k
  = Build_shr_record (Z.pos q) false false.
Proof.
  intros k. induction k as [|k IH] using Pos.peano_ind; intros q.
  - reflexivity.
  - rewrite Pos.iter_succ, <- Pos.iter_swap. 
    rewrite Pos.iter_succ. simpl shr_1. apply IH.
Qed.

Lemma fexp_small : forall x : Z, -1021 <= x -> fexp prec emax x = x - 53.
Proof. intros x Hx. unfold fexp, emin, prec, emax. lia. Qed.

Lemma digits2_pos_lower : forall p : positive,
  2 ^ (Z.pos (digits2_pos p) - 1) <= Z.pos p.
Proof.
  induction p as [p IH|p IH|]; simpl digits2_pos.
  - rewrite Pos2Z.inj_succ. replace (Z.succ (Z.pos (digits2_pos p)) - 1)
      with (Z.succ (Z.pos (digits2_pos p) - 1)) by lia.
    rewrite Z.pow_succ_r by lia. lia.
  - rewrite Pos2Z.inj_succ. replace (Z.succ (Z.pos (digits2_pos p)) - 1)
      with (Z.succ (Z.pos (digits2_pos p) - 1)) by lia.
    rewrite Z.pow_succ_r by lia. lia.
  - simpl. lia.
Qed.

Lemma digits2_pos_53 : forall p : positive,
  Z.pos p < 2 ^ 53 -> Z.pos (digits2_pos p) <= 53.
Proof.
  intros p Hp. pose proof (digits2_pos_lower p) as Hl.
  destruct (Z_le_gt_dec (Z.pos (digits2_pos p)) 53) as [|Hgt]; [assumption|].
  exfalso. assert (2 ^ 53 <= 2 ^ (Z.pos (digits2_pos p) - 1)).
  { apply Z.pow_le_mono_r; lia. }
  lia.
Qed.

Lemma binary_round_aux_canonical : forall (s : bool) (m : positive) (e : Z),
  fexp prec emax (Z.pos (digits2_pos m) + e) = e ->
  e <= emax - prec ->
  binary_round_aux prec emax s (Z.pos m) e loc_Exact = S754_finite s m e.
Proof.
  intros s m e Hc He. unfold binary_round_aux, shr_fexp.
  simpl Zdigits2. rewrite Hc, Z.sub_diag. simpl shr.
  cbn [shr_m loc_of_shr_record round_nearest_even shr_record_of_loc].
  simpl Zdigits2. rewrite Hc, Z.sub_diag. simpl shr. cbn [shr_m].
  apply Z.leb_le in He. now rewrite He.
Qed.

Lemma shl_align_canonical : forall p m e,
  Z.pos (digits2_pos p) <= 53 ->
  shl_align p 0 (fexp prec emax (Z.pos (digits2_pos p))) = (m, e) ->
  fexp prec emax (Z.pos (digits2_pos m) + e) = e
  /\ e = Z.pos (digits2_pos p) - 53
  /\ Z.pos m = Z.pos p * 2 ^ (- e).
Proof.
  intros p m e Hd. rewrite fexp_small by lia. unfold shl_align.
  remember (Z.pos (digits2_pos p)) as d eqn:Ed.
  destruct (d - 53 - 0) as [|k|k] eqn:Ek; try lia.
  - intros E. injection E as <- <-. assert (d = 53) by lia.
    rewrite <- Ed, Z.add_0_r, fexp_small by lia.
    change (- 0) with 0. rewrite Z.pow_0_r. repeat split; lia.
  - intros E. injection E as <- <-.
    rewrite digits2_pos_iter_xO, <- Ed, fexp_small by lia.
    rewrite Zpos_iter_xO.
    replace (- (d - 53)) with (Z.pos k) by lia.
    repeat split; lia.
Qed.

Lemma binary_round_int : forall (s : bool) (p : positive),
  Z.pos (digits2_pos p) <= 53 ->
  binary_round prec emax s p 0 = canonInt s p.
Proof.
  intros s p Hd. unfold binary_round, canonInt.
  rewrite Z.add_0_r.
  destruct (shl_align p 0 (fexp prec emax (Z.pos (digits2_pos p))))
    as [m e] eqn:E.
  destruct (shl_align_canonical p m e Hd E) as (Hc & He & _).
  apply binary_round_aux_canonical; [assumption|].
  unfold emax, prec. lia.
Qed.

Lemma binary_round_aux_shifted : forall (s : bool) (P m : positive) (ex e : Z),
  shr_fexp prec emax (Z.pos P) ex loc_Exact
    = (Build_shr_record (Z.pos m) false false, e) ->
  fexp prec emax (Z.pos (digits2_pos m) + e) = e ->
  e <= emax - prec ->
  binary_round_aux prec emax s (Z.pos P) ex loc_Exact = S754_finite s m e.
Proof.
  intros s P m ex e Hshr Hc He. unfold binary_round_aux. rewrite Hshr.
  cbn [shr_m loc_of_shr_record round_nearest_even].
  unfold shr_fexp. simpl Zdigits2. rewrite Hc, Z.sub_diag. simpl shr.
  cbn [shr_m]. apply Z.leb_le in He. now rewrite He.
Qed.

Lemma shr_fexp_shifted : forall (t p m : positive) (e : Z),
  Z.pos t = 52 ->
  Z.pos (digits2_pos p) <= 53 ->
  shl_align p 0 (fexp prec emax (Z.pos (digits2_pos p))) = (m, e) ->
  shr_fexp prec emax (Z.pos (Pos.iter xO p t)) (Z.neg t) loc_Exact
  = (Build_shr_record (Z.pos m) false false, e).
Proof.
  intros t p m e Ht Hd. unfold shr_fexp.
  change (Zdigits2 (Z.pos (Pos.iter xO p t)))
    with (Z.pos (digits2_pos (Pos.iter xO p t))).
  rewrite digits2_pos_iter_xO.
  remember (Z.pos (digits2_pos p)) as d eqn:Ed.
  replace (d + Z.pos t + Z.neg t) with d by lia.
  rewrite fexp_small by lia. unfold shl_align, shr.
  change (shr_record_of_loc (Z.pos (Pos.iter xO p t)) loc_Exact)
    with (Build_shr_record (Z.pos (Pos.iter xO p t)) false false).
  destruct (d - 53 - 0) as [|j|j] eqn:Ej; try lia;
    destruct (d - 53 - Z.neg t) as [|k|k] eqn:Ek; try lia;
    intros E; injection E as <- <-.
  - (* d = 53: shift right by 52 *)
    assert (k = t) by lia. subst k.
    rewrite iter_pos_iter, shr_exact. f_equal. lia.
  - (* d = 1: no shift at all *)
    assert (j = t) by lia. subst j. f_equal. lia.
  - (* 1 < d < 53 *)
    assert (Hkj : (k + j = t)%positive) by lia.
    rewrite <- Hkj, Pos.iter_add, iter_pos_iter, shr_exact. f_equal. lia.
Qed.

Lemma binary_round_shifted_int : forall (s : bool) (t p : positive),
  Z.pos t = 52 ->
  Z.pos (digits2_pos p) <= 53 ->
  binary_round prec emax s (Pos.iter xO p t) (Z.neg t) = canonInt s p.
Proof.
  intros s t p Ht Hd. unfold binary_round, canonInt.
  rewrite digits2_pos_iter_xO.
  replace (Z.pos (digits2_pos p) + Z.pos t + Z.neg t)
    with (Z.pos (digits2_pos p)) by lia.
  destruct (shl_align p 0 (fexp prec emax (Z.pos (digits2_pos p))))
    as [m e] eqn:E.
  destruct (shl_align_canonical p m e Hd E) as (Hc & He & _).
  assert (Ealign : shl_align (Pos.iter xO p t) (Z.neg t)
                     (fexp prec emax (Z.pos (digits2_pos p)))
                   = (Pos.iter xO p t, Z.neg t)).
  { rewrite fexp_small by lia. unfold shl_align.
    remember (Z.pos (digits2_pos p)) as d.
    destruct (d - 53 - Z.neg t) eqn:Ek; try reflexivity. lia. }
  rewrite Ealign.
  apply binary_round_aux_shifted; [|assumption|unfold emax, prec; lia].
  now apply shr_fexp_shifted.
Qed.

Lemma shl_align_fst : forall (m : positive) (e e' : Z),
  e' <= e -> Z.pos (fst (shl_align m e e')) = Z.pos m * 2 ^ (e - e').
Proof.
  intros m e e' He. unfold shl_align.
  destruct (e' - e) as [|q|q] eqn:Eq; try lia; cbn [fst].
  - replace (e - e') with 0 by lia. rewrite Z.pow_0_r. lia.
  - rewrite Zpos_iter_xO. f_equal. f_equal. lia.
Qed.

Lemma SFadd_minus_one : forall (t p : positive),
  Z.pos t = 52 ->
  Z.pos (digits2_pos p) <= 53 ->
  SFadd prec emax (canonInt true p)
    (S754_finite true (Pos.iter xO 1%positive t) (Z.neg t))
  = binary_round prec emax true (Pos.iter xO (p + 1)%positive t) (Z.neg t).
Proof.
  intros t p Ht Hd. unfold canonInt.
  destruct (shl_align p 0 (fexp prec emax (Z.pos (digits2_pos p))))
    as [m e] eqn:E.
  destruct (shl_align_canonical p m e Hd E) as (_ & He & Hm).
  unfold SFadd. rewrite Z.min_r by lia.
  pose proof (shl_align_fst m e (Z.neg t) ltac:(lia)) as Ha.
  pose proof (shl_align_fst (Pos.iter xO 1%positive t) (Z.neg t) (Z.neg t) ltac:(lia)) as Hb.
  rewrite Z.sub_diag, Z.pow_0_r, Zpos_iter_xO in Hb.
  destruct (shl_align m e (Z.neg t)) as [A eA].
  destruct (shl_align (Pos.iter xO 1%positive t) (Z.neg t) (Z.neg t)) as [B eB].
  cbn [fst] in Ha, Hb. cbn [fst cond_Zopp Z.opp Z.add binary_normalize].
  f_equal. apply Pos2Z.inj. rewrite Pos2Z.inj_add, Ha, Hb, Hm, Zpos_iter_xO.
  rewrite Pos2Z.inj_add.
  replace (e - Z.neg t) with (Z.pos t + e) by lia.
  assert (Hp : 2 ^ (- e) * 2 ^ (Z.pos t + e) = 2 ^ Z.pos t).
  { rewrite <- Z.pow_add_r by lia. f_equal. lia. }
  rewrite <- Z.mul_assoc, Hp. ring.
Qed.

Local Open Scope float_scope.

Lemma pos_digits_53 : forall n : nat,
  (1 <= n)%nat -> (Z.of_nat n < 2 ^ 53)%Z ->
  (Z.pos (digits2_pos (Pos.of_nat n)) <= 53)%Z.
Proof.
  intros n Hn Hlt. apply digits2_pos_53.
  lia.
Qed.

Lemma float_ofNat_canon : forall n : nat,
  (1 <= n)%nat -> (Z.of_nat n < 2 ^ 53)%Z ->
  Prim2SF (float_ofNat n) = canonInt false (Pos.of_nat n).
Proof.
  intros n Hn Hlt. unfold float_ofNat.
  rewrite of_uint63_spec, Uint63.of_Z_spec.
  rewrite Z.mod_small by (unfold wB; simpl; lia).
  replace (Z.of_nat n) with (Z.pos (Pos.of_nat n)) by lia.
  unfold binary_normalize. apply binary_round_int.
  now apply pos_digits_53.
Qed.

Lemma minusOnes_canon : forall k : nat,
  (1 <= k)%nat -> (Z.of_nat k < 2 ^ 53)%Z ->
  Prim2SF (minusOnes k) = canonInt true (Pos.of_nat k).
Proof.
  induction k as [|k IH]; intros Hk Hlt; [lia|].
  destruct k as [|k].
  - vm_compute. reflexivity.
  - change (minusOnes (S (S k))) with (minusOnes (S k) + (-1)).
    rewrite FloatAxioms.add_spec, IH by lia.
    change (Prim2SF (-1))
      with (S754_finite true (Pos.iter xO 1%positive 52) (Z.neg 52)).
    unfold SF64add.
    rewrite (SFadd_minus_one 52 (Pos.of_nat (S k)) eq_refl)
      by (apply pos_digits_53; lia).
    rewrite (binary_round_shifted_int true 52 _ eq_refl)
      by (apply digits2_pos_53; lia).
    f_equal. lia.
Qed.

Lemma minusOnes_mean : forall n : nat,
  (1 <= n)%nat -> (Z.of_nat n < 2 ^ 53)%Z ->
  minusOnes n / float_ofNat n = -1.
Proof.
  intros n Hn Hlt. apply Prim2SF_inj.
  rewrite FloatAxioms.div_spec, minusOnes_canon, float_ofNat_canon by assumption.
  unfold canonInt.
  destruct (shl_align (Pos.of_nat n) 0
              (fexp prec emax (Z.pos (digits2_pos (Pos.of_nat n))))) as [m e].
  apply (SFdiv_self true false).
Qed.

End Binary64Integers.

(** ** The silhouette score of a single cluster, in binary64 *)

Section SingleClusterFloat.

Local Open Scope float_scope.

Lemma float_positive_finite : forall a : float,
  PrimFloat.is_finite a = true -> (0 <? a) = true ->
  exists m e, Prim2SF a = S754_finite false m e.
Proof.
  intros a Hf Hp.
  unfold PrimFloat.is_finite, PrimFloat.is_nan, PrimFloat.is_infinity in Hf.
  rewrite !FloatAxioms.eqb_spec, FloatAxioms.abs_spec in Hf.
  rewrite FloatAxioms.ltb_spec in Hp.
  change (Prim2SF 0) with (S754_zero false) in Hp.
  destruct (Prim2SF a) as [s|s| |s m e]; try discriminate.
  - destruct s; discriminate.
  - destruct s; [discriminate|eauto].
Qed.

Lemma float_positive_facts : forall a : float,
  PrimFloat.is_finite a = true -> (0 <? a) = true ->
  (a =? 0) = false /\ float_max a 0 = a.
Proof.
  intros a Hf Hp.
  destruct (float_positive_finite a Hf Hp) as [m [e E]].
  assert (Hz : (a =? 0) = false).
  { rewrite FloatAxioms.eqb_spec, E. reflexivity. }
  split; [assumption|]. unfold float_max.
  assert (Hnan : PrimFloat.is_nan a = false).
  { unfold PrimFloat.is_nan. rewrite FloatAxioms.eqb_spec, E.
    unfold SFeqb, SFcompare.
    now rewrite Z.compare_refl, Pos.compare_cont_refl. }
  assert (Hlt : (a <? 0) = false).
  { rewrite FloatAxioms.ltb_spec, E. reflexivity. }
  rewrite Hnan, Hlt, Hp. reflexivity.
Qed.

Variable vectors : list (list float).
Variable labels : list Z.
Variable c : Z.

Let n := length vectors.

Hypothesis two_points : 2 <= n.
Hypothesis below_2_53 : (Z.of_nat n < 2 ^ 53)%Z.
Hypothesis one_label_each : length labels = n.
Hypothesis one_cluster : forall l, In l labels -> l = c.
Hypothesis not_noise : c <> (-1)%Z.
Hypothesis mean_distances :
  forall i vi, nth_error vectors i = Some vi ->
    PrimFloat.is_finite (meanSameClusterDistance vectors labels i vi) = true
    /\ (0 <? meanSameClusterDistance vectors labels i vi) = true.

(** Every point scores [(0 - a) / a], which is exactly -1. *)
Lemma silhouettePoint_float : forall i vi total valid,
  nth_error vectors i = Some vi ->
  silhouettePoint vectors labels (total, valid) (i, vi)
  = (total + -1, S valid).
Proof.
  intros i vi total valid Hi.
  rewrite (silhouettePoint_single_cluster vectors labels c
             one_label_each one_cluster not_noise i vi total valid
             two_points Hi).
  destruct (mean_distances i vi Hi) as [Hf Hp].
  destruct (float_positive_facts _ Hf Hp) as [Hz Hmax].
  cbv zeta. change (neq (nInfinity : float) nInfinity) with true. cbv iota.
  change (nmax (meanSameClusterDistance vectors labels i vi) (n0 : float))
    with (float_max (meanSameClusterDistance vectors labels i vi) 0).
  rewrite Hmax.
  change (neq (meanSameClusterDistance vectors labels i vi) (n0 : float))
    with (meanSameClusterDistance vectors labels i vi =? 0).
  rewrite Hz.
  change (ndiv (nsub (n0 : float) (meanSameClusterDistance vectors labels i vi))
            (meanSameClusterDistance vectors labels i vi))
    with ((0 - meanSameClusterDistance vectors labels i vi)
          / meanSameClusterDistance vectors labels i vi).
  rewrite (float_neg_div_self _ Hf Hz). reflexivity.
Qed.

Lemma calculateSilhouetteScore_float :
  calculateSilhouetteScore vectors labels = -1.
Proof.
  unfold calculateSilhouetteScore. fold n.
  destruct (Nat.ltb_spec n 2); [lia|].
  pose proof (fold_left_combine_inv _ _
    (fun i (st : float * nat) => st = (minusOnes i, i))
    (silhouettePoint vectors labels) vectors 0 (n0, O)) as Hfold.
  cbn [Nat.add] in Hfold. fold n in Hfold. unfold indexed. fold n.
  rewrite Hfold.
  - destruct (Nat.ltb_spec 0 n); [|lia].
    apply minusOnes_mean; [lia|assumption].
  - reflexivity.
  - intros i vi st Hi ->. now rewrite (silhouettePoint_float i vi _ _ Hi).
Qed.

Lemma single_cluster_metrics_float :
  calculateClusteringMetrics vectors labels = Ok (mkMetrics (-1) 0 0).
Proof.
  rewrite (single_cluster_bundle vectors labels c one_label_each one_cluster).
  now rewrite calculateSilhouetteScore_float.
Qed.

End SingleClusterFloat.

(** ** The claim about the single cluster *)

(** C10 (as amended).  When all the labels are one value other than [-1],
    [calculateClusteringMetrics] returns a silhouette score of -1
    - in binary64, for at least two and fewer than 2^53 vectors, provided the
      mean distance [a(i)] of every point to the others is computed as a
      finite positive number;
    - in exact arithmetic, for at least two pairwise distinct vectors of one
      dimension and finite components. *)
Theorem single_cluster_silhouette :
  (forall (vectors : list (list float)) (labels : list Z) (c : Z),
     2 <= length vectors ->
     (Z.of_nat (length vectors) < 2 ^ 53)%Z ->
     length labels = length vectors ->
     (forall l, In l labels -> l = c) ->
     c <> (-1)%Z ->
     (forall i vi, nth_error vectors i = Some vi ->
        PrimFloat.is_finite (meanSameClusterDistance vectors labels i vi) = true
        /\ PrimFloat.ltb PrimFloat.zero
             (meanSameClusterDistance vectors labels i vi) = true) ->
     exists metrics,
       calculateClusteringMetrics vectors labels = Ok metrics
       /\ silhouetteScore metrics = PrimFloat.opp PrimFloat.one)
  /\ (forall (vectors : list (list xreal)) (labels : list Z) (c : Z) (d : nat),
        2 <= length vectors ->
        NoDup vectors ->
        (forall v, In v vectors -> length v = d /\ finiteVector v) ->
        length labels = length vectors ->
        (forall l, In l labels -> l = c) ->
        c <> (-1)%Z ->
        exists metrics,
          calculateClusteringMetrics vectors labels = Ok metrics
          /\ silhouetteScore metrics = XFin (-1)).
Proof.
  split.
  - intros vectors labels c Hn Hlt Hlen Hlab Hc Hmean.
    eexists. split.
    + apply (single_cluster_metrics_float vectors labels c); assumption.
    + reflexivity.
  - intros vectors labels c d Hn Hnd Hwf Hlen Hlab Hc.
    eexists. split.
    + apply (single_cluster_metrics vectors labels c d); assumption.
    + reflexivity.
Qed.

(** ** The claim about the kernel matrix *)

(** A loop that returns has run its body, without a throw, at every
    element. *)
Lemma forEach_Ok_steps : forall (S X : Type) (body : S -> X -> result S)
  (xs : list X) (s s' : S),
  forEach xs body s = Ok s' ->
  forall x, In x xs -> exists s1 s2, body s1 x = Ok s2.
Proof.
  intros S X body xs. induction xs as [|x0 xs IH]; intros s s' E x Hx.
  - destruct Hx.
  - simpl in E. destruct (body s x0) as [s1|msg] eqn:E0; [|discriminate].
    simpl in E. destruct Hx as [<-|Hx].
    + now exists s, s1.
    + now apply (IH s1 s').
Qed.

(** [computeKernelMatrix] returns only when the vectors have one length. *)
Lemma computeKernelMatrix_Ok_lengths :
  forall (num : Type) (N : JsNumber num) (vectors matrix : list (list num)),
  computeKernelMatrix vectors = Ok matrix ->
  forall i j, i < j < length vectors ->
  length (nth i vectors []) = length (nth j vectors []).
Proof.
  intros num N vectors matrix E i j Hij. unfold computeKernelMatrix in E.
  destruct (forEach_Ok_steps _ _ _ _ _ _ E i) as (m1 & m2 & Erow).
  { apply in_seq. lia. }
  unfold kernelRow in Erow.
  destruct (forEach_Ok_steps _ _ _ _ _ _ Erow j) as (m3 & m4 & Ecell).
  { apply in_seq. lia. }
  unfold kernelCell in Ecell.
  destruct (Nat.eqb_spec i j) as [Heq|_]; [lia|].
  destruct (Nat.eq_dec (length (nth i vectors [])) (length (nth j vectors [])))
    as [Hlen|Hlen]; [exact Hlen|].
  apply cosine_throws_iff in Hlen. destruct Hlen as [msg Hmsg].
  rewrite Hmsg in Ecell. discriminate.
Qed.

Lemma pairwise_uniform : forall (A : Type) (vectors : list (list A)),
  (forall i j, i < j < length vectors ->
     length (nth i vectors []) = length (nth j vectors [])) ->
  forall v, In v vectors -> length v = length (nth 0 vectors []).
Proof.
  intros A vectors Hpair v Hv.
  destruct (In_nth vectors v [] Hv) as [k [Hk Ek]]. subst v.
  destruct k as [|k]; [reflexivity|]. symmetry. apply Hpair. lia.
Qed.

(** C1 (as amended).  [computeKernelMatrix] returns a matrix exactly when
    all the vectors have the same length, and throws otherwise.  The matrix
    it returns is n x n, holds the same value at [(i, j)] and [(j, i)], has 1
    on its diagonal and holds at [(i, j)], for [i < j], the similarity
    computed for that pair.  In binary64 [M[i][j] == M[j][i]] holds exactly
    where the entry is not NaN. *)
Theorem computeKernelMatrix_symmetric :
  (forall (num : Type) (N : JsNumber num) (vectors : list (list num)),
     (exists matrix, computeKernelMatrix vectors = Ok matrix)
     <-> (forall i j, i < j < length vectors ->
            length (nth i vectors []) = length (nth j vectors [])))
  /\ (forall (num : Type) (N : JsNumber num) (vectors matrix : list (list num)),
        computeKernelMatrix vectors = Ok matrix ->
        square (length vectors) matrix
        /\ (forall i j, i < length vectors -> j < length vectors ->
              cell matrix i j = cell matrix j i)
        /\ (forall i, i < length vectors -> cell matrix i i = n1)
        /\ (forall i j, i < j < length vectors ->
              cosineSimilarityKernel (nth i vectors []) (nth j vectors [])
              = Ok (cell matrix i j)))
  /\ (forall (vectors matrix : list (list float)),
        computeKernelMatrix vectors = Ok matrix ->
        forall i j, i < length vectors -> j < length vectors ->
        neq (cell matrix i j) (cell matrix j i)
        = negb (PrimFloat.is_nan (cell matrix i j))).
Proof.
  assert (Hret : forall (num : Type) (N : JsNumber num)
                   (vectors matrix : list (list num)),
             computeKernelMatrix vectors = Ok matrix ->
             square (length vectors) matrix
             /\ (forall i j, i < length vectors -> j < length vectors ->
                   cell matrix i j = cell matrix j i)
             /\ (forall i, i < length vectors -> cell matrix i i = n1)
             /\ (forall i j, i < j < length vectors ->
                   cosineSimilarityKernel (nth i vectors []) (nth j vectors [])
                   = Ok (cell matrix i j))).
  { intros num N vectors matrix E.
    pose proof (pairwise_uniform _ vectors
                  (computeKernelMatrix_Ok_lengths num N vectors matrix E)) as Hd.
    destruct (computeKernelMatrix_mirrored vectors _ Hd)
      as (matrix' & E' & Hsq & Hsym & Hdiag & Hup).
    rewrite E in E'. injection E' as <-.
    repeat split; try assumption.
    - apply Hsq.
    - apply Hsq.
    - intros i j Hij. now apply Hup. }
  split; [|split].
  - intros num N vectors. split.
    + intros [matrix E]. exact (computeKernelMatrix_Ok_lengths num N vectors matrix E).
    + intros Hpair.
      destruct (computeKernelMatrix_mirrored vectors _
                  (pairwise_uniform _ vectors Hpair)) as (matrix & E & _).
      now exists matrix.
  - exact Hret.
  - intros vectors matrix E i j Hi Hj.
    destruct (Hret float float_number vectors matrix E) as (_ & Hsym & _).
    rewrite <- (Hsym i j Hi Hj). simpl neq.
    unfold PrimFloat.is_nan. now rewrite Bool.negb_involutive.
Qed.

(** ** Evaluations in binary64 *)

Section FloatEvaluations.

Import Examples.
Local Open Scope float_scope.

(** C7.  On [[1,0],[0.99,0.01],[0,1],[0.01,0.99]] with [epsilon = 0.1] and
    [minPts = 2], [dbscan] labels points 0 and 1 with cluster 0 and points 2
    and 3 with cluster 1: two clusters of size 2 and no noise. *)
Theorem dbscan_scenario : dbscan scenario 0.1 2 = Some [0; 0; 1; 1]%Z.
Proof. vm_compute. reflexivity. Qed.

(** C4 (the defect).  With a noise point in the input the Calinski-Harabasz
    index is 698; on the same input without the noise point it is 50.  The
    other two indices are the same on both inputs. *)
Theorem calinskiHarabasz_counts_noise :
  calculateClusteringMetrics noisyVectors noisyLabels
    = Ok (mkMetrics 0.79797979797979801 0.20000000000000001 698)
  /\ withoutNoise noisyLabels noisyVectors = [[0]; [2]; [10]; [12]]
  /\ withoutNoise noisyLabels noisyLabels = [0; 0; 1; 1]%Z
  /\ calculateClusteringMetrics
       (withoutNoise noisyLabels noisyVectors)
       (withoutNoise noisyLabels noisyLabels)
    = Ok (mkMetrics 0.79797979797979801 0.20000000000000001 50).
Proof. vm_compute. repeat split; reflexivity. Qed.

(** C1 (counterexample).  The squared norms of [1e200] overflow, the
    similarity of the two vectors is NaN, and [NaN == NaN] is false: the
    matrix is not symmetric in the sense of [==].  On vectors of different
    lengths [computeKernelMatrix] throws. *)
Lemma computeKernelMatrix_nan_entry :
  computeKernelMatrix [[1e200]; [1e200]] = Ok [[1; nan]; [nan; 1]]
  /\ neq (cell [[1; nan]; [nan; 1]] 0 1) (cell [[1; nan]; [nan; 1]] 1 0) = false
  /\ exists msg, computeKernelMatrix [[1]; [1; 2]] = Throw msg.
Proof.
  split; [vm_compute; reflexivity|]. split; [vm_compute; reflexivity|].
  eexists. vm_compute. reflexivity.
Qed.

(** C6 (counterexample).  With an iteration bound of 0 no pass runs and
    every point keeps the initial label [-1], outside [0, k). *)
Lemma kMeans_zero_iterations :
  kMeans 1 (fun _ => O) twoPoints 1 0 = Some (Ok [-1; -1]%Z)
  /\ ~ (0 <= -1 < 1)%Z.
Proof. split; [vm_compute; reflexivity|lia]. Qed.

(** C8 (counterexample).  For the two prototypes [1e200] and [-1e200] the
    squared difference overflows: both raw values are [Infinity], the raw
    maximum equals the raw minimum, and the returned values are NaN, which is
    neither 0 nor in [0, 1]. *)
Lemma getUMatrix_overflow :
  rawUMatrix farSOM = Ok [[infinity; infinity]]
  /\ maxMin farSOM [[infinity; infinity]] = (infinity, infinity)
  /\ getUMatrix farSOM = Ok [[nan; nan]]
  /\ nle n0 nan = false
  /\ neq nan n0 = false.
Proof. vm_compute. repeat split; reflexivity. Qed.


(** C10 (counterexample).  The points [0] and [1e-200] are distinct, but the
    square of their difference underflows to 0: both mean distances are 0,
    every point scores 0, and the silhouette score is 0, not -1. *)
Lemma single_cluster_underflow :
  NoDup tinyPair
  /\ calculateClusteringMetrics tinyPair [0; 0]%Z = Ok (mkMetrics 0 0 0)
  /\ neq 0 (-1) = false.
Proof.
  split; [|vm_compute; split; reflexivity].
  unfold tinyPair. constructor; [|constructor; [intros []|constructor]].
  intros [E|[]].
  apply (f_equal (fun v => PrimFloat.eqb (hd 1 v) 0)) in E. vm_compute in E.
  discriminate.
Qed.

(** *** Instances of the theorems with hypotheses *)

Lemma cosineSimilarityKernel_errors_witness :
  cosineSimilarityKernel [3; 4] [0; 0] = Ok 0.
Proof.
  change (cosineSimilarityKernel [3; 4] [0; 0] = Ok n0).
  apply (proj2 (proj2 (cosineSimilarityKernel_errors [3; 4] [0; 0]))).
  - reflexivity.
  - right. reflexivity.
Defined.

Lemma computeKernelMatrix_symmetric_witness :
  exists matrix,
    computeKernelMatrix scenario = Ok matrix
    /\ square 4 matrix
    /\ cell matrix 1 2 = cell matrix 2 1
    /\ cell matrix 3 3 = 1
    /\ neq (cell matrix 1 2) (cell matrix 2 1)
       = negb (PrimFloat.is_nan (cell matrix 1 2)).
Proof.
  destruct (proj2 (proj1 computeKernelMatrix_symmetric float float_number
                     scenario)) as [matrix E].
  - intros [|[|[|[|i]]]] [|[|[|[|j]]]] Hij; simpl in Hij; try lia; reflexivity.
  - destruct (proj1 (proj2 computeKernelMatrix_symmetric) float float_number
                scenario matrix E) as (Hsq & Hsym & Hdiag & _).
    exists matrix. split; [exact E|]. split; [exact Hsq|].
    split; [apply Hsym; simpl; lia|]. split; [apply Hdiag; simpl; lia|].
    apply (proj2 (proj2 computeKernelMatrix_symmetric) scenario matrix E);
      simpl; lia.
Defined.

Lemma kMeans_trivial_cases_witness :
  kMeans 0 cycle4 scenario 4 20 = Some (Ok [0; 1; 2; 3]%Z).
Proof.
  apply (proj2 (kMeans_trivial_cases 0 cycle4 scenario 4 20)).
  simpl. lia.
Defined.

Lemma kMeans_labels_in_range_witness :
  exists labels,
    kMeans 2 cycle4 scenario 2 20 = Some (Ok labels)
    /\ length labels = 4%nat
    /\ forall l, In l labels -> (0 <= l < 2)%Z.
Proof.
  apply (kMeans_labels_in_range float float_number 2 2 cycle4 scenario 2 20).
  - simpl. lia.
  - lia.
  - intros t. apply Nat.mod_upper_bound. simpl. lia.
  - vm_compute. discriminate.
  - lia.
Defined.

End FloatEvaluations.

Section ExactEvaluations.

Import Examples.
Local Open Scope R_scope.

Lemma exactPair_finite : forall v, In v exactPair ->
  length v = 1%nat /\ finiteVector v.
Proof.
  intros v [<-|[<-|[]]]; (split; [reflexivity|]);
    constructor; simpl; auto; constructor.
Qed.

Lemma single_cluster_silhouette_witness :
  (exists metrics,
     calculateClusteringMetrics twoPoints [0; 0]%Z = Ok metrics
     /\ silhouetteScore metrics = PrimFloat.opp PrimFloat.one)
  /\ (exists metrics,
        calculateClusteringMetrics exactPair [0; 0]%Z = Ok metrics
        /\ silhouetteScore metrics = XFin (-1)).
Proof.
  split.
  - apply (proj1 single_cluster_silhouette twoPoints [0; 0]%Z 0%Z).
    + simpl. lia.
    + simpl. lia.
    + reflexivity.
    + intros l [<-|[<-|[]]]; reflexivity.
    + discriminate.
    + intros i vi Hi.
      destruct i as [|[|i]]; simpl in Hi; [| |destruct i; discriminate];
        apply (f_equal (fun o => match o with Some v => v | None => [] end))
          in Hi;
        simpl in Hi; subst vi; vm_compute; split; reflexivity.
  - apply (proj2 single_cluster_silhouette exactPair [0; 0]%Z 0%Z 1%nat).
    + simpl. lia.
    + unfold exactPair. constructor; [|constructor; [intros []|constructor]].
      intros [E|[]]. injection E as E. lra.
    + apply exactPair_finite.
    + reflexivity.
    + intros l [<-|[<-|[]]]; reflexivity.
    + discriminate.
Defined.

End ExactEvaluations.

(** * Further properties *)

(** A loop that may throw, with an invariant that knows the elements already
    visited. *)
Lemma forEach_prefix_inv : forall (S X : Type) (P : list X -> S -> Prop)
  (body : S -> X -> result S) (xs : list X) (s0 : S),
  P [] s0 ->
  (forall visited x rest s,
     xs = visited ++ x :: rest -> P visited s ->
     exists s', body s x = Ok s' /\ P (visited ++ [x]) s') ->
  exists s', forEach xs body s0 = Ok s' /\ P xs s'.
Proof.
  intros S X P body xs s0 H0 Hstep.
  assert (G : forall rest visited s,
            xs = visited ++ rest -> P visited s ->
            exists s', forEach rest body s = Ok s' /\ P xs s').
  { induction rest as [|x rest IH]; intros visited s Hxs Hs.
    - rewrite app_nil_r in Hxs. subst. exists s. auto.
    - destruct (Hstep visited x rest s Hxs Hs) as [s1 [E1 P1]].
      destruct (IH (visited ++ [x]) s1) as [s' [E' P']].
      + rewrite <- app_assoc. exact Hxs.
      + exact P1.
      + exists s'. cbn [forEach]. rewrite E1. cbn [bind]. auto. }
  now apply (G xs []).
Qed.

(** * Further properties of the vector primitives *)

(** ** The similarity kernel is symmetric *)

Section KernelSymmetry.

Context {num : Type} `{JsNumber num}.

Hypothesis nmul_comm : forall x y : num, nmul x y = nmul y x.

Lemma cosineLoop_swap : forall (a b : list num) (dot normA normB : num),
  length a = length b ->
  cosineLoop b a (dot, normB, normA)
  = let '(dot', normA', normB') := cosineLoop a b (dot, normA, normB) in
    (dot', normB', normA').
Proof.
  induction a as [|x a IH]; intros [|y b] dot normA normB Hlen;
    try discriminate; [reflexivity|].
  cbn [cosineLoop hd tl]. rewrite (nmul_comm y x).
  apply IH. now injection Hlen.
Qed.

Lemma cosineSimilarityKernel_swap : forall a b : list num,
  cosineSimilarityKernel a b = cosineSimilarityKernel b a.
Proof.
  intros a b. unfold cosineSimilarityKernel.
  rewrite (Nat.eqb_sym (length b) (length a)).
  destruct (Nat.eqb_spec (length a) (length b)) as [Hlen|Hlen];
    [|reflexivity].
  cbn [negb]. rewrite (cosineLoop_swap a b n0 n0 n0 Hlen).
  destruct (cosineLoop a b (n0, n0, n0)) as [[dot normA] normB].
  rewrite (orb_comm (neq normB n0)).
  destruct (neq normA n0 || neq normB n0); [reflexivity|].
  now rewrite (nmul_comm (nsqrt normB)).
Qed.

End KernelSymmetry.

(** Multiplication in binary64 is commutative, NaN and the infinities
    included. *)
Lemma float_mul_comm : forall x y : float,
  PrimFloat.mul x y = PrimFloat.mul y x.
Proof.
  intros x y. apply Prim2SF_inj. rewrite !FloatAxioms.mul_spec.
  unfold SF64mul, SFmul.
  destruct (Prim2SF x) as [sx|sx| |sx mx ex];
    destruct (Prim2SF y) as [sy|sy| |sy my ey];
    try reflexivity; try (now rewrite xorb_comm).
  now rewrite xorb_comm, Pos.mul_comm, Z.add_comm.
Qed.

(** X1.  In binary64 [cosineSimilarityKernel] does not depend on the order of
    its arguments: both calls throw, or both return the same number.  Hence
    the kernel matrix of a collection of vectors of one dimension holds at
    every off-diagonal position [(i, j)], above or below the diagonal, the
    number [cosineSimilarityKernel(vectors[i], vectors[j])] returns. *)
Theorem cosineSimilarityKernel_symmetric :
  (forall a b : list float,
     cosineSimilarityKernel a b = cosineSimilarityKernel b a)
  /\ (forall (vectors : list (list float)) (d : nat),
        (forall v, In v vectors -> length v = d) ->
        exists matrix,
          computeKernelMatrix vectors = Ok matrix
          /\ forall i j, i < length vectors -> j < length vectors -> i <> j ->
               cosineSimilarityKernel (nth i vectors []) (nth j vectors [])
               = Ok (cell matrix i j)).
Proof.
  assert (Hswap : forall a b : list float,
            cosineSimilarityKernel a b = cosineSimilarityKernel b a)
    by exact (@cosineSimilarityKernel_swap float float_number float_mul_comm).
  split; [exact Hswap|].
  intros vectors d Hd.
  destruct (computeKernelMatrix_inv vectors d Hd) as [matrix [E [_ Hcells]]].
  exists matrix. split; [exact E|].
  intros i j Hi Hj Hij.
  rewrite (Hcells i j Hi Hj) by (unfold written; lia).
  unfold kernelEntry. destruct (Nat.eqb_spec i j) as [|_]; [contradiction|].
  destruct (Nat.lt_ge_cases i j) as [Hlt|Hge].
  - rewrite Nat.min_l, Nat.max_r by lia.
    now apply (similarityOf_returns vectors d Hd).
  - rewrite Nat.min_r, Nat.max_l by lia. rewrite Hswap.
    now apply (similarityOf_returns vectors d Hd).
Qed.

(** ** Facts of binary64 arithmetic used below *)

Section Binary64Facts.

Local Open Scope float_scope.

Lemma float_finite_cases : forall a : float,
  PrimFloat.is_finite a = true ->
  (exists s, Prim2SF a = S754_zero s)
  \/ (exists s m e, Prim2SF a = S754_finite s m e).
Proof.
  intros a Hf.
  unfold PrimFloat.is_finite, PrimFloat.is_nan, PrimFloat.is_infinity in Hf.
  rewrite !FloatAxioms.eqb_spec, FloatAxioms.abs_spec in Hf.
  destruct (Prim2SF a) as [s|s| |s m e]; try discriminate; eauto.
  destruct s; discriminate.
Qed.

(** [a - a] is [+0] for a finite [a]. *)
Lemma float_sub_self : forall a : float,
  PrimFloat.is_finite a = true -> a - a = 0.
Proof.
  intros a Hf. apply Prim2SF_inj. rewrite FloatAxioms.sub_spec.
  change (Prim2SF 0) with (S754_zero false).
  destruct (float_finite_cases a Hf) as [[s E]|[s [m [e E]]]]; rewrite E.
  - now destruct s.
  - unfold SF64sub, SFsub. rewrite Z.sub_diag. reflexivity.
Qed.

(** The sign given to [binary_round_aux] only sets the sign of the result. *)
Lemma binary_round_aux_sign : forall (m e : Z) (l : location),
  binary_round_aux prec emax true m e l
  = SFopp (binary_round_aux prec emax false m e l).
Proof.
  intros m e l. unfold binary_round_aux.
  destruct (shr_fexp prec emax m e l) as [mrs' e'].
  destruct (shr_fexp prec emax _ e' loc_Exact) as [mrs'' e''].
  destruct (shr_m mrs'') as [|p|p]; try reflexivity.
  now destruct (e'' <=? emax - prec)%Z.
Qed.

Lemma binary_normalize_opp : forall (m e : Z),
  binary_normalize prec emax (- m) e false
  = binary_normalize prec emax m e false
  \/ binary_normalize prec emax (- m) e false
     = SFopp (binary_normalize prec emax m e false).
Proof.
  intros [|p|p] e; cbn [Z.opp binary_normalize]; [now left| |];
    unfold binary_round;
    destruct (shl_align p e _) as [mz ez]; right.
  - apply binary_round_aux_sign.
  - rewrite binary_round_aux_sign.
    now destruct (binary_round_aux prec emax false (Z.pos mz) ez loc_Exact)
      as [[|]|[|]| |[|] ? ?].
Qed.

Lemma SFsub_swap : forall x y : spec_float,
  SF64sub y x = SF64sub x y \/ SF64sub y x = SFopp (SF64sub x y).
Proof.
  intros x y. unfold SF64sub, SFsub.
  destruct x as [[|]|[|]| |sx mx ex]; destruct y as [[|]|[|]| |sy my ey];
    try (now left); try (now right);
    try (right; now destruct sy); try (right; now destruct sx).
  replace (IntDef.Z.min ey ex) with (IntDef.Z.min ex ey) by apply Z.min_comm.
  set (X := cond_Zopp sx (Z.pos (fst (shl_align mx ex (IntDef.Z.min ex ey))))).
  set (Y := cond_Zopp sy (Z.pos (fst (shl_align my ey (IntDef.Z.min ex ey))))).
  replace (Y - X)%Z with (- (X - Y))%Z by lia.
  apply binary_normalize_opp.
Qed.

Lemma SFmul_opp_square : forall z : spec_float,
  SF64mul (SFopp z) (SFopp z) = SF64mul z z.
Proof. intros [[|]|[|]| |[|] m e]; reflexivity. Qed.

(** [(a - b) * (a - b)] and [(b - a) * (b - a)] are the same number. *)
Lemma float_square_diff_swap : forall a b : float,
  (a - b) * (a - b) = (b - a) * (b - a).
Proof.
  intros a b. apply Prim2SF_inj.
  rewrite !FloatAxioms.mul_spec, !FloatAxioms.sub_spec.
  destruct (SFsub_swap (Prim2SF a) (Prim2SF b)) as [E|E]; rewrite E;
    [reflexivity|].
  now rewrite SFmul_opp_square.
Qed.

(** NaN is absorbing. *)
Lemma float_sub_nan : forall a : float, a - nan = nan.
Proof.
  intros a. apply Prim2SF_inj. rewrite FloatAxioms.sub_spec.
  change (Prim2SF nan) with S754_nan.
  now destruct (Prim2SF a) as [[|]|[|]| |[|] m e].
Qed.

Lemma float_add_nan : forall a : float, a + nan = nan.
Proof.
  intros a. apply Prim2SF_inj. rewrite FloatAxioms.add_spec.
  change (Prim2SF nan) with S754_nan.
  now destruct (Prim2SF a) as [[|]|[|]| |[|] m e].
Qed.

Lemma float_nan_add : forall a : float, nan + a = nan.
Proof.
  intros a. apply Prim2SF_inj. rewrite FloatAxioms.add_spec.
  change (Prim2SF nan) with S754_nan. reflexivity.
Qed.

(** [<] is transitive, and whatever is below some number is below
    [Infinity]. *)
Lemma SFltb_trans : forall x y z : spec_float,
  SFltb x y = true -> SFltb y z = true -> SFltb x z = true.
Proof.
  intros x y z. unfold SFltb, SFcompare.
  destruct x as [[|]|[|]| |[|] mx ex]; destruct y as [[|]|[|]| |[|] my ey];
    try discriminate; destruct z as [[|]|[|]| |[|] mz ez];
    try discriminate; try reflexivity;
    rewrite <- ?Pos.compare_cont_spec; cbn [Pos.switch_Eq];
    fold (Pos.compare mx my); fold (Pos.compare my mz); fold (Pos.compare mx mz);
    destruct (Z.compare_spec ex ey); destruct (Z.compare_spec ey ez);
    destruct (Z.compare_spec ex ez); try lia; try discriminate;
    try reflexivity; subst;
    destruct (Pos.compare_spec mx my); destruct (Pos.compare_spec my mz);
    destruct (Pos.compare_spec mx mz); try lia; try discriminate;
    try reflexivity.
Qed.

Lemma float_ltb_trans : forall x y z : float,
  (x <? y) = true -> (y <? z) = true -> (x <? z) = true.
Proof.
  intros x y z. rewrite !FloatAxioms.ltb_spec. apply SFltb_trans.
Qed.

Lemma float_ltb_infinity : forall x y : float,
  (x <? y) = true -> (x <? infinity) = true.
Proof.
  intros x y. rewrite !FloatAxioms.ltb_spec.
  change (Prim2SF infinity) with (S754_infinity false).
  unfold SFltb, SFcompare.
  destruct (Prim2SF x) as [[|]|[|]| |[|] mx ex];
    destruct (Prim2SF y) as [[|]|[|]| |[|] my ey];
    try discriminate; reflexivity.
Qed.

Lemma float_ltb_irrefl : forall x : float, (x <? x) = false.
Proof.
  intros x. rewrite FloatAxioms.ltb_spec. unfold SFltb, SFcompare.
  destruct (Prim2SF x) as [[|]|[|]| |[|] mx ex]; try reflexivity;
    rewrite Z.compare_refl; fold (Pos.compare mx mx);
    now rewrite Pos.compare_refl.
Qed.

End Binary64Facts.

(** ** Binary64: rounding to nearest, and the order of the format *)

(** *** Rounding an integer to nearest, to even on a tie *)

Section RoundingIntegers.

Local Open Scope Z_scope.

Lemma roundShift_bounds : forall m n : Z,
  m / 2 ^ n <= roundShift m n <= m / 2 ^ n + 1.
Proof.
  intros m n. unfold roundShift.
  destruct (2 * (m mod 2 ^ n) ?= 2 ^ n); [destruct (Z.even _)| |]; lia.
Qed.

Lemma roundShift_exact : forall m n : Z,
  0 <= n -> m mod 2 ^ n = 0 -> roundShift m n = m / 2 ^ n.
Proof.
  intros m n Hn Hm. unfold roundShift. rewrite Hm.
  assert (0 < 2 ^ n) by (apply Z.pow_pos_nonneg; lia).
  destruct (Z.compare_spec (2 * 0) (2 ^ n)); lia.
Qed.

(** Rounding is monotone. *)
Lemma roundShift_mono : forall m m' n : Z,
  0 <= n -> m <= m' -> roundShift m n <= roundShift m' n.
Proof.
  intros m m' n Hn Hm.
  assert (Hp : 0 < 2 ^ n) by (apply Z.pow_pos_nonneg; lia).
  assert (Hq : m / 2 ^ n <= m' / 2 ^ n) by (apply Z.div_le_mono; lia).
  destruct (Z.eq_dec (m / 2 ^ n) (m' / 2 ^ n)) as [E|E].
  - assert (Hr : m mod 2 ^ n <= m' mod 2 ^ n).
    { rewrite !Z.mod_eq by lia. rewrite E. lia. }
    unfold roundShift. rewrite E.
    destruct (Z.compare_spec (2 * (m mod 2 ^ n)) (2 ^ n));
      destruct (Z.compare_spec (2 * (m' mod 2 ^ n)) (2 ^ n));
      destruct (Z.even (m' / 2 ^ n)); lia.
  - pose proof (roundShift_bounds m n). pose proof (roundShift_bounds m' n). lia.
Qed.

Lemma log2_digits : forall m : Z, 0 < m -> 2 ^ Z.log2 m <= m < 2 ^ (Z.log2 m + 1).
Proof. intros m Hm. pose proof (Z.log2_spec m Hm). now rewrite <- Z.add_1_r in *. Qed.

Lemma round53_small : forall m : Z, 0 <= m < 2 ^ 53 -> round53 m = m.
Proof.
  intros m Hm. unfold round53.
  assert (Z.log2 m < 53).
  { destruct (Z.eq_dec m 0) as [->|]; [simpl; lia|].
    apply Z.log2_lt_pow2; lia. }
  rewrite Z.max_l by lia.
  rewrite roundShift_exact by (try lia; apply Z.mod_1_r).
  rewrite Z.pow_0_r, Z.div_1_r. lia.
Qed.

(** The value rounded to 53 bits lies in the binade of the argument. *)
Lemma round53_binade : forall m : Z, 0 < m ->
  2 ^ Z.log2 m <= round53 m <= 2 ^ (Z.log2 m + 1).
Proof.
  intros m Hm. pose proof (log2_digits m Hm) as [Hlo Hhi].
  pose proof (Z.log2_nonneg m) as Hl.
  unfold round53.
  destruct (Z.max_spec 0 (Z.log2 m + 1 - 53)) as [[Hc ->]|[Hc ->]].
  - set (n := Z.log2 m + 1 - 53) in *.
    assert (Hp : 0 < 2 ^ n) by (apply Z.pow_pos_nonneg; lia).
    pose proof (roundShift_bounds m n) as [Hb1 Hb2].
    assert (E1 : 2 ^ Z.log2 m = 2 ^ 52 * 2 ^ n).
    { rewrite <- Z.pow_add_r by lia. f_equal. unfold n. lia. }
    assert (E2 : 2 ^ (Z.log2 m + 1) = 2 ^ 53 * 2 ^ n).
    { rewrite <- Z.pow_add_r by lia. f_equal. unfold n. lia. }
    assert (Hq1 : 2 ^ 52 <= m / 2 ^ n).
    { apply Z.div_le_lower_bound; lia. }
    assert (Hq2 : m / 2 ^ n < 2 ^ 53).
    { apply Z.div_lt_upper_bound; lia. }
    rewrite E1, E2. split; apply Z.mul_le_mono_nonneg_r; lia.
  - rewrite roundShift_exact by (try lia; apply Z.mod_1_r).
    rewrite Z.pow_0_r, Z.div_1_r. lia.
Qed.

Lemma round53_mono : forall m m' : Z, 0 <= m <= m' -> round53 m <= round53 m'.
Proof.
  intros m m' [H0 Hm].
  destruct (Z.eq_dec m 0) as [->|Hz].
  - rewrite (round53_small 0) by lia.
    destruct (Z.eq_dec m' 0) as [->|]; [rewrite round53_small; lia|].
    pose proof (round53_binade m' ltac:(lia)).
    assert (0 < 2 ^ Z.log2 m') by (apply Z.pow_pos_nonneg; apply Z.log2_nonneg || lia).
    lia.
  - assert (Hl : Z.log2 m <= Z.log2 m') by (apply Z.log2_le_mono; lia).
    destruct (Z.eq_dec (Z.log2 m) (Z.log2 m')) as [E|E].
    + unfold round53. rewrite E.
      apply Z.mul_le_mono_nonneg_r.
      * apply Z.pow_nonneg; lia.
      * apply roundShift_mono; lia.
    + pose proof (round53_binade m ltac:(lia)) as [_ Hu].
      pose proof (round53_binade m' ltac:(lia)) as [Hl' _].
      assert (2 ^ (Z.log2 m + 1) <= 2 ^ Z.log2 m')
        by (apply Z.pow_le_mono_r; lia).
      lia.
Qed.

(** A number with at most 53 significant bits is not rounded. *)
Lemma round53_exact : forall c j : Z,
  0 <= c < 2 ^ 53 -> 0 <= j -> round53 (c * 2 ^ j) = c * 2 ^ j.
Proof.
  intros c j Hc Hj.
  destruct (Z.eq_dec c 0) as [->|Hz]; [now rewrite Z.mul_0_l|].
  assert (Hpj : 0 < 2 ^ j) by (apply Z.pow_pos_nonneg; lia).
  unfold round53.
  assert (Hlog : Z.log2 (c * 2 ^ j) = Z.log2 c + j).
  { rewrite Z.log2_mul_pow2 by lia. lia. }
  rewrite Hlog.
  assert (Hlc : Z.log2 c < 53) by (apply Z.log2_lt_pow2; lia).
  pose proof (Z.log2_nonneg c).
  set (n := Z.max 0 (Z.log2 c + j + 1 - 53)).
  assert (Hn : 0 <= n <= j) by (unfold n; lia).
  assert (Ej : 2 ^ j = 2 ^ (j - n) * 2 ^ n).
  { rewrite <- Z.pow_add_r by lia. f_equal. lia. }
  assert (Hpn : 0 < 2 ^ n) by (apply Z.pow_pos_nonneg; lia).
  rewrite roundShift_exact.
  - rewrite Ej, Z.mul_assoc, Z.div_mul by lia. reflexivity.
  - lia.
  - rewrite Ej, Z.mul_assoc. apply Z.mod_mul. lia.
Qed.

End RoundingIntegers.

(** *** The shifts of SpecFloat compute that rounding *)

Section RoundingShifts.

Local Open Scope Z_scope.

(** Rounding to 53 bits commutes with a scaling by a power of 2. *)
Lemma round53_scale : forall m k : Z,
  0 <= m -> 0 <= k -> round53 (m * 2 ^ k) = round53 m * 2 ^ k.
Proof.
  intros m k Hm Hk.
  destruct (Z.eq_dec m 0) as [->|Hz]; [reflexivity|].
  assert (Hpk : 0 < 2 ^ k) by (apply Z.pow_pos_nonneg; lia).
  destruct (Z_lt_le_dec m (2 ^ 53)) as [Hs|Hl].
  - rewrite round53_exact by lia. now rewrite round53_small by lia.
  - assert (Hlog : 53 <= Z.log2 m) by (apply Z.log2_le_pow2; lia).
    unfold round53. rewrite Z.log2_mul_pow2 by lia.
    rewrite !Z.max_r by lia.
    set (n := Z.log2 m + 1 - 53).
    replace (k + Z.log2 m + 1 - 53) with (n + k) by (unfold n; lia).
    assert (Hn : 0 < n) by (unfold n; lia).
    assert (Hpn : 0 < 2 ^ n) by (apply Z.pow_pos_nonneg; lia).
    rewrite Z.pow_add_r by lia.
    assert (E : roundShift (m * 2 ^ k) (n + k) = roundShift m n).
    { unfold roundShift. rewrite Z.pow_add_r by lia.
      rewrite Z.div_mul_cancel_r by lia.
      rewrite Z.mul_mod_distr_r by lia.
      rewrite Z.mul_assoc, <- Zmult_compare_compat_r by lia. reflexivity. }
    rewrite E. lia.
Qed.

Lemma digits2_log2 : forall p : positive,
  Z.pos (digits2_pos p) = Z.log2 (Z.pos p) + 1.
Proof.
  assert (Hs : forall p, digits2_pos p = Pos.size p).
  { induction p as [p IH|p IH|]; simpl; now rewrite ?IH. }
  intros p. rewrite Hs. destruct p as [p|p|]; simpl; lia.
Qed.

Lemma shr_1_spec : forall (m : Z) (r s : bool), 0 <= m ->
  shr_1 (Build_shr_record m r s)
  = Build_shr_record (m / 2) (Z.odd m) (r || s).
Proof.
  intros m r s Hm. rewrite <- Z.div2_div.
  destruct m as [|[p|p|]|p]; try reflexivity. lia.
Qed.

Lemma shr_iter_m : forall (n : positive) (mrs : shr_record),
  0 <= shr_m mrs ->
  shr_m (Pos.iter shr_1 mrs n) = shr_m mrs / 2 ^ Z.pos n.
Proof.
  intros n mrs Hm. induction n as [|n IH] using Pos.peano_ind.
  - destruct mrs as [m r s]. simpl in Hm.
    change (Pos.iter shr_1 (Build_shr_record m r s) 1)
      with (shr_1 (Build_shr_record m r s)).
    rewrite shr_1_spec by assumption. reflexivity.
  - rewrite Pos.iter_succ.
    destruct (Pos.iter shr_1 mrs n) as [m r s]. cbn [shr_m] in IH.
    assert (0 <= m).
    { rewrite IH. apply Z.div_pos; [assumption|].
      apply Z.pow_pos_nonneg; lia. }
    rewrite shr_1_spec by assumption. cbn [shr_m]. rewrite IH.
    rewrite Z.div_div by (try lia; apply Z.pow_pos_nonneg; lia).
    rewrite Pos2Z.inj_succ, Z.pow_succ_r by lia. f_equal. lia.
Qed.

(** [n] shifts of a mantissa: the quotient by [2^n], the bit shifted out
    last, and whether a lower bit was set. *)
Lemma shr_iter_spec : forall (n : positive) (m : Z), 0 <= m ->
  Pos.iter shr_1 (Build_shr_record m false false) n
  = Build_shr_record (m / 2 ^ Z.pos n) (Z.odd (m / 2 ^ (Z.pos n - 1)))
      (negb (m mod 2 ^ (Z.pos n - 1) =? 0)).
Proof.
  intros n m Hm. induction n as [|n IH] using Pos.peano_ind.
  - change (Pos.iter shr_1 (Build_shr_record m false false) 1)
      with (shr_1 (Build_shr_record m false false)).
    rewrite shr_1_spec by assumption.
    change (Z.pos 1 - 1) with 0. rewrite Z.pow_0_r, Z.div_1_r, Z.mod_1_r.
    reflexivity.
  - rewrite Pos.iter_succ, IH.
    assert (Hp : 0 < 2 ^ Z.pos n) by (apply Z.pow_pos_nonneg; lia).
    assert (Hp' : 0 < 2 ^ (Z.pos n - 1)) by (apply Z.pow_pos_nonneg; lia).
    rewrite shr_1_spec by (apply Z.div_pos; lia).
    rewrite Pos2Z.inj_succ.
    replace (Z.succ (Z.pos n) - 1) with (Z.pos n) by lia.
    rewrite Z.pow_succ_r by lia.
    rewrite Z.div_div by lia.
    replace (2 ^ Z.pos n * 2) with (2 * 2 ^ Z.pos n) by lia.
    f_equal.
    assert (E : 2 ^ Z.pos n = 2 ^ (Z.pos n - 1) * 2).
    { rewrite Z.mul_comm, <- Z.pow_succ_r by lia. f_equal. lia. }
    rewrite E at 1. rewrite Z.rem_mul_r by lia.
    rewrite Zmod_odd.
    pose proof (Z.mod_pos_bound m (2 ^ (Z.pos n - 1)) Hp') as Hb.
    destruct (Z.odd (m / 2 ^ (Z.pos n - 1))); cbn [orb].
    + symmetry. apply negb_true_iff. apply Z.eqb_neq. lia.
    + now rewrite Z.mul_0_r, Z.add_0_r.
Qed.

(** Shifting, then rounding on the two bits kept, is [roundShift]. *)
Lemma round_shifted : forall (n : positive) (m : Z), 0 <= m ->
  round_nearest_even
    (shr_m (Pos.iter shr_1 (Build_shr_record m false false) n))
    (loc_of_shr_record (Pos.iter shr_1 (Build_shr_record m false false) n))
  = roundShift m (Z.pos n).
Proof.
  intros n m Hm. rewrite shr_iter_spec by assumption. cbn [shr_m].
  unfold roundShift.
  assert (Hp' : 0 < 2 ^ (Z.pos n - 1)) by (apply Z.pow_pos_nonneg; lia).
  assert (E : 2 ^ Z.pos n = 2 ^ (Z.pos n - 1) * 2).
  { rewrite Z.mul_comm, <- Z.pow_succ_r by lia. f_equal. lia. }
  assert (Hrem : m mod 2 ^ Z.pos n
                 = m mod 2 ^ (Z.pos n - 1)
                   + 2 ^ (Z.pos n - 1)
                     * (if Z.odd (m / 2 ^ (Z.pos n - 1)) then 1 else 0)).
  { rewrite E, Z.rem_mul_r by lia. now rewrite Zmod_odd. }
  rewrite Hrem.
  pose proof (Z.mod_pos_bound m (2 ^ (Z.pos n - 1)) Hp') as Hb.
  change IntDef.Z.even with Z.even.
  destruct (Z.odd (m / 2 ^ (Z.pos n - 1)));
    destruct (Z.eqb_spec (m mod 2 ^ (Z.pos n - 1)) 0) as [Hz|Hz];
    cbn [negb loc_of_shr_record round_nearest_even];
    match goal with
    | |- context [?a ?= ?b] => destruct (Z.compare_spec a b)
    end; try lia; reflexivity.
Qed.

End RoundingShifts.

(** *** The value [binary_round] returns *)

Section RoundingValue.

Local Open Scope Z_scope.

Lemma fexp_binary64 : forall x : Z, fexp prec emax x = Z.max (x - 53) (-1074).
Proof. reflexivity. Qed.

Lemma digits_bounds : forall p : positive,
  2 ^ (Z.pos (digits2_pos p) - 1) <= Z.pos p < 2 ^ Z.pos (digits2_pos p).
Proof.
  intros p. rewrite digits2_log2.
  replace (Z.log2 (Z.pos p) + 1 - 1) with (Z.log2 (Z.pos p)) by lia.
  apply log2_digits. lia.
Qed.

(** A canonical mantissa is not rounded; the result overflows when the
    exponent is too large. *)
Lemma binary_round_aux_canon : forall (s : bool) (m : positive) (e : Z),
  fexp prec emax (Z.pos (digits2_pos m) + e) = e ->
  binary_round_aux prec emax s (Z.pos m) e loc_Exact
  = if e <=? 971 then S754_finite s m e else S754_infinity s.
Proof.
  intros s m e Hc. unfold binary_round_aux, shr_fexp.
  simpl Zdigits2. rewrite Hc, Z.sub_diag. simpl shr.
  cbn [shr_m loc_of_shr_record round_nearest_even shr_record_of_loc].
  simpl Zdigits2. rewrite Hc, Z.sub_diag. simpl shr. cbn [shr_m].
  reflexivity.
Qed.

(** [binary_round] rounds the mantissa to 53 significant bits, to nearest
    and to even on a tie. *)
Lemma binary_round_value : forall (s : bool) (p : positive) (e : Z),
  -1074 <= e ->
  exists (m : positive) (e' : Z),
    binary_round prec emax s p e
    = (if e' <=? 971 then S754_finite s m e' else S754_infinity s)
    /\ -1074 <= e'
    /\ Z.pos m * 2 ^ (e' + 1074) = round53 (Z.pos p) * 2 ^ (e + 1074)
    /\ (-1074 < e' -> 2 ^ 52 <= Z.pos m).
Proof.
  intros s p e He. unfold binary_round.
  pose proof (digits_bounds p) as [Hlo Hhi].
  pose proof (digits2_log2 p) as Hlog.
  set (d := Z.pos (digits2_pos p)) in *.
  rewrite fexp_binary64.
  set (fe := Z.max (d + e - 53) (-1074)).
  unfold shl_align.
  destruct (fe - e) as [|k|k] eqn:Ek.
  - (* the mantissa has exactly the digits of the format *)
    assert (Efe : fe = e) by lia.
    rewrite binary_round_aux_canon by (fold d; rewrite fexp_binary64; fold fe; lia).
    exists p, e. split; [reflexivity|]. split; [lia|].
    assert (Hd : d <= 53) by (unfold fe in Efe; lia).
    assert (Z.pos p < 2 ^ 53).
    { apply Z.lt_le_trans with (2 ^ d); [assumption|].
      apply Z.pow_le_mono_r; lia. }
    rewrite round53_small by lia. split; [reflexivity|].
    intros Hm. assert (d = 53) by (unfold fe in Efe; lia).
    replace 52 with (d - 1) by lia. exact Hlo.
  - (* more digits than the format has: the mantissa is shifted and rounded *)
    assert (Efe : fe = d + e - 53) by (unfold fe in *; lia).
    assert (Hk : Z.pos k = d - 53) by lia.
    assert (Hpk : 0 < 2 ^ Z.pos k) by (apply Z.pow_pos_nonneg; lia).
    assert (E52 : 2 ^ (d - 1) = 2 ^ 52 * 2 ^ Z.pos k).
    { rewrite <- Z.pow_add_r by lia. f_equal. lia. }
    assert (E53 : 2 ^ d = 2 ^ 53 * 2 ^ Z.pos k).
    { rewrite <- Z.pow_add_r by lia. f_equal. lia. }
    assert (Hq1 : 2 ^ 52 <= Z.pos p / 2 ^ Z.pos k)
      by (apply Z.div_le_lower_bound; lia).
    assert (Hq2 : Z.pos p / 2 ^ Z.pos k < 2 ^ 53)
      by (apply Z.div_lt_upper_bound; lia).
    pose proof (roundShift_bounds (Z.pos p) (Z.pos k)) as [Hr1 Hr2].
    assert (Er : round53 (Z.pos p) = roundShift (Z.pos p) (Z.pos k) * 2 ^ Z.pos k).
    { unfold round53. rewrite <- Hlog. fold d.
      replace (Z.max 0 (d - 53)) with (Z.pos k) by lia. reflexivity. }
    unfold binary_round_aux, shr_fexp.
    cbn [Zdigits2]. fold d. rewrite fexp_binary64. fold fe. rewrite Ek.
    cbn [shr shr_record_of_loc]. rewrite iter_pos_iter.
    rewrite round_shifted by lia.
    replace (e + Z.pos k) with fe by lia.
    destruct (roundShift (Z.pos p) (Z.pos k)) as [|m1|m1] eqn:Em1; try lia.
    destruct (Z_lt_le_dec (Z.pos m1) (2 ^ 53)) as [Hs|Hc].
    + (* no carry *)
      assert (Hd1 : Z.pos (digits2_pos m1) = 53).
      { rewrite digits2_log2. rewrite (Z.log2_unique (Z.pos m1) 52); lia. }
      cbn [Zdigits2]. rewrite Hd1, fexp_binary64.
      replace (Z.max (53 + fe - 53) (-1074) - fe) with 0 by lia.
      cbn [shr shr_record_of_loc shr_m].
      exists m1, fe. split; [reflexivity|]. split; [lia|]. split; [|lia].
      rewrite Er. replace (fe + 1074) with (Z.pos k + (e + 1074)) by lia.
      rewrite Z.pow_add_r by lia. lia.
    + (* the rounding carries into the next binade *)
      assert (Em : Z.pos m1 = 2 ^ 53) by lia.
      assert (m1 = 9007199254740992%positive) by lia. subst m1.
      cbn [Zdigits2]. rewrite fexp_binary64.
      replace (Z.max (Z.pos (digits2_pos 9007199254740992) + fe - 53) (-1074)
               - fe) with 1 by (simpl digits2_pos; lia).
      cbn [shr shr_record_of_loc iter_pos shr_1 shr_m].
      exists 4503599627370496%positive, (fe + 1). split; [reflexivity|].
      split; [lia|]. split; [|lia].
      rewrite Er. replace (fe + 1 + 1074) with (1 + Z.pos k + (e + 1074)) by lia.
      rewrite !Z.pow_add_r by lia. lia.
  - (* fewer digits: the mantissa is shifted left, exactly *)
    assert (Hk : Z.pos k = e - fe) by lia.
    rewrite binary_round_aux_canon.
    2:{ rewrite digits2_pos_iter_xO. fold d. rewrite fexp_binary64.
        unfold fe in *. lia. }
    exists (Pos.iter xO p k), fe. split; [reflexivity|].
    split; [unfold fe; lia|].
    assert (Hd : d <= 53) by (unfold fe in *; lia).
    assert (Z.pos p < 2 ^ 53).
    { apply Z.lt_le_trans with (2 ^ d); [assumption|].
      apply Z.pow_le_mono_r; lia. }
    rewrite round53_small by lia. rewrite Zpos_iter_xO. split.
    + replace (e + 1074) with (Z.pos k + (fe + 1074)) by lia.
      rewrite (Z.pow_add_r 2 (Z.pos k) (fe + 1074)) by (unfold fe; lia). ring.
    + intros Hm. assert (Z.pos k = 53 - d) by (unfold fe in *; lia).
      replace (2 ^ 52) with (2 ^ (d - 1) * 2 ^ Z.pos k).
      * apply Z.mul_le_mono_nonneg_r; lia.
      * rewrite <- Z.pow_add_r by lia. f_equal. lia.
Qed.

End RoundingValue.

(** *** The order of finite numbers *)

Section Binary64Compare.

Local Open Scope Z_scope.

(** A number of the format: the exponent is in range, the mantissa has at
    most 53 bits, and exactly 53 above the smallest exponent. *)
Lemma valid_finite : forall (s : bool) (m : positive) (e : Z),
  valid_binary (S754_finite s m e) = true ->
  -1074 <= e <= 971
  /\ Z.pos m < 2 ^ 53
  /\ (-1074 < e -> 2 ^ 52 <= Z.pos m).
Proof.
  intros s m e Hv.
  unfold valid_binary, SpecFloat.valid_binary, bounded, canonical_mantissa in Hv.
  apply andb_true_iff in Hv. destruct Hv as [Hc He].
  apply Z.eqb_eq in Hc. apply Z.leb_le in He.
  rewrite fexp_binary64 in Hc.
  pose proof (digits_bounds m) as [Hlo Hhi].
  set (d := Z.pos (digits2_pos m)) in *.
  change (emax - prec) with 971 in He.
  split; [lia|]. split.
  - apply Z.lt_le_trans with (2 ^ d); [assumption|].
    apply Z.pow_le_mono_r; lia.
  - intros Hm. replace 52 with (d - 1) by lia. exact Hlo.
Qed.

Lemma SFint_pos : forall (m : positive) (e : Z),
  -1074 <= e -> 0 < SFint (S754_finite false m e).
Proof.
  intros m e He. cbn [SFint].
  assert (0 < 2 ^ (e + 1074)) by (apply Z.pow_pos_nonneg; lia). lia.
Qed.

(** On finite numbers with the sign bit clear the order of binary64 is the
    order of the integers they are multiples of [2^-1074] of. *)
Lemma SFcompare_int : forall x y : spec_float,
  valid_binary x = true -> valid_binary y = true ->
  SFnonneg x = true -> SFnonneg y = true ->
  SFcompare x y = Some (SFint x ?= SFint y).
Proof.
  intros [[|]| | |[|] m1 e1] [[|]| | |[|] m2 e2] Hx Hy Nx Ny; try discriminate.
  - reflexivity.
  - apply valid_finite in Hy. cbn [SFcompare].
    pose proof (SFint_pos m2 e2 ltac:(lia)) as Hp. cbn [SFint] in *.
    destruct (Z.compare_spec 0 (Z.pos m2 * 2 ^ (e2 + 1074))); try lia.
    reflexivity.
  - apply valid_finite in Hx. cbn [SFcompare].
    pose proof (SFint_pos m1 e1 ltac:(lia)) as Hp. cbn [SFint] in *.
    destruct (Z.compare_spec (Z.pos m1 * 2 ^ (e1 + 1074)) 0); try lia.
    reflexivity.
  - apply valid_finite in Hx, Hy.
    destruct Hx as (He1 & Hm1 & Hn1). destruct Hy as (He2 & Hm2 & Hn2).
    cbn [SFcompare SFint]. f_equal.
    assert (Hp1 : 0 < 2 ^ (e1 + 1074)) by (apply Z.pow_pos_nonneg; lia).
    assert (Hp2 : 0 < 2 ^ (e2 + 1074)) by (apply Z.pow_pos_nonneg; lia).
    destruct (Z.compare_spec e1 e2) as [E|Hlt|Hgt].
    + subst e2. change (Pos.compare_cont Eq m1 m2) with (Z.pos m1 ?= Z.pos m2).
      now rewrite <- Zmult_compare_compat_r by lia.
    + symmetry. apply Z.compare_lt_iff.
      assert (E2 : 2 ^ (e2 + 1074) = 2 ^ (e2 - e1 - 1) * (2 * 2 ^ (e1 + 1074))).
      { rewrite <- Z.pow_succ_r, <- Z.pow_add_r by lia. f_equal. lia. }
      assert (Hq : 1 <= 2 ^ (e2 - e1 - 1)).
      { assert (0 < 2 ^ (e2 - e1 - 1)) by (apply Z.pow_pos_nonneg; lia). lia. }
      specialize (Hn2 ltac:(lia)).
      rewrite E2. nia.
    + symmetry. apply Z.compare_gt_iff.
      assert (E1 : 2 ^ (e1 + 1074) = 2 ^ (e1 - e2 - 1) * (2 * 2 ^ (e2 + 1074))).
      { rewrite <- Z.pow_succ_r, <- Z.pow_add_r by lia. f_equal. lia. }
      assert (Hq : 1 <= 2 ^ (e1 - e2 - 1)).
      { assert (0 < 2 ^ (e1 - e2 - 1)) by (apply Z.pow_pos_nonneg; lia). lia. }
      specialize (Hn1 ltac:(lia)).
      rewrite E1. nia.
Qed.

Lemma SFint_valid_bound : forall x : spec_float,
  valid_binary x = true -> SFnonneg x = true ->
  0 <= SFint x < 2 ^ 53 * 2 ^ (971 + 1074)
  /\ round53 (SFint x) = SFint x.
Proof.
  intros [[|]| | |[|] m e] Hv Hn; try discriminate.
  - split; [simpl; lia|]. apply round53_small. simpl. lia.
  - apply valid_finite in Hv. destruct Hv as (He & Hm & _).
    cbn [SFint].
    assert (0 < 2 ^ (e + 1074)) by (apply Z.pow_pos_nonneg; lia).
    assert (2 ^ (e + 1074) <= 2 ^ (971 + 1074))
      by (apply Z.pow_le_mono_r; lia).
    split; [split; [lia|nia]|].
    apply round53_exact; lia.
Qed.

End Binary64Compare.

(** *** Subtraction and division *)

Section Binary64Operations.

Local Open Scope Z_scope.

Lemma shl_align_value : forall (m : positive) (e e' : Z), e' <= e ->
  Z.pos (fst (shl_align m e e')) = Z.pos m * 2 ^ (e - e').
Proof.
  intros m e e' He. unfold shl_align.
  destruct (e' - e) as [|k|k] eqn:Ek; try lia.
  - replace (e - e') with 0 by lia. simpl fst. lia.
  - cbn [fst]. rewrite Zpos_iter_xO. f_equal. f_equal. lia.
Qed.

Lemma SFleb_int : forall x y : spec_float,
  valid_binary x = true -> valid_binary y = true ->
  SFnonneg x = true -> SFnonneg y = true ->
  SFleb x y = true <-> SFint x <= SFint y.
Proof.
  intros x y Hx Hy Nx Ny. unfold SFleb.
  rewrite (SFcompare_int x y Hx Hy Nx Ny).
  destruct (Z.compare_spec (SFint x) (SFint y)); split; intros; try lia;
    try reflexivity; discriminate.
Qed.

(** The difference of two finite numbers with the sign bit clear, the
    smaller subtracted from the larger, is their exact difference rounded to
    53 bits; it is finite and its sign bit is clear. *)
Lemma SFsub_nonneg : forall a b : spec_float,
  valid_binary a = true -> valid_binary b = true ->
  SFnonneg a = true -> SFnonneg b = true ->
  SFleb a b = true ->
  SFnonneg (SF64sub b a) = true
  /\ SFint (SF64sub b a) = round53 (SFint b - SFint a).
Proof.
  intros a b Ha Hb Na Nb Hle.
  pose proof (proj1 (SFleb_int a b Ha Hb Na Nb) Hle) as Hint.
  pose proof (SFint_valid_bound b Hb Nb) as [[HB0 HB] HBr].
  destruct a as [[|]| | |[|] ma ea]; try discriminate;
    destruct b as [[|]| | |[|] mb eb]; try discriminate.
  - split; [reflexivity|]. reflexivity.
  - split; [reflexivity|]. cbn [SF64sub SFsub].
    change (SFint (S754_zero false)) with 0. now rewrite Z.sub_0_r, HBr.
  - assert (Hex : ea <= eb).
    { unfold SFleb in Hle. cbn [SFcompare] in Hle.
      destruct (Z.compare_spec ea eb); try lia; discriminate. }
    pose proof (valid_finite _ _ _ Ha) as (Hea & Hma & Hna).
    pose proof (valid_finite _ _ _ Hb) as (Heb & Hmb & Hnb).
    assert (Hpa : 0 < 2 ^ (ea + 1074)) by (apply Z.pow_pos_nonneg; lia).
    assert (Epow : 2 ^ (eb + 1074) = 2 ^ (eb - ea) * 2 ^ (ea + 1074)).
    { rewrite <- Z.pow_add_r by lia. f_equal. lia. }
    unfold SF64sub, SFsub. rewrite Z.min_r by lia. cbn [cond_Zopp].
    rewrite !shl_align_value by lia.
    rewrite Z.sub_diag, Z.pow_0_r, Z.mul_1_r.
    cbn [SFint] in Hint, HB, HBr |- *.
    set (M := Z.pos mb * 2 ^ (eb - ea) - Z.pos ma).
    assert (EM : Z.pos mb * 2 ^ (eb + 1074) - Z.pos ma * 2 ^ (ea + 1074)
                 = M * 2 ^ (ea + 1074)).
    { unfold M. rewrite Epow. ring. }
    rewrite EM.
    assert (HM : 0 <= M) by nia.
    destruct M as [|p|p] eqn:Ep; try lia.
    + split; reflexivity.
    + cbn [binary_normalize].
      destruct (binary_round_value false p ea ltac:(lia))
        as (m & e' & E & He' & Hval & Hnorm).
      rewrite E.
      assert (Hr : round53 (Z.pos p * 2 ^ (ea + 1074))
                   <= Z.pos mb * 2 ^ (eb + 1074)).
      { rewrite <- HBr. apply round53_mono. split; [lia|].
        rewrite <- EM. lia. }
      rewrite round53_scale in Hr by lia.
      assert (Hfin : e' <= 971).
      { destruct (Z_le_gt_dec e' 971) as [|Hgt]; [assumption|]. exfalso.
        specialize (Hnorm ltac:(lia)).
        set (P := 2 ^ (971 + 1074)) in *.
        assert (HP : 0 < P) by (apply Z.pow_pos_nonneg; lia).
        assert (HX : 2 * P <= 2 ^ (e' + 1074)).
        { unfold P. rewrite <- Z.pow_succ_r by lia.
          apply Z.pow_le_mono_r; lia. }
        assert (HQ : 2 ^ (eb + 1074) <= P)
          by (apply Z.pow_le_mono_r; lia).
        assert (0 < 2 ^ (eb + 1074)) by (apply Z.pow_pos_nonneg; lia).
        assert (A1 : 2 ^ 52 * (2 * P) <= Z.pos m * 2 ^ (e' + 1074))
          by (apply Z.mul_le_mono_nonneg; lia).
        assert (A2 : Z.pos mb * 2 ^ (eb + 1074) <= Z.pos mb * P)
          by (apply Z.mul_le_mono_nonneg_l; lia).
        assert (A3 : Z.pos mb * P < 2 ^ 53 * P)
          by (apply Z.mul_lt_mono_pos_r; lia).
        lia. }
      apply Z.leb_le in Hfin. rewrite Hfin.
      split; [reflexivity|]. cbn [SFint].
      rewrite round53_scale by lia. exact Hval.
Qed.

Lemma Zdigits2_bounds : forall q : Z, 0 < q ->
  2 ^ (Zdigits2 q - 1) <= q < 2 ^ Zdigits2 q.
Proof.
  intros [|p|p] Hq; try lia. apply digits_bounds.
Qed.

Lemma round_nearest_even_bounds : forall (m : Z) (l : location),
  m <= round_nearest_even m l <= m + 1.
Proof.
  intros m [|[| |]]; cbn [round_nearest_even];
    try destruct (IntDef.Z.even m); lia.
Qed.

Lemma shr_record_of_loc_m : forall (m : Z) (l : location),
  shr_m (shr_record_of_loc m l) = m.
Proof. intros m [|[| |]]; reflexivity. Qed.

(** The mantissa and the exponent [shr] returns. *)
Lemma shr_value : forall (mrs : shr_record) (e n : Z),
  0 <= shr_m mrs ->
  shr_m (fst (shr mrs e n)) = shr_m mrs / 2 ^ Z.max 0 n
  /\ snd (shr mrs e n) = e + Z.max 0 n.
Proof.
  intros mrs e [|k|k] Hm; cbn [shr fst snd].
  - rewrite Z.max_l, Z.pow_0_r, Z.div_1_r by lia. split; lia.
  - rewrite iter_pos_iter, shr_iter_m by assumption.
    rewrite Z.max_r by lia. split; reflexivity.
  - rewrite Z.max_l, Z.pow_0_r, Z.div_1_r by lia. split; lia.
Qed.

(** Rounding does not cross 1: a value below 1 is rounded to at most 1. *)
Lemma binary_round_aux_below_one : forall (q e : Z) (l : location),
  e < 0 -> 0 <= q < 2 ^ (- e) ->
  SFnonneg (binary_round_aux prec emax false q e l) = true
  /\ SFint (binary_round_aux prec emax false q e l) <= 2 ^ 1074.
Proof.
  intros q e l He [Hq0 Hq].
  assert (Hdq : Zdigits2 q + e <= 0).
  { destruct (Z.eq_dec q 0) as [->|Hz]; [simpl; lia|].
    pose proof (Zdigits2_bounds q ltac:(lia)) as [Hlo _].
    destruct (Z_le_gt_dec (Zdigits2 q + e) 0) as [|Hgt]; [assumption|].
    exfalso.
    assert (2 ^ (- e) <= 2 ^ (Zdigits2 q - 1))
      by (apply Z.pow_le_mono_r; lia).
    lia. }
  unfold binary_round_aux, shr_fexp. rewrite fexp_binary64.
  set (n1 := Z.max (Zdigits2 q + e - 53) (-1074) - e).
  pose proof (shr_value (shr_record_of_loc q l) e n1) as [Hm1 He1].
  { now rewrite shr_record_of_loc_m. }
  rewrite shr_record_of_loc_m in Hm1.
  destruct (shr (shr_record_of_loc q l) e n1) as [mrs1 e1].
  cbn [fst snd] in Hm1, He1.
  assert (He1b : -1074 <= e1 < 0) by (unfold n1 in *; lia).
  assert (Hpn : 0 < 2 ^ Z.max 0 n1) by (apply Z.pow_pos_nonneg; lia).
  assert (Hq1 : 0 <= shr_m mrs1 < 2 ^ (- e1)).
  { rewrite Hm1. split; [apply Z.div_pos; lia|].
    apply Z.div_lt_upper_bound; [lia|].
    rewrite <- Z.pow_add_r by lia.
    replace (Z.max 0 n1 + - e1) with (- e) by lia. exact Hq. }
  pose proof (round_nearest_even_bounds (shr_m mrs1) (loc_of_shr_record mrs1))
    as Hr.
  set (m1 := round_nearest_even (shr_m mrs1) (loc_of_shr_record mrs1)) in *.
  assert (Hm1b : 0 <= m1 <= 2 ^ (- e1)) by lia.
  assert (Hd1 : Zdigits2 m1 + e1 <= 1).
  { destruct (Z.eq_dec m1 0) as [->|Hz]; [simpl; lia|].
    pose proof (Zdigits2_bounds m1 ltac:(lia)) as [Hlo _].
    destruct (Z_le_gt_dec (Zdigits2 m1 + e1) 1) as [|Hgt]; [assumption|].
    exfalso.
    assert (2 ^ (- e1 + 1) <= 2 ^ (Zdigits2 m1 - 1))
      by (apply Z.pow_le_mono_r; lia).
    rewrite Z.pow_add_r, Z.pow_1_r in H by lia.
    assert (0 < 2 ^ (- e1)) by (apply Z.pow_pos_nonneg; lia).
    lia. }
  rewrite fexp_binary64.
  set (n2 := Z.max (Zdigits2 m1 + e1 - 53) (-1074) - e1).
  pose proof (shr_value (shr_record_of_loc m1 loc_Exact) e1 n2) as [Hm2 He2].
  { rewrite shr_record_of_loc_m. lia. }
  rewrite shr_record_of_loc_m in Hm2.
  destruct (shr (shr_record_of_loc m1 loc_Exact) e1 n2) as [mrs2 e2].
  cbn [fst snd] in Hm2, He2.
  assert (He2b : -1074 <= e2 <= 971) by (unfold n2 in *; lia).
  assert (Hpn2 : 0 < 2 ^ Z.max 0 n2) by (apply Z.pow_pos_nonneg; lia).
  assert (Hm2b : 0 <= shr_m mrs2) by (rewrite Hm2; apply Z.div_pos; lia).
  assert (Hval : shr_m mrs2 * 2 ^ (e2 + 1074) <= 2 ^ 1074).
  { assert (shr_m mrs2 * 2 ^ Z.max 0 n2 <= m1).
    { rewrite Hm2, Z.mul_comm. apply Z.mul_div_le. lia. }
    replace (e2 + 1074) with (Z.max 0 n2 + (e1 + 1074)) by lia.
    rewrite Z.pow_add_r by lia.
    assert (E : 2 ^ 1074 = 2 ^ (- e1) * 2 ^ (e1 + 1074)).
    { rewrite <- Z.pow_add_r by lia. f_equal. lia. }
    assert (0 < 2 ^ (e1 + 1074)) by (apply Z.pow_pos_nonneg; lia).
    rewrite E, Z.mul_assoc. apply Z.mul_le_mono_nonneg_r; lia. }
  destruct (shr_m mrs2) as [|m|m]; try lia.
  - split; [reflexivity|]. simpl SFint. apply Z.pow_nonneg. lia.
  - replace (e2 <=? emax - prec) with true
      by (symmetry; apply Z.leb_le; change (emax - prec) with 971; lia).
    split; [reflexivity|]. exact Hval.
Qed.

(** The quotient of a finite positive number by a greater one is at most
    1. *)
Lemma SFdiv_below_one : forall (mu mv : positive) (eu ev : Z),
  -1074 <= eu -> -1074 <= ev ->
  Z.pos mu * 2 ^ (eu + 1074) < Z.pos mv * 2 ^ (ev + 1074) ->
  SFnonneg (SF64div (S754_finite false mu eu) (S754_finite false mv ev)) = true
  /\ SFint (SF64div (S754_finite false mu eu) (S754_finite false mv ev))
     <= 2 ^ 1074.
Proof.
  intros mu mv eu ev Heu Hev Hlt.
  unfold SF64div, SFdiv, SFdiv_core_binary. cbn [xorb Zdigits2].
  pose proof (digits_bounds mu) as [Hlu _].
  pose proof (digits_bounds mv) as [_ Huv].
  set (du := Z.pos (digits2_pos mu)) in *.
  set (dv := Z.pos (digits2_pos mv)) in *.
  assert (Hpu : 0 < 2 ^ (eu + 1074)) by (apply Z.pow_pos_nonneg; lia).
  assert (Hpv : 0 < 2 ^ (ev + 1074)) by (apply Z.pow_pos_nonneg; lia).
  assert (HD : du + eu - (dv + ev) <= 0).
  { destruct (Z_le_gt_dec (du + eu - (dv + ev)) 0) as [|Hgt]; [assumption|].
    exfalso.
    assert (Z.pos mv * 2 ^ (ev + 1074) < 2 ^ (dv + (ev + 1074))).
    { rewrite (Z.pow_add_r 2 dv (ev + 1074)) by (unfold dv; lia).
      apply Z.mul_lt_mono_pos_r; lia. }
    assert (2 ^ (du - 1 + (eu + 1074)) <= Z.pos mu * 2 ^ (eu + 1074)).
    { rewrite (Z.pow_add_r 2 (du - 1) (eu + 1074)) by (unfold du; lia).
      apply Z.mul_le_mono_nonneg_r; lia. }
    assert (2 ^ (dv + (ev + 1074)) <= 2 ^ (du - 1 + (eu + 1074)))
      by (apply Z.pow_le_mono_r; lia).
    lia. }
  rewrite fexp_binary64.
  set (e' := Z.min (Z.max (du + eu - (dv + ev) - 53) (-1074)) (eu - ev)).
  assert (He' : e' <= -53) by (unfold e'; lia).
  set (s := eu - ev - e').
  assert (Hs : 0 <= s) by (unfold s, e'; lia).
  assert (Em : match s with
               | 0 => Z.pos mu
               | Z.pos _ => Z.shiftl (Z.pos mu) s
               | Z.neg _ => 0
               end = Z.pos mu * 2 ^ s).
  { destruct s as [|k|k] eqn:Es; try lia.
    now rewrite Z.shiftl_mul_pow2 by lia. }
  rewrite Em.
  pose proof (Z_div_mod (Z.pos mu * 2 ^ s) (Z.pos mv) ltac:(lia)) as Hdiv.
  change IntDef.Z.div_eucl with Z.div_eucl.
  destruct (Z.div_eucl (Z.pos mu * 2 ^ s) (Z.pos mv)) as [q r].
  destruct Hdiv as [Hqr Hr].
  assert (Hps : 0 < 2 ^ s) by (apply Z.pow_pos_nonneg; lia).
  assert (Hq0 : 0 <= q) by nia.
  apply binary_round_aux_below_one; [lia|]. split; [assumption|].
  (* q * V <= U * 2^(-e') < V * 2^(-e') *)
  assert (Hpe : 0 < 2 ^ (- e')) by (apply Z.pow_pos_nonneg; lia).
  assert (E1 : 2 ^ s * 2 ^ (ev + 1074) = 2 ^ (eu + 1074) * 2 ^ (- e')).
  { rewrite <- !Z.pow_add_r by lia. f_equal. unfold s. lia. }
  assert (Hqv : q * (Z.pos mv * 2 ^ (ev + 1074))
                <= Z.pos mu * 2 ^ (eu + 1074) * 2 ^ (- e')).
  { replace (Z.pos mu * 2 ^ (eu + 1074) * 2 ^ (- e'))
      with (Z.pos mu * 2 ^ s * 2 ^ (ev + 1074)) by (rewrite <- !Z.mul_assoc, E1; ring).
    rewrite Z.mul_assoc. apply Z.mul_le_mono_nonneg_r; [lia|]. nia. }
  assert (Hlt' : Z.pos mu * 2 ^ (eu + 1074) * 2 ^ (- e')
                 < Z.pos mv * 2 ^ (ev + 1074) * 2 ^ (- e')).
  { apply Z.mul_lt_mono_pos_r; lia. }
  assert (0 < Z.pos mv * 2 ^ (ev + 1074)) by lia.
  nia.
Qed.

End Binary64Operations.

(** ** Binary64: finite numbers with the sign bit clear *)

Section Binary64Order.

Local Open Scope Z_scope.

Lemma float_leb_int : forall x y : float,
  SFnonneg (Prim2SF x) = true -> SFnonneg (Prim2SF y) = true ->
  PrimFloat.leb x y = true <-> SFint (Prim2SF x) <= SFint (Prim2SF y).
Proof.
  intros x y Hx Hy. rewrite FloatAxioms.leb_spec.
  apply SFleb_int; auto using Prim2SF_valid.
Qed.

Lemma float_ltb_int : forall x y : float,
  SFnonneg (Prim2SF x) = true -> SFnonneg (Prim2SF y) = true ->
  PrimFloat.ltb x y = true <-> SFint (Prim2SF x) < SFint (Prim2SF y).
Proof.
  intros x y Hx Hy. rewrite FloatAxioms.ltb_spec. unfold SFltb.
  rewrite (SFcompare_int _ _ (Prim2SF_valid x) (Prim2SF_valid y) Hx Hy).
  destruct (Z.compare_spec (SFint (Prim2SF x)) (SFint (Prim2SF y)));
    split; intros; try lia; try reflexivity; discriminate.
Qed.

Lemma float_eqb_int : forall x y : float,
  SFnonneg (Prim2SF x) = true -> SFnonneg (Prim2SF y) = true ->
  PrimFloat.eqb x y = true <-> SFint (Prim2SF x) = SFint (Prim2SF y).
Proof.
  intros x y Hx Hy. rewrite FloatAxioms.eqb_spec. unfold SFeqb.
  rewrite (SFcompare_int _ _ (Prim2SF_valid x) (Prim2SF_valid y) Hx Hy).
  destruct (Z.compare_spec (SFint (Prim2SF x)) (SFint (Prim2SF y)));
    split; intros; try lia; try reflexivity; discriminate.
Qed.

(** Two finite numbers with the sign bit clear that hold the same value are
    the same number. *)
Lemma float_int_inj : forall x y : float,
  SFnonneg (Prim2SF x) = true -> SFnonneg (Prim2SF y) = true ->
  SFint (Prim2SF x) = SFint (Prim2SF y) -> x = y.
Proof.
  intros x y Hx Hy E. apply Prim2SF_inj.
  pose proof (SFcompare_int _ _ (Prim2SF_valid x) (Prim2SF_valid y) Hx Hy) as Hc.
  rewrite E, Z.compare_refl in Hc.
  destruct (Prim2SF x) as [[|]| | |[|] m1 e1]; try discriminate;
    destruct (Prim2SF y) as [[|]| | |[|] m2 e2]; try discriminate;
    [reflexivity|].
  cbn [SFcompare] in Hc.
  destruct (Z.compare_spec e1 e2) as [->|_|_]; try discriminate.
  injection Hc as Hc. change (Pos.compare_cont Eq m1 m2) with (Pos.compare m1 m2) in Hc.
  apply Pos.compare_eq in Hc. now subst.
Qed.

Lemma float_nonneg_int : forall x : float,
  SFnonneg (Prim2SF x) = true -> 0 <= SFint (Prim2SF x).
Proof.
  intros x Hx.
  now destruct (SFint_valid_bound _ (Prim2SF_valid x) Hx) as [[H0 _] _].
Qed.

Lemma float_zero_int : forall x : float,
  SFnonneg (Prim2SF x) = true -> SFint (Prim2SF x) = 0 -> x = PrimFloat.zero.
Proof.
  intros x Hx E. apply float_int_inj; [assumption|reflexivity|].
  rewrite E. reflexivity.
Qed.

(** The difference of two such numbers, the smaller subtracted from the
    larger, is the exact difference rounded. *)
Lemma float_sub_int : forall a b : float,
  SFnonneg (Prim2SF a) = true -> SFnonneg (Prim2SF b) = true ->
  PrimFloat.leb a b = true ->
  SFnonneg (Prim2SF (PrimFloat.sub b a)) = true
  /\ SFint (Prim2SF (PrimFloat.sub b a))
     = round53 (SFint (Prim2SF b) - SFint (Prim2SF a)).
Proof.
  intros a b Ha Hb Hle. rewrite FloatAxioms.sub_spec.
  rewrite FloatAxioms.leb_spec in Hle.
  apply SFsub_nonneg; auto using Prim2SF_valid.
Qed.

(** Subtracting the same number is monotone. *)
Lemma float_sub_mono : forall a b c : float,
  SFnonneg (Prim2SF a) = true -> SFnonneg (Prim2SF b) = true ->
  SFnonneg (Prim2SF c) = true ->
  PrimFloat.leb a b = true -> PrimFloat.leb b c = true ->
  SFnonneg (Prim2SF (PrimFloat.sub b a)) = true
  /\ SFnonneg (Prim2SF (PrimFloat.sub c a)) = true
  /\ PrimFloat.leb (PrimFloat.sub b a) (PrimFloat.sub c a) = true.
Proof.
  intros a b c Ha Hb Hc Hab Hbc.
  pose proof (proj1 (float_leb_int a b Ha Hb) Hab) as Iab.
  pose proof (proj1 (float_leb_int b c Hb Hc) Hbc) as Ibc.
  assert (Hac : PrimFloat.leb a c = true) by (apply float_leb_int; auto; lia).
  destruct (float_sub_int a b Ha Hb Hab) as [Nb Eb].
  destruct (float_sub_int a c Ha Hc Hac) as [Nc Ec].
  split; [assumption|]. split; [assumption|].
  apply float_leb_int; auto. rewrite Eb, Ec.
  apply round53_mono. lia.
Qed.

(** The quotient of such a number by a greater one lies in [[0, 1]]. *)
Lemma float_div_unit : forall u v : float,
  SFnonneg (Prim2SF u) = true -> SFnonneg (Prim2SF v) = true ->
  PrimFloat.ltb PrimFloat.zero v = true ->
  PrimFloat.leb u v = true ->
  SFnonneg (Prim2SF (PrimFloat.div u v)) = true
  /\ PrimFloat.leb (PrimFloat.div u v) PrimFloat.one = true.
Proof.
  intros u v Hu Hv Hpos Hle.
  pose proof (proj1 (float_leb_int u v Hu Hv) Hle) as Iuv.
  pose proof (proj1 (float_ltb_int PrimFloat.zero v eq_refl Hv) Hpos) as Ipos.
  change (SFint (Prim2SF PrimFloat.zero)) with 0 in Ipos.
  assert (Hone : SFint (Prim2SF PrimFloat.one) = 2 ^ 1074) by reflexivity.
  assert (Hbound : SFnonneg (Prim2SF (PrimFloat.div u v)) = true
                   /\ SFint (Prim2SF (PrimFloat.div u v)) <= 2 ^ 1074).
  { rewrite FloatAxioms.div_spec.
    pose proof (Prim2SF_valid u) as Vu. pose proof (Prim2SF_valid v) as Vv.
    destruct (Prim2SF u) as [[|]| | |[|] mu eu]; try discriminate;
      destruct (Prim2SF v) as [[|]| | |[|] mv ev]; try discriminate;
      try (cbn [SFint] in Ipos; lia).
    - split; [reflexivity|]. unfold SF64div, SFdiv. cbn [xorb SFint].
      apply Z.pow_nonneg. lia.
    - pose proof (valid_finite _ _ _ Vu) as Fu.
      pose proof (valid_finite _ _ _ Vv) as Fv.
      destruct (Z.eq_dec (SFint (S754_finite false mu eu))
                  (SFint (S754_finite false mv ev))) as [E|Hne].
      + assert (Es : S754_finite false mu eu = S754_finite false mv ev).
        { assert (Hc : SFcompare (S754_finite false mu eu)
                         (S754_finite false mv ev) = Some Eq).
          { rewrite SFcompare_int by auto.
            now rewrite E, Z.compare_refl. }
          cbn [SFcompare] in Hc.
          destruct (Z.compare_spec eu ev) as [->|_|_]; try discriminate.
          injection Hc as Hc.
          change (Pos.compare_cont Eq mu mv) with (Pos.compare mu mv) in Hc.
          apply Pos.compare_eq in Hc. now subst. }
        rewrite Es, SFdiv_self. split; [reflexivity|].
        cbn [xorb]. change (SFint (Prim2SF 1)) with (2 ^ 1074). lia.
      + apply SFdiv_below_one; try lia.
        cbn [SFint] in Iuv, Hne. lia. }
  destruct Hbound as [Hn Hb]. split; [assumption|].
  apply float_leb_int; [assumption|reflexivity|]. now rewrite Hone.
Qed.

End Binary64Order.

(** ** Binary64: results that are never negative *)

Section Binary64Sign.

Lemma binary_round_aux_clear : forall (m e : Z) (l : location),
  SFclear (binary_round_aux prec emax false m e l) = true.
Proof.
  intros m e l. unfold binary_round_aux.
  destruct (shr_fexp prec emax m e l) as [mrs' e'].
  destruct (shr_fexp prec emax _ e' loc_Exact) as [mrs'' e''].
  destruct (shr_m mrs'') as [|p|p]; try reflexivity.
  now destruct (e'' <=? emax - prec)%Z.
Qed.

Lemma binary_normalize_clear : forall (m e : Z),
  (0 <= m)%Z -> SFclear (binary_normalize prec emax m e false) = true.
Proof.
  intros [|p|p] e Hm; try lia; [reflexivity|].
  unfold binary_normalize, binary_round.
  destruct (shl_align p e _) as [mz ez]. apply binary_round_aux_clear.
Qed.

Lemma SFadd_clear : forall x y : spec_float,
  SFclear x = true -> SFclear y = true -> SFclear (SF64add x y) = true.
Proof.
  intros [[|]|[|]| |[|] mx ex] [[|]|[|]| |[|] my ey] Hx Hy;
    try discriminate; try reflexivity.
  unfold SF64add, SFadd. cbn [cond_Zopp].
  apply binary_normalize_clear. lia.
Qed.

Lemma SFmul_square_clear : forall x : spec_float,
  SFclear (SF64mul x x) = true.
Proof.
  intros [[|]|[|]| |[|] m e]; try reflexivity;
    unfold SF64mul, SFmul; cbn [xorb]; apply binary_round_aux_clear.
Qed.

Lemma SFsqrt_clear : forall x : spec_float,
  SFclear x = true -> SFclear (SF64sqrt x) = true.
Proof.
  intros [[|]|[|]| |[|] m e] Hx; try discriminate; try reflexivity.
  unfold SF64sqrt, SFsqrt.
  destruct (SFsqrt_core_binary prec emax (Z.pos m) e) as [[mz ez] lz].
  apply binary_round_aux_clear.
Qed.

Lemma SFdiv_clear : forall x y : spec_float,
  SFclear x = true -> SFclear y = true -> SFclear (SF64div x y) = true.
Proof.
  intros [[|]|[|]| |[|] mx ex] [[|]|[|]| |[|] my ey] Hx Hy;
    try discriminate; try reflexivity.
  unfold SF64div, SFdiv.
  destruct (SFdiv_core_binary prec emax (Z.pos mx) ex (Z.pos my) ey)
    as [[mz ez] lz].
  cbn [xorb]. apply binary_round_aux_clear.
Qed.

Lemma float_add_clear : forall x y : float,
  SFclear (Prim2SF x) = true -> SFclear (Prim2SF y) = true ->
  SFclear (Prim2SF (PrimFloat.add x y)) = true.
Proof. intros x y. rewrite FloatAxioms.add_spec. apply SFadd_clear. Qed.

Lemma float_square_clear : forall x : float,
  SFclear (Prim2SF (PrimFloat.mul x x)) = true.
Proof. intros x. rewrite FloatAxioms.mul_spec. apply SFmul_square_clear. Qed.

Lemma float_sqrt_clear : forall x : float,
  SFclear (Prim2SF x) = true -> SFclear (Prim2SF (PrimFloat.sqrt x)) = true.
Proof. intros x. rewrite FloatAxioms.sqrt_spec. apply SFsqrt_clear. Qed.

Lemma float_div_clear : forall x y : float,
  SFclear (Prim2SF x) = true -> SFclear (Prim2SF y) = true ->
  SFclear (Prim2SF (PrimFloat.div x y)) = true.
Proof. intros x y. rewrite FloatAxioms.div_spec. apply SFdiv_clear. Qed.

(** An array length is never negative. *)
Lemma float_ofNat_clear : forall n : nat,
  SFclear (Prim2SF (float_ofNat n)) = true.
Proof.
  intros n. unfold float_ofNat. rewrite of_uint63_spec.
  apply binary_normalize_clear. apply Uint63.to_Z_bounded.
Qed.

(** A finite number that is not negative has the sign bit clear. *)
Lemma float_clear_finite : forall x : float,
  SFclear (Prim2SF x) = true -> PrimFloat.is_finite x = true ->
  SFnonneg (Prim2SF x) = true.
Proof.
  intros x Hc Hf.
  destruct (float_finite_cases x Hf) as [[s E]|[s [m [e E]]]];
    rewrite E in *; destruct s; try discriminate; reflexivity.
Qed.

Lemma float_nonneg_clear : forall x : float,
  SFnonneg (Prim2SF x) = true -> SFclear (Prim2SF x) = true.
Proof.
  intros x. now destruct (Prim2SF x) as [[|]|[|]| |[|] m e].
Qed.

(** What a number that is not negative looks like to the comparisons. *)
Lemma float_clear_order : forall x : float,
  SFclear (Prim2SF x) = true ->
  (PrimFloat.is_nan x = true \/ PrimFloat.leb PrimFloat.zero x = true)
  /\ PrimFloat.ltb x PrimFloat.zero = false.
Proof.
  intros x Hx. unfold PrimFloat.is_nan.
  rewrite FloatAxioms.eqb_spec, FloatAxioms.leb_spec, FloatAxioms.ltb_spec.
  change (Prim2SF PrimFloat.zero) with (S754_zero false).
  destruct (Prim2SF x) as [[|]|[|]| |[|] m e]; try discriminate;
    cbn; auto.
Qed.

Lemma sumSquaredDiffs_clear : forall (a b : list float) (sum : float),
  SFclear (Prim2SF sum) = true ->
  SFclear (Prim2SF (sumSquaredDiffs a b sum)) = true.
Proof.
  induction a as [|x a IH]; intros b sum Hs; [exact Hs|].
  cbn [sumSquaredDiffs]. apply IH.
  apply float_add_clear; [assumption|apply float_square_clear].
Qed.

Lemma euclideanDistance_clear : forall a b : list float,
  SFclear (Prim2SF (euclideanDistance a b)) = true.
Proof.
  intros a b. unfold euclideanDistance. apply float_sqrt_clear.
  now apply sumSquaredDiffs_clear.
Qed.

End Binary64Sign.

(** ** The Euclidean distance in binary64 *)

Section DistanceSymmetry.

Context {num : Type} `{JsNumber num}.

Hypothesis square_diff_swap : forall x y : num,
  nmul (nsub x y) (nsub x y) = nmul (nsub y x) (nsub y x).

Lemma sumSquaredDiffs_swap : forall (a b : list num) (sum : num),
  length a = length b ->
  sumSquaredDiffs a b sum = sumSquaredDiffs b a sum.
Proof.
  induction a as [|x a IH]; intros [|y b] sum Hlen; try discriminate;
    [reflexivity|].
  cbn [sumSquaredDiffs hd tl]. rewrite (square_diff_swap x y).
  apply IH. now injection Hlen.
Qed.

End DistanceSymmetry.

(** The components of [vecB] past the length of [vecA] are never read. *)
Lemma sumSquaredDiffs_firstn :
  forall (num : Type) (N : JsNumber num) (a b : list num) (sum : num),
  length a <= length b ->
  sumSquaredDiffs a b sum = sumSquaredDiffs a (firstn (length a) b) sum.
Proof.
  intros num N. induction a as [|x a IH]; intros b sum Hlen; [reflexivity|].
  destruct b as [|y b]; [simpl in Hlen; lia|].
  cbn [sumSquaredDiffs hd tl length firstn]. apply IH. simpl in Hlen. lia.
Qed.

Section DistanceBinary64.

Local Open Scope float_scope.

(** Once the sum is NaN it stays NaN. *)
Lemma sumSquaredDiffs_nan : forall a b : list float,
  sumSquaredDiffs a b nan = nan.
Proof.
  induction a as [|x a IH]; intros b; [reflexivity|].
  cbn [sumSquaredDiffs]. change (nadd nan ?d) with (nan + d).
  rewrite float_nan_add. apply IH.
Qed.

Lemma sumSquaredDiffs_short : forall (a b : list float) (sum : float),
  (length b < length a)%nat -> sumSquaredDiffs a b sum = nan.
Proof.
  induction a as [|x a IH]; intros b sum Hlen; [simpl in Hlen; lia|].
  destruct b as [|y b].
  - cbn [sumSquaredDiffs hd tl].
    change (nsub x nNaN) with (x - nan). rewrite float_sub_nan.
    change (nadd sum (nmul nan nan)) with (sum + nan).
    rewrite float_add_nan. apply sumSquaredDiffs_nan.
  - cbn [sumSquaredDiffs hd tl]. apply IH. simpl in Hlen. lia.
Qed.

Lemma sumSquaredDiffs_self : forall v : list float,
  Forall (fun x => PrimFloat.is_finite x = true) v ->
  sumSquaredDiffs v v 0 = 0.
Proof.
  induction v as [|x v IH]; intros Hv; [reflexivity|].
  inversion Hv as [|? ? Hx Hv']; subst.
  cbn [sumSquaredDiffs hd tl]. change (nsub x x) with (x - x).
  rewrite (float_sub_self x Hx).
  change (nadd 0 (nmul 0 0)) with 0. now apply IH.
Qed.

Lemma float_distance_swap : forall a b : list float,
  length a = length b -> euclideanDistance a b = euclideanDistance b a.
Proof.
  intros a b Hlen. unfold euclideanDistance. f_equal.
  exact (@sumSquaredDiffs_swap float float_number float_square_diff_swap
           a b n0 Hlen).
Qed.

End DistanceBinary64.

(** X2.  In binary64, for two vectors of the same length,
    [euclideanDistance(a, b)] and [euclideanDistance(b, a)] are the same
    number. *)
Theorem euclideanDistance_symmetric : forall a b : list float,
  length a = length b -> euclideanDistance a b = euclideanDistance b a.
Proof.
  intros a b Hlen. unfold euclideanDistance. f_equal.
  apply (@sumSquaredDiffs_swap float float_number); [|exact Hlen].
  exact float_square_diff_swap.
Qed.

(** X3.  In binary64 the distance of a vector of finite components to itself
    is exactly 0. *)
Theorem euclideanDistance_self : forall v : list float,
  Forall (fun x => PrimFloat.is_finite x = true) v ->
  euclideanDistance v v = PrimFloat.zero.
Proof.
  intros v Hv. unfold euclideanDistance.
  change (sumSquaredDiffs v v n0) with (sumSquaredDiffs v v 0%float).
  rewrite (sumSquaredDiffs_self v Hv). reflexivity.
Qed.

(** X4.  Vectors of different lengths: the loop of [euclideanDistance] runs
    over [vecA], so the components of a longer [vecB] past the length of
    [vecA] are ignored (for every number type), and in binary64 a shorter
    [vecB] makes the distance NaN. *)
Theorem euclideanDistance_length_mismatch :
  (forall (num : Type) (N : JsNumber num) (a b : list num),
     length a <= length b ->
     euclideanDistance a b = euclideanDistance a (firstn (length a) b))
  /\ (forall a b : list float,
        length b < length a -> euclideanDistance a b = PrimFloat.nan).
Proof.
  split.
  - intros num N a b Hlen. unfold euclideanDistance.
    now rewrite (sumSquaredDiffs_firstn num N a b n0 Hlen).
  - intros a b Hlen. unfold euclideanDistance.
    now rewrite (sumSquaredDiffs_short a b n0 Hlen).
Qed.

(** X6.  In binary64 [euclideanDistance] never returns a negative number:
    whatever the two arrays hold and whatever their lengths, the result is
    NaN or a number [>= 0] with the sign bit clear (never [-0]). *)
Theorem euclideanDistance_never_negative : forall a b : list float,
  (PrimFloat.is_nan (euclideanDistance a b) = true
   \/ PrimFloat.leb PrimFloat.zero (euclideanDistance a b) = true)
  /\ PrimFloat.ltb (euclideanDistance a b) PrimFloat.zero = false
  /\ SFclear (Prim2SF (euclideanDistance a b)) = true.
Proof.
  intros a b. pose proof (euclideanDistance_clear a b) as Hc.
  destruct (float_clear_order _ Hc) as [Hge Hlt].
  split; [exact Hge|]. split; [exact Hlt|exact Hc].
Qed.

(** ** The similarity of a vector with itself *)

Section SelfSimilarity.

Local Open Scope float_scope.



End SelfSimilarity.


(** * Further properties of the clusterers *)

(** ** K-means without clusters *)

(** X8.  Edge cases of [kMeans] on a non-empty collection.  With [k <= 0]
    and an iteration bound of at least 1 the call throws, whatever the
    random source: a negative [k] is no array length, and with [k = 0] the
    first point is added to a cluster sum that does not exist.  With an
    iteration bound of 0 or less no pass runs and every label is [-1]: for
    [k <= 0] always, and for [1 <= k < n] once the draws of the random
    source, all valid indices, have covered [k] distinct ones. *)
Theorem kMeans_edge_cases :
  forall (num : Type) (N : JsNumber num) (fuel : nat) (random : RandomSource)
         (vectors : list (list num)) (k maxIterations : Z),
  vectors <> [] ->
  ((k <= 0)%Z -> (1 <= maxIterations)%Z ->
   exists msg, kMeans fuel random vectors k maxIterations = Some (Throw msg))
  /\ ((k <= 0)%Z -> (maxIterations <= 0)%Z ->
      kMeans fuel random vectors k maxIterations
      = Some (Ok (repeat (-1)%Z (length vectors))))
  /\ (forall m : nat,
        (1 <= k < Z.of_nat (length vectors))%Z -> (maxIterations <= 0)%Z ->
        (forall t, random t < length vectors) ->
        (k <= Z.of_nat (distinctDraws random m))%Z ->
        m <= fuel ->
        kMeans fuel random vectors k maxIterations
        = Some (Ok (repeat (-1)%Z (length vectors)))).
Proof.
  intros num N fuel random vectors k maxIterations Hne.
  destruct vectors as [|v vectors]; [contradiction|].
  assert (Einit : (k <= 0)%Z -> forall fuel,
            initCentroids fuel random (v :: vectors) k [] [] 0
            = Some (Ok ([], 0))).
  { intros Hk [|f]; cbn [initCentroids length];
      destruct (Z.ltb_spec (Z.of_nat 0) k); try lia; reflexivity. }
  split; [|split].
  - intros Hk Hmax. unfold kMeans. cbn [length Nat.eqb].
    destruct (Z.leb_spec (Z.of_nat (S (length vectors))) k) as [Hle|_]; [lia|].
    rewrite (Einit Hk).
    destruct (Z.to_nat maxIterations) as [|remaining] eqn:Erem; [lia|].
    cbn [kMeansLoop negb].
    destruct (Z.ltb_spec k 0) as [Hneg|Hzero]; [eexists; reflexivity|].
    assert (k = 0)%Z by lia. subst k.
    cbn. eexists. reflexivity.
  - intros Hk Hmax. unfold kMeans. cbn [length Nat.eqb].
    destruct (Z.leb_spec (Z.of_nat (S (length vectors))) k) as [Hle|_]; [lia|].
    rewrite (Einit Hk).
    replace (Z.to_nat maxIterations) with O by lia. reflexivity.
  - intros m Hk Hmax Hrand Hm Hfuel. unfold kMeans.
    destruct (Nat.eqb_spec (length (v :: vectors)) 0) as [E|_];
      [discriminate|].
    destruct (Z.leb_spec (Z.of_nat (length (v :: vectors))) k) as [Hle|_];
      [lia|].
    destruct (initCentroids_total random (v :: vectors) k (proj1 Hk) Hrand
                m fuel [] [] 0) as [centroids [t [Ei _]]].
    { assumption. }
    { constructor. }
    { reflexivity. }
    { intros x. simpl. tauto. }
    { simpl. lia. }
    { lia. }
    { lia. }
    rewrite Ei.
    replace (Z.to_nat maxIterations) with O by lia. reflexivity.
Qed.

(** * Further properties of the clustering metrics *)

Section MetricsShape.

Context {num : Type} `{JsNumber num}.

Lemma mapGet_mapSet : forall (V : Type) (m : list (Z * V)) (k k' : Z) (v : V),
  mapGet Z.eqb (mapSet Z.eqb m k v) k'
  = if (k =? k')%Z then Some v else mapGet Z.eqb m k'.
Proof.
  intros V. induction m as [|[k0 v0] m IH]; intros k k' v.
  - reflexivity.
  - cbn [mapSet]. destruct (Z.eqb_spec k0 k) as [->|Hk].
    + cbn [mapGet]. now destruct (Z.eqb_spec k k').
    + cbn [mapGet]. rewrite IH.
      destruct (Z.eqb_spec k0 k') as [->|Hk']; [|reflexivity].
      destruct (Z.eqb_spec k k'); [congruence|reflexivity].
Qed.

Lemma uniqueZ_In : forall (xs seen : list Z) (k : Z),
  In k (uniqueZ seen xs) -> In k xs.
Proof.
  induction xs as [|x xs IH]; intros seen k Hk; [destruct Hk|].
  cbn [uniqueZ] in Hk. destruct (existsb (Z.eqb x) seen).
  - right. now apply (IH seen).
  - destruct Hk as [->|Hk]; [now left|right; now apply (IH (x :: seen))].
Qed.

Lemma In_combine_seq : forall (A : Type) (xs : list A) (lo i : nat) (x : A),
  nth_error xs i = Some x -> In (lo + i, x) (combine (seq lo (length xs)) xs).
Proof.
  intros A. induction xs as [|y xs IH]; intros lo [|i] x E; try discriminate.
  - injection E as ->. rewrite Nat.add_0_r. now left.
  - right. cbn [nth_error] in E.
    replace (lo + S i) with (S lo + i) by lia. now apply IH.
Qed.

Lemma In_indexed : forall (A : Type) (xs : list A) (i : nat) (x : A),
  nth_error xs i = Some x -> In (i, x) (indexed xs).
Proof. intros A xs i x E. exact (In_combine_seq A xs 0 i x E). Qed.

Lemma indexed_In : forall (A : Type) (xs : list A) (i : nat) (x : A),
  In (i, x) (indexed xs) -> nth_error xs i = Some x.
Proof.
  intros A xs i x. unfold indexed.
  assert (G : forall (xs : list A) (lo : nat),
            In (i, x) (combine (seq lo (length xs)) xs) ->
            lo <= i /\ nth_error xs (i - lo) = Some x).
  { clear xs. induction xs as [|y xs IH]; intros lo Hin; [destruct Hin|].
    destruct Hin as [E|Hin].
    - injection E as <- <-. rewrite Nat.sub_diag. split; [lia|reflexivity].
    - destruct (IH (S lo) Hin) as [Hlo E]. split; [lia|].
      replace (i - lo) with (S (i - S lo)) by lia. exact E. }
  intros Hin. destruct (G xs 0 Hin) as [_ E]. now rewrite Nat.sub_0_r in E.
Qed.

Variable vectors : list (list num).
Variable labels : list Z.

Hypothesis labels_fit : length labels <= length vectors.

(** A label that occurs labels some vector. *)
Lemma cluster_member : forall k, In k labels ->
  exists i v, nth_error vectors i = Some v /\ labelIs labels i k = true.
Proof.
  intros k Hk. destruct (In_nth_error _ _ Hk) as [i Ei].
  assert (Hi : i < length labels) by (apply nth_error_Some; congruence).
  destruct (nth_error vectors i) as [v|] eqn:Ev.
  - exists i, v. split; [exact Ev|]. unfold labelIs. rewrite Ei.
    apply Z.eqb_refl.
  - apply nth_error_None in Ev. lia.
Qed.

(** Every cluster among [uniqueClusters] gets a centroid. *)
Lemma centroids_defined : forall uniqueClusters : list Z,
  (forall k, In k uniqueClusters -> In k labels) ->
  forall k, In k uniqueClusters ->
  exists c,
    mapGet Z.eqb (getClusterCentroids vectors labels uniqueClusters) k = Some c.
Proof.
  intros uniqueClusters Hsub. unfold getClusterCentroids.
  apply (fold_left_prefix_inv _ _
           (fun visited centroids =>
              forall k, In k visited ->
              exists c, mapGet Z.eqb centroids k = Some c)).
  - intros k [].
  - intros visited x rest centroids Huc Hinv k Hk.
    assert (Hx : In x labels).
    { apply Hsub. rewrite Huc. apply in_app_iff. right. now left. }
    destruct (cluster_member x Hx) as (i & v & Ev & Hl).
    assert (Hmem : In (i, v)
              (filter (fun iv => labelIs labels (fst iv) x) (indexed vectors))).
    { apply filter_In. split; [now apply In_indexed|exact Hl]. }
    destruct (filter (fun iv => labelIs labels (fst iv) x) (indexed vectors))
      as [|iv0 members]; [destruct Hmem|].
    cbn [map length Nat.eqb]. rewrite mapGet_mapSet.
    destruct (Z.eqb_spec x k) as [_|Hxk]; [eexists; reflexivity|].
    apply Hinv. apply in_app_iff in Hk. destruct Hk as [Hk|[Hk|[]]];
      [assumption|contradiction].
Qed.

Variable uniqueClusters : list Z.
Variable centroids : list (Z * list num).

Hypothesis centroids_known : forall k, In k uniqueClusters ->
  exists c, mapGet Z.eqb centroids k = Some c.

Lemma distanceU_total : forall a b : list num,
  exists dist, euclideanDistanceU (Some a) (Some b) = Ok dist.
Proof. intros [|x a] b; eexists; reflexivity. Qed.

Lemma calculateDaviesBouldinIndex_total :
  exists index,
    calculateDaviesBouldinIndex vectors labels uniqueClusters centroids
    = Ok index.
Proof.
  unfold calculateDaviesBouldinIndex.
  destruct (length uniqueClusters <? 2)%nat; [eexists; reflexivity|].
  set (scatters := fold_left _ uniqueClusters []).
  destruct (forEach_preserve _ _ (fun _ : num => True)
              (fun sumMaxR i =>
                 maxR <- forEach uniqueClusters
                           (daviesBouldinPair centroids scatters i)
                           (nneg nInfinity) ;;
                 Ok (if neq maxR (nneg nInfinity) then sumMaxR
                     else nadd sumMaxR maxR))
              uniqueClusters n0 I) as [sumMaxR [E _]].
  - intros i sumMaxR Hi _.
    destruct (forEach_preserve _ _ (fun _ : num => True)
                (daviesBouldinPair centroids scatters i)
                uniqueClusters (nneg nInfinity) I) as [maxR [E _]].
    + intros j maxR Hj _. unfold daviesBouldinPair.
      destruct (i =? j)%Z; [eexists; split; [reflexivity|exact I]|].
      destruct (centroids_known i Hi) as [ci Eci].
      destruct (centroids_known j Hj) as [cj Ecj].
      rewrite Eci, Ecj. destruct (distanceU_total ci cj) as [dist Ed].
      rewrite Ed. cbn [bind].
      destruct (neq dist n0); eexists; split; try reflexivity; exact I.
    + rewrite E. cbn [bind]. eexists. split; [reflexivity|exact I].
  - rewrite E. cbn [bind]. eexists. reflexivity.
Qed.

Lemma calculateCalinskiHarabaszIndex_total :
  exists index,
    calculateCalinskiHarabaszIndex vectors labels uniqueClusters centroids
    = Ok index.
Proof.
  unfold calculateCalinskiHarabaszIndex.
  destruct ((length uniqueClusters <? 2)%nat || _)%bool;
    [eexists; reflexivity|].
  set (globalCentroid := divideVector _ _).
  destruct (forEach_preserve _ _ (fun _ : num => True)
              (fun SS_B k =>
                 let nk := length (clusterIndices vectors labels k) in
                 dist <- euclideanDistanceU (mapGet Z.eqb centroids k)
                           (Some globalCentroid) ;;
                 Ok (nadd SS_B (nmul (ofNat nk) (nmul dist dist))))
              uniqueClusters n0 I) as [SS_B [E _]].
  - intros k SS_B Hk _. destruct (centroids_known k Hk) as [c Ec].
    rewrite Ec. destruct (distanceU_total c globalCentroid) as [dist Ed].
    cbv zeta. rewrite Ed. cbn [bind]. eexists. split; [reflexivity|exact I].
  - cbv zeta in E. rewrite E. cbn [bind].
    destruct (neq _ n0); eexists; reflexivity.
Qed.

End MetricsShape.

(** X9.  When there are at least as many vectors as labels,
    [calculateClusteringMetrics] returns a bundle: every cluster in use has
    a member, hence a centroid, and no lookup of a centroid fails.  With more
    labels than vectors a cluster can be without centroid, and the call can
    throw. *)
Theorem calculateClusteringMetrics_returns :
  (forall (num : Type) (N : JsNumber num)
          (vectors : list (list num)) (labels : list Z),
     length labels <= length vectors ->
     exists metrics, calculateClusteringMetrics vectors labels = Ok metrics)
  /\ (exists (vectors : list (list float)) (labels : list Z) (msg : string),
        length vectors < length labels
        /\ calculateClusteringMetrics vectors labels = Throw msg).
Proof.
  split.
  - intros num N vectors labels Hfit. unfold calculateClusteringMetrics.
    set (uniqueClusters :=
           filter (fun l => negb (l =? -1)%Z) (uniqueZ [] labels)).
    assert (Hsub : forall k, In k uniqueClusters -> In k labels).
    { intros k Hk. apply filter_In in Hk. apply (uniqueZ_In labels [] k), Hk. }
    pose proof (centroids_defined vectors labels Hfit uniqueClusters Hsub)
      as Hc.
    destruct (calculateDaviesBouldinIndex_total vectors labels uniqueClusters
                _ Hc) as [db Edb].
    destruct (calculateCalinskiHarabaszIndex_total vectors labels
                uniqueClusters _ Hc) as [ch Ech].
    rewrite Edb. cbn [bind]. rewrite Ech. cbn [bind]. eexists. reflexivity.
  - exists [[1%float]], [0; 1]%Z. eexists. split; [simpl; lia|].
    vm_compute. reflexivity.
Qed.

Section DegenerateLabelings.

Context {num : Type} `{JsNumber num}.

Lemma fold_left_preserve : forall (S X : Type) (P : S -> Prop)
  (body : S -> X -> S) (xs : list X) (s0 : S),
  P s0 -> (forall x s, In x xs -> P s -> P (body s x)) ->
  P (fold_left body xs s0).
Proof.
  intros S X P body xs. induction xs as [|x xs IH]; intros s0 H0 Hstep.
  - exact H0.
  - cbn [fold_left]. apply IH.
    + apply Hstep; [now left|assumption].
    + intros y s Hy. apply Hstep. now right.
Qed.

Lemma uniqueZ_NoDup : forall (xs seen : list Z),
  NoDup xs -> (forall x, In x xs -> ~ In x seen) -> uniqueZ seen xs = xs.
Proof.
  induction xs as [|x xs IH]; intros seen Hnd Hseen; [reflexivity|].
  inversion Hnd as [|? ? Hx Hnd']; subst. cbn [uniqueZ].
  assert (E : existsb (Z.eqb x) seen = false).
  { apply not_true_is_false. intros Hex. apply existsb_exists in Hex.
    destruct Hex as [y [Hy Exy]]. apply Z.eqb_eq in Exy. subst y.
    apply (Hseen x); [now left|assumption]. }
  rewrite E. f_equal. apply IH; [assumption|].
  intros y Hy [<-|Hin]; [contradiction|].
  apply (Hseen y); [now right|assumption].
Qed.

(** Counting the indices whose label passes a test counts the labels that
    pass it. *)
Lemma count_labels : forall (f : option Z -> bool) (labels pre : list Z),
  length (filter (fun i => f (nth_error (pre ++ labels) i))
            (seq (length pre) (length labels)))
  = length (filter (fun l => f (Some l)) labels).
Proof.
  intros f. induction labels as [|l labels IH]; intros pre; [reflexivity|].
  cbn [length seq filter].
  rewrite nth_error_app2, Nat.sub_diag by lia. cbn [nth_error].
  specialize (IH (pre ++ [l])).
  rewrite <- app_assoc, length_app in IH. cbn [app length] in IH.
  rewrite Nat.add_1_r in IH.
  destruct (f (Some l)); cbn [length]; now rewrite IH.
Qed.

Variable vectors : list (list num).
Variable labels : list Z.

Hypothesis one_label_each : length labels = length vectors.

Lemma point_label : forall i (v : list num),
  In (i, v) (indexed vectors) ->
  exists l, nth_error labels i = Some l /\ In l labels.
Proof.
  intros i v Hin. apply indexed_In in Hin.
  assert (Hi : i < length vectors) by (apply nth_error_Some; congruence).
  destruct (nth_error labels i) as [l|] eqn:El.
  - exists l. split; [reflexivity|]. eapply nth_error_In; eassumption.
  - apply nth_error_None in El. lia.
Qed.

(** A loop of [calculateSilhouetteScore] that scores no point returns 0. *)
Lemma silhouette_no_point :
  (forall iv st, In iv (indexed vectors) ->
     silhouettePoint vectors labels st iv = st) ->
  calculateSilhouetteScore vectors labels = n0.
Proof.
  intros Hskip. unfold calculateSilhouetteScore.
  destruct (length vectors <? 2)%nat; [reflexivity|].
  assert (E : fold_left (silhouettePoint vectors labels) (indexed vectors)
                (n0, O) = (n0, O)).
  { apply (fold_left_preserve _ _ (fun st => st = (n0, O))); [reflexivity|].
    intros iv st Hiv ->. now apply Hskip. }
  now rewrite E.
Qed.

Lemma silhouette_all_noise :
  (forall l, In l labels -> l = (-1)%Z) ->
  calculateSilhouetteScore vectors labels = n0.
Proof.
  intros Hnoise. apply silhouette_no_point. intros [i v] [total valid] Hin.
  destruct (point_label i v Hin) as [l [El Hl]].
  unfold silhouettePoint. rewrite El, (Hnoise l Hl). reflexivity.
Qed.

Hypothesis singletons : NoDup labels.

Lemma silhouetteSums_singleton : forall i vi l,
  nth_error labels i = Some l ->
  snd (fst (silhouetteSums vectors labels i vi (Some l))) = O.
Proof.
  intros i vi l El. unfold silhouetteSums.
  apply (fold_left_preserve _ _ (fun acc : @SilhouetteAcc num =>
                                   snd (fst acc) = O)); [reflexivity|].
  intros [j vj] [[a same] others] Hin Hsame. cbn [fst snd] in Hsame.
  subst same. unfold silhouetteInner.
  destruct (Nat.eqb_spec i j) as [_|Hij]; [reflexivity|].
  destruct (point_label j vj Hin) as [l' [El' _]]. rewrite El'.
  destruct (labelEqb (Some l') (Some (-1)%Z)); [reflexivity|].
  cbn [labelEqb]. destruct (Z.eqb_spec l' l) as [->|_].
  - exfalso. apply Hij.
    apply (proj1 (NoDup_nth_error labels) singletons).
    + apply nth_error_Some. congruence.
    + congruence.
  - destruct (mapGet labelEqb others (Some l')) as [[sum count]|];
      reflexivity.
Qed.

Lemma silhouette_singletons :
  calculateSilhouetteScore vectors labels = n0.
Proof.
  apply silhouette_no_point. intros [i v] [total valid] Hin.
  destruct (point_label i v Hin) as [l [El _]].
  unfold silhouettePoint. rewrite El.
  destruct (labelEqb (Some l) (Some (-1)%Z)); [reflexivity|].
  pose proof (silhouetteSums_singleton i v l El) as Hsame.
  destruct (silhouetteSums vectors labels i v (Some l)) as [[a same] others].
  cbn [fst snd] in Hsame. now subst same.
Qed.

Lemma calinskiHarabasz_singletons : forall centroids,
  calculateCalinskiHarabaszIndex vectors labels
    (filter (fun l => negb (l =? -1)%Z) (uniqueZ [] labels)) centroids
  = Ok n0.
Proof.
  intros centroids. unfold calculateCalinskiHarabaszIndex.
  rewrite (uniqueZ_NoDup labels [] singletons) by (intros x _ []).
  rewrite <- one_label_each.
  pose proof (count_labels (fun o => negb (labelEqb o (Some (-1)%Z)))
                labels []) as Hcount.
  cbn [app length] in Hcount. unfold labelIs. rewrite Hcount.
  cbn [labelEqb]. rewrite Nat.leb_refl. now rewrite orb_true_r.
Qed.

End DegenerateLabelings.

(** X10.  When every label is [-1] (all points are noise), with one label
    per vector, the three indices of the bundle are 0. *)
Theorem calculateClusteringMetrics_all_noise :
  forall (num : Type) (N : JsNumber num)
         (vectors : list (list num)) (labels : list Z),
  length labels = length vectors ->
  (forall l, In l labels -> l = (-1)%Z) ->
  calculateClusteringMetrics vectors labels = Ok (mkMetrics n0 n0 n0).
Proof.
  intros num N vectors labels Hlen Hnoise.
  rewrite (single_cluster_bundle vectors labels (-1)%Z Hlen Hnoise).
  now rewrite (silhouette_all_noise vectors labels Hlen Hnoise).
Qed.

(** X11.  When the labels are pairwise distinct (every cluster is a single
    point), with one label per vector, the silhouette score and the
    Calinski-Harabasz index are 0; this is the labeling [kMeans] returns when
    [k] is at least the number of vectors. *)
Theorem calculateClusteringMetrics_singletons :
  (forall (num : Type) (N : JsNumber num)
          (vectors : list (list num)) (labels : list Z),
     length labels = length vectors -> NoDup labels ->
     exists metrics,
       calculateClusteringMetrics vectors labels = Ok metrics
       /\ silhouetteScore metrics = n0
       /\ calinskiHarabaszIndex metrics = n0)
  /\ (forall (num : Type) (N : JsNumber num) (fuel : nat)
             (random : RandomSource) (vectors : list (list num))
             (k maxIterations : Z),
        (Z.of_nat (length vectors) <= k)%Z ->
        exists labels metrics,
          kMeans fuel random vectors k maxIterations = Some (Ok labels)
          /\ calculateClusteringMetrics vectors labels = Ok metrics
          /\ silhouetteScore metrics = n0
          /\ calinskiHarabaszIndex metrics = n0).
Proof.
  assert (G : forall (num : Type) (N : JsNumber num)
                (vectors : list (list num)) (labels : list Z),
            length labels = length vectors -> NoDup labels ->
            exists metrics,
              calculateClusteringMetrics vectors labels = Ok metrics
              /\ silhouetteScore metrics = n0
              /\ calinskiHarabaszIndex metrics = n0).
  { intros num N vectors labels Hlen Hnd. unfold calculateClusteringMetrics.
    set (uniqueClusters :=
           filter (fun l => negb (l =? -1)%Z) (uniqueZ [] labels)).
    assert (Hsub : forall k, In k uniqueClusters -> In k labels).
    { intros k Hk. apply filter_In in Hk. apply (uniqueZ_In labels [] k), Hk. }
    assert (Hfit : length labels <= length vectors) by lia.
    pose proof (centroids_defined vectors labels Hfit uniqueClusters Hsub) as Hc.
    destruct (calculateDaviesBouldinIndex_total vectors labels uniqueClusters
                _ Hc) as [db Edb].
    rewrite Edb. cbn [bind]. unfold uniqueClusters.
    rewrite (calinskiHarabasz_singletons vectors labels Hlen Hnd). cbn [bind].
    eexists. split; [reflexivity|]. cbn [silhouetteScore calinskiHarabaszIndex].
    split; [|reflexivity].
    now apply silhouette_singletons. }
  split; [exact G|].
  intros num N fuel random vectors k maxIterations Hk.
  assert (Hnd : NoDup (map Z.of_nat (seq 0 (length vectors)))).
  { apply NoDup_map_NoDup_ForallPairs; [|apply seq_NoDup].
    intros a b _ _ Hab. lia. }
  assert (Hlen : length (map Z.of_nat (seq 0 (length vectors)))
                 = length vectors) by now rewrite length_map, length_seq.
  destruct (G num N vectors _ Hlen Hnd) as [metrics Hm].
  exists (map Z.of_nat (seq 0 (length vectors))), metrics.
  split; [|exact Hm]. unfold kMeans.
  destruct (Nat.eqb_spec (length vectors) 0) as [E|_].
  - now rewrite E.
  - destruct (Z.leb_spec (Z.of_nat (length vectors)) k); [reflexivity|lia].
Qed.

(** ** DBSCAN: which points are noise *)

Section DbscanNoise.

Context {num : Type} `{JsNumber num}.

Variable vectors : list (list num).
Variables epsilon minPts : num.

Let n := length vectors.

(** The two tests of the source on the size of a neighborhood,
    [size + 1 < minPts] and [size + 1 >= minPts], are opposite. *)
Hypothesis tests_agree : forall m : nat, 1 <= m <= n + 1 ->
  nle minPts (ofNat m) = negb (nlt (ofNat m) minPts).

Lemma neighborhood_size : forall p,
  1 <= length (getNeighbors vectors epsilon p) + 1 <= n + 1.
Proof.
  intros p. unfold getNeighbors.
  pose proof (filter_length_le
                (fun i => negb (i =? p)%nat
                          && nle (euclideanDistance (nth p vectors [])
                                    (nth i vectors [])) epsilon)
                (seq 0 (length vectors))) as Hle.
  rewrite length_seq in Hle. unfold n. lia.
Qed.

Lemma inner_test : forall p,
  nle minPts (ofNat (length (getNeighbors vectors epsilon p) + 1))
  = corePoint vectors epsilon minPts p.
Proof.
  intros p. unfold corePoint. apply tests_agree, neighborhood_size.
Qed.

Lemma pushNew_spec : forall (neighborNeighbors seedSet : list nat),
  exists extra,
    pushNew seedSet neighborNeighbors = seedSet ++ extra
    /\ (forall y, In y extra -> In y neighborNeighbors)
    /\ (forall y, In y neighborNeighbors -> In y (seedSet ++ extra)).
Proof.
  unfold pushNew.
  induction neighborNeighbors as [|nn rest IH]; intros seedSet.
  - exists []. cbn [fold_left]. rewrite app_nil_r.
    split; [reflexivity|]. split; intros y [].
  - cbn [fold_left].
    destruct (existsb (Nat.eqb nn) seedSet) eqn:E.
    + destruct (IH seedSet) as (extra & E' & Hin & Hall).
      exists extra. split; [exact E'|]. split.
      * intros y Hy. right. now apply Hin.
      * intros y [<-|Hy]; [|now apply Hall].
        apply existsb_exists in E. destruct E as [z [Hz Ez]].
        apply Nat.eqb_eq in Ez. subst z. apply in_app_iff. now left.
    + destruct (IH (seedSet ++ [nn])) as (extra & E' & Hin & Hall).
      exists (nn :: extra). rewrite E', <- app_assoc.
      split; [reflexivity|]. split.
      * intros y [<-|Hy]; [now left|right; now apply Hin].
      * intros y [<-|Hy].
        -- apply in_app_iff. right. now left.
        -- specialize (Hall y Hy). rewrite <- app_assoc in Hall. exact Hall.
Qed.

Ltac split_cluster :=
  unfold clusterInv; split; [|split; [|split; [|split; [|split]]]].

(** A queued point that was noise or undefined joins the cluster. *)
Lemma clusterInv_join : forall (clusterId : Z) (labels : list Z)
  (seedSet : list nat) (x : nat),
  (0 < clusterId)%Z ->
  clusterInv vectors epsilon minPts labels seedSet ->
  In x seedSet -> x < n ->
  nth x labels 0%Z = (-1)%Z \/ nth x labels 0%Z = 0%Z ->
  clusterInv vectors epsilon minPts (upd x clusterId labels)
    (if (nth x labels 0 =? 0)%Z && corePoint vectors epsilon minPts x
     then pushNew seedSet (getNeighbors vectors epsilon x) else seedSet).
Proof.
  intros clusterId labels seedSet x Hc (Hlen & Hrange & Hnoise & Hnear & Hwhy & Hseeds)
    Hx Hxn Hlabel.
  fold n in Hlen, Hrange, Hnoise, Hnear, Hwhy.
  assert (Hat : forall a,
            nth a (upd x clusterId labels) 0%Z
            = if (x =? a)%nat then clusterId else nth a labels 0%Z).
  { intros a. apply nth_upd. lia. }
  set (seedSet' := if (nth x labels 0 =? 0)%Z && corePoint vectors epsilon minPts x
                   then pushNew seedSet (getNeighbors vectors epsilon x)
                   else seedSet).
  destruct (pushNew_spec (getNeighbors vectors epsilon x) seedSet)
    as (extra & Epush & Hextra & Hall).
  assert (Hkeep : forall y, In y seedSet -> In y seedSet').
  { intros y Hy. unfold seedSet'.
    destruct ((nth x labels 0 =? 0)%Z && corePoint vectors epsilon minPts x);
      [|assumption].
    rewrite Epush. apply in_app_iff. now left. }
  split_cluster.
  - now rewrite upd_length.
  - fold n. intros a Ha. rewrite Hat. specialize (Hrange a Ha).
    destruct (x =? a)%nat; lia.
  - fold n. intros a Ha. rewrite Hat.
    destruct (Nat.eqb_spec x a) as [->|_]; [lia|]. now apply Hnoise.
  - fold n. intros p y Hp Hcore Hpos Hy. rewrite Hat in Hpos. rewrite Hat.
    destruct (Nat.eqb_spec x y) as [_|Hxy]; [left; lia|].
    destruct (Nat.eqb_spec x p) as [<-|Hxp].
    + (* the point that joins is a core point: its label was 0 *)
      destruct Hlabel as [Hm|Hz].
      * rewrite (Hnoise x Hxn Hm) in Hcore. discriminate.
      * right. unfold seedSet'. rewrite Hz, Hcore. cbn [Z.eqb andb].
        rewrite Epush. now apply Hall.
    + destruct (Hnear p y Hp Hcore Hpos Hy) as [Hpos'|Hin];
        [now left|right; now apply Hkeep].
  - fold n. intros a Ha. rewrite Hat.
    destruct (Nat.eqb_spec x a) as [<-|_].
    + intros _. right. now apply Hseeds.
    + now apply Hwhy.
  - intros y Hy. unfold seedSet' in Hy.
    destruct ((nth x labels 0 =? 0)%Z && corePoint vectors epsilon minPts x)
      eqn:Etest; [|now apply Hseeds].
    apply andb_true_iff in Etest. destruct Etest as [_ Hcore].
    rewrite Epush in Hy. apply in_app_iff in Hy.
    destruct Hy as [Hy|Hy]; [now apply Hseeds|].
    exists x. split; [assumption|]. split; [assumption|now apply Hextra].
Qed.

(** The inner loop: when it ends, every queued point is clustered. *)
Lemma expandCluster_noise : forall (fuel : nat) (clusterId : Z)
  (j : nat) (seedSet : list nat) (labels : list Z),
  (0 < clusterId)%Z ->
  NoDup seedSet ->
  (forall x, In x seedSet -> x < n) ->
  n <= fuel + j ->
  clusterInv vectors epsilon minPts labels seedSet ->
  (forall idx x, idx < j -> nth_error seedSet idx = Some x ->
     (0 < nth x labels 0)%Z) ->
  exists labels',
    expandCluster fuel vectors epsilon minPts clusterId j seedSet labels
      = Some labels'
    /\ clusterInv vectors epsilon minPts labels' [].
Proof.
  induction fuel as [|fuel IH];
    intros clusterId j seedSet labels Hc Hnd Hb Hfuel Hinv Hdone.
  - cbn [expandCluster]. destruct (nth_error seedSet j) as [x|] eqn:E.
    + assert (j < length seedSet) by (apply nth_error_Some; congruence).
      pose proof (seeds_length vectors seedSet Hnd Hb). fold n in H1. lia.
    + exists labels. split; [reflexivity|].
      apply nth_error_None in E.
      destruct Hinv as (Hlen & Hrange & Hnoise & Hnear & Hwhy & Hseeds).
      split_cluster; auto; [|intros x []].
      intros p x Hp Hcore Hpos Hx. left.
      destruct (Hnear p x Hp Hcore Hpos Hx) as [Hpos'|Hin]; [assumption|].
      destruct (In_nth_error _ _ Hin) as [idx Eidx].
      apply (Hdone idx x); [|assumption].
      assert (idx < length seedSet) by (apply nth_error_Some; congruence).
      lia.
  - cbn [expandCluster]. destruct (nth_error seedSet j) as [x|] eqn:E.
    2:{ exists labels. split; [reflexivity|].
        apply nth_error_None in E.
        destruct Hinv as (Hlen & Hrange & Hnoise & Hnear & Hwhy & Hseeds).
        split_cluster; auto; [|intros x []].
        intros p x Hp Hcore Hpos Hx. left.
        destruct (Hnear p x Hp Hcore Hpos Hx) as [Hpos'|Hin]; [assumption|].
        destruct (In_nth_error _ _ Hin) as [idx Eidx].
        apply (Hdone idx x); [|assumption].
        assert (idx < length seedSet) by (apply nth_error_Some; congruence).
        lia. }
    assert (Hx : In x seedSet) by (eapply nth_error_In; eassumption).
    assert (Hxn : x < n) by now apply Hb.
    assert (Hj : j < length seedSet) by (apply nth_error_Some; congruence).
    pose proof Hinv as (Hlen & Hrange & _). fold n in Hlen, Hrange.
    destruct (Z.eqb_spec (nth x labels 0%Z) (-1)) as [Em|Em].
    + (* noise becomes a border point *)
      assert (Hat : nth x (upd x clusterId labels) 0%Z = clusterId)
        by (apply nth_upd_same; lia).
      rewrite Hat. destruct (Z.eqb_spec clusterId 0) as [|_]; [lia|].
      cbn [negb].
      pose proof (clusterInv_join clusterId labels seedSet x Hc Hinv Hx Hxn
                    (or_introl Em)) as Hinv'.
      rewrite Em in Hinv'. cbn [Z.eqb andb] in Hinv'.
      apply (IH clusterId (S j) seedSet _ Hc Hnd Hb); [lia|assumption|].
      intros idx y Hidx Ey. rewrite nth_upd by lia.
      destruct (Nat.eqb_spec x y) as [_|Hxy]; [assumption|].
      destruct (Nat.eq_dec idx j) as [->|Hne]; [congruence|].
      apply (Hdone idx y); [lia|assumption].
    + destruct (Z.eqb_spec (nth x labels 0%Z) 0) as [Ez|Ez]; cbn [negb].
      * (* an undefined point joins the cluster *)
        rewrite inner_test.
        pose proof (clusterInv_join clusterId labels seedSet x Hc Hinv Hx Hxn
                      (or_intror Ez)) as Hinv'.
        rewrite Ez in Hinv'. cbn [Z.eqb andb] in Hinv'.
        set (seedSet' := if corePoint vectors epsilon minPts x
                         then pushNew seedSet (getNeighbors vectors epsilon x)
                         else seedSet) in *.
        destruct (pushNew_spec (getNeighbors vectors epsilon x) seedSet)
          as (extra & Epush & _).
        assert (Hs : NoDup seedSet' /\ forall y, In y seedSet' -> y < n).
        { unfold seedSet'. destruct (corePoint vectors epsilon minPts x).
          - apply pushNew_seeds; auto. apply getNeighbors_bound.
          - auto. }
        destruct Hs as [Hnd' Hb'].
        apply (IH clusterId (S j) seedSet' _ Hc Hnd' Hb'); [lia|assumption|].
        intros idx y Hidx Ey. rewrite nth_upd by lia.
        destruct (Nat.eqb_spec x y) as [_|Hxy]; [assumption|].
        assert (Ey' : nth_error seedSet idx = Some y).
        { unfold seedSet' in Ey.
          destruct (corePoint vectors epsilon minPts x); [|assumption].
          rewrite Epush, nth_error_app1 in Ey by lia. assumption. }
        destruct (Nat.eq_dec idx j) as [->|Hne]; [congruence|].
        apply (Hdone idx y); [lia|assumption].
      * (* already in a cluster *)
        apply (IH clusterId (S j) seedSet labels Hc Hnd Hb); [lia|assumption|].
        intros idx y Hidx Ey.
        destruct (Nat.eq_dec idx j) as [->|Hne].
        -- assert (y = x) by congruence. subst y.
           specialize (Hrange x Hxn). lia.
        -- apply (Hdone idx y); [lia|assumption].
Qed.

(** The outer loop keeps the invariant. *)
Lemma dbscanPoint_noise : forall (i : nat) (labels : list Z) (clusterId : Z),
  i < n -> (0 <= clusterId)%Z ->
  clusterInv vectors epsilon minPts labels [] ->
  exists labels' clusterId',
    dbscanPoint vectors epsilon minPts (Some (labels, clusterId)) i
      = Some (labels', clusterId')
    /\ (0 <= clusterId')%Z
    /\ clusterInv vectors epsilon minPts labels' [].
Proof.
  intros i labels clusterId Hi Hcid Hinv. unfold dbscanPoint.
  destruct (Z.eqb_spec (nth i labels 0%Z) 0) as [Ez|Ez]; cbn [negb].
  2:{ exists labels, clusterId. auto. }
  pose proof Hinv as (Hlen & Hrange & Hnoise & Hnear & Hwhy & Hseeds).
  fold n in Hlen, Hrange, Hnoise, Hnear, Hwhy.
  destruct (nlt (ofNat (length (getNeighbors vectors epsilon i) + 1)) minPts)
    eqn:Etest.
  - (* noise *)
    exists (upd i (-1)%Z labels), clusterId. split; [reflexivity|].
    split; [assumption|].
    assert (Hat : forall a,
              nth a (upd i (-1)%Z labels) 0%Z
              = if (i =? a)%nat then (-1)%Z else nth a labels 0%Z).
    { intros a. apply nth_upd. lia. }
    split_cluster.
    + now rewrite upd_length.
    + fold n. intros a Ha. rewrite Hat. specialize (Hrange a Ha).
      destruct (i =? a)%nat; lia.
    + fold n. intros a Ha. rewrite Hat.
      destruct (Nat.eqb_spec i a) as [<-|_]; [|now apply Hnoise].
      intros _. unfold corePoint. now rewrite Etest.
    + fold n. intros p x Hp Hcore Hpos Hx. rewrite Hat in Hpos.
      destruct (Nat.eqb_spec i p) as [_|_]; [lia|].
      destruct (Hnear p x Hp Hcore Hpos Hx) as [Hpos'|[]].
      left. rewrite Hat. destruct (Nat.eqb_spec i x) as [<-|_]; [lia|assumption].
    + fold n. intros a Ha. rewrite Hat.
      destruct (Nat.eqb_spec i a) as [_|_]; [lia|]. now apply Hwhy.
    + intros x [].
  - (* a new cluster *)
    assert (Hcore : corePoint vectors epsilon minPts i = true)
      by (unfold corePoint; now rewrite Etest).
    assert (Hat : forall a,
              nth a (upd i (clusterId + 1)%Z labels) 0%Z
              = if (i =? a)%nat then (clusterId + 1)%Z else nth a labels 0%Z).
    { intros a. apply nth_upd. lia. }
    destruct (expandCluster_noise n (clusterId + 1)%Z 0
                (getNeighbors vectors epsilon i)
                (upd i (clusterId + 1)%Z labels))
      as [labels' [E Hinv']].
    + lia.
    + apply getNeighbors_NoDup.
    + apply getNeighbors_bound.
    + lia.
    + split_cluster.
      * now rewrite upd_length.
      * fold n. intros a Ha. rewrite Hat. specialize (Hrange a Ha).
        destruct (i =? a)%nat; lia.
      * fold n. intros a Ha. rewrite Hat.
        destruct (Nat.eqb_spec i a) as [_|_]; [lia|]. now apply Hnoise.
      * fold n. intros p x Hp Hcore' Hpos Hx. rewrite Hat in Hpos.
        destruct (Nat.eqb_spec i p) as [<-|_]; [now right|].
        destruct (Hnear p x Hp Hcore' Hpos Hx) as [Hpos'|[]].
        left. rewrite Hat. destruct (i =? x)%nat; [lia|assumption].
      * fold n. intros a Ha. rewrite Hat.
        destruct (Nat.eqb_spec i a) as [<-|_]; [now left|]. now apply Hwhy.
      * intros x Hx. exists i. auto.
    + intros idx x Hidx. lia.
    + fold n. rewrite E. exists labels', (clusterId + 1)%Z.
      split; [reflexivity|]. split; [lia|assumption].
Qed.

Lemma dbscanRun_noise :
  exists labels clusterId,
    dbscanRun vectors epsilon minPts = Some (labels, clusterId)
    /\ clusterInv vectors epsilon minPts labels [].
Proof.
  unfold dbscanRun. fold n.
  assert (G : exists s,
            fold_left (dbscanPoint vectors epsilon minPts) (seq 0 n)
              (Some (repeat 0%Z n, 0%Z)) = Some s
            /\ (0 <= snd s)%Z
            /\ clusterInv vectors epsilon minPts (fst s) []).
  { apply (fold_left_seq_inv _
             (fun (_ : nat) st =>
                exists s, st = Some s /\ (0 <= snd s)%Z
                          /\ clusterInv vectors epsilon minPts (fst s) [])
             (dbscanPoint vectors epsilon minPts) n 0).
    - exists (repeat 0%Z n, 0%Z). split; [reflexivity|].
      split; [cbn [snd]; lia|]. cbn [fst]. split_cluster.
      + apply repeat_length.
      + intros a _. rewrite nth_repeat. lia.
      + intros a _. rewrite nth_repeat. discriminate.
      + intros p x _ _. rewrite nth_repeat. lia.
      + intros x _. rewrite nth_repeat. lia.
      + intros x [].
    - intros i st Hi [[labels clusterId] [-> [Hcid Hinv]]].
      cbn [fst snd] in Hcid, Hinv.
      destruct (dbscanPoint_noise i labels clusterId) as (l' & c' & E & Hc' & Hinv');
        [lia|assumption|assumption|].
      exists (l', c'). auto. }
  destruct G as [[labels clusterId] [E [_ Hinv]]].
  exists labels, clusterId. auto.
Qed.

(** The labels [dbscan] returns: a point is noise exactly when it is no core
    point and is not within [epsilon] of a core point. *)
Lemma dbscan_noise_generic :
  exists labels,
    dbscan vectors epsilon minPts = Some labels
    /\ length labels = n
    /\ forall x, x < n ->
         nth x labels 0%Z = (-1)%Z
         <-> corePoint vectors epsilon minPts x = false
             /\ ~ nearCore vectors epsilon minPts x.
Proof.
  destruct dbscanRun_noise as (labels & clusterId & E & Hinv).
  destruct (dbscanRun_total vectors epsilon minPts)
    as [[labels0 clusterId0] [E0 (Hlen0 & _ & _ & _ & Hdone)]].
  rewrite E in E0. injection E0 as <- <-. cbn [fst] in Hlen0, Hdone.
  destruct Hinv as (Hlen & Hrange & Hnoise & Hnear & Hwhy & _).
  fold n in Hlen, Hrange, Hnoise, Hnear, Hwhy.
  exists (map normalizeLabel labels). unfold dbscan. rewrite E.
  split; [reflexivity|]. split; [now rewrite length_map|].
  intros x Hx.
  assert (Ex : nth x (map normalizeLabel labels) 0%Z
               = normalizeLabel (nth x labels 0%Z)).
  { rewrite (nth_indep _ 0%Z (normalizeLabel 0%Z)) by (rewrite length_map; lia).
    apply map_nth. }
  rewrite Ex. unfold normalizeLabel.
  assert (Hpositive : forall a, a < n -> nth a labels 0%Z <> (-1)%Z ->
                        (0 < nth a labels 0)%Z).
  { intros a Ha Hne. specialize (Hrange a Ha). specialize (Hdone a Ha). lia. }
  destruct (Z.eqb_spec (nth x labels 0%Z) (-1)) as [Em|Em].
  - split; [|reflexivity]. intros _. split; [now apply Hnoise|].
    intros (p & Hp & Hcore & Hin).
    assert (Hpos : (0 < nth p labels 0)%Z).
    { apply Hpositive; [assumption|]. intros Hm.
      rewrite (Hnoise p Hp Hm) in Hcore. discriminate. }
    destruct (Hnear p x Hp Hcore Hpos Hin) as [Hpos'|[]]. lia.
  - split; [intros Hm; specialize (Hpositive x Hx Em); lia|].
    intros [Hnot Hfar]. exfalso.
    destruct (Hwhy x Hx (Hpositive x Hx Em)) as [Hcore|Hn];
      [congruence|contradiction].
Qed.

End DbscanNoise.

Section DbscanBinary64.

Local Open Scope float_scope.

Lemma SFleb_ltb : forall x y : spec_float,
  x <> S754_nan -> y <> S754_nan -> SFleb x y = negb (SFltb y x).
Proof.
  intros x y Hx Hy. unfold SFleb, SFltb, SFcompare.
  destruct x as [[|]|[|]| |[|] mx ex]; try contradiction;
    destruct y as [[|]|[|]| |[|] my ey]; try contradiction; try reflexivity;
    rewrite (Z.compare_antisym ex ey);
    destruct (Z.compare ex ey); try reflexivity; cbn [CompOpp];
    change (Pos.compare_cont Eq my mx) with (Pos.compare my mx);
    change (Pos.compare_cont Eq mx my) with (Pos.compare mx my);
    rewrite (Pos.compare_antisym mx my);
    destruct (Pos.compare mx my); reflexivity.
Qed.

Lemma float_not_nan : forall x : float,
  PrimFloat.is_nan x = false -> Prim2SF x <> S754_nan.
Proof.
  intros x Hx E. unfold PrimFloat.is_nan in Hx.
  rewrite FloatAxioms.eqb_spec, E in Hx. discriminate.
Qed.

Lemma float_ofNat_not_nan : forall m : nat,
  (1 <= m)%nat -> (Z.of_nat m < 2 ^ 53)%Z ->
  Prim2SF (float_ofNat m) <> S754_nan.
Proof.
  intros m Hm Hlt. rewrite (float_ofNat_canon m Hm Hlt). unfold canonInt.
  destruct (shl_align _ _ _). discriminate.
Qed.

Lemma float_count_tests : forall (minPts : float) (m : nat),
  PrimFloat.is_nan minPts = false ->
  (1 <= m)%nat -> (Z.of_nat m < 2 ^ 53)%Z ->
  (minPts <=? float_ofNat m) = negb (float_ofNat m <? minPts).
Proof.
  intros minPts m Hnan Hm Hlt.
  rewrite FloatAxioms.leb_spec, FloatAxioms.ltb_spec.
  apply SFleb_ltb; [now apply float_not_nan|now apply float_ofNat_not_nan].
Qed.

End DbscanBinary64.

(** X12.  In binary64, for a [minPts] that is not NaN and fewer than
    [2^53 - 1] vectors, [dbscan] labels a
    point as noise exactly when it is no core point and does not lie within
    [epsilon] of a core point; a core point is a point with at least [minPts]
    points, itself included, within [epsilon]. *)
Theorem dbscan_noise_points :
  forall (vectors : list (list float)) (epsilon minPts : float),
  PrimFloat.is_nan minPts = false ->
  (Z.of_nat (length vectors) + 1 < 2 ^ 53)%Z ->
  exists labels,
    dbscan vectors epsilon minPts = Some labels
    /\ length labels = length vectors
    /\ forall x, x < length vectors ->
         nth x labels 0%Z = (-1)%Z
         <-> corePoint vectors epsilon minPts x = false
             /\ ~ nearCore vectors epsilon minPts x.
Proof.
  intros vectors epsilon minPts Hnan Hsize.
  apply dbscan_noise_generic. intros m Hm.
  apply float_count_tests; [assumption|lia|lia].
Qed.

(** X13.  In binary64, for vectors of one length, the neighborhoods of
    [dbscan] are symmetric: point [j] is within [epsilon] of point [i]
    exactly when [i] is within [epsilon] of [j]. *)
Theorem getNeighbors_symmetric :
  forall (vectors : list (list float)) (epsilon : float) (d : nat),
  (forall v, In v vectors -> length v = d) ->
  forall i j, i < length vectors -> j < length vectors ->
  In j (getNeighbors vectors epsilon i) <-> In i (getNeighbors vectors epsilon j).
Proof.
  assert (G : forall (vectors : list (list float)) (epsilon : float) (d : nat),
            (forall v, In v vectors -> length v = d) ->
            forall i j, i < length vectors -> j < length vectors ->
            In j (getNeighbors vectors epsilon i) ->
            In i (getNeighbors vectors epsilon j)).
  { intros vectors epsilon d Hd i j Hi Hj Hin. unfold getNeighbors in *.
    apply filter_In in Hin. destruct Hin as [_ Htest].
    apply andb_true_iff in Htest. destruct Htest as [Hne Hdist].
    apply filter_In. split; [apply in_seq; lia|].
    apply andb_true_iff. split.
    - rewrite Nat.eqb_sym. exact Hne.
    - rewrite float_distance_swap; [exact Hdist|].
      rewrite !Hd by (apply nth_In; assumption). reflexivity. }
  intros vectors epsilon d Hd i j Hi Hj. split; apply (G vectors epsilon d Hd); assumption.
Qed.

(** ** Every cluster has a core point *)

Section DbscanSeeds.

Context {num : Type} `{JsNumber num}.

Variable vectors : list (list num).
Variables epsilon minPts : num.

Let n := length vectors.

(** The invariant of the outer loop: every cluster id in use labels a core
    point. *)
Lemma dbscanPoint_seeds : forall (i : nat) (labels : list Z) (clusterId : Z),
  i < n -> length labels = n -> (0 <= clusterId)%Z ->
  (forall c, (1 <= c <= clusterId)%Z ->
     exists p, p < n /\ corePoint vectors epsilon minPts p = true
               /\ nth p labels 0%Z = c) ->
  exists labels' clusterId',
    dbscanPoint vectors epsilon minPts (Some (labels, clusterId)) i
      = Some (labels', clusterId')
    /\ length labels' = n /\ (0 <= clusterId')%Z
    /\ forall c, (1 <= c <= clusterId')%Z ->
         exists p, p < n /\ corePoint vectors epsilon minPts p = true
                   /\ nth p labels' 0%Z = c.
Proof.
  intros i labels clusterId Hi Hlen Hcid Hseeds. unfold dbscanPoint.
  destruct (Z.eqb_spec (nth i labels 0%Z) 0) as [Ez|Ez]; cbn [negb].
  2:{ exists labels, clusterId. auto. }
  destruct (nlt (ofNat (length (getNeighbors vectors epsilon i) + 1)) minPts)
    eqn:Etest.
  - exists (upd i (-1)%Z labels), clusterId. split; [reflexivity|].
    split; [now rewrite upd_length|]. split; [assumption|].
    intros c Hc. destruct (Hseeds c Hc) as (p & Hp & Hcore & Ep).
    exists p. split; [assumption|]. split; [assumption|].
    rewrite nth_upd_other; [assumption|]. intros <-. lia.
  - destruct (expandCluster_total vectors epsilon minPts n (clusterId + 1)%Z 0
                (getNeighbors vectors epsilon i)
                (upd i (clusterId + 1)%Z labels))
      as [labels' [E [Rlen R]]].
    + apply getNeighbors_NoDup.
    + apply getNeighbors_bound.
    + lia.
    + fold n. rewrite E. exists labels', (clusterId + 1)%Z.
      split; [reflexivity|]. rewrite upd_length in Rlen.
      split; [congruence|]. split; [lia|].
      assert (Hat : forall a,
                nth a (upd i (clusterId + 1)%Z labels) 0%Z
                = if (i =? a)%nat then (clusterId + 1)%Z else nth a labels 0%Z).
      { intros a. apply nth_upd. lia. }
      intros c Hc. destruct (Z.eq_dec c (clusterId + 1)) as [->|Hne].
      * exists i. split; [assumption|].
        split; [unfold corePoint; now rewrite Etest|].
        destruct (R i) as [Ea|[_ Ea]]; [|assumption].
        rewrite Ea, Hat. now rewrite Nat.eqb_refl.
      * destruct (Hseeds c) as (p & Hp & Hcore & Ep); [lia|].
        exists p. split; [assumption|]. split; [assumption|].
        assert (Hip : (i =? p)%nat = false)
          by (apply Nat.eqb_neq; intros ->; lia).
        destruct (R p) as [Ea|[Za _]]; rewrite Hat, Hip in *;
          [congruence|lia].
Qed.

Lemma dbscanRun_seeds :
  exists labels clusterId,
    dbscanRun vectors epsilon minPts = Some (labels, clusterId)
    /\ length labels = n /\ (0 <= clusterId)%Z
    /\ forall c, (1 <= c <= clusterId)%Z ->
         exists p, p < n /\ corePoint vectors epsilon minPts p = true
                   /\ nth p labels 0%Z = c.
Proof.
  unfold dbscanRun. fold n.
  assert (G : exists s,
            fold_left (dbscanPoint vectors epsilon minPts) (seq 0 n)
              (Some (repeat 0%Z n, 0%Z)) = Some s
            /\ length (fst s) = n /\ (0 <= snd s)%Z
            /\ forall c, (1 <= c <= snd s)%Z ->
                 exists p, p < n /\ corePoint vectors epsilon minPts p = true
                           /\ nth p (fst s) 0%Z = c).
  { apply (fold_left_seq_inv _
             (fun (_ : nat) st =>
                exists s, st = Some s
                  /\ length (fst s) = n /\ (0 <= snd s)%Z
                  /\ forall c, (1 <= c <= snd s)%Z ->
                       exists p, p < n
                                 /\ corePoint vectors epsilon minPts p = true
                                 /\ nth p (fst s) 0%Z = c)
             (dbscanPoint vectors epsilon minPts) n 0).
    - exists (repeat 0%Z n, 0%Z). split; [reflexivity|]. cbn [fst snd].
      split; [apply repeat_length|]. split; [lia|]. intros c Hc. lia.
    - intros i st Hi [[labels clusterId] (-> & Hlen & Hcid & Hseeds)].
      cbn [fst snd] in *.
      destruct (dbscanPoint_seeds i labels clusterId)
        as (l' & c' & E & Hl' & Hc' & Hs'); auto; [lia|].
      exists (l', c'). auto. }
  destruct G as [[labels clusterId] (E & Hlen & Hcid & Hseeds)].
  exists labels, clusterId. auto.
Qed.

End DbscanSeeds.

(** X22.  Every cluster [dbscan] returns contains a core point, the point
    the cluster was started from. *)
Theorem dbscan_clusters_have_core :
  forall (num : Type) (N : JsNumber num)
         (vectors : list (list num)) (epsilon minPts : num),
  exists (labels : list Z) (numClusters : Z),
    dbscan vectors epsilon minPts = Some labels
    /\ (forall l, In l labels -> (l < numClusters)%Z)
    /\ forall c, (0 <= c < numClusters)%Z ->
         exists p, p < length vectors
                   /\ corePoint vectors epsilon minPts p = true
                   /\ nth p labels (-1)%Z = c.
Proof.
  intros num N vectors epsilon minPts.
  destruct (dbscanRun_seeds vectors epsilon minPts)
    as (labels & clusterId & E & Hlen & Hcid & Hseeds).
  destruct (dbscanRun_total vectors epsilon minPts)
    as [[labels0 clusterId0] [E0 (_ & _ & Hrange & _ & _)]].
  rewrite E in E0. injection E0 as <- <-. cbn [fst snd] in Hrange.
  exists (map normalizeLabel labels), clusterId. unfold dbscan. rewrite E.
  split; [reflexivity|]. split.
  - intros l Hl. apply in_map_iff in Hl. destruct Hl as [x [<- Hx]].
    destruct (In_nth _ _ 0%Z Hx) as [a [Ha Ea]].
    rewrite Hlen in Ha. specialize (Hrange a Ha). rewrite Ea in Hrange.
    unfold normalizeLabel. destruct (Z.eqb_spec x (-1)); lia.
  - intros c Hc. destruct (Hseeds (c + 1)%Z) as (p & Hp & Hcore & Ep); [lia|].
    exists p. split; [assumption|]. split; [assumption|].
    rewrite (nth_indep _ (-1)%Z (normalizeLabel 0%Z))
      by (rewrite length_map; lia).
    rewrite map_nth, Ep. unfold normalizeLabel.
    destruct (Z.eqb_spec (c + 1) (-1)); lia.
Qed.

(** * Further properties of the self-organizing map *)

(** ** The best matching unit *)

Section BestMatchingUnit.

Context {num : Type} `{JsNumber num}.

Hypothesis nlt_trans : forall x y z : num,
  nlt x y = true -> nlt y z = true -> nlt x z = true.
Hypothesis nlt_irrefl : forall x : num, nlt x x = false.
Hypothesis nlt_infinity : forall x y : num,
  nlt x y = true -> nlt x nInfinity = true.

Variable som : SOM (num := num).
Hypothesis grid_shape : gridShape som.

Variable input : list num.

Lemma bmuStep_inv : forall visited c rest st,
  gridCells som = visited ++ c :: rest ->
  bmuInv som input visited st ->
  exists st',
    bmuStep som (Some input) st c = Ok st'
    /\ bmuInv som input (visited ++ [c]) st'.
Proof.
  intros visited [x y] rest [minDist bmu] Hcells [Hfar Hbmu].
  cbn [fst snd] in Hfar, Hbmu.
  assert (Hc : In (x, y) (gridCells som)).
  { rewrite Hcells. apply in_app_iff. right. now left. }
  apply gridCells_In in Hc. destruct Hc as [Hx Hy].
  unfold bmuStep. cbn [fst snd].
  rewrite (weightAt_prototype som grid_shape x y Hx Hy). cbn [bind].
  rewrite euclideanDistanceU_defined. cbn [bind].
  set (dist := euclideanDistance input (prototype som (x, y))).
  destruct (nlt dist minDist) eqn:Elt.
  - exists (dist, (x, y)). split; [reflexivity|]. split; cbn [fst snd].
    + intros c Hc. apply in_app_iff in Hc. destruct Hc as [Hc|[<-|[]]].
      * destruct (nlt (euclideanDistance input (prototype som c)) dist) eqn:E;
          [|reflexivity].
        rewrite <- (Hfar c Hc). symmetry.
        now apply (nlt_trans _ dist).
      * apply nlt_irrefl.
    + right. split; [|reflexivity]. apply in_app_iff. right. now left.
  - exists (minDist, bmu). split; [reflexivity|]. split; cbn [fst snd].
    + intros c Hc. apply in_app_iff in Hc. destruct Hc as [Hc|[<-|[]]];
        [now apply Hfar|exact Elt].
    + destruct Hbmu as [Hinit|[Hin E]]; [now left|right].
      split; [|assumption]. apply in_app_iff. now left.
Qed.

Lemma findBMU_inv :
  exists bmu,
    findBMU som (Some input) = Ok bmu
    /\ (0 < width som -> 0 < height som ->
        fst bmu < width som /\ snd bmu < height som)
    /\ forall x y, x < width som -> y < height som ->
         nlt (euclideanDistance input (prototype som (x, y)))
           (euclideanDistance input (prototype som bmu)) = false.
Proof.
  destruct (forEach_prefix_inv _ _ (bmuInv som input)
              (bmuStep som (Some input)) (gridCells som) (nInfinity, (0, 0)))
    as [[minDist bmu] [E [Hfar Hbmu]]].
  - split; [intros c []|]. left. auto.
  - apply bmuStep_inv.
  - cbn [fst snd] in Hfar, Hbmu. exists bmu. unfold findBMU. rewrite E.
    split; [reflexivity|]. split.
    + intros Hw Hh. destruct Hbmu as [[_ ->]|[Hin _]]; [cbn [fst snd]; lia|].
      destruct bmu as [bx by']. now apply gridCells_In in Hin.
    + intros x y Hx Hy.
      assert (Hc : In (x, y) (gridCells som)) by now apply gridCells_In.
      specialize (Hfar (x, y) Hc).
      destruct Hbmu as [[-> _]|[_ <-]]; [|exact Hfar].
      destruct (nlt (euclideanDistance input (prototype som (x, y)))
                  (euclideanDistance input (prototype som bmu))) eqn:Elt;
        [|reflexivity].
      rewrite <- Hfar. symmetry. now apply (nlt_infinity _ _ Elt).
Qed.

End BestMatchingUnit.

(** X14.  On a [width] x [height] grid of prototypes, in binary64,
    [findBMU] returns a cell of the grid (for a grid that has cells), and no
    cell of the grid has a prototype strictly closer to the input than the
    prototype of the returned cell. *)
Theorem findBMU_nearest :
  forall (som : SOM (num := float)) (input : list float),
  gridShape som ->
  exists bmu,
    findBMU som (Some input) = Ok bmu
    /\ (0 < width som -> 0 < height som ->
        fst bmu < width som /\ snd bmu < height som)
    /\ forall x y, x < width som -> y < height som ->
         PrimFloat.ltb (euclideanDistance input (prototype som (x, y)))
           (euclideanDistance input (prototype som bmu)) = false.
Proof.
  intros som input Hshape.
  apply (@findBMU_inv float float_number); auto.
  - exact float_ltb_trans.
  - exact float_ltb_irrefl.
  - exact float_ltb_infinity.
Qed.

(** ** Construction and training *)

Section Training.

Context {num : Type} `{JsNumber num}.

Lemma fullGrid_shape : forall som : SOM (num := num),
  fullGrid (width som) (height som) (inputDim som) (weights som) ->
  gridShape som.
Proof.
  intros som [Hlen Hcols]. split; [assumption|].
  intros x column Hx. now apply (Hcols x column Hx).
Qed.

(** For every number type: on a grid of prototypes [findBMU] returns a cell
    of the grid. *)
Lemma findBMU_in_grid : forall (som : SOM (num := num)) (input : list num),
  gridShape som ->
  exists bmu,
    findBMU som (Some input) = Ok bmu
    /\ (0 < width som -> 0 < height som ->
        fst bmu < width som /\ snd bmu < height som).
Proof.
  intros som input Hshape.
  destruct (forEach_prefix_inv _ _
              (fun visited st => snd st = (0, 0) \/ In (snd st) visited)
              (bmuStep som (Some input)) (gridCells som) (nInfinity, (0, 0)))
    as [[minDist bmu] [E Hbmu]].
  - now left.
  - intros visited [x y] rest [minDist bmu] Hcells Hbmu.
    assert (Hc : In (x, y) (gridCells som)).
    { rewrite Hcells. apply in_app_iff. right. now left. }
    apply gridCells_In in Hc. destruct Hc as [Hx Hy].
    unfold bmuStep. cbn [fst snd] in *.
    rewrite (weightAt_prototype som Hshape x y Hx Hy). cbn [bind].
    rewrite euclideanDistanceU_defined. cbn [bind].
    eexists. split; [reflexivity|].
    destruct (nlt _ minDist); cbn [snd].
    + right. apply in_app_iff. right. now left.
    + destruct Hbmu as [->|Hin]; [now left|right]. apply in_app_iff. now left.
  - cbn [snd] in Hbmu. exists bmu. unfold findBMU. rewrite E.
    split; [reflexivity|]. intros Hw Hh.
    destruct Hbmu as [->|Hin]; [cbn [fst snd]; lia|].
    destruct bmu as [bx by']. now apply gridCells_In in Hin.
Qed.

Lemma newSOM_full : forall (random : RandomNumbers) (w h d : nat),
  fullGrid w h d (weights (newSOM random w h d)).
Proof.
  intros random w h d. unfold newSOM. cbn [weights]. split.
  - now rewrite length_map, length_seq.
  - intros x column Hx.
    apply nth_error_In, in_map_iff in Hx. destruct Hx as [x' [<- _]].
    split; [now rewrite length_map, length_seq|].
    intros v Hv. apply in_map_iff in Hv. destruct Hv as [y [<- _]].
    unfold randomPrototype. now rewrite length_map, length_seq.
Qed.

Variables mathExp mathLog : num -> num.
Variable mathPow : num -> num -> num.

Lemma movePrototype_length : forall (d : nat) (influence : num)
  (input w : list num),
  length w = d -> length (movePrototype d influence input w) = d.
Proof.
  intros d influence input w Hw. unfold movePrototype.
  apply (fold_left_preserve _ _ (fun v : list num => length v = d));
    [assumption|].
  intros k v Hk Hv. apply in_seq in Hk. unfold moveComponent.
  destruct (Nat.ltb_spec k (length v)); [|lia].
  now rewrite upd_length.
Qed.

Lemma fullGrid_upd : forall (w h d : nat) (weights : list (list (list num)))
  (x y : nat) (column : list (list num)) (v : list num),
  fullGrid w h d weights ->
  nth_error weights x = Some column -> length v = d ->
  fullGrid w h d (upd x (upd y v column) weights).
Proof.
  intros w h d weights x y column v [Hlen Hcols] Hx Hv. split.
  - now rewrite upd_length.
  - intros x' column' Hx'.
    assert (Hxl : x < length weights) by (apply nth_error_Some; congruence).
    assert (Hx'l : x' < length weights).
    { rewrite <- (upd_length _ weights x (upd y v column)).
      apply nth_error_Some. congruence. }
    assert (E : column' = nth x' (upd x (upd y v column) weights) []).
    { symmetry. now apply nth_error_nth. }
    rewrite nth_upd in E by assumption.
    destruct (Nat.eqb_spec x x') as [<-|Hne].
    + subst column'. destruct (Hcols x column Hx) as [Hh Hd].
      split; [now rewrite upd_length|].
      intros u Hu. apply In_upd in Hu. destruct Hu as [->|Hu]; auto.
    + apply (Hcols x'). subst column'. apply nth_error_nth'. assumption.
Qed.

Lemma trainCell_full : forall (w h d : nat) (input : list num)
  (bmu : nat * nat) (radius learningRate : num)
  (weights : list (list (list num))) (x y : nat),
  fullGrid w h d weights -> x < w -> y < h ->
  exists weights',
    trainCell mathExp mathPow d (Some input) bmu radius learningRate weights (x, y)
      = Ok weights'
    /\ fullGrid w h d weights'.
Proof.
  intros w h d input bmu radius learningRate weights x y Hfull Hx Hy.
  unfold trainCell. destruct (nlt _ radius); [|eauto].
  destruct (d =? 0)%nat; [eauto|].
  pose proof Hfull as [Hlen Hcols].
  destruct (nth_error weights x) as [column|] eqn:Ex.
  2:{ apply nth_error_None in Ex. lia. }
  destruct (Hcols x column Ex) as [Hh Hd].
  destruct (nth_error column y) as [v|] eqn:Ey.
  2:{ apply nth_error_None in Ey. lia. }
  eexists. split; [reflexivity|].
  apply fullGrid_upd; auto. apply movePrototype_length.
  apply Hd. eapply nth_error_In; eassumption.
Qed.

Lemma train_full : forall (som : SOM (num := num)) (data : list (list num))
  (iterations : nat) (startLearningRate : num) (random : RandomSource),
  fullGrid (width som) (height som) (inputDim som) (weights som) ->
  (forall t, t < iterations -> random t < length data) ->
  exists weights',
    train mathExp mathLog mathPow som data iterations startLearningRate random
      = Ok (mkSOM (width som) (height som) (inputDim som) weights')
    /\ fullGrid (width som) (height som) (inputDim som) weights'.
Proof.
  intros som data iterations startLearningRate random Hfull Hrandom.
  unfold train. destruct (length data =? 0)%nat.
  { exists (weights som). split; [now destruct som|assumption]. }
  set (radius0 := ndiv (nmax (ofNat (width som)) (ofNat (height som))) nTwo).
  set (timeConstant := ndiv (ofNat iterations) (mathLog radius0)).
  destruct (forEach_seq_inv _
              (fun (_ : nat) (st : list (list (list num)) * num * num) =>
                 fullGrid (width som) (height som) (inputDim som) (fst (fst st)))
              (trainStep mathExp mathPow som data random iterations
                 startLearningRate timeConstant)
              iterations 0 (weights som, radius0, startLearningRate))
    as [[[weights' radius] learningRate] [E Hfull']].
  - exact Hfull.
  - intros i [[weights1 radius] learningRate] Hi Hfull1.
    cbn [fst] in Hfull1. unfold trainStep.
    destruct (nth_error data (random i)) as [input|] eqn:Einput.
    2:{ apply nth_error_None in Einput.
        specialize (Hrandom i ltac:(lia)). lia. }
    destruct (findBMU_in_grid
                (mkSOM (width som) (height som) (inputDim som) weights1) input)
      as [bmu [Ebmu _]].
    { now apply fullGrid_shape. }
    rewrite Ebmu. cbn [bind].
    destruct (forEach_preserve _ _
                (fullGrid (width som) (height som) (inputDim som))
                (trainCell mathExp mathPow (inputDim som) (Some input) bmu
                   radius learningRate)
                (gridCells som) weights1 Hfull1) as [weights2 [E2 Hfull2]].
    + intros [x y] weights Hc Hw. apply gridCells_In in Hc.
      destruct Hc as [Hx Hy]. now apply trainCell_full.
    + rewrite E2. cbn [bind]. eexists. split; [reflexivity|exact Hfull2].
  - cbn [fst] in Hfull'. exists weights'. rewrite E. cbn [bind fst].
    split; [reflexivity|assumption].
Qed.

End Training.

(** X15.  Training keeps the shape of the map: on a [width] x [height] grid
    of prototypes with [inputDim] components, when every draw picks an
    element of the data, [train] does not throw and leaves a grid of the same
    dimensions, whatever [Math.exp], [Math.log] and [**] compute. *)
Theorem train_keeps_grid :
  forall (num : Type) (N : JsNumber num) (mathExp mathLog : num -> num)
         (mathPow : num -> num -> num) (som : SOM (num := num))
         (data : list (list num)) (iterations : nat)
         (startLearningRate : num) (random : RandomSource),
  fullGrid (width som) (height som) (inputDim som) (weights som) ->
  (forall t, t < iterations -> random t < length data) ->
  exists som',
    train mathExp mathLog mathPow som data iterations startLearningRate random
      = Ok som'
    /\ width som' = width som
    /\ height som' = height som
    /\ inputDim som' = inputDim som
    /\ fullGrid (width som) (height som) (inputDim som) (weights som').
Proof.
  intros num N mathExp mathLog mathPow som data iterations startLearningRate
    random Hfull Hrandom.
  destruct (train_full mathExp mathLog mathPow som data iterations
              startLearningRate random Hfull Hrandom) as [weights' [E Hfull']].
  eexists. split; [exact E|]. cbn [width height inputDim weights]. auto.
Qed.

(** X16.  The landscape view: a map built by [new SOM(size, size, dim)] and
    trained on the embeddings has a U-Matrix of [size] x [size] cells, and
    [findBMU] places every embedding on a cell of the grid; no step
    throws, when every draw of the training picks an element of the data. *)
Theorem landscape_pipeline :
  forall (num : Type) (N : JsNumber num) (mathExp mathLog : num -> num)
         (mathPow : num -> num -> num) (numbers : RandomNumbers)
         (random : RandomSource) (size dim : nat)
         (data : list (list num)) (iterations : nat) (startLearningRate : num),
  (forall t, t < iterations -> random t < length data) ->
  exists som uMatrix,
    train mathExp mathLog mathPow (newSOM numbers size size dim) data
      iterations startLearningRate random = Ok som
    /\ getUMatrix som = Ok uMatrix
    /\ rect size size uMatrix
    /\ forall embedding : list num,
         exists bmu,
           findBMU som (Some embedding) = Ok bmu
           /\ (0 < size -> fst bmu < size /\ snd bmu < size).
Proof.
  intros num N mathExp mathLog mathPow numbers random size dim data
    iterations startLearningRate Hrandom.
  destruct (train_full mathExp mathLog mathPow (newSOM numbers size size dim)
              data iterations startLearningRate random
              (newSOM_full numbers size size dim) Hrandom)
    as [weights' [E Hfull]].
  cbn [width height inputDim newSOM] in E, Hfull.
  set (som := mkSOM size size dim weights') in *.
  assert (Hshape : gridShape som) by now apply fullGrid_shape.
  destruct (getUMatrix_cells num N som Hshape)
    as (raw & mx & mn & uMatrix & _ & _ & Eu & Hrect & _).
  exists som, uMatrix. split; [exact E|]. split; [exact Eu|].
  split; [exact Hrect|].
  intros embedding.
  destruct (findBMU_in_grid som embedding Hshape) as [bmu [Ebmu Hin]].
  exists bmu. split; [exact Ebmu|]. intros Hs. now apply Hin.
Qed.

(** * The ordering of the kernel matrix *)

Section GreedyOrdering.

Context {num : Type} `{JsNumber num}.

Lemma setHas_In : forall (visited : list Z) (x : Z),
  setHas visited x = true <-> In x visited.
Proof.
  intros visited x. unfold setHas. rewrite existsb_exists. split.
  - intros [y [Hy Exy]]. apply Z.eqb_eq in Exy. now subst y.
  - intros Hx. exists x. split; [assumption|apply Z.eqb_refl].
Qed.

Lemma setAdd_In : forall (visited : list Z) (x z : Z),
  In z (setAdd visited x) <-> In z visited \/ z = x.
Proof.
  intros visited x z. unfold setAdd.
  destruct (setHas visited x) eqn:E.
  - apply setHas_In in E. split; [now left|]. intros [Hz| ->]; assumption.
  - rewrite in_app_iff. cbn [In]. split.
    + intros [Hz|[<-|[]]]; auto.
    + intros [Hz| ->]; auto.
Qed.

(** The scan returns [-1] or an unvisited index below [n]. *)
Lemma bestNext_scan : forall (n : nat) (row : list num) (visited : list Z),
  exists found maxSim,
    forEach (seq 0 n) (bestNextStep (Some row) visited) ((-1)%Z, nneg n1)
      = Ok (found, maxSim)
    /\ (found = (-1)%Z
        \/ ((0 <= found < Z.of_nat n)%Z /\ ~ In found visited)).
Proof.
  intros n row visited.
  destruct (forEach_preserve _ _
              (fun st : Z * num =>
                 fst st = (-1)%Z
                 \/ ((0 <= fst st < Z.of_nat n)%Z /\ ~ In (fst st) visited))
              (bestNextStep (Some row) visited) (seq 0 n) ((-1)%Z, nneg n1))
    as [[found maxSim] [E Hfound]].
  - now left.
  - intros i [found maxSim] Hi Hfound. apply in_seq in Hi.
    unfold bestNextStep. destruct (setHas visited (Z.of_nat i)) eqn:Ev;
      [eauto|].
    cbn [snd]. destruct (nlt maxSim (nth i row nNaN)); [|eauto].
    eexists. split; [reflexivity|]. right. cbn [fst].
    split; [lia|]. intros Hin. apply setHas_In in Hin. congruence.
  - exists found, maxSim. auto.
Qed.

(** An unvisited index exists as long as fewer than [n] indices are
    visited. *)
Lemma firstUnvisited_found : forall (n : nat) (indices visited : list Z),
  NoDup indices -> length indices < n ->
  (forall z, In z visited <-> In z indices) ->
  (0 <= firstUnvisited visited n < Z.of_nat n)%Z
  /\ ~ In (firstUnvisited visited n) indices.
Proof.
  intros n indices visited Hnd Hlen Hsame. unfold firstUnvisited.
  destruct (find (fun i => negb (setHas visited (Z.of_nat i))) (seq 0 n))
    as [i|] eqn:E.
  - apply find_some in E. destruct E as [Hi Ev]. apply in_seq in Hi.
    split; [lia|]. intros Hin. apply Hsame, setHas_In in Hin.
    rewrite Hin in Ev. discriminate.
  - exfalso.
    assert (Hincl : incl (map Z.of_nat (seq 0 n)) indices).
    { intros z Hz. apply in_map_iff in Hz. destruct Hz as [i [<- Hi]].
      pose proof (find_none _ _ E i Hi) as Ev. cbn beta in Ev.
      apply negb_false_iff in Ev. now apply Hsame, setHas_In. }
    assert (Hnd' : NoDup (map Z.of_nat (seq 0 n))).
    { apply NoDup_map_NoDup_ForallPairs; [|apply seq_NoDup].
      intros a b _ _ Hab. lia. }
    pose proof (NoDup_incl_length Hnd' Hincl) as Hle.
    rewrite length_map, length_seq in Hle. lia.
Qed.

Lemma NoDup_snoc_Z : forall (l : list Z) (x : Z),
  NoDup l -> ~ In x l -> NoDup (l ++ [x]).
Proof.
  induction l as [|h t IH]; intros x Hnd Hx; cbn [app].
  - constructor; [intros []|constructor].
  - inversion Hnd as [|? ? Hh Ht]; subst. constructor.
    + rewrite in_app_iff. cbn [In]. intros [Hin|[Heq|[]]]; [tauto|].
      apply Hx. left. congruence.
    + apply IH; [assumption|]. intros Hin. apply Hx. now right.
Qed.

Variable rawMatrix : list (list num).
Variable n : nat.

Hypothesis rows : length rawMatrix = n.

(** The loop ends within [n] iterations with each index once. *)
Lemma greedyLoop_total : forall (fuel : nat) (indices visited : list Z),
  indices <> [] ->
  NoDup indices ->
  (forall z, In z indices -> (0 <= z < Z.of_nat n)%Z) ->
  (forall z, In z visited <-> In z indices) ->
  n <= fuel + length indices ->
  exists order,
    greedyLoop fuel rawMatrix n indices visited = Some (Ok order)
    /\ NoDup order
    /\ (forall z, In z order <-> (0 <= z < Z.of_nat n)%Z)
    /\ hd 0%Z order = hd 0%Z indices.
Proof.
  induction fuel as [|fuel IH];
    intros indices visited Hne Hnd Hrange Hvisited Hfuel.
  - cbn [greedyLoop]. destruct (Nat.ltb_spec (length indices) n); [lia|].
    exists indices. split; [reflexivity|]. split; [assumption|].
    split; [|reflexivity]. intros z. split; [apply Hrange|].
    intros Hz.
    assert (Hincl : incl indices (map Z.of_nat (seq 0 n))).
    { intros y Hy. specialize (Hrange y Hy). apply in_map_iff.
      exists (Z.to_nat y). split; [lia|]. apply in_seq. lia. }
    apply (NoDup_length_incl Hnd) in Hincl.
    + apply Hincl. apply in_map_iff. exists (Z.to_nat z).
      split; [lia|]. apply in_seq. lia.
    + rewrite length_map, length_seq. lia.
  - cbn [greedyLoop]. destruct (Nat.ltb_spec (length indices) n) as [Hlt|Hge].
    2:{ exists indices. split; [reflexivity|]. split; [assumption|].
        split; [|reflexivity]. intros z. split; [apply Hrange|].
        intros Hz.
        assert (Hincl : incl indices (map Z.of_nat (seq 0 n))).
        { intros y Hy. specialize (Hrange y Hy). apply in_map_iff.
          exists (Z.to_nat y). split; [lia|]. apply in_seq. lia. }
        apply (NoDup_length_incl Hnd) in Hincl.
        - apply Hincl. apply in_map_iff. exists (Z.to_nat z).
          split; [lia|]. apply in_seq. lia.
        - rewrite length_map, length_seq. lia. }
    assert (Hcur : In (last indices 0%Z) indices).
    { destruct (exists_last Hne) as [front [x ->]].
      rewrite last_last. apply in_app_iff. right. now left. }
    pose proof (Hrange _ Hcur) as Hcr.
    unfold similarityRow.
    destruct (Z.ltb_spec (last indices 0%Z) 0) as [|_]; [lia|].
    destruct (nth_error rawMatrix (Z.to_nat (last indices 0%Z))) as [row|] eqn:Er.
    2:{ apply nth_error_None in Er. lia. }
    destruct (bestNext_scan n row visited) as (found & maxSim & E & Hfound).
    rewrite E.
    set (bestNext := if (found =? -1)%Z then firstUnvisited visited n else found).
    assert (Hbest : (0 <= bestNext < Z.of_nat n)%Z /\ ~ In bestNext indices).
    { unfold bestNext. destruct (Z.eqb_spec found (-1)) as [_|Hne'].
      - now apply (firstUnvisited_found n).
      - destruct Hfound as [|[Hr Hn]]; [contradiction|].
        split; [assumption|]. intros Hin. apply Hn, Hvisited, Hin. }
    destruct Hbest as [Hbr Hbn].
    destruct (IH (indices ++ [bestNext]) (setAdd visited bestNext))
      as (order & Eo & Hndo & Hall & Hhd).
    + intros Happ. now apply app_eq_nil in Happ.
    + now apply NoDup_snoc_Z.
    + intros z Hz. apply in_app_iff in Hz.
      destruct Hz as [Hz|[<-|[]]]; [now apply Hrange|assumption].
    + intros z. rewrite setAdd_In, in_app_iff. cbn [In].
      rewrite Hvisited. intuition.
    + rewrite length_app. cbn [length]. lia.
    + exists order. split; [exact Eo|]. split; [assumption|].
      split; [assumption|]. rewrite Hhd.
      destruct indices; [contradiction|reflexivity].
Qed.

End GreedyOrdering.

Section SortedMatrix.

Context {num : Type} `{JsNumber num}.

Variable rawMatrix : list (list num).
Variable indices : list Z.

Hypothesis in_range : forall z, In z indices ->
  (0 <= z < Z.of_nat (length rawMatrix))%Z.

Lemma sortedMatrix_rows :
  sortedMatrix rawMatrix indices
  = Ok (map (fun i =>
               map (fun j => cell rawMatrix (Z.to_nat i) (Z.to_nat j)) indices)
          indices).
Proof.
  unfold sortedMatrix.
  assert (G : forall (xs : list Z) (rows : list (list num)),
            (forall z, In z xs -> In z indices) ->
            forEach xs (sortedRow rawMatrix indices) rows
            = Ok (rows
                  ++ map (fun i =>
                            map (fun j =>
                                   cell rawMatrix (Z.to_nat i) (Z.to_nat j))
                              indices) xs)).
  { induction xs as [|i xs IH]; intros rows Hsub.
    - cbn [forEach map]. now rewrite app_nil_r.
    - cbn [forEach]. unfold sortedRow at 1, similarityRow.
      assert (Hi : (0 <= i < Z.of_nat (length rawMatrix))%Z).
      { apply in_range, Hsub. now left. }
      destruct (Z.ltb_spec i 0) as [|_]; [lia|].
      destruct (nth_error rawMatrix (Z.to_nat i)) as [r|] eqn:Er.
      2:{ apply nth_error_None in Er. lia. }
      cbn [bind]. rewrite IH by (intros z Hz; apply Hsub; now right).
      rewrite <- app_assoc. cbn [app map]. unfold cell.
      now rewrite (nth_error_nth _ _ [] Er). }
  apply (G indices []). auto.
Qed.

Lemma sorted_cell : forall a b,
  a < length indices -> b < length indices ->
  cell (map (fun i =>
               map (fun j => cell rawMatrix (Z.to_nat i) (Z.to_nat j)) indices)
          indices) a b
  = cell rawMatrix (Z.to_nat (nth a indices 0%Z)) (Z.to_nat (nth b indices 0%Z)).
Proof.
  intros a b Ha Hb. unfold cell at 1.
  rewrite (nth_indep _ []
             ((fun i => map (fun j => cell rawMatrix (Z.to_nat i) (Z.to_nat j))
                          indices) 0%Z))
    by now rewrite length_map.
  rewrite (map_nth (fun i => map (fun j => cell rawMatrix (Z.to_nat i) (Z.to_nat j))
                               indices)).
  rewrite (nth_indep _ nNaN
             ((fun j => cell rawMatrix (Z.to_nat (nth a indices 0%Z)) (Z.to_nat j))
                0%Z))
    by now rewrite length_map.
  now rewrite (map_nth (fun j => cell rawMatrix (Z.to_nat (nth a indices 0%Z))
                                   (Z.to_nat j))).
Qed.

End SortedMatrix.

(** X17.  The analysis of the kernel matrix: for at least two embeddings of
    one dimension, the greedy loop ends within [n] iterations; the ordering
    starts at index 0 and holds every index of [0 .. n - 1] exactly once; and
    the reordered matrix, which holds at [(a, b)] the similarity of the
    [a]-th and [b]-th index of the ordering, is again symmetric with 1 on the
    diagonal. *)
Theorem analysis_ordering :
  forall (num : Type) (N : JsNumber num)
         (vectors : list (list num)) (d : nat),
  2 <= length vectors ->
  (forall v, In v vectors -> length v = d) ->
  exists rawMatrix indices sorted,
    computeKernelMatrix vectors = Ok rawMatrix
    /\ analysis (length vectors) vectors = Some (Ok (Some (indices, sorted)))
    /\ NoDup indices
    /\ (forall z, In z indices <-> (0 <= z < Z.of_nat (length vectors))%Z)
    /\ hd 1%Z indices = 0%Z
    /\ forall a b, a < length vectors -> b < length vectors ->
         cell sorted a b
         = cell rawMatrix (Z.to_nat (nth a indices 0%Z))
             (Z.to_nat (nth b indices 0%Z))
         /\ cell sorted a b = cell sorted b a
         /\ cell sorted a a = n1.
Proof.
  intros num N vectors d Hn Hd.
  destruct (computeKernelMatrix_inv vectors d Hd)
    as [rawMatrix [Eraw [[Hrows _] Hcells]]].
  destruct (greedyLoop_total rawMatrix (length vectors) Hrows (length vectors)
              [0%Z] [0%Z]) as (indices & Eo & Hnd & Hall & Hhd).
  - discriminate.
  - constructor; [intros []|constructor].
  - intros z [<-|[]]. lia.
  - tauto.
  - lia.
  - assert (Hlen : length indices = length vectors).
    { assert (Hnd' : NoDup (map Z.of_nat (seq 0 (length vectors)))).
      { apply NoDup_map_NoDup_ForallPairs; [|apply seq_NoDup].
        intros a b _ _ Hab. lia. }
      assert (H1 : length indices <= length vectors).
      { rewrite <- (length_seq (length vectors) 0),
          <- (length_map Z.of_nat).
        apply NoDup_incl_length; [assumption|].
        intros z Hz. apply Hall in Hz. apply in_map_iff.
        exists (Z.to_nat z). split; [lia|]. apply in_seq. lia. }
      assert (H2 : length vectors <= length indices).
      { rewrite <- (length_seq (length vectors) 0),
          <- (length_map Z.of_nat).
        apply NoDup_incl_length; [assumption|].
        intros z Hz. apply in_map_iff in Hz. destruct Hz as [i [<- Hi]].
        apply in_seq in Hi. apply Hall. lia. }
      lia. }
    assert (Hrange : forall z, In z indices ->
              (0 <= z < Z.of_nat (length rawMatrix))%Z).
    { intros z Hz. rewrite Hrows. now apply Hall. }
    exists rawMatrix, indices,
      (map (fun i =>
              map (fun j => cell rawMatrix (Z.to_nat i) (Z.to_nat j)) indices)
         indices).
    split; [exact Eraw|]. split.
    + unfold analysis. destruct (Nat.ltb_spec (length vectors) 2); [lia|].
      rewrite Eraw, Eo, (sortedMatrix_rows rawMatrix indices Hrange).
      cbn [bind]. reflexivity.
    + split; [assumption|]. split; [assumption|].
      split.
      { destruct indices as [|z0 rest]; [simpl in Hlen; lia|].
        cbn [hd] in *. exact Hhd. }
      intros a b Ha Hb.
      assert (Hidx : forall k, k < length vectors ->
                Z.to_nat (nth k indices 0%Z) < length vectors).
      { intros k Hk.
        assert (Hin : In (nth k indices 0%Z) indices)
          by (apply nth_In; lia).
        apply Hall in Hin. lia. }
      rewrite !(sorted_cell rawMatrix indices) by lia.
      split; [reflexivity|].
      pose proof (Hidx a Ha) as Hia. pose proof (Hidx b Hb) as Hib.
      rewrite !Hcells by (auto; unfold written; lia).
      split; [apply kernelEntry_sym|].
      unfold kernelEntry. now rewrite Nat.eqb_refl.
Qed.

(** ** The greedy choice *)

Section GreedyChoice.

Context {num : Type} `{JsNumber num}.

Hypothesis nlt_trans : forall x y z : num,
  nlt x y = true -> nlt y z = true -> nlt x z = true.
Hypothesis nlt_irrefl : forall x : num, nlt x x = false.

Variable rawMatrix : list (list num).
Variable n : nat.

Hypothesis rows : length rawMatrix = n.

Lemma bestNext_scan_best : forall (row : list num) (visited : list Z),
  exists st,
    forEach (seq 0 n) (bestNextStep (Some row) visited) ((-1)%Z, nneg n1)
      = Ok st
    /\ scanBestInv row visited (seq 0 n) st.
Proof.
  intros row visited.
  apply (forEach_prefix_inv _ _ (scanBestInv row visited)).
  - split; [intros i []|]. left. auto.
  - intros scanned i rest [found maxSim] _ [Hbest Hfound].
    cbn [fst snd] in Hbest, Hfound. unfold bestNextStep.
    destruct (setHas visited (Z.of_nat i)) eqn:Ev.
    + eexists. split; [reflexivity|]. split; cbn [fst snd].
      * intros i' Hi' Hu. apply in_app_iff in Hi'.
        destruct Hi' as [Hi'|[<-|[]]]; [now apply Hbest|congruence].
      * destruct Hfound as [Hinit|(i0 & Hi0 & Hu & E1 & E2)]; [now left|].
        right. exists i0. split; [apply in_app_iff; now left|auto].
    + cbn [snd]. destruct (nlt maxSim (nth i row nNaN)) eqn:Elt.
      * eexists. split; [reflexivity|]. split; cbn [fst snd].
        -- intros i' Hi' Hu. apply in_app_iff in Hi'.
           destruct Hi' as [Hi'|[<-|[]]]; [|apply nlt_irrefl].
           destruct (nlt (nth i row nNaN) (nth i' row nNaN)) eqn:E;
             [|reflexivity].
           rewrite <- (Hbest i' Hi' Hu). symmetry.
           now apply (nlt_trans _ (nth i row nNaN)).
        -- right. exists i. split; [apply in_app_iff; right; now left|auto].
      * eexists. split; [reflexivity|]. split; cbn [fst snd].
        -- intros i' Hi' Hu. apply in_app_iff in Hi'.
           destruct Hi' as [Hi'|[<-|[]]]; [now apply Hbest|exact Elt].
        -- destruct Hfound as [Hinit|(i0 & Hi0 & Hu & E1 & E2)]; [now left|].
           right. exists i0. split; [apply in_app_iff; now left|auto].
Qed.

Lemma find_seq_first : forall (f : nat -> bool) (len lo i : nat),
  find f (seq lo len) = Some i -> forall j, lo <= j < i -> f j = false.
Proof.
  intros f. induction len as [|len IH]; intros lo i E j Hj; [discriminate|].
  cbn [seq find] in E. destruct (f lo) eqn:Elo.
  - injection E as <-. lia.
  - destruct (Nat.eq_dec j lo) as [->|Hne]; [assumption|].
    apply (IH (S lo) i E). lia.
Qed.

Lemma greedyChoice_app : forall (indices : list Z) (x : Z) (k : nat),
  S k < length indices ->
  greedyChoice rawMatrix n indices k ->
  greedyChoice rawMatrix n (indices ++ [x]) k.
Proof.
  intros indices x k Hk Hc. unfold greedyChoice in *.
  rewrite !app_nth1 by lia.
  rewrite firstn_app.
  replace (S k - length indices) with 0 by lia.
  cbn [firstn]. rewrite app_nil_r. exact Hc.
Qed.

Lemma greedyLoop_choice : forall (fuel : nat) (indices visited order : list Z),
  indices <> [] ->
  NoDup indices ->
  (forall z, In z indices -> (0 <= z < Z.of_nat n)%Z) ->
  (forall z, In z visited <-> In z indices) ->
  (forall k, S k < length indices -> greedyChoice rawMatrix n indices k) ->
  greedyLoop fuel rawMatrix n indices visited = Some (Ok order) ->
  forall k, S k < length order -> greedyChoice rawMatrix n order k.
Proof.
  induction fuel as [|fuel IH];
    intros indices visited order Hne Hnd Hrange Hvisited Hchoice E.
  - cbn [greedyLoop] in E. destruct (length indices <? n)%nat; [discriminate|].
    injection E as <-. exact Hchoice.
  - cbn [greedyLoop] in E.
    destruct (Nat.ltb_spec (length indices) n) as [Hlt|Hge].
    2:{ injection E as <-. exact Hchoice. }
    destruct (exists_last Hne) as [front [current Eind]].
    assert (Elast : last indices 0%Z = current)
      by (rewrite Eind; apply last_last).
    assert (Hcur : In current indices).
    { rewrite Eind. apply in_app_iff. right. now left. }
    pose proof (Hrange _ Hcur) as Hcr.
    rewrite Elast in E. unfold similarityRow in E.
    destruct (Z.ltb_spec current 0) as [|_]; [lia|].
    destruct (nth_error rawMatrix (Z.to_nat current)) as [row|] eqn:Er.
    2:{ apply nth_error_None in Er. lia. }
    destruct (bestNext_scan_best row visited)
      as [[found maxSim] [Escan [Hbest Hfound]]].
    rewrite Escan in E. cbn [fst snd] in Hbest, Hfound.
    set (bestNext := if (found =? -1)%Z then firstUnvisited visited n
                     else found) in *.
    assert (Hunv : forall i, ~ In (Z.of_nat i) indices ->
              setHas visited (Z.of_nat i) = false).
    { intros i Hi. apply not_true_is_false. intros Hv.
      apply Hi, Hvisited, setHas_In, Hv. }
    assert (Hcell : forall i, cell rawMatrix (Z.to_nat current) i
                              = nth i row nNaN).
    { intros i. unfold cell. now rewrite (nth_error_nth _ _ [] Er). }
    assert (Hnew : (0 <= bestNext < Z.of_nat n)%Z /\ ~ In bestNext indices
                   /\ greedyChoice rawMatrix n (indices ++ [bestNext])
                        (length front)).
    { assert (Hk : length indices = S (length front)).
      { rewrite Eind, length_app. cbn [length]. lia. }
      assert (Efirst : firstn (S (length front)) (indices ++ [bestNext])
                       = indices).
      { rewrite <- Hk, firstn_app, Nat.sub_diag. cbn [firstn].
        now rewrite firstn_all, app_nil_r. }
      assert (Ecur : nth (length front) (indices ++ [bestNext]) 0%Z = current).
      { rewrite app_nth1 by lia. rewrite Eind. apply nth_middle. }
      assert (Enext : nth (S (length front)) (indices ++ [bestNext]) 0%Z
                      = bestNext).
      { rewrite <- Hk. apply nth_middle. }
      unfold greedyChoice. rewrite Efirst, Ecur, Enext.
      unfold bestNext. destruct (Z.eqb_spec found (-1)) as [Hminus|Hne'].
      - destruct (firstUnvisited_found n indices visited Hnd Hlt Hvisited)
          as [Hr Hn].
        split; [assumption|]. split; [assumption|]. right.
        destruct Hfound as [[_ Emax]|(i0 & _ & _ & E1 & _)]; [|lia].
        subst maxSim. split.
        + intros i [Hi Hu]. rewrite Hcell.
          apply Hbest; [apply in_seq; lia|now apply Hunv].
        + intros i [Hi Hu]. unfold firstUnvisited in *.
          destruct (find (fun i => negb (setHas visited (Z.of_nat i)))
                      (seq 0 n)) as [i1|] eqn:Efind; [|lia].
          rewrite Nat2Z.id.
          destruct (Nat.le_gt_cases i1 i) as [|Hgt]; [assumption|].
          pose proof (find_seq_first _ _ _ _ Efind i ltac:(lia)) as Hf.
          cbn beta in Hf. rewrite (Hunv i Hu) in Hf. discriminate.
      - destruct Hfound as [[Hminus _]|(i0 & Hi0 & Hu0 & E1 & E2)];
          [contradiction|].
        apply in_seq in Hi0. subst found maxSim.
        split; [lia|]. split.
        + intros Hin. apply Hvisited, setHas_In in Hin. congruence.
        + left. intros i [Hi Hu]. rewrite Nat2Z.id, !Hcell.
          apply Hbest; [apply in_seq; lia|now apply Hunv]. }
    destruct Hnew as (Hbr & Hbn & Hc).
    apply (IH (indices ++ [bestNext]) (setAdd visited bestNext) order).
    + intros Happ. now apply app_eq_nil in Happ.
    + now apply NoDup_snoc_Z.
    + intros z Hz. apply in_app_iff in Hz.
      destruct Hz as [Hz|[<-|[]]]; [now apply Hrange|assumption].
    + intros z. rewrite setAdd_In, in_app_iff. cbn [In].
      rewrite Hvisited. intuition.
    + intros k Hk. rewrite length_app in Hk. cbn [length] in Hk.
      assert (Hlen : length indices = S (length front)).
      { rewrite Eind, length_app. cbn [length]. lia. }
      destruct (Nat.eq_dec k (length front)) as [->|Hne'];
        [exact Hc|].
      apply greedyChoice_app; [lia|]. apply Hchoice. lia.
    + exact E.
Qed.

End GreedyChoice.

(** X18.  In binary64 the ordering is greedy: every index of the ordering but
    the last is followed by an index not yet in the ordering such that no
    other such index is strictly more similar to it; or, when no index
    outside the ordering has a similarity above -1, by the smallest index
    outside the ordering. *)
Theorem analysis_greedy :
  forall (vectors : list (list float)) (d : nat),
  2 <= length vectors ->
  (forall v, In v vectors -> length v = d) ->
  exists rawMatrix indices sorted,
    computeKernelMatrix vectors = Ok rawMatrix
    /\ analysis (length vectors) vectors = Some (Ok (Some (indices, sorted)))
    /\ forall k, S k < length vectors ->
         greedyChoice rawMatrix (length vectors) indices k.
Proof.
  intros vectors d Hn Hd.
  destruct (computeKernelMatrix_inv vectors d Hd)
    as [rawMatrix [Eraw [[Hrows _] _]]].
  destruct (greedyLoop_total rawMatrix (length vectors) Hrows (length vectors)
              [0%Z] [0%Z]) as (indices & Eo & Hnd & Hall & _).
  - discriminate.
  - constructor; [intros []|constructor].
  - intros z [<-|[]]. lia.
  - tauto.
  - lia.
  - assert (Hrange : forall z, In z indices ->
              (0 <= z < Z.of_nat (length rawMatrix))%Z).
    { intros z Hz. rewrite Hrows. now apply Hall. }
    exists rawMatrix, indices,
      (map (fun i =>
              map (fun j => cell rawMatrix (Z.to_nat i) (Z.to_nat j)) indices)
         indices).
    split; [exact Eraw|]. split.
    + unfold analysis. destruct (Nat.ltb_spec (length vectors) 2); [lia|].
      rewrite Eraw, Eo, (sortedMatrix_rows rawMatrix indices Hrange).
      cbn [bind]. reflexivity.
    + intros k Hk.
      apply (@greedyLoop_choice float float_number float_ltb_trans
               float_ltb_irrefl rawMatrix (length vectors) Hrows
               (length vectors) [0%Z] [0%Z] indices); auto.
      * discriminate.
      * constructor; [intros []|constructor].
      * intros z [<-|[]]. lia.
      * tauto.
      * intros k' Hk'. cbn [length] in Hk'. lia.
      * assert (Hlen : length vectors <= length indices).
        { rewrite <- (length_seq (length vectors) 0),
            <- (length_map Z.of_nat).
          apply NoDup_incl_length.
          - apply NoDup_map_NoDup_ForallPairs; [|apply seq_NoDup].
            intros a b _ _ Hab. lia.
          - intros z Hz. apply in_map_iff in Hz. destruct Hz as [i [<- Hi]].
            apply in_seq in Hi. apply Hall. lia. }
        lia.
Qed.

(** ** The statistics of an array, in binary64 *)

Section StatisticsBinary64.

Local Open Scope float_scope.

Lemma SFleb_trans : forall x y z : spec_float,
  SFleb x y = true -> SFleb y z = true -> SFleb x z = true.
Proof.
  intros x y z. unfold SFleb, SFcompare.
  destruct x as [[|]|[|]| |[|] mx ex]; destruct y as [[|]|[|]| |[|] my ey];
    try discriminate; destruct z as [[|]|[|]| |[|] mz ez];
    try discriminate; try reflexivity;
    rewrite <- ?Pos.compare_cont_spec; cbn [Pos.switch_Eq];
    fold (Pos.compare mx my); fold (Pos.compare my mz); fold (Pos.compare mx mz);
    destruct (Z.compare_spec ex ey); destruct (Z.compare_spec ey ez);
    destruct (Z.compare_spec ex ez); try lia; try discriminate;
    try reflexivity; subst;
    destruct (Pos.compare_spec mx my); destruct (Pos.compare_spec my mz);
    destruct (Pos.compare_spec mx mz); try lia; try discriminate;
    try reflexivity.
Qed.

Lemma float_leb_transitive : forall x y z : float,
  (x <=? y) = true -> (y <=? z) = true -> (x <=? z) = true.
Proof.
  intros x y z. rewrite !FloatAxioms.leb_spec. apply SFleb_trans.
Qed.

Lemma float_leb_reflexive : forall x : float,
  PrimFloat.is_nan x = false -> (x <=? x) = true.
Proof.
  intros x Hx. pose proof (float_not_nan x Hx) as Hn.
  rewrite FloatAxioms.leb_spec, SFleb_ltb by assumption.
  rewrite <- FloatAxioms.ltb_spec. now rewrite float_ltb_irrefl.
Qed.

Lemma float_ltb_leb : forall x y : float,
  (x <? y) = true -> (x <=? y) = true.
Proof.
  intros x y. rewrite FloatAxioms.ltb_spec, FloatAxioms.leb_spec.
  unfold SFltb, SFleb. now destruct (SFcompare _ _) as [[| |]|].
Qed.

Lemma float_not_ltb_leb : forall x y : float,
  PrimFloat.is_nan x = false -> PrimFloat.is_nan y = false ->
  (x <? y) = false -> (y <=? x) = true.
Proof.
  intros x y Hx Hy Hlt.
  rewrite FloatAxioms.leb_spec, SFleb_ltb by now apply float_not_nan.
  rewrite <- FloatAxioms.ltb_spec. now rewrite Hlt.
Qed.

(** [Math.min] and [Math.max] of two numbers that are not NaN: one of the
    two, not NaN, and a bound of both. *)
Lemma float_min_spec : forall a b : float,
  PrimFloat.is_nan a = false -> PrimFloat.is_nan b = false ->
  (float_min a b = a \/ float_min a b = b)
  /\ (float_min a b <=? a) = true /\ (float_min a b <=? b) = true.
Proof.
  intros a b Ha Hb. unfold float_min. rewrite Ha, Hb. cbn [orb].
  destruct (a <? b) eqn:Eab.
  - split; [now left|]. split; [now apply float_leb_reflexive|].
    now apply float_ltb_leb.
  - destruct (b <? a) eqn:Eba.
    + split; [now right|]. split; [now apply float_ltb_leb|].
      now apply float_leb_reflexive.
    + destruct (PrimFloat.get_sign a).
      * split; [now left|]. split; [now apply float_leb_reflexive|].
        now apply float_not_ltb_leb.
      * split; [now right|]. split; [now apply float_not_ltb_leb|].
        now apply float_leb_reflexive.
Qed.

Lemma float_max_spec : forall a b : float,
  PrimFloat.is_nan a = false -> PrimFloat.is_nan b = false ->
  (float_max a b = a \/ float_max a b = b)
  /\ (a <=? float_max a b) = true /\ (b <=? float_max a b) = true.
Proof.
  intros a b Ha Hb. unfold float_max. rewrite Ha, Hb. cbn [orb].
  destruct (a <? b) eqn:Eab.
  - split; [now right|]. split; [now apply float_ltb_leb|].
    now apply float_leb_reflexive.
  - destruct (b <? a) eqn:Eba.
    + split; [now left|]. split; [now apply float_leb_reflexive|].
      now apply float_ltb_leb.
    + destruct (PrimFloat.get_sign a).
      * split; [now right|]. split; [now apply float_not_ltb_leb|].
        now apply float_leb_reflexive.
      * split; [now left|]. split; [now apply float_leb_reflexive|].
        now apply float_not_ltb_leb.
Qed.

Lemma float_above_infinity : forall v : float,
  (infinity <=? v) = true -> v = infinity.
Proof.
  intros v Hv. apply Prim2SF_inj. rewrite FloatAxioms.leb_spec in Hv.
  change (Prim2SF infinity) with (S754_infinity false) in *.
  now destruct (Prim2SF v) as [[|]|[|]| |[|] m e].
Qed.

Lemma float_below_neg_infinity : forall v : float,
  (v <=? neg_infinity) = true -> v = neg_infinity.
Proof.
  intros v Hv. apply Prim2SF_inj. rewrite FloatAxioms.leb_spec in Hv.
  change (Prim2SF neg_infinity) with (S754_infinity true) in *.
  now destruct (Prim2SF v) as [[|]|[|]| |[|] m e].
Qed.

Lemma SFeqb_refl : forall x : spec_float,
  x <> S754_nan -> SFeqb x x = true.
Proof.
  intros [[|]|[|]| |s m e] Hx; try reflexivity; [contradiction|].
  unfold SFeqb, SFcompare. rewrite Z.compare_refl.
  change (Pos.compare_cont Eq m m) with (Pos.compare m m).
  rewrite Pos.compare_refl. now destruct s.
Qed.

Lemma float_nan_leb : forall x y : float,
  (x <=? y) = true ->
  PrimFloat.is_nan x = false /\ PrimFloat.is_nan y = false.
Proof.
  intros x y Hle. unfold PrimFloat.is_nan.
  rewrite FloatAxioms.leb_spec in Hle. rewrite !FloatAxioms.eqb_spec.
  assert (Hx : Prim2SF x <> S754_nan).
  { intros E. rewrite E in Hle. discriminate. }
  assert (Hy : Prim2SF y <> S754_nan).
  { intros E. rewrite E in Hle. unfold SFleb, SFcompare in Hle.
    now destruct (Prim2SF x) as [[|]|[|]| |[|] mx ex]. }
  now rewrite !SFeqb_refl.
Qed.

(** The fold of [Math.min(...values)] over values that are not NaN. *)
Lemma mathMin_float : forall values : list float,
  (forall v, In v values -> PrimFloat.is_nan v = false) ->
  values <> [] ->
  In (mathMin values) values
  /\ forall v, In v values -> (mathMin values <=? v) = true.
Proof.
  intros values Hv Hne. unfold mathMin.
  assert (G : forall rest visited m,
            values = visited ++ rest ->
            PrimFloat.is_nan m = false ->
            (forall v, In v visited -> (m <=? v) = true) ->
            ((visited = [] /\ m = infinity) \/ In m visited) ->
            let r := fold_left nmin rest m in
            (forall v, In v values -> (r <=? v) = true)
            /\ ((values = [] /\ r = infinity) \/ In r values)).
  { induction rest as [|x rest IH]; intros visited m Hxs Hm Hlb Hin.
    - rewrite app_nil_r in Hxs. subst visited. simpl. auto.
    - cbn [fold_left].
      assert (Hx : PrimFloat.is_nan x = false).
      { apply Hv. rewrite Hxs. apply in_app_iff. right. now left. }
      destruct (float_min_spec m x Hm Hx) as (Hsel & Hle1 & Hle2).
      change (nmin m x) with (float_min m x).
      apply (IH (visited ++ [x])).
      + rewrite <- app_assoc. exact Hxs.
      + now destruct (float_nan_leb _ _ Hle1).
      + intros v Hin'. apply in_app_iff in Hin'.
        destruct Hin' as [Hin'|[<-|[]]]; [|assumption].
        apply (float_leb_transitive _ m); auto.
      + right. apply in_app_iff. destruct Hsel as [E|E]; rewrite E.
        * destruct Hin as [[_ ->]|Hin]; [|now left].
          right. left. rewrite E in Hle2.
          now apply float_above_infinity.
        * right. now left. }
  destruct (G values [] infinity eq_refl eq_refl) as [Hlb Hin].
  - intros v [].
  - left. auto.
  - split; [|exact Hlb]. destruct Hin as [[E _]|Hin]; [contradiction|exact Hin].
Qed.

Lemma mathMax_float : forall values : list float,
  (forall v, In v values -> PrimFloat.is_nan v = false) ->
  values <> [] ->
  In (mathMax values) values
  /\ forall v, In v values -> (v <=? mathMax values) = true.
Proof.
  intros values Hv Hne. unfold mathMax.
  assert (G : forall rest visited m,
            values = visited ++ rest ->
            PrimFloat.is_nan m = false ->
            (forall v, In v visited -> (v <=? m) = true) ->
            ((visited = [] /\ m = neg_infinity) \/ In m visited) ->
            let r := fold_left nmax rest m in
            (forall v, In v values -> (v <=? r) = true)
            /\ ((values = [] /\ r = neg_infinity) \/ In r values)).
  { induction rest as [|x rest IH]; intros visited m Hxs Hm Hub Hin.
    - rewrite app_nil_r in Hxs. subst visited. simpl. auto.
    - cbn [fold_left].
      assert (Hx : PrimFloat.is_nan x = false).
      { apply Hv. rewrite Hxs. apply in_app_iff. right. now left. }
      destruct (float_max_spec m x Hm Hx) as (Hsel & Hle1 & Hle2).
      change (nmax m x) with (float_max m x).
      apply (IH (visited ++ [x])).
      + rewrite <- app_assoc. exact Hxs.
      + now destruct (float_nan_leb _ _ Hle1).
      + intros v Hin'. apply in_app_iff in Hin'.
        destruct Hin' as [Hin'|[<-|[]]]; [|assumption].
        apply (float_leb_transitive _ m); auto.
      + right. apply in_app_iff. destruct Hsel as [E|E]; rewrite E.
        * destruct Hin as [[_ ->]|Hin]; [|now left].
          right. left. rewrite E in Hle2.
          now apply float_below_neg_infinity.
        * right. now left. }
  destruct (G values [] neg_infinity eq_refl eq_refl) as [Hub Hin].
  - intros v [].
  - left. auto.
  - split; [|exact Hub]. destruct Hin as [[E _]|Hin]; [contradiction|exact Hin].
Qed.

(** The sum of the squared deviations is never negative, when [Math.pow]
    of an exponent 2 never is. *)
Lemma squares_clear : forall (mathPow : float -> float -> float)
  (values : list float) (mean sum : float),
  (forall x, SFclear (Prim2SF (mathPow x nTwo)) = true) ->
  SFclear (Prim2SF sum) = true ->
  SFclear (Prim2SF (fold_left (fun a b => nadd a (mathPow (nsub b mean) nTwo))
                      values sum)) = true.
Proof.
  intros mathPow values mean. induction values as [|v values IH];
    intros sum Hpow Hs; [exact Hs|].
  cbn [fold_left]. apply IH; [assumption|].
  apply float_add_clear; [assumption|apply Hpow].
Qed.

End StatisticsBinary64.

(** X19.  [calculateStats] of no values is all zeros.  In binary64, for a
    non-empty array without NaN, [min] and [max] are elements of the array
    and bound every element.  For every non-empty array the variance is
    never negative (it is NaN or [>= 0]) when [Math.pow(x, 2)] never is. *)
Theorem calculateStats_bounds :
  (forall (num : Type) (N : JsNumber num) (M : JsMath num)
          (mathPow : num -> num -> num),
     calculateStats mathPow [] = mkStats n0 n0 n0 n0)
  /\ (forall (mathPow : float -> float -> float) (values : list float),
        values <> [] ->
        (forall v, In v values -> PrimFloat.is_nan v = false) ->
        In (min (calculateStats mathPow values)) values
        /\ In (max (calculateStats mathPow values)) values
        /\ forall v, In v values ->
             PrimFloat.leb (min (calculateStats mathPow values)) v = true
             /\ PrimFloat.leb v (max (calculateStats mathPow values)) = true)
  /\ (forall (mathPow : float -> float -> float) (values : list float),
        values <> [] ->
        (forall x, SFclear (Prim2SF (mathPow x nTwo)) = true) ->
        (PrimFloat.is_nan (variance (calculateStats mathPow values)) = true
         \/ PrimFloat.leb PrimFloat.zero
              (variance (calculateStats mathPow values)) = true)
        /\ PrimFloat.ltb (variance (calculateStats mathPow values))
             PrimFloat.zero = false).
Proof.
  split; [reflexivity|]. split.
  - intros mathPow values Hne Hv. unfold calculateStats.
    destruct (Nat.eqb_spec (length values) 0) as [E0|_].
    { destruct values; [contradiction|discriminate]. }
    cbn [min max].
    destruct (mathMin_float values Hv Hne) as [Hmin Hlb].
    destruct (mathMax_float values Hv Hne) as [Hmax Hub].
    split; [exact Hmin|]. split; [exact Hmax|].
    intros v Hin. split; [now apply Hlb|now apply Hub].
  - intros mathPow values Hne Hpow. unfold calculateStats.
    destruct (Nat.eqb_spec (length values) 0) as [E0|_].
    { destruct values; [contradiction|discriminate]. }
    cbn [variance]. apply float_clear_order.
    apply float_div_clear; [|apply float_ofNat_clear].
    now apply squares_clear.
Qed.

(** ** The Davies-Bouldin and Calinski-Harabasz indices in binary64 *)

(** What holds at the start of a loop and is kept by every step that
    returns, holds when the loop returns. *)
Lemma forEach_Ok_inv : forall (S X : Type) (P : S -> Prop)
  (body : S -> X -> result S) (xs : list X) (s0 s' : S),
  forEach xs body s0 = Ok s' ->
  P s0 ->
  (forall x s s1, In x xs -> P s -> body s x = Ok s1 -> P s1) ->
  P s'.
Proof.
  intros S X P body xs. induction xs as [|x xs IH]; intros s0 s' E H0 Hstep.
  - simpl in E. injection E as <-. exact H0.
  - simpl in E. destruct (body s0 x) as [s1|msg] eqn:E1; [|discriminate].
    simpl in E. apply (IH s1 s' E).
    + apply (Hstep x s0 s1); auto. now left.
    + intros y s s2 Hy. apply Hstep. now right.
Qed.

Section IndexSign.

Lemma SFmul_clear : forall x y : spec_float,
  SFclear x = true -> SFclear y = true -> SFclear (SF64mul x y) = true.
Proof.
  intros [[|]|[|]| |[|] mx ex] [[|]|[|]| |[|] my ey] Hx Hy;
    try discriminate; try reflexivity.
  unfold SF64mul, SFmul. cbn [xorb]. apply binary_round_aux_clear.
Qed.

Lemma float_mul_clear : forall x y : float,
  SFclear (Prim2SF x) = true -> SFclear (Prim2SF y) = true ->
  SFclear (Prim2SF (PrimFloat.mul x y)) = true.
Proof. intros x y. rewrite FloatAxioms.mul_spec. apply SFmul_clear. Qed.

Lemma distanceU_clear : forall (a b : option (list float)) (dist : float),
  euclideanDistanceU a b = Ok dist -> SFclear (Prim2SF dist) = true.
Proof.
  intros [[|x a]|] [b|] dist E; simpl in E; try discriminate;
    injection E as <-; try reflexivity;
    apply (euclideanDistance_clear (x :: a) b).
Qed.

(** An array length below 2^53, as a number. *)
Lemma float_ofNat_int : forall n : nat,
  1 <= n -> (Z.of_nat n < 2 ^ 53)%Z ->
  SFnonneg (Prim2SF (float_ofNat n)) = true
  /\ SFint (Prim2SF (float_ofNat n)) = (Z.of_nat n * 2 ^ 1074)%Z.
Proof.
  intros n Hn Hlt. rewrite (float_ofNat_canon n Hn Hlt). unfold canonInt.
  pose proof (pos_digits_53 n Hn Hlt) as Hd.
  destruct (shl_align (Pos.of_nat n) 0 _) as [m e] eqn:E.
  destruct (shl_align_canonical _ m e Hd E) as (_ & He & Hm).
  split; [reflexivity|]. cbn [SFint]. rewrite Hm.
  replace (Z.pos (Pos.of_nat n)) with (Z.of_nat n) by lia.
  rewrite <- Z.mul_assoc, <- Z.pow_add_r by lia. f_equal. f_equal. lia.
Qed.

Lemma float_sub_ofNat_clear : forall a b : nat,
  1 <= a -> a <= b -> (Z.of_nat b < 2 ^ 53)%Z ->
  SFclear (Prim2SF (PrimFloat.sub (float_ofNat b) (float_ofNat a))) = true.
Proof.
  intros a b Ha Hab Hb.
  destruct (float_ofNat_int a Ha ltac:(lia)) as [Na Ia].
  destruct (float_ofNat_int b ltac:(lia) Hb) as [Nb Ib].
  apply float_nonneg_clear.
  apply (float_sub_int (float_ofNat a) (float_ofNat b)); auto.
  apply float_leb_int; auto. rewrite Ia, Ib.
  apply Z.mul_le_mono_nonneg_r; [apply Z.pow_nonneg|]; lia.
Qed.

Variable vectors : list (list float).
Variable labels : list Z.
Variable uniqueClusters : list Z.
Variable centroids : list (Z * list float).

Lemma sumOverCluster_clear : forall (f : float -> float) (start : float) (k : Z),
  (forall d, SFclear (Prim2SF d) = true -> SFclear (Prim2SF (f d)) = true) ->
  SFclear (Prim2SF start) = true ->
  SFclear (Prim2SF (sumOverCluster vectors labels centroids f start k)) = true.
Proof.
  intros f start k Hf Hs. unfold sumOverCluster.
  apply (fold_left_preserve _ _ (fun s => SFclear (Prim2SF s) = true));
    [exact Hs|].
  intros idx s _ Hs'. apply float_add_clear; [exact Hs'|].
  apply Hf. apply euclideanDistance_clear.
Qed.

Lemma daviesBouldin_clear : forall index : float,
  calculateDaviesBouldinIndex vectors labels uniqueClusters centroids
  = Ok index ->
  SFclear (Prim2SF index) = true.
Proof.
  intros index. unfold calculateDaviesBouldinIndex.
  destruct (length uniqueClusters <? 2); [intros E; now injection E as <-|].
  set (scatters := fold_left _ uniqueClusters []).
  assert (Hsc : forall k x, mapGet Z.eqb scatters k = Some x ->
                  SFclear (Prim2SF x) = true).
  { unfold scatters.
    apply (fold_left_preserve _ _
             (fun sc : list (Z * float) =>
                forall k x, mapGet Z.eqb sc k = Some x ->
                SFclear (Prim2SF x) = true)).
    - intros k x E. discriminate.
    - intros k0 sc _ Hsc k x. rewrite mapGet_mapSet.
      destruct (k0 =? k)%Z; [|apply Hsc].
      intros E. injection E as <-.
      apply float_div_clear; [|apply float_ofNat_clear].
      apply sumOverCluster_clear; auto. }
  assert (Hget : forall k,
            SFclear (Prim2SF (match mapGet Z.eqb scatters k with
                              | Some x => x
                              | None => nNaN
                              end)) = true).
  { intros k. destruct (mapGet Z.eqb scatters k) as [x|] eqn:E;
      [now apply (Hsc k)|reflexivity]. }
  destruct (forEach uniqueClusters _ n0) as [sumMaxR|msg] eqn:Esum;
    [|discriminate].
  cbn [bind]. intros E. injection E as <-.
  apply float_div_clear; [|apply float_ofNat_clear].
  apply (forEach_Ok_inv _ _ (fun s : float => SFclear (Prim2SF s) = true)
           _ _ _ _ Esum); [reflexivity|].
  intros i s s1 _ Hs Estep.
  destruct (forEach uniqueClusters (daviesBouldinPair centroids scatters i)
              (nneg nInfinity)) as [maxR|msg] eqn:Emax; [|discriminate].
  cbn [bind] in Estep. injection Estep as <-.
  assert (HmaxR : maxR = nneg nInfinity \/ SFclear (Prim2SF maxR) = true).
  { apply (forEach_Ok_inv _ _
             (fun m : float => m = nneg nInfinity
                               \/ SFclear (Prim2SF m) = true)
             _ _ _ _ Emax); [now left|].
    intros j m m1 _ Hm Epair. unfold daviesBouldinPair in Epair.
    destruct (i =? j)%Z; [now injection Epair as <-|].
    destruct (euclideanDistanceU _ _) as [dist|msg] eqn:Ed; [|discriminate].
    cbn [bind] in Epair. apply distanceU_clear in Ed.
    destruct (neq dist n0); [now injection Epair as <-|].
    injection Epair as <-.
    match goal with
    | |- context [if ?c then _ else _] => destruct c
    end; [|exact Hm]. right.
    apply float_div_clear; [|exact Ed].
    apply float_add_clear; apply Hget. }
  match goal with
  | |- context [if ?c then _ else _] => destruct c eqn:Eneq
  end; [exact Hs|].
  destruct HmaxR as [->|Hc]; [vm_compute in Eneq; discriminate|].
  now apply float_add_clear.
Qed.

Hypothesis vectors_few : (Z.of_nat (length vectors) < 2 ^ 53)%Z.

Lemma calinskiHarabasz_clear : forall index : float,
  calculateCalinskiHarabaszIndex vectors labels uniqueClusters centroids
  = Ok index ->
  SFclear (Prim2SF index) = true.
Proof.
  intros index. unfold calculateCalinskiHarabaszIndex.
  set (N := length (filter _ (seq 0 (length vectors)))).
  set (K := length uniqueClusters).
  assert (HN : N <= length vectors).
  { unfold N. eapply Nat.le_trans; [apply filter_length_le|].
    now rewrite length_seq. }
  destruct (Nat.ltb_spec K 2) as [|HK];
    [intros E; now injection E as <-|].
  destruct (Nat.leb_spec N K) as [|HNK];
    [intros E; now injection E as <-|].
  cbn [orb]. set (globalCentroid := divideVector _ _).
  destruct (forEach uniqueClusters _ n0) as [SS_B|msg] eqn:EB; [|discriminate].
  cbn [bind].
  assert (HB : SFclear (Prim2SF SS_B) = true).
  { apply (forEach_Ok_inv _ _ (fun s : float => SFclear (Prim2SF s) = true)
             _ _ _ _ EB); [reflexivity|].
    intros k s s1 _ Hs Estep. cbv zeta in Estep.
    destruct (euclideanDistanceU _ _) as [dist|msg] eqn:Ed; [|discriminate].
    cbn [bind] in Estep. injection Estep as <-. apply distanceU_clear in Ed.
    apply float_add_clear; [exact Hs|].
    apply float_mul_clear; [apply float_ofNat_clear|].
    now apply float_mul_clear. }
  set (SS_W := fold_left _ uniqueClusters n0).
  assert (HW : SFclear (Prim2SF SS_W) = true).
  { unfold SS_W.
    apply (fold_left_preserve _ _ (fun s : float => SFclear (Prim2SF s) = true));
      [reflexivity|].
    intros k s _ Hs. apply sumOverCluster_clear; [|exact Hs].
    intros d Hd. now apply float_mul_clear. }
  destruct (neq SS_W n0); intros E; injection E as <-; [reflexivity|].
  apply float_div_clear; apply float_div_clear; try assumption.
  - replace PrimFloat.one with (float_ofNat 1) by (vm_compute; reflexivity).
    apply float_sub_ofNat_clear; lia.
  - apply float_sub_ofNat_clear; lia.
Qed.

End IndexSign.

(** X21.  In binary64, for fewer than 2^53 vectors and at most as many
    labels as vectors, the Davies-Bouldin and the Calinski-Harabasz index
    that [calculateClusteringMetrics] returns are never negative: each is NaN
    or a number [>= 0]. *)
Theorem calculateClusteringMetrics_never_negative :
  forall (vectors : list (list float)) (labels : list Z),
  length labels <= length vectors ->
  (Z.of_nat (length vectors) < 2 ^ 53)%Z ->
  exists metrics : ClusteringMetrics (num := float),
    calculateClusteringMetrics vectors labels = Ok metrics
    /\ (PrimFloat.is_nan (daviesBouldinIndex metrics) = true
        \/ PrimFloat.leb PrimFloat.zero (daviesBouldinIndex metrics) = true)
    /\ PrimFloat.ltb (daviesBouldinIndex metrics) PrimFloat.zero = false
    /\ (PrimFloat.is_nan (calinskiHarabaszIndex metrics) = true
        \/ PrimFloat.leb PrimFloat.zero (calinskiHarabaszIndex metrics) = true)
    /\ PrimFloat.ltb (calinskiHarabaszIndex metrics) PrimFloat.zero = false.
Proof.
  intros vectors labels Hfit Hfew. unfold calculateClusteringMetrics.
  set (uniqueClusters :=
         filter (fun l => negb (l =? -1)%Z) (uniqueZ [] labels)).
  assert (Hsub : forall k, In k uniqueClusters -> In k labels).
  { intros k Hk. apply filter_In in Hk. apply (uniqueZ_In labels [] k), Hk. }
  pose proof (centroids_defined vectors labels Hfit uniqueClusters Hsub)
    as Hc.
  destruct (calculateDaviesBouldinIndex_total vectors labels uniqueClusters
              _ Hc) as [db Edb].
  destruct (calculateCalinskiHarabaszIndex_total vectors labels
              uniqueClusters _ Hc) as [ch Ech].
  rewrite Edb. cbn [bind]. rewrite Ech. cbn [bind].
  eexists. split; [reflexivity|]. cbn [daviesBouldinIndex calinskiHarabaszIndex].
  pose proof (daviesBouldin_clear vectors labels uniqueClusters _ db Edb) as Hdb.
  pose proof (calinskiHarabasz_clear vectors labels uniqueClusters _ Hfew
                ch Ech) as Hch.
  destruct (float_clear_order db Hdb) as [H1 H2].
  destruct (float_clear_order ch Hch) as [H3 H4].
  auto.
Qed.

(** ** The U-Matrix in binary64 *)

Section UMatrixBinary64.

Lemma float_leb_refl : forall x : float,
  SFnonneg (Prim2SF x) = true -> PrimFloat.leb x x = true.
Proof. intros x Hx. apply float_leb_int; auto. lia. Qed.

Lemma float_leb_trans : forall x y z : float,
  SFnonneg (Prim2SF x) = true -> SFnonneg (Prim2SF y) = true ->
  SFnonneg (Prim2SF z) = true ->
  PrimFloat.leb x y = true -> PrimFloat.leb y z = true ->
  PrimFloat.leb x z = true.
Proof.
  intros x y z Hx Hy Hz Hxy Hyz.
  apply float_leb_int in Hxy; auto. apply float_leb_int in Hyz; auto.
  apply float_leb_int; auto. lia.
Qed.

Lemma float_ltb_cases : forall x y : float,
  SFnonneg (Prim2SF x) = true -> SFnonneg (Prim2SF y) = true ->
  (PrimFloat.ltb x y = true /\ PrimFloat.leb x y = true)
  \/ (PrimFloat.ltb x y = false /\ PrimFloat.leb y x = true).
Proof.
  intros x y Hx Hy.
  destruct (Z_lt_le_dec (SFint (Prim2SF x)) (SFint (Prim2SF y))) as [Hlt|Hge].
  - left. split; [now apply float_ltb_int|apply float_leb_int; auto; lia].
  - right. split; [|now apply float_leb_int].
    destruct (PrimFloat.ltb x y) eqn:E; [|reflexivity].
    apply float_ltb_int in E; auto. lia.
Qed.

Lemma float_below_infinity : forall x : float,
  SFnonneg (Prim2SF x) = true -> PrimFloat.ltb x PrimFloat.infinity = true.
Proof.
  intros x Hx. rewrite FloatAxioms.ltb_spec.
  change (Prim2SF PrimFloat.infinity) with (S754_infinity false).
  now destruct (Prim2SF x) as [[|]|[|]| |[|] m e].
Qed.

Lemma fold_add_clear : forall (values : list float) (sum : float),
  Forall (fun v => SFclear (Prim2SF v) = true) values ->
  SFclear (Prim2SF sum) = true ->
  SFclear (Prim2SF (fold_left nadd values sum)) = true.
Proof.
  induction values as [|v values IH]; intros sum Hv Hs; [exact Hs|].
  inversion Hv as [|? ? Hv0 Hv']; subst. cbn [fold_left]. apply IH; auto.
  now apply float_add_clear.
Qed.

(** The raw value of a cell is never negative. *)
Lemma meanNeighborDistance_clear : forall (som : SOM (num := float)) (x y : nat),
  SFclear (Prim2SF (meanNeighborDistance som x y)) = true.
Proof.
  intros som x y. unfold meanNeighborDistance.
  set (distances := map _ (existingNeighbors som x y)).
  assert (Hd : Forall (fun v => SFclear (Prim2SF v) = true) distances).
  { apply Forall_forall. intros v Hv. apply in_map_iff in Hv.
    destruct Hv as [q [<- _]]. apply euclideanDistance_clear. }
  destruct distances as [|d0 distances']; [reflexivity|].
  apply float_div_clear; [|apply float_ofNat_clear].
  now apply fold_add_clear.
Qed.

Variable som : SOM (num := float).
Variable raw : list (list float).

Hypothesis raw_nonneg : forall c, In c (gridCells som) ->
  SFnonneg (Prim2SF (cell raw (fst c) (snd c))) = true.

Lemma maxMin_scan_float : floatScanInv raw (gridCells som) (maxMin som raw).
Proof.
  unfold maxMin. apply (fold_left_prefix_inv _ _ (floatScanInv raw)).
  - split; [reflexivity|]. split; [reflexivity|]. split; [intros c []|].
    split; [congruence|]. left. auto.
  - intros visited c rest [mx mn] Hxs (Nmx & H0 & Hub & Hmax & Hmin).
    cbn [fst snd] in *.
    assert (Hin : forall c', In c' visited -> In c' (gridCells som)).
    { intros c' Hc'. rewrite Hxs. apply in_app_iff. now left. }
    assert (Hc : In c (gridCells som)).
    { rewrite Hxs. apply in_app_iff. right. now left. }
    pose proof (raw_nonneg c Hc) as Nu.
    set (u := cell raw (fst c) (snd c)) in *.
    assert (Hnew : forall P : nat * nat -> Prop,
              (forall c', In c' visited -> P c') -> P c ->
              forall c', In c' (visited ++ [c]) -> P c').
    { intros P Hold Hc0 c' Hc'. apply in_app_iff in Hc'.
      destruct Hc' as [Hc'|[<-|[]]]; auto. }
    assert (Hlast : In c (visited ++ [c])).
    { apply in_app_iff. right. now left. }
    assert (Hmono : forall c', In c' visited -> In c' (visited ++ [c])).
    { intros c' Hc'. apply in_app_iff. now left. }
    assert (Hne : visited ++ [c] = [] -> False).
    { intros E. now apply app_eq_nil in E. }
    simpl nlt.
    split; [|split; [|split; [|split]]].
    + now destruct (PrimFloat.ltb mx u).
    + intros E. now apply Hne in E.
    + destruct (float_ltb_cases mx u Nmx Nu) as [[-> Hle]|[-> Hle]].
      * apply Hnew; [|now apply float_leb_refl].
        intros c' Hc'. apply (float_leb_trans _ mx); auto.
      * apply Hnew; assumption.
    + intros _. destruct (float_ltb_cases mx u Nmx Nu) as [[-> Hle]|[-> Hle]].
      * exists c. auto.
      * destruct visited as [|c0 visited'].
        -- exists c. split; [assumption|]. fold u.
           rewrite (H0 eq_refl) in *.
           apply float_leb_int in Hle; auto.
           pose proof (float_nonneg_int u Nu).
           change (SFint (Prim2SF PrimFloat.zero)) with 0%Z in Hle.
           apply float_zero_int; [assumption|lia].
        -- destruct Hmax as [c' [Hc' Ec']]; [discriminate|].
           exists c'. auto.
    + right. destruct Hmin as [[Hnil ->]|(Nmn & Hlb & c' & Hc' & Ec')].
      * subst visited. rewrite (float_below_infinity u Nu).
        split; [assumption|]. split.
        -- intros c' [<-|[]]. now apply float_leb_refl.
        -- exists c. split; [now left|reflexivity].
      * destruct (float_ltb_cases u mn Nu Nmn) as [[-> Hle]|[-> Hle]].
        -- split; [assumption|]. split.
           ++ apply Hnew; [|now apply float_leb_refl].
              intros c'' Hc''. apply (float_leb_trans _ mn); auto.
           ++ exists c. auto.
        -- split; [assumption|]. split.
           ++ apply Hnew; assumption.
           ++ exists c'. auto.
Qed.

End UMatrixBinary64.

(** In binary64, on a grid of prototypes whose raw values (the mean
    distances to the neighbors) are all finite: the raw values are not
    negative, [min] and [max] are the least and the greatest of them, and
    every returned value lies in [[0, 1]] and is 0 when [max == min]. *)
Lemma getUMatrix_float : forall som : SOM (num := float),
  gridShape som ->
  (forall x y, x < width som -> y < height som ->
     PrimFloat.is_finite (meanNeighborDistance som x y) = true) ->
  exists (raw : list (list float)) (max min : float)
         (uMatrix : list (list float)),
    rawUMatrix som = Ok raw
    /\ maxMin som raw = (max, min)
    /\ getUMatrix som = Ok uMatrix
    /\ rect (width som) (height som) uMatrix
    /\ (forall x y, x < width som -> y < height som ->
          cell raw x y = meanNeighborDistance som x y
          /\ PrimFloat.leb PrimFloat.zero (cell raw x y) = true
          /\ PrimFloat.leb min (cell raw x y) = true
          /\ PrimFloat.leb (cell raw x y) max = true
          /\ cell uMatrix x y
             = PrimFloat.div (PrimFloat.sub (cell raw x y) min)
                 (orOne (PrimFloat.sub max min))
          /\ PrimFloat.leb PrimFloat.zero (cell uMatrix x y) = true
          /\ PrimFloat.leb (cell uMatrix x y) PrimFloat.one = true
          /\ (PrimFloat.eqb max min = true ->
              cell uMatrix x y = PrimFloat.zero))
    /\ (0 < width som -> 0 < height som ->
        exists a b c d,
          a < width som /\ b < height som
          /\ c < width som /\ d < height som
          /\ cell raw a b = max /\ cell raw c d = min).
Proof.
  intros som Hshape Hfin.
  destruct (getUMatrix_cells float float_number som Hshape)
    as (raw & mx & mn & uMatrix & Eraw & Emm & Eu & Hrect & Hcells).
  assert (Hnn : forall c, In c (gridCells som) ->
                  SFnonneg (Prim2SF (cell raw (fst c) (snd c))) = true).
  { intros [a b] Hc. apply gridCells_In in Hc. destruct Hc as [Ha Hb].
    cbn [fst snd]. rewrite (proj1 (Hcells a b Ha Hb)).
    apply float_clear_finite; [apply meanNeighborDistance_clear|].
    now apply Hfin. }
  pose proof (maxMin_scan_float som raw Hnn) as Hscan.
  rewrite Emm in Hscan.
  destruct Hscan as (Nmx & _ & Hub & Hmax & Hmin). cbn [fst snd] in *.
  assert (Hleast : forall x y, x < width som -> y < height som ->
            SFnonneg (Prim2SF mn) = true
            /\ (forall c, In c (gridCells som) ->
                  PrimFloat.leb mn (cell raw (fst c) (snd c)) = true)
            /\ exists c, In c (gridCells som)
                         /\ cell raw (fst c) (snd c) = mn).
  { intros x y Hx Hy. destruct Hmin as [[Hnil _]|Hm]; [|exact Hm].
    assert (Hc : In (x, y) (gridCells som)) by now apply gridCells_In.
    rewrite Hnil in Hc. destruct Hc. }
  exists raw, mx, mn, uMatrix.
  split; [assumption|]. split; [assumption|]. split; [assumption|].
  split; [assumption|]. split.
  - intros x y Hx Hy.
    assert (Hc : In (x, y) (gridCells som)) by now apply gridCells_In.
    destruct (Hleast x y Hx Hy) as (Nmn & Hlb & _).
    destruct (Hcells x y Hx Hy) as [Er Ecell].
    pose proof (Hnn (x, y) Hc) as Nr. pose proof (Hub (x, y) Hc) as Hrmx.
    pose proof (Hlb (x, y) Hc) as Hmnr. cbn [fst snd] in Nr, Hrmx, Hmnr.
    set (r := cell raw x y) in *.
    destruct (float_sub_mono mn r mx Nmn Nr Nmx Hmnr Hrmx) as (Nu & Nv & Huv).
    set (u := PrimFloat.sub r mn) in *. set (v := PrimFloat.sub mx mn) in *.
    pose proof (float_nonneg_int u Nu) as Iu.
    pose proof (float_nonneg_int v Nv) as Iv.
    pose proof (proj1 (float_leb_int u v Nu Nv) Huv) as Iuv.
    assert (Hvv : PrimFloat.eqb v v = true) by (apply float_eqb_int; auto).
    assert (Hzero : PrimFloat.eqb v PrimFloat.zero = true ->
                    cell uMatrix x y = PrimFloat.zero).
    { intros Ez. rewrite Ecell. simpl nsub. simpl ndiv. fold r u v.
      unfold orOne. simpl neq. rewrite Ez. cbn [orb].
      apply float_eqb_int in Ez; auto.
      change (SFint (Prim2SF PrimFloat.zero)) with 0%Z in Ez.
      rewrite (float_zero_int u Nu) by lia. reflexivity. }
    split; [exact Er|].
    split; [apply float_leb_int; auto; exact (float_nonneg_int r Nr)|].
    split; [assumption|]. split; [assumption|].
    split; [exact Ecell|].
    destruct (PrimFloat.eqb v PrimFloat.zero) eqn:Ez.
    + rewrite (Hzero eq_refl). split; [reflexivity|].
      split; [reflexivity|]. reflexivity.
    + assert (Hpos : PrimFloat.ltb PrimFloat.zero v = true).
      { apply float_ltb_int; auto.
        change (SFint (Prim2SF PrimFloat.zero)) with 0%Z.
        destruct (Z.eq_dec (SFint (Prim2SF v)) 0) as [E0|]; [|lia].
        rewrite (float_zero_int v Nv E0) in Ez. discriminate. }
      destruct (float_div_unit u v Nu Nv Hpos Huv) as [Nq Hq].
      assert (Ecell' : cell uMatrix x y = PrimFloat.div u v).
      { rewrite Ecell. simpl nsub. simpl ndiv. fold r u v.
        unfold orOne. simpl neq. now rewrite Ez, Hvv. }
      rewrite Ecell'.
      split; [apply float_leb_int; auto;
              exact (float_nonneg_int _ Nq)|].
      split; [assumption|].
      intros Emm'. exfalso.
      apply float_eqb_int in Emm'; auto.
      destruct (float_sub_int mn mx Nmn Nmx) as [_ Ev].
      { apply float_leb_int; auto. lia. }
      fold v in Ev. rewrite Emm', Z.sub_diag in Ev.
      rewrite (float_zero_int v Nv Ev) in Ez. discriminate.
  - intros Hw Hh.
    destruct (Hleast 0 0 Hw Hh) as (_ & _ & [c d] & Hc' & Ec').
    destruct Hmax as [[a b] [Hc Ec]].
    { intros Hnil. assert (Hin : In (0, 0) (gridCells som))
        by now apply gridCells_In. rewrite Hnil in Hin. destruct Hin. }
    apply gridCells_In in Hc, Hc'. cbn [fst snd] in Ec, Ec'.
    exists a, b, c, d. tauto.
Qed.

(** C8 (as amended).  On a grid of [width] x [height] prototypes
    [getUMatrix] returns a [width] x [height] matrix; the raw value of a cell
    is the mean Euclidean distance from its prototype to those of its existing
    up, down, left and right neighbors, and the returned value is
    [(raw - min) / (max - min || 1)].  In binary64, when every raw value is
    finite, the raw values are not negative, [min] and [max] are the least
    and the greatest raw value, every returned value lies in [[0, 1]], and
    every returned value is 0 when [max == min]. *)
Theorem getUMatrix_unit_interval :
  (forall (num : Type) (N : JsNumber num) (som : SOM (num := num)),
     gridShape som ->
     exists (raw : list (list num)) (max min : num)
            (uMatrix : list (list num)),
       rawUMatrix som = Ok raw
       /\ maxMin som raw = (max, min)
       /\ getUMatrix som = Ok uMatrix
       /\ rect (width som) (height som) uMatrix
       /\ forall x y, x < width som -> y < height som ->
            cell raw x y = meanNeighborDistance som x y
            /\ cell uMatrix x y
               = ndiv (nsub (cell raw x y) min) (orOne (nsub max min)))
  /\ (forall som : SOM (num := float),
        gridShape som ->
        (forall x y, x < width som -> y < height som ->
           PrimFloat.is_finite (meanNeighborDistance som x y) = true) ->
        exists (raw : list (list float)) (max min : float)
               (uMatrix : list (list float)),
          rawUMatrix som = Ok raw
          /\ maxMin som raw = (max, min)
          /\ getUMatrix som = Ok uMatrix
          /\ rect (width som) (height som) uMatrix
          /\ (forall x y, x < width som -> y < height som ->
                cell raw x y = meanNeighborDistance som x y
                /\ PrimFloat.leb PrimFloat.zero (cell raw x y) = true
                /\ PrimFloat.leb min (cell raw x y) = true
                /\ PrimFloat.leb (cell raw x y) max = true
                /\ cell uMatrix x y
                   = PrimFloat.div (PrimFloat.sub (cell raw x y) min)
                       (orOne (PrimFloat.sub max min))
                /\ PrimFloat.leb PrimFloat.zero (cell uMatrix x y) = true
                /\ PrimFloat.leb (cell uMatrix x y) PrimFloat.one = true
                /\ (PrimFloat.eqb max min = true ->
                    cell uMatrix x y = PrimFloat.zero))
          /\ (0 < width som -> 0 < height som ->
              exists a b c d,
                a < width som /\ b < height som
                /\ c < width som /\ d < height som
                /\ cell raw a b = max /\ cell raw c d = min)).
Proof.
  split.
  - apply getUMatrix_cells.
  - apply getUMatrix_float.
Qed.

(** * Instances of the further properties *)

Section FurtherEvaluations.

Import Examples.

Lemma scenario_uniform : forall v, In v scenario -> length v = 2%nat.
Proof. intros v [<-|[<-|[<-|[<-|[]]]]]; reflexivity. Qed.

Lemma lineSOM_full : fullGrid 1 3 1 (weights lineSOM).
Proof.
  split; [reflexivity|].
  intros [|x] column Hx; simpl in Hx; [|destruct x; discriminate].
  injection Hx as <-. split; [reflexivity|].
  intros v [<-|[<-|[<-|[]]]]; reflexivity.
Qed.

Lemma lineSOM_shape : gridShape lineSOM.
Proof.
  split; [reflexivity|].
  intros [|x] column Hx; simpl in Hx; [|destruct x; discriminate].
  now injection Hx as <-.
Qed.

Lemma getUMatrix_unit_interval_witness :
  getUMatrix lineSOM = Ok [[0; 0.5; 1]]%float
  /\ exists (raw : list (list float)) (max min : float)
            (uMatrix : list (list float)),
       rawUMatrix lineSOM = Ok raw
       /\ maxMin lineSOM raw = (max, min)
       /\ getUMatrix lineSOM = Ok uMatrix
       /\ PrimFloat.leb min (cell raw 0 1) = true
       /\ PrimFloat.leb (cell raw 0 1) max = true
       /\ PrimFloat.leb PrimFloat.zero (cell uMatrix 0 1) = true
       /\ PrimFloat.leb (cell uMatrix 0 1) PrimFloat.one = true.
Proof.
  split; [vm_compute; reflexivity|].
  destruct (proj2 getUMatrix_unit_interval lineSOM lineSOM_shape)
    as (raw & mx & mn & uMatrix & Eraw & Emm & Eu & _ & Hcells & _).
  - intros [|x] y Hx Hy; [|simpl in Hx; lia].
    destruct y as [|[|[|y]]]; try (simpl in Hy; lia);
      vm_compute; reflexivity.
  - exists raw, mx, mn, uMatrix.
    destruct (Hcells 0 1) as (_ & _ & H1 & H2 & _ & H3 & H4 & _);
      [simpl; lia|simpl; lia|].
    repeat (split; [assumption|]). assumption.
Defined.


Lemma cosineSimilarityKernel_symmetric_witness :
  exists matrix,
    computeKernelMatrix scenario = Ok matrix
    /\ cosineSimilarityKernel (nth 2 scenario []) (nth 0 scenario [])
       = Ok (cell matrix 2 0).
Proof.
  destruct (proj2 cosineSimilarityKernel_symmetric scenario 2 scenario_uniform)
    as [matrix [E Hcells]].
  exists matrix. split; [exact E|]. apply Hcells; simpl; lia.
Defined.

Lemma euclideanDistance_symmetric_witness :
  euclideanDistance [1; 0]%float [0.99; 0.01]%float = euclideanDistance [0.99; 0.01]%float [1; 0]%float.
Proof. apply euclideanDistance_symmetric. reflexivity. Defined.

Lemma euclideanDistance_self_witness :
  euclideanDistance [0.99; 0.01]%float [0.99; 0.01]%float = 0%float.
Proof.
  apply euclideanDistance_self.
  constructor; [reflexivity|]. constructor; [reflexivity|]. constructor.
Defined.

Lemma euclideanDistance_length_mismatch_witness :
  euclideanDistance [1]%float [1; 5]%float
  = euclideanDistance [1]%float (firstn 1 [1; 5]%float)
  /\ euclideanDistance [1; 2]%float [1]%float = nan.
Proof.
  split.
  - apply (proj1 euclideanDistance_length_mismatch float float_number
             [1]%float [1; 5]%float). simpl. lia.
  - apply (proj2 euclideanDistance_length_mismatch [1; 2]%float [1]%float). simpl. lia.
Defined.

Lemma kMeans_edge_cases_witness :
  (exists msg, kMeans 0 (fun _ => O) twoPoints 0 1 = Some (Throw msg))
  /\ kMeans 0 (fun _ => O) twoPoints 0 0 = Some (Ok [-1; -1]%Z)
  /\ kMeans 2 cycle4 scenario 2 0 = Some (Ok [-1; -1; -1; -1]%Z).
Proof.
  split; [|split].
  - apply (proj1 (kMeans_edge_cases float float_number 0 (fun _ => O)
                    twoPoints 0 1 ltac:(discriminate))); lia.
  - apply (proj1 (proj2 (kMeans_edge_cases float float_number 0 (fun _ => O)
                           twoPoints 0 0 ltac:(discriminate)))); lia.
  - apply (proj2 (proj2 (kMeans_edge_cases float float_number 2 cycle4
                           scenario 2 0 ltac:(discriminate))) 2%nat).
    + simpl. lia.
    + lia.
    + intros t. apply Nat.mod_upper_bound. simpl. lia.
    + vm_compute. discriminate.
    + lia.
Defined.

Lemma calculateClusteringMetrics_returns_witness :
  exists metrics,
    calculateClusteringMetrics scenario [0; 0; 1; 1]%Z = Ok metrics.
Proof.
  apply (proj1 calculateClusteringMetrics_returns float float_number).
  simpl. lia.
Defined.

Lemma calculateClusteringMetrics_all_noise_witness :
  calculateClusteringMetrics scenario [-1; -1; -1; -1]%Z
  = Ok (mkMetrics 0 0 0)%float.
Proof.
  apply (calculateClusteringMetrics_all_noise float float_number).
  - reflexivity.
  - intros l [<-|[<-|[<-|[<-|[]]]]]; reflexivity.
Defined.

Lemma calculateClusteringMetrics_singletons_witness :
  exists metrics,
    calculateClusteringMetrics scenario [0; 1; 2; 3]%Z = Ok metrics
    /\ silhouetteScore metrics = 0%float
    /\ calinskiHarabaszIndex metrics = 0%float.
Proof.
  apply (proj1 calculateClusteringMetrics_singletons float float_number).
  - reflexivity.
  - repeat constructor; simpl; intuition discriminate.
Defined.

Lemma dbscan_noise_points_witness :
  exists labels,
    dbscan scenario 0.1%float 2%float = Some labels
    /\ length labels = 4%nat
    /\ forall x, (x < 4)%nat ->
         nth x labels 0%Z = (-1)%Z
         <-> corePoint scenario 0.1%float 2%float x = false
             /\ ~ nearCore scenario 0.1%float 2%float x.
Proof.
  apply (dbscan_noise_points scenario 0.1%float 2%float).
  - reflexivity.
  - simpl. lia.
Defined.

Lemma getNeighbors_symmetric_witness :
  In 1%nat (getNeighbors scenario 0.1%float 0) <-> In 0%nat (getNeighbors scenario 0.1%float 1).
Proof.
  apply (getNeighbors_symmetric scenario 0.1%float 2 scenario_uniform);
    simpl; lia.
Defined.

Lemma findBMU_nearest_witness :
  findBMU lineSOM (Some [1.2]%float) = Ok (0, 1)
  /\ exists bmu,
       findBMU lineSOM (Some [1.2]%float) = Ok bmu
       /\ ((0 < 1)%nat -> (0 < 3)%nat -> (fst bmu < 1)%nat /\ (snd bmu < 3)%nat)
       /\ forall x y, (x < 1)%nat -> (y < 3)%nat ->
            PrimFloat.ltb
              (euclideanDistance [1.2]%float (prototype lineSOM (x, y)))
              (euclideanDistance [1.2]%float (prototype lineSOM bmu)) = false.
Proof.
  split; [vm_compute; reflexivity|].
  apply (findBMU_nearest lineSOM [1.2]%float). exact lineSOM_shape.
Defined.

Lemma train_keeps_grid_witness :
  exists som',
    train (fun x => x) (fun x => x) (fun x _ => x * x)%float lineSOM twoPoints
      3 0.5%float (fun _ => O) = Ok som'
    /\ width som' = 1%nat /\ height som' = 3%nat /\ inputDim som' = 1%nat
    /\ fullGrid 1 3 1 (weights som').
Proof.
  apply (train_keeps_grid float float_number (fun x => x) (fun x => x)
           (fun x _ => x * x)%float lineSOM twoPoints 3 0.5%float (fun _ => O)).
  - exact lineSOM_full.
  - intros t _. simpl. lia.
Defined.

Lemma landscape_pipeline_witness :
  exists som uMatrix,
    train (fun x => x) (fun x => x) (fun x _ => x * x)%float
      (newSOM (fun _ => 0.25%float) 2 2 2) scenario 3 0.5%float (fun _ => O) = Ok som
    /\ getUMatrix som = Ok uMatrix
    /\ rect 2 2 uMatrix
    /\ forall embedding : list float,
         exists bmu,
           findBMU som (Some embedding) = Ok bmu
           /\ ((0 < 2)%nat -> (fst bmu < 2)%nat /\ (snd bmu < 2)%nat).
Proof.
  apply (landscape_pipeline float float_number (fun x => x) (fun x => x)
           (fun x _ => x * x)%float (fun _ => 0.25%float) (fun _ => O) 2 2 scenario 3 0.5%float).
  intros t _. simpl. lia.
Defined.

Lemma analysis_ordering_witness :
  exists rawMatrix indices sorted,
    computeKernelMatrix scenario = Ok rawMatrix
    /\ analysis 4 scenario = Some (Ok (Some (indices, sorted)))
    /\ NoDup indices
    /\ (forall z, In z indices <-> (0 <= z < 4)%Z)
    /\ hd 1%Z indices = 0%Z
    /\ forall a b, (a < 4)%nat -> (b < 4)%nat ->
         cell sorted a b
         = cell rawMatrix (Z.to_nat (nth a indices 0%Z))
             (Z.to_nat (nth b indices 0%Z))
         /\ cell sorted a b = cell sorted b a
         /\ cell sorted a a = 1%float.
Proof.
  apply (analysis_ordering float float_number scenario 2).
  - simpl. lia.
  - exact scenario_uniform.
Defined.

Lemma analysis_greedy_witness :
  exists rawMatrix indices sorted,
    computeKernelMatrix scenario = Ok rawMatrix
    /\ analysis 4 scenario = Some (Ok (Some (indices, sorted)))
    /\ forall k, (S k < 4)%nat -> greedyChoice rawMatrix 4 indices k.
Proof.
  apply (analysis_greedy scenario 2).
  - simpl. lia.
  - exact scenario_uniform.
Defined.

Lemma calculateStats_bounds_witness :
  (In (min (calculateStats (fun x _ => x * x) [0.1; 0.3; 0.2])) [0.1; 0.3; 0.2]
   /\ In (max (calculateStats (fun x _ => x * x) [0.1; 0.3; 0.2]))
        [0.1; 0.3; 0.2]
   /\ forall v, In v [0.1; 0.3; 0.2] ->
        PrimFloat.leb (min (calculateStats (fun x _ => x * x) [0.1; 0.3; 0.2]))
          v = true
        /\ PrimFloat.leb v
             (max (calculateStats (fun x _ => x * x) [0.1; 0.3; 0.2])) = true)%float
  /\ PrimFloat.ltb
       (variance (calculateStats (fun x _ => x * x) [0.1; 0.3; 0.2]))%float
       PrimFloat.zero = false.
Proof.
  split.
  - apply (proj1 (proj2 calculateStats_bounds)).
    + discriminate.
    + intros v [<-|[<-|[<-|[]]]]; reflexivity.
  - apply (proj2 (proj2 calculateStats_bounds)).
    + discriminate.
    + intros x. apply float_square_clear.
Defined.

Lemma calculateClusteringMetrics_never_negative_witness :
  exists metrics : ClusteringMetrics (num := float),
    calculateClusteringMetrics scenario [0; 0; 1; 1]%Z = Ok metrics
    /\ (PrimFloat.is_nan (daviesBouldinIndex metrics) = true
        \/ PrimFloat.leb PrimFloat.zero (daviesBouldinIndex metrics) = true)
    /\ PrimFloat.ltb (daviesBouldinIndex metrics) PrimFloat.zero = false
    /\ (PrimFloat.is_nan (calinskiHarabaszIndex metrics) = true
        \/ PrimFloat.leb PrimFloat.zero (calinskiHarabaszIndex metrics) = true)
    /\ PrimFloat.ltb (calinskiHarabaszIndex metrics) PrimFloat.zero = false.
Proof.
  apply (calculateClusteringMetrics_never_negative scenario [0; 0; 1; 1]%Z).
  - simpl. lia.
  - simpl. lia.
Defined.

End FurtherEvaluations.

